(** * QuantNet-Solver: game trees, strategies, expected values and the
      damped Newton solver, embedded in Rocq.

    Conventions of the embedding.
    - A C++ [double] is idealised as a real number ([R]); rounding, overflow
      and NaN are outside the model, with one exception: the exponential
      underflows to zero as it does on doubles ([std_exp]).  An equality
      between computed reals therefore holds in the code up to rounding.  A
      statement that rounding could overturn (an iteration count, the sign
      of a difference) keeps, by its hypotheses and tolerances, to the range
      in which it holds on doubles as well.  [int] is [Z], [std::string] is
      [string], [std::vector] and [Eigen::VectorXd] are lists.
    - An [Eigen::MatrixXd] is the list of its columns.
    - A C++ exception is the [Err] case of [result].
    - Recursive tree builders take a fuel argument and return [None] when it
      runs out; the constructed trees are obtained with enough fuel. *)

From Stdlib Require Import Reals Lra Lia List ZArith String Ascii ClassicalEpsilon.
From Stdlib Require OrderedTypeEx.
From stdpp Require Import gmap strings list pretty sorting.

Open Scope Z_scope.

(** ** Errors (std::runtime_error) *)

Inductive error : Type :=
| RuntimeError (msg : string).

Inductive result (A : Type) : Type :=
| Ok (a : A)
| Err (e : error).
Arguments Ok {A} a.
Arguments Err {A} e.

#[export] Instance result_ret : MRet result := fun A a => Ok a.
#[export] Instance result_bind : MBind result := fun A B f m =>
  match m with
  | Ok a => f a
  | Err e => Err e
  end.

(** A range-for loop whose body may fail: the loop state is threaded through
    the monad. *)
Fixpoint foldM {M : Type -> Type} `{!MBind M, !MRet M} {A B : Type}
    (f : B -> A -> M B) (b : B) (l : list A) : M B :=
  match l with
  | [] => mret b
  | x :: l' => b' ← f b x; foldM f b' l'
  end.

(** ** GameTypes.hpp *)

Definition Card := Z.
Definition PlayerId := Z.
Bind Scope Z_scope with Card PlayerId.
Definition PLAYER_0 : PlayerId := 0.
Definition PLAYER_1 : PlayerId := 1.
Definition CHANCE : PlayerId := -1.

Inductive Action : Type := Check | Bet | Call | Fold | Raise.

Definition Action_eqb (a b : Action) : bool :=
  match a, b with
  | Check, Check | Bet, Bet | Call, Call | Fold, Fold | Raise, Raise => true
  | _, _ => false
  end.

Definition action_to_char (a : Action) : ascii :=
  match a with
  | Check => "c"
  | Bet => "b"
  | Call => "k"
  | Fold => "f"
  | Raise => "r"
  end%char.

Inductive NodeType : Type := Chance | Player | Terminal.

Definition InfoSetId := string.

Record InfoSet : Type := mkInfoSet {
  is_id : InfoSetId;
  is_player : PlayerId;
  is_legal_actions : list Action
}.

(** ** GameTree.hpp *)

Inductive GameNode : Type := mkGameNode {
  type : NodeType;
  player : PlayerId;
  info_set_id : InfoSetId;
  legal_actions : list Action;
  children : list ChildEdge;
  payoff : R;
  pot : Z;
  history : string;
  p0_card : Card;
  p1_card : Card;
  public_card : Card
}
with ChildEdge : Type := mkChildEdge {
  action : Action;
  card : Card;
  probability : R;
  child : GameNode
}.

(** A freshly made node, [std::make_unique<GameNode>()], carries the default
    member initialisers. *)
Definition new_GameNode : GameNode :=
  mkGameNode Terminal PLAYER_0 "" [] [] 0%R 0 "" (-1) (-1) (-1).

Definition set_type (v : NodeType) (n : GameNode) : GameNode :=
  mkGameNode v (player n) (info_set_id n) (legal_actions n) (children n)
    (payoff n) (pot n) (history n) (p0_card n) (p1_card n) (public_card n).
Definition set_player (v : PlayerId) (n : GameNode) : GameNode :=
  mkGameNode (type n) v (info_set_id n) (legal_actions n) (children n)
    (payoff n) (pot n) (history n) (p0_card n) (p1_card n) (public_card n).
Definition set_info_set_id (v : InfoSetId) (n : GameNode) : GameNode :=
  mkGameNode (type n) (player n) v (legal_actions n) (children n)
    (payoff n) (pot n) (history n) (p0_card n) (p1_card n) (public_card n).
Definition set_legal_actions (v : list Action) (n : GameNode) : GameNode :=
  mkGameNode (type n) (player n) (info_set_id n) v (children n)
    (payoff n) (pot n) (history n) (p0_card n) (p1_card n) (public_card n).
Definition set_children (v : list ChildEdge) (n : GameNode) : GameNode :=
  mkGameNode (type n) (player n) (info_set_id n) (legal_actions n) v
    (payoff n) (pot n) (history n) (p0_card n) (p1_card n) (public_card n).
Definition set_payoff (v : R) (n : GameNode) : GameNode :=
  mkGameNode (type n) (player n) (info_set_id n) (legal_actions n) (children n)
    v (pot n) (history n) (p0_card n) (p1_card n) (public_card n).
Definition set_pot (v : Z) (n : GameNode) : GameNode :=
  mkGameNode (type n) (player n) (info_set_id n) (legal_actions n) (children n)
    (payoff n) v (history n) (p0_card n) (p1_card n) (public_card n).
Definition set_history (v : string) (n : GameNode) : GameNode :=
  mkGameNode (type n) (player n) (info_set_id n) (legal_actions n) (children n)
    (payoff n) (pot n) v (p0_card n) (p1_card n) (public_card n).
Definition set_cards (c0 c1 pub : Card) (n : GameNode) : GameNode :=
  mkGameNode (type n) (player n) (info_set_id n) (legal_actions n) (children n)
    (payoff n) (pot n) (history n) c0 c1 pub.

(** [node->children.push_back(edge)] *)
Definition push_child (e : ChildEdge) (n : GameNode) : GameNode :=
  set_children (children n ++ [e]) n.

(** [GameNode::get_child]: first edge carrying the action. *)
Definition get_child (n : GameNode) (a : Action) : option GameNode :=
  child <$> List.find (fun e => Action_eqb (action e) a) (children n).

(** [GameNode::get_chance_child]: first edge carrying the card. *)
Definition get_chance_child (n : GameNode) (c : Card) : option GameNode :=
  child <$> List.find (fun e => card e =? c) (children n).

(** [GameNode::is_legal] *)
Definition is_legal (n : GameNode) (a : Action) : bool :=
  existsb (fun l => Action_eqb l a) (legal_actions n).

(** [traverse_tree]: pre-order walk; the visitor's captured state is passed
    explicitly. *)
Fixpoint traverse_tree {S : Type} (node : GameNode)
    (visitor : S -> GameNode -> Z -> S) (depth : Z) (s : S) : S :=
  fold_left (fun s' e => traverse_tree (child e) visitor (depth + 1) s')
            (children node) (visitor s node depth).

(** The nodes in the order [traverse_tree] visits them. *)
Definition nodes (root : GameNode) : list GameNode :=
  traverse_tree root (fun acc n _ => acc ++ [n]) 0 [].

Definition terminals (root : GameNode) : list GameNode :=
  List.filter (fun n => match type n with Terminal => true | _ => false end)
              (nodes root).

Definition player_nodes (root : GameNode) : list GameNode :=
  List.filter (fun n => match type n with Player => true | _ => false end)
              (nodes root).

(** ** [std::map<InfoSetId, InfoSet>] as used by [get_info_sets]: iteration
    is in ascending key order, so the map is kept as a key-sorted
    association list. *)

Definition smap (V : Type) := list (string * V).

Fixpoint smap_find {V : Type} (k : string) (m : smap V) : option V :=
  match m with
  | [] => None
  | (k', v) :: m' => if String.eqb k k' then Some v else smap_find k m'
  end.

(** [m[k] = v] *)
Fixpoint smap_assign {V : Type} (k : string) (v : V) (m : smap V) : smap V :=
  match m with
  | [] => [(k, v)]
  | (k', v') :: m' =>
      match String.compare k k' with
      | Lt => (k, v) :: (k', v') :: m'
      | Eq => (k, v) :: m'
      | Gt => (k', v') :: smap_assign k v m'
      end
  end.

(** The visitor of [get_info_sets] (identical in Kuhn and Leduc). *)
Definition collect_info_set (info_set_map : smap InfoSet) (node : GameNode)
    (depth : Z) : smap InfoSet :=
  match type node with
  | Player =>
      match smap_find (info_set_id node) info_set_map with
      | None =>
          smap_assign (info_set_id node)
            (mkInfoSet (info_set_id node) (player node) (legal_actions node))
            info_set_map
      | Some _ => info_set_map
      end
  | _ => info_set_map
  end.

Definition get_info_sets (root : GameNode) : list InfoSet :=
  let info_set_map := traverse_tree root collect_info_set 0 [] in
  fold_left (fun result kv => result ++ [snd kv]) info_set_map [].

(** [compute_tree_stats] *)
Record TreeStats : Type := mkTreeStats {
  ts_total_nodes : Z;
  ts_chance_nodes : Z;
  ts_player_nodes : Z;
  ts_terminal_nodes : Z;
  ts_max_depth : Z
}.

(** The visitor of [compute_tree_stats]. *)
Definition count_node (stats : TreeStats) (node : GameNode) (depth : Z)
    : TreeStats :=
  let total := ts_total_nodes stats + 1 in
  let deepest := Z.max (ts_max_depth stats) depth in
  match type node with
  | Chance =>
      mkTreeStats total (ts_chance_nodes stats + 1) (ts_player_nodes stats)
        (ts_terminal_nodes stats) deepest
  | Player =>
      mkTreeStats total (ts_chance_nodes stats) (ts_player_nodes stats + 1)
        (ts_terminal_nodes stats) deepest
  | Terminal =>
      mkTreeStats total (ts_chance_nodes stats) (ts_player_nodes stats)
        (ts_terminal_nodes stats + 1) deepest
  end.

Definition compute_tree_stats (root : GameNode) : TreeStats :=
  traverse_tree root count_node 0 (mkTreeStats 0 0 0 0 0).

(** ** KuhnPoker.cpp *)

Module KuhnPoker.

Definition compare_cards (c1 c2 : Card) : Z :=
  if c1 >? c2 then 1 else if c1 <? c2 then -1 else 0.

Definition card_name (c : Card) : string :=
  match c with
  | 0 => "J"
  | 1 => "Q"
  | 2 => "K"
  | _ => "?"
  end.

Definition make_info_set_id (p : PlayerId) (c : Card) (h : string) : InfoSetId :=
  "P" +:+ pretty p +:+ ":" +:+ card_name c +:+ ":" +:+ h.

Definition make_showdown (node : GameNode) (p0_card p1_card : Card) (pot : Z)
    : GameNode :=
  let node := set_pot pot (set_player (-1) (set_type Terminal node)) in
  let cmp := compare_cards p0_card p1_card in
  if cmp >? 0 then set_payoff (IZR pot / 2)%R node
  else if cmp <? 0 then set_payoff (- IZR pot / 2)%R node
  else set_payoff 0%R node.

Definition make_fold_terminal (node : GameNode) (folder : PlayerId) (pot : Z)
    : GameNode :=
  let node := set_pot pot (set_player (-1) (set_type Terminal node)) in
  if folder =? PLAYER_0 then set_payoff (-1)%R node
  else set_payoff 1%R node.

(** A new player node below an action. *)
Definition player_child (child : GameNode) (p : PlayerId) (pot : Z)
    (legal : list Action) (c : Card) (h : string) : GameNode :=
  set_info_set_id (make_info_set_id p c h)
    (set_legal_actions legal (set_pot pot (set_player p (set_type Player child)))).

(** [build_subtree] adds the children of an existing player node. *)
Fixpoint build_subtree (fuel : nat) (node : GameNode) (to_act : PlayerId)
    (history : string) (p0_card p1_card : Card) (pot p0_bet p1_bet : Z)
    : option GameNode :=
  match fuel with
  | O => None
  | S fuel' =>
    foldM (fun node action =>
      let child := set_cards p0_card p1_card (public_card new_GameNode) new_GameNode in
      let new_history := history +:+ String (action_to_char action) "" in
      let child := set_history new_history child in
      child' ←
        (if to_act =? PLAYER_0 then
           match action with
           | Check =>
               build_subtree fuel'
                 (player_child child PLAYER_1 pot [Check; Bet] p1_card new_history)
                 PLAYER_1 new_history p0_card p1_card pot p0_bet p1_bet
           | Bet =>
               build_subtree fuel'
                 (player_child child PLAYER_1 (pot + 1) [Call; Fold] p1_card new_history)
                 PLAYER_1 new_history p0_card p1_card (pot + 1) (p0_bet + 1) p1_bet
           | Call =>
               Some (make_showdown (set_pot (pot + 1) child) p0_card p1_card (pot + 1))
           | Fold =>
               Some (make_fold_terminal child PLAYER_0 pot)
           | Raise => Some child
           end
         else
           match action with
           | Check =>
               Some (make_showdown (set_pot pot child) p0_card p1_card pot)
           | Bet =>
               build_subtree fuel'
                 (player_child child PLAYER_0 (pot + 1) [Call; Fold] p0_card new_history)
                 PLAYER_0 new_history p0_card p1_card (pot + 1) p0_bet (p1_bet + 1)
           | Call =>
               Some (make_showdown (set_pot (pot + 1) child) p0_card p1_card (pot + 1))
           | Fold =>
               Some (make_fold_terminal child PLAYER_1 pot)
           | Raise => Some child
           end);
      Some (push_child (mkChildEdge action (-1) 1%R child') node))
    node (legal_actions node)
  end.

(** The six ordered deals of two distinct cards, in loop order. *)
Definition deals : list (Card * Card) :=
  List.filter (fun d => negb (fst d =? snd d))
    (p0 ← [0; 1; 2]; p1 ← [0; 1; 2]; [(p0, p1)]).

Definition build_tree (fuel : nat) : option GameNode :=
  let root :=
    set_history "" (set_pot 2 (set_player CHANCE (set_type Chance new_GameNode))) in
  let deal_prob := (1 / 6)%R in
  foldM (fun root d =>
    let '(p0_card, p1_card) := d in
    let child :=
      set_info_set_id (make_info_set_id PLAYER_0 p0_card "")
        (set_legal_actions [Check; Bet]
          (set_history ""
            (set_pot 2
              (set_cards p0_card p1_card (-1)
                (set_player PLAYER_0 (set_type Player new_GameNode)))))) in
    child' ← build_subtree fuel child PLAYER_0 "" p0_card p1_card 2 0 0;
    Some (push_child (mkChildEdge Check (p0_card * 10 + p1_card) deal_prob child') root))
  root deals.

End KuhnPoker.

(** ** LeducPoker.hpp / LeducPoker.cpp *)

Module LeducPoker.

Definition ANTE : Z := 1.
Definition SMALL_BET : Z := 2.
Definition BIG_BET : Z := 4.
Definition MAX_RAISES : Z := 2.
Definition NUM_CARDS : Z := 6.

(** C++ integer division and remainder truncate towards zero. *)
Definition card_rank (c : Card) : Z := Z.quot c 2.
Definition card_suit (c : Card) : Z := Z.rem c 2.

Definition card_name (c : Card) : string :=
  let r := match card_rank c with
           | 0 => "J"
           | 1 => "Q"
           | 2 => "K"
           | _ => "?"
           end in
  r +:+ (if card_suit c =? 0 then "s" else "h").

Definition compare_hands (p0_card p1_card public_card : Card) : Z :=
  let p0_rank := card_rank p0_card in
  let p1_rank := card_rank p1_card in
  let pub_rank := card_rank public_card in
  let p0_pair := p0_rank =? pub_rank in
  let p1_pair := p1_rank =? pub_rank in
  if p0_pair && negb p1_pair then 1
  else if negb p0_pair && p1_pair then -1
  else if p0_rank >? p1_rank then 1
  else if p0_rank <? p1_rank then -1
  else 0.

Definition make_info_set_id (p : PlayerId) (private_card public_card : Card)
    (h : string) (round : Z) : InfoSetId :=
  let pub_str := if public_card <? 0 then "-" else card_name public_card in
  let priv_str := match card_rank private_card with
                  | 0 => "J"
                  | 1 => "Q"
                  | 2 => "K"
                  | _ => ""
                  end in
  let pub_str := if public_card >=? 0 then
                   match card_rank public_card with
                   | 0 => "J"
                   | 1 => "Q"
                   | 2 => "K"
                   | _ => pub_str
                   end
                 else pub_str in
  "P" +:+ pretty p +:+ ":" +:+ priv_str +:+ ":" +:+ pub_str +:+ ":R" +:+
  pretty round +:+ ":" +:+ h.

Definition make_showdown (node : GameNode) (p0_card p1_card public_card : Card)
    (pot : Z) : GameNode :=
  let node := set_pot pot (set_player (-1) (set_type Terminal node)) in
  let cmp := compare_hands p0_card p1_card public_card in
  if cmp >? 0 then set_payoff (IZR pot / 2)%R node
  else if cmp <? 0 then set_payoff (- IZR pot / 2)%R node
  else set_payoff 0%R node.

Definition make_fold_terminal (node : GameNode) (folder : PlayerId) (pot : Z)
    : GameNode :=
  let node := set_pot pot (set_player (-1) (set_type Terminal node)) in
  if folder =? PLAYER_0 then set_payoff (- IZR pot / 2)%R node
  else set_payoff (IZR pot / 2)%R node.

Definition player_child (child : GameNode) (p : PlayerId) (pot : Z)
    (legal : list Action) (priv pub : Card) (h : string) (round : Z) : GameNode :=
  set_info_set_id (make_info_set_id p priv pub h round)
    (set_legal_actions legal (set_pot pot (set_player p (set_type Player child)))).

(** The card loop [for (Card c = 0; c < NUM_CARDS; ++c)]. *)
Definition all_cards : list Card := [0; 1; 2; 3; 4; 5].

Fixpoint build_betting_round (fuel : nat) (node : GameNode)
    (first_to_act : PlayerId) (history : string)
    (p0_card p1_card public_card : Card)
    (pot to_call raises_left round bet_size : Z) : option GameNode :=
  match fuel with
  | O => None
  | S fuel' =>
    foldM (fun node action =>
      let child := set_cards p0_card p1_card public_card new_GameNode in
      let new_history := history +:+ String (action_to_char action) "" in
      let child := set_history new_history child in
      let current := player node in
      let opponent := if current =? PLAYER_0 then PLAYER_1 else PLAYER_0 in
      let opp_card := if opponent =? PLAYER_0 then p0_card else p1_card in
      child' ←
        match action with
        | Fold => Some (make_fold_terminal child current pot)
        | Check =>
            if (to_call =? 0) && String.eqb history "" then
              build_betting_round fuel'
                (player_child child opponent pot [Check; Bet] opp_card public_card
                   new_history round)
                first_to_act new_history p0_card p1_card public_card
                pot 0 raises_left round bet_size
            else if to_call =? 0 then
              if round =? 1 then
                continue_after_round1 fuel' child p0_card p1_card pot new_history
              else
                Some (make_showdown child p0_card p1_card public_card pot)
            else Some child
        | Bet =>
            let new_pot := pot + bet_size in
            build_betting_round fuel'
              (player_child child opponent new_pot
                 (if raises_left >? 0 then [Fold; Call; Raise] else [Fold; Call])
                 opp_card public_card new_history round)
              first_to_act new_history p0_card p1_card public_card
              new_pot bet_size raises_left round bet_size
        | Call =>
            let new_pot := pot + to_call in
            let child := set_pot new_pot child in
            if round =? 1 then
              continue_after_round1 fuel' child p0_card p1_card new_pot new_history
            else
              Some (make_showdown child p0_card p1_card public_card new_pot)
        | Raise =>
            let new_pot := pot + to_call + bet_size in
            let new_raises := raises_left - 1 in
            build_betting_round fuel'
              (player_child child opponent new_pot
                 (if new_raises >? 0 then [Fold; Call; Raise] else [Fold; Call])
                 opp_card public_card new_history round)
              first_to_act new_history p0_card p1_card public_card
              new_pot bet_size new_raises round bet_size
        end;
      Some (push_child (mkChildEdge action (-1) 1%R child') node))
    node (legal_actions node)
  end
with continue_after_round1 (fuel : nat) (node : GameNode)
    (p0_card p1_card : Card) (pot : Z) (history : string) : option GameNode :=
  match fuel with
  | O => None
  | S fuel' =>
    let node := set_pot pot (set_player CHANCE (set_type Chance node)) in
    let cards_remaining :=
      fold_left (fun n c =>
                   if negb (c =? p0_card) && negb (c =? p1_card) then n + 1 else n)
                all_cards 0 in
    let deal_prob := (1 / IZR cards_remaining)%R in
    foldM (fun node pub =>
      if (pub =? p0_card) || (pub =? p1_card) then Some node
      else
        let h := history +:+ "|" in
        let child :=
          set_info_set_id (make_info_set_id PLAYER_0 p0_card pub h 2)
            (set_legal_actions [Check; Bet]
              (set_history h
                (set_pot pot
                  (set_cards p0_card p1_card pub
                    (set_player PLAYER_0 (set_type Player new_GameNode)))))) in
        child' ← build_betting_round fuel' child PLAYER_0 h p0_card p1_card pub
                   pot 0 MAX_RAISES 2 BIG_BET;
        Some (push_child (mkChildEdge Check pub deal_prob child') node))
    node all_cards
  end.

Definition build_tree (fuel : nat) : option GameNode :=
  let root :=
    set_history ""
      (set_pot (2 * ANTE) (set_player CHANCE (set_type Chance new_GameNode))) in
  let deal_prob := (1 / 30)%R in
  foldM (fun root d =>
    let '(p0_card, p1_card) := d in
    if p0_card =? p1_card then Some root
    else
      let child :=
        set_info_set_id (make_info_set_id PLAYER_0 p0_card (-1) "" 1)
          (set_legal_actions [Check; Bet]
            (set_history ""
              (set_pot (2 * ANTE)
                (set_cards p0_card p1_card (-1)
                  (set_player PLAYER_0 (set_type Player new_GameNode)))))) in
      child' ← build_betting_round fuel child PLAYER_0 "" p0_card p1_card (-1)
                 (2 * ANTE) 0 MAX_RAISES 1 SMALL_BET;
      Some (push_child
              (mkChildEdge Check (p0_card * 10 + p1_card) deal_prob child') root))
  root (p0 ← all_cards; p1 ← all_cards; [(p0, p1)]).

End LeducPoker.

(** ** GameTypes.hpp: InfoSetIndex *)

#[export] Instance Action_eq_dec : EqDecision Action.
Proof. solve_decision. Defined.

Definition Action_to_nat (a : Action) : nat :=
  match a with Check => 0 | Bet => 1 | Call => 2 | Fold => 3 | Raise => 4 end%nat.

Definition Action_of_nat (n : nat) : Action :=
  match n with
  | 0 => Check | 1 => Bet | 2 => Call | 3 => Fold | _ => Raise
  end%nat.

#[export] Instance Action_countable : Countable Action.
Proof.
  refine (inj_countable' Action_to_nat Action_of_nat _).
  intros []; reflexivity.
Defined.

Record InfoSetIndex : Type := mkInfoSetIndex {
  info_sets_ : list InfoSet;
  id_to_idx_ : gmap string Z;
  flat_to_pair_ : list (Z * Z);
  pair_to_flat_ : gmap (string * Action) Z;
  total_dim_ : Z
}.

Module InfoSetIndex.

Definition empty : InfoSetIndex := mkInfoSetIndex [] ∅ [] ∅ 0.

(** One pass of the outer loop of [build] for the info set at position [i]. *)
Definition build_step (st : InfoSetIndex * Z * Z) (iset : InfoSet)
    : InfoSetIndex * Z * Z :=
  let '(idx, flat_idx, i) := st in
  let idx := mkInfoSetIndex (info_sets_ idx ++ [iset])
               (<[is_id iset := i]> (id_to_idx_ idx))
               (flat_to_pair_ idx) (pair_to_flat_ idx) (total_dim_ idx) in
  let '(idx, flat_idx, _) :=
    fold_left (fun '(idx, flat_idx, a) act =>
        (mkInfoSetIndex (info_sets_ idx) (id_to_idx_ idx)
           (flat_to_pair_ idx ++ [(i, a)])
           (insert (is_id iset, act) flat_idx (pair_to_flat_ idx))
           (total_dim_ idx),
         flat_idx + 1, a + 1))
      (is_legal_actions iset) (idx, flat_idx, 0) in
  (idx, flat_idx, i + 1).

Definition build (info_sets : list InfoSet) : InfoSetIndex :=
  let '(idx, flat_idx, _) := fold_left build_step info_sets (empty, 0, 0) in
  mkInfoSetIndex (info_sets_ idx) (id_to_idx_ idx) (flat_to_pair_ idx)
    (pair_to_flat_ idx) flat_idx.

Definition total_dim (idx : InfoSetIndex) : Z := total_dim_ idx.

Definition num_info_sets (idx : InfoSetIndex) : Z :=
  Z.of_nat (length (info_sets_ idx)).

(** [info_sets_[idx]]; [None] stands for an access outside the vector. *)
Definition info_set (idx : InfoSetIndex) (i : Z) : option InfoSet :=
  if i <? 0 then None else info_sets_ idx !! Z.to_nat i.

Definition info_set_idx (idx : InfoSetIndex) (id : InfoSetId) : Z :=
  match id_to_idx_ idx !! id with
  | Some i => i
  | None => -1
  end.

Definition pair_to_flat (idx : InfoSetIndex) (id : InfoSetId) (a : Action) : Z :=
  match pair_to_flat_ idx !! (id, a) with
  | Some i => i
  | None => -1
  end.

(** Sum of the action counts of the info sets before [is_idx]. *)
Definition info_set_start (idx : InfoSetIndex) (is_idx : Z) : Z :=
  fold_left (fun start iset => start + Z.of_nat (length (is_legal_actions iset)))
            (take (Z.to_nat is_idx) (info_sets_ idx)) 0.

(** [flat_to_pair_[flat_idx]]; [None] stands for an access outside the
    vector. *)
Definition flat_to_pair (idx : InfoSetIndex) (flat_idx : Z) : option (Z * Z) :=
  if flat_idx <? 0 then None else flat_to_pair_ idx !! Z.to_nat flat_idx.

End InfoSetIndex.

(** ** Strategy.hpp / Strategy.cpp *)

Open Scope R_scope.

(** [Eigen::VectorXd::sum] *)
Definition vsum (v : list R) : R := fold_right Rplus 0 v.

(** [maxCoeff]; Eigen requires a non-empty vector. *)
Definition maxCoeff (v : list R) : R :=
  match v with
  | [] => 0
  | x :: v' => fold_left Rmax v' x
  end.

(** Half of the smallest positive double (2^-1074): the largest value that
    rounds to zero. *)
Definition exp_underflow : R := / 2 ^ 1075.

(** [std::exp] and Eigen's coefficient-wise [exp].  The result underflows to
    zero when the exponential is too small for a double, which happens for
    arguments below about -745.13; apart from that it is the real
    exponential. *)
Definition std_exp (x : R) : R :=
  if Rle_dec (exp x) exp_underflow then 0 else exp x.

Definition stable_softmax (logits : list R) : list R :=
  let max_logit := maxCoeff logits in
  let shifted := List.map (fun l => l - max_logit) logits in
  let exp_vals := List.map std_exp shifted in
  List.map (fun e => e / vsum exp_vals) exp_vals.

Record Strategy : Type := mkStrategy {
  logits_ : gmap string (list R);
  actions_ : gmap string (list Action)
}.

(** Coefficient access [v(i)]; Eigen asserts that [i] is in range. *)
Definition coeff (v : list R) (i : Z) : result R :=
  if (i <? 0)%Z then Err (RuntimeError "index out of range")
  else match v !! Z.to_nat i with
       | Some x => Ok x
       | None => Err (RuntimeError "index out of range")
       end.

(** Coefficient assignment [v(i) = x]; Eigen asserts that [i] is in range. *)
Definition set_coeff (v : list R) (i : Z) (x : R) : result (list R) :=
  if (i <? 0)%Z then Err (RuntimeError "index out of range")
  else if (Z.to_nat i <? length v)%nat then Ok (<[Z.to_nat i := x]> v)
  else Err (RuntimeError "index out of range").

Module Strategy.

Definition empty : Strategy := mkStrategy ∅ ∅.

Definition unknown_info_set (id : InfoSetId) : error :=
  RuntimeError ("Unknown information set: " +:+ id).

Definition action_not_legal (id : InfoSetId) : error :=
  RuntimeError ("Action not legal at information set: " +:+ id).

(** The body of the loop of [from_logits] for info set number [i]. *)
Definition from_logits_step (w : list R) (index : InfoSetIndex) (s : Strategy)
    (i : Z) : result Strategy :=
  match InfoSetIndex.info_set index i with
  | None => Err (RuntimeError "index out of range")
  | Some iset =>
      let num_actions := Z.of_nat (length (is_legal_actions iset)) in
      let start := InfoSetIndex.info_set_start index i in
      is_logits ← mapM (fun a => coeff w (start + Z.of_nat a))
                       (seq 0 (Z.to_nat num_actions));
      Ok (mkStrategy (<[is_id iset := is_logits]> (logits_ s))
                     (<[is_id iset := is_legal_actions iset]> (actions_ s)))
  end.

Definition from_logits (w : list R) (index : InfoSetIndex) : result Strategy :=
  foldM (from_logits_step w index) empty
        (List.map Z.of_nat (seq 0 (Z.to_nat (InfoSetIndex.num_info_sets index)))).

Definition uniform (index : InfoSetIndex) : result Strategy :=
  from_logits (repeat 0 (Z.to_nat (InfoSetIndex.total_dim index))) index.

Definition probs (s : Strategy) (id : InfoSetId) : result (list R) :=
  match logits_ s !! id with
  | None => Err (unknown_info_set id)
  | Some l => Ok (stable_softmax l)
  end.

(** Position of the first occurrence of [a], as the search loop of [prob]. *)
Fixpoint find_action (actions : list Action) (a : Action) (i : Z) : option Z :=
  match actions with
  | [] => None
  | x :: rest => if Action_eqb x a then Some i else find_action rest a (i + 1)
  end.

Definition prob (s : Strategy) (id : InfoSetId) (a : Action) : result R :=
  match logits_ s !! id, actions_ s !! id with
  | Some l, Some actions =>
      match find_action actions a 0 with
      | Some i => coeff (stable_softmax l) i
      | None => Err (action_not_legal id)
      end
  | _, _ => Err (unknown_info_set id)
  end.

Definition logits (s : Strategy) (id : InfoSetId) : result (list R) :=
  match logits_ s !! id with
  | None => Err (unknown_info_set id)
  | Some l => Ok l
  end.

Definition set_logits (s : Strategy) (id : InfoSetId) (new_logits : list R)
    : Strategy :=
  mkStrategy (<[id := new_logits]> (logits_ s)) (actions_ s).

Definition has_info_set (s : Strategy) (id : InfoSetId) : bool :=
  bool_decide (is_Some (logits_ s !! id)).

(** The body of the loop of [to_flat_logits] for info set number [i]. *)
Definition to_flat_logits_step (s : Strategy) (index : InfoSetIndex)
    (w : list R) (i : Z) : result (list R) :=
  match InfoSetIndex.info_set index i with
  | None => Err (RuntimeError "index out of range")
  | Some iset =>
      let num_actions := Z.of_nat (length (is_legal_actions iset)) in
      let start := InfoSetIndex.info_set_start index i in
      match logits_ s !! is_id iset with
      | None =>
          foldM (fun w a => set_coeff w (start + Z.of_nat a) 0) w
                (seq 0 (Z.to_nat num_actions))
      | Some l =>
          foldM (fun w a => x ← coeff l (Z.of_nat a);
                            set_coeff w (start + Z.of_nat a) x) w
                (seq 0 (Z.to_nat num_actions))
      end
  end.

(** [Eigen::VectorXd w(index.total_dim())] allocates without initialising:
    [fresh] is whatever the new vector holds, of length [total_dim]. *)
Definition to_flat_logits (s : Strategy) (index : InfoSetIndex)
    (fresh : list R) : result (list R) :=
  foldM (to_flat_logits_step s index) fresh
        (List.map Z.of_nat (seq 0 (Z.to_nat (InfoSetIndex.num_info_sets index)))).

End Strategy.

(** ** ExpectedValue.cpp

    The trees built by the games never hold a null child, so the
    [if (!node) return 0.0] guard has no counterpart. *)

(** The degenerate distribution of an overridden info set: a zero vector in
    which the first position holding the override action is set to one. *)
Fixpoint override_probs (legal : list Action) (a : Action) : list R :=
  match legal with
  | [] => []
  | l :: rest =>
      if Action_eqb l a then 1 :: repeat 0 (length rest)
      else 0 :: override_probs rest a
  end.

Section EvLoops.
(** [rec child reach_p0 reach_p1 reach_chance] is the recursive call. *)
Variable rec : GameNode -> R -> R -> R -> result R.

Fixpoint ev_chance_loop (reach_p0 reach_p1 reach_chance : R)
    (edges : list ChildEdge) (ev : R) : result R :=
  match edges with
  | [] => Ok ev
  | edge :: rest =>
      v ← rec (child edge) reach_p0 reach_p1 (reach_chance * probability edge);
      ev_chance_loop reach_p0 reach_p1 reach_chance rest (ev + v)
  end.

Fixpoint ev_player_loop (pl : PlayerId) (action_probs : list R)
    (reach_p0 reach_p1 reach_chance : R)
    (edges : list ChildEdge) (i : Z) (ev : R) : result R :=
  match edges with
  | [] => Ok ev
  | edge :: rest =>
      action_prob ← coeff action_probs i;
      let new_reach_p0 := if (pl =? PLAYER_0)%Z then reach_p0 * action_prob
                          else reach_p0 in
      let new_reach_p1 := if (pl =? PLAYER_0)%Z then reach_p1
                          else reach_p1 * action_prob in
      v ← rec (child edge) new_reach_p0 new_reach_p1 reach_chance;
      ev_player_loop pl action_probs reach_p0 reach_p1 reach_chance
                     rest (i + 1) (ev + v)
  end.
End EvLoops.

Fixpoint ev_recursive (node : GameNode) (sigma : Strategy)
    (reach_p0 reach_p1 reach_chance : R)
    (override_opt : option (InfoSetId * Action)) {struct node} : result R :=
  match type node with
  | Terminal => Ok (reach_p0 * reach_p1 * reach_chance * payoff node)
  | Chance =>
      ev_chance_loop (fun c a b d => ev_recursive c sigma a b d override_opt)
        reach_p0 reach_p1 reach_chance (children node) 0
  | Player =>
      let is_override :=
        match override_opt with
        | Some (id, _) => String.eqb id (info_set_id node)
        | None => false
        end in
      action_probs ←
        (match override_opt with
         | Some (_, a) =>
             if is_override then Ok (override_probs (legal_actions node) a)
             else Strategy.probs sigma (info_set_id node)
         | None => Strategy.probs sigma (info_set_id node)
         end);
      ev_player_loop (fun c a b d => ev_recursive c sigma a b d override_opt)
        (player node) action_probs reach_p0 reach_p1 reach_chance
        (children node) 0%Z 0
  end.

(** A [double] that is finite or minus infinity: [br_recursive] starts its
    maximum at [-infinity]. *)
Inductive xreal : Type :=
| NegInf
| Fin (r : R).

Definition xmax (a b : xreal) : xreal :=
  match a, b with
  | NegInf, _ => b
  | _, NegInf => a
  | Fin x, Fin y => Fin (Rmax x y)
  end.

Definition xplus (a b : xreal) : xreal :=
  match a, b with
  | Fin x, Fin y => Fin (x + y)
  | _, _ => NegInf
  end.

Section BrLoops.
(** [rec child reach_opponent reach_chance] is the recursive call. *)
Variable rec : GameNode -> R -> R -> result xreal.

Fixpoint br_chance_loop (reach_opponent reach_chance : R)
    (edges : list ChildEdge) (ev : xreal) : result xreal :=
  match edges with
  | [] => Ok ev
  | edge :: rest =>
      v ← rec (child edge) reach_opponent (reach_chance * probability edge);
      br_chance_loop reach_opponent reach_chance rest (xplus ev v)
  end.

Fixpoint br_max_loop (reach_opponent reach_chance : R)
    (edges : list ChildEdge) (best_ev : xreal) : result xreal :=
  match edges with
  | [] => Ok best_ev
  | edge :: rest =>
      ev ← rec (child edge) reach_opponent reach_chance;
      br_max_loop reach_opponent reach_chance rest (xmax best_ev ev)
  end.

Fixpoint br_opponent_loop (probs : list R) (reach_opponent reach_chance : R)
    (edges : list ChildEdge) (i : Z) (ev : xreal) : result xreal :=
  match edges with
  | [] => Ok ev
  | edge :: rest =>
      p ← coeff probs i;
      v ← rec (child edge) (reach_opponent * p) reach_chance;
      br_opponent_loop probs reach_opponent reach_chance rest (i + 1) (xplus ev v)
  end.
End BrLoops.

Fixpoint br_recursive (node : GameNode) (sigma : Strategy) (br_player : PlayerId)
    (reach_opponent reach_chance : R) {struct node} : result xreal :=
  match type node with
  | Terminal =>
      let payoff := if (br_player =? PLAYER_1)%Z then - payoff node else payoff node in
      Ok (Fin (reach_opponent * reach_chance * payoff))
  | Chance =>
      br_chance_loop (fun c a b => br_recursive c sigma br_player a b)
        reach_opponent reach_chance (children node) (Fin 0)
  | Player =>
      if (player node =? br_player)%Z then
        br_max_loop (fun c a b => br_recursive c sigma br_player a b)
          reach_opponent reach_chance (children node) NegInf
      else
        probs ← Strategy.probs sigma (info_set_id node);
        br_opponent_loop (fun c a b => br_recursive c sigma br_player a b)
          probs reach_opponent reach_chance (children node) 0%Z (Fin 0)
  end.

Definition compute_ev (root : GameNode) (sigma : Strategy) : result R :=
  ev_recursive root sigma 1 1 1 None.

Definition compute_ev_with_override (root : GameNode) (sigma : Strategy)
    (override_info_set : InfoSetId) (override_action : Action) : result R :=
  ev_recursive root sigma 1 1 1 (Some (override_info_set, override_action)).

Definition expected_utility (root : GameNode) (sigma : Strategy)
    (info_set : InfoSetId) (a : Action) (acting_player : PlayerId) : result R :=
  ev ← compute_ev_with_override root sigma info_set a;
  Ok (if (acting_player =? PLAYER_1)%Z then - ev else ev).

Definition best_response_value (root : GameNode) (sigma : Strategy)
    (br_player : PlayerId) : result xreal :=
  br_recursive root sigma br_player 1 1.


(** ** Vectors and matrices (Eigen) *)

Definition vadd (a b : list R) : list R := zip_with Rplus a b.
Definition vsub (a b : list R) : list R := zip_with Rminus a b.
Definition vscale (s : R) (v : list R) : list R := List.map (Rmult s) v.
Definition vdiv (v : list R) (s : R) : list R := List.map (fun y => y / s) v.
Definition vneg (v : list R) : list R := List.map Ropp v.
Definition dot (a b : list R) : R := vsum (zip_with Rmult a b).
Definition squaredNorm (v : list R) : R := dot v v.
Definition norm (v : list R) : R := sqrt (squaredNorm v).

(** A matrix with [mrows] rows, stored as the list of its columns. *)
Record Matrix : Type := mkMatrix {
  mrows : nat;
  mcols : list (list R)
}.

(** [M * d] *)
Definition mat_vec (M : Matrix) (d : list R) : list R :=
  fold_right (fun cd acc => vadd (vscale (snd cd) (fst cd)) acc)
             (repeat 0 (mrows M)) (zip (mcols M) d).

(** [M.transpose() * r] *)
Definition mat_tvec (M : Matrix) (r : list R) : list R :=
  List.map (fun col => dot col r) (mcols M).

(** [M.transpose() * M] *)
Definition mat_tmul (M : Matrix) : Matrix :=
  mkMatrix (length (mcols M))
    (List.map (fun cj => List.map (fun ci => dot ci cj) (mcols M)) (mcols M)).

Definition unit_vec (n j : nat) : list R :=
  List.map (fun i => if Nat.eqb i j then 1 else 0) (seq 0 n).

(** [Eigen::MatrixXd::Identity(n, n)] *)
Definition Identity (n : nat) : Matrix :=
  mkMatrix n (List.map (unit_vec n) (seq 0 n)).

Definition mat_add (A B : Matrix) : Matrix :=
  mkMatrix (mrows A) (zip_with vadd (mcols A) (mcols B)).

Definition mat_scale (s : R) (A : Matrix) : Matrix :=
  mkMatrix (mrows A) (List.map (vscale s) (mcols A)).

(** [Eigen::FullPivLU] in exact arithmetic: the decomposition reports the
    matrix invertible exactly when every right-hand side has one solution,
    and [solve] returns a solution whenever there is one. *)
Definition is_solution (n : nat) (A : Matrix) (b d : list R) : Prop :=
  length d = n /\ mat_vec A d = b.

Definition isInvertible (n : nat) (A : Matrix) : Prop :=
  forall b, length b = n -> exists! d, is_solution n A b d.

Definition lu_solve (n : nat) (A : Matrix) (b : list R) : list R :=
  epsilon (inhabits []) (is_solution n A b).

(** ** FiniteDiff.hpp *)

(** The difference quotients are taken over the reals.  On doubles they
    carry a relative error of the order of ulp(x) / h, and [x + h] rounds to
    [x] once ulp(x) exceeds [h] (for h = 1e-6: entries of about 1e10 and
    more), which makes a column zero; statements about the solver that
    depend on the accuracy of the Jacobian bound the entries of [x]. *)
Definition compute_jacobian (F : list R -> list R) (x : list R) (h : R)
    (central : bool) : Matrix :=
  let n := length x in
  let f0 := F x in
  let m := length f0 in
  if central then
    mkMatrix m
      (List.map (fun j =>
         let x_plus := alter (fun v => v + h) j x in
         let x_minus := alter (fun v => v - h) j x in
         let f_plus := F x_plus in
         let f_minus := F x_minus in
         vdiv (vsub f_plus f_minus) (2 * h)) (seq 0 n))
  else
    mkMatrix m
      (List.map (fun j =>
         let x_plus := alter (fun v => v + h) j x in
         let f_plus := F x_plus in
         vdiv (vsub f_plus f0) h) (seq 0 n)).

Definition adaptive_fd_step (x_j base_h : R) : R :=
  let abs_x := Rabs x_j in
  if Rgt_dec abs_x 1 then base_h * abs_x else base_h.

Definition compute_jacobian_adaptive (F : list R -> list R) (x : list R)
    (base_h : R) : Matrix :=
  let f0 := F x in
  let m := length f0 in
  mkMatrix m
    (imap (fun j x_j =>
       let h := adaptive_fd_step x_j base_h in
       let x_plus := alter (fun v => v + h) j x in
       let x_minus := alter (fun v => v - h) j x in
       let f_plus := F x_plus in
       let f_minus := F x_minus in
       vdiv (vsub f_plus f_minus) (2 * h)) x).

(** ** LineSearch.hpp *)

Record LineSearchResult : Type := mkLineSearchResult {
  ls_alpha : R;
  ls_merit : R;
  ls_evaluations : Z;
  ls_success : bool
}.

Definition merit_function (F : list R -> list R) (x : list R) : R :=
  0.5 * squaredNorm (F x).

(** The backtracking loop of [armijo_backtrack], [iters] rounds left. *)
Fixpoint armijo_loop (F : list R -> list R) (x d : list R) (c rho phi0 dphi0 : R)
    (iters : nat) (alpha : R) (evaluations : Z) : LineSearchResult :=
  match iters with
  | O =>
      mkLineSearchResult alpha (merit_function F (vadd x (vscale alpha d)))
        (evaluations + 1) false
  | S iters' =>
      let x_new := vadd x (vscale alpha d) in
      let r_new := F x_new in
      let phi_new := 0.5 * squaredNorm r_new in
      let evaluations := (evaluations + 1)%Z in
      if Rle_dec phi_new (phi0 + c * alpha * dphi0) then
        mkLineSearchResult alpha phi_new evaluations true
      else
        armijo_loop F x d c rho phi0 dphi0 iters' (alpha * rho) evaluations
  end.

Definition armijo_backtrack (F : list R -> list R) (x d : list R) (J : Matrix)
    (c rho : R) (max_iters : Z) : LineSearchResult :=
  let r0 := F x in
  let phi0 := 0.5 * squaredNorm r0 in
  let dphi0 := dot r0 (mat_vec J d) in
  if Rge_dec dphi0 0 then mkLineSearchResult 0 phi0 1 false
  else armijo_loop F x d c rho phi0 dphi0 (Z.to_nat max_iters) 1 1.



(** ** Diagnostics.hpp *)

(** [jacobian_cond], the SVD condition number, is informational only and is
    left out of the record. *)
Record IterationStats : Type := mkIterationStats {
  stats_iteration : Z;
  stats_residual_norm : R;
  stats_step_norm : R;
  stats_alpha : R;
  stats_lambda : R;
  stats_converged : bool;
  stats_status : string
}.

Record SolverTrace : Type := mkSolverTrace {
  trace_iterations : list IterationStats;
  trace_success : bool;
  trace_total_iterations : Z;
  trace_final_residual : R;
  trace_termination_reason : string
}.

Definition new_SolverTrace : SolverTrace := mkSolverTrace [] false 0 0 "".

Definition add_iteration (t : SolverTrace) (stats : IterationStats) : SolverTrace :=
  let iterations := trace_iterations t ++ [stats] in
  mkSolverTrace iterations (trace_success t) (Z.of_nat (length iterations))
    (stats_residual_norm stats) (trace_termination_reason t).

Definition finish_trace (t : SolverTrace) (success : bool) (reason : string)
    : SolverTrace :=
  mkSolverTrace (trace_iterations t) success (trace_total_iterations t)
    (trace_final_residual t) reason.

(** ** NewtonSolver.hpp *)

Record NewtonConfig : Type := mkNewtonConfig {
  tol : R;
  max_iters : Z;
  fd_step : R;
  central_diff : bool;
  lambda_init : R;
  lambda_max : R;
  lambda_factor : R;
  armijo_c : R;
  armijo_rho : R;
  use_line_search : bool;
  verbose : bool
}.

Definition default_NewtonConfig : NewtonConfig :=
  mkNewtonConfig 1e-10 100 1e-7 true 1e-6 1e6 10 1e-4 0.5 true false.

Record NewtonResult : Type := mkNewtonResult {
  res_x : list R;
  res_trace : SolverTrace;
  res_converged : bool;
  res_iterations : Z;
  res_final_residual : R
}.

(** The regularisation retry loop: at most [tries] factorisations. *)
Fixpoint reg_loop (n : nat) (JtJ : Matrix) (Jtr : list R) (factor : R)
    (tries : nat) (lambda : R) : option (list R) * R :=
  match tries with
  | O => (None, lambda)
  | S tries' =>
      let A := mat_add JtJ (mat_scale lambda (Identity n)) in
      if excluded_middle_informative (isInvertible n A) then
        (Some (lu_solve n A (vneg Jtr)), lambda)
      else reg_loop n JtJ Jtr factor tries' (lambda * factor)
  end.

(** The main loop of [solve] with [fuel] iterations left; no callback is
    installed and [verbose] printing is not modelled. *)
Fixpoint solve_loop (cfg : NewtonConfig) (F : list R -> list R) (n : nat)
    (fuel : nat) (iter : Z) (x : list R) (trace : SolverTrace)
    (r : list R) (residual_norm lambda : R) : NewtonResult :=
  match fuel with
  | O =>
      mkNewtonResult x (finish_trace trace false "Max iterations reached")
        false (max_iters cfg) residual_norm
  | S fuel' =>
      if Rlt_dec residual_norm (tol cfg) then
        let stats := mkIterationStats iter residual_norm 0 1 lambda true "Converged" in
        mkNewtonResult x
          (finish_trace (add_iteration trace stats) true
             "Converged: residual below tolerance")
          true iter residual_norm
      else
        let J := compute_jacobian F x (fd_step cfg) (central_diff cfg) in
        let JtJ := mat_tmul J in
        let Jtr := mat_tvec J r in
        let '(d_opt, lambda_reg) :=
          reg_loop n JtJ Jtr (lambda_factor cfg) 10 lambda in
        match d_opt with
        | None =>
            let stats := mkIterationStats iter residual_norm 0 1 lambda false
                           "Failed: Jacobian singular" in
            mkNewtonResult x
              (finish_trace (add_iteration trace stats) false
                 "Failed: Jacobian singular")
              false iter residual_norm
        | Some d =>
            let step_norm := norm d in
            let alpha :=
              if use_line_search cfg then
                ls_alpha (armijo_backtrack F x d J (armijo_c cfg) (armijo_rho cfg) 20)
              else 1 in
            let x_new :=
              if use_line_search cfg then vadd x (vscale alpha d) else vadd x d in
            let r_new := F x_new in
            let new_residual_norm := norm r_new in
            let lambda_new :=
              if use_line_search cfg then
                if Rlt_dec new_residual_norm residual_norm then
                  Rmax (lambda_init cfg) (lambda_reg / lambda_factor cfg)
                else Rmin (lambda_max cfg) (lambda_reg * lambda_factor cfg)
              else lambda_reg in
            let stats := mkIterationStats iter residual_norm step_norm alpha lambda
                           false "Iteration complete" in
            solve_loop cfg F n fuel' (iter + 1) x_new (add_iteration trace stats)
                       r_new new_residual_norm lambda_new
        end
  end.

Definition solve (cfg : NewtonConfig) (F : list R -> list R) (x0 : list R)
    : result NewtonResult :=
  let n := length x0 in
  let r := F x0 in
  if negb (Nat.eqb (length r) n) then
    Err (RuntimeError
           ("Newton solver requires square system: F: R^n -> R^n. Got input dim "
            +:+ pretty (Z.of_nat n) +:+ ", output dim "
            +:+ pretty (Z.of_nat (length r))))
  else
    Ok (solve_loop cfg F n (Z.to_nat (max_iters cfg)) 0 x0 new_SolverTrace
          r (norm r) (lambda_init cfg)).

(** ** main.cpp: the beta continuation schedule *)

(** The [while (beta < target_beta)] loop, at most [fuel] rounds. *)
Fixpoint beta_loop (fuel : nat) (target_beta beta : R) (schedule : list R)
    : option (list R) :=
  match fuel with
  | O => None
  | S fuel' =>
      if Rlt_dec beta target_beta then
        beta_loop fuel' target_beta (beta * 2) (schedule ++ [beta])
      else Some schedule
  end.

Definition make_beta_schedule (fuel : nat) (target_beta : R) : option (list R) :=
  schedule ← beta_loop fuel target_beta 0.05 [0.01];
  Some (schedule ++ [target_beta]).

(** The solver configuration set up by [main] from the default arguments. *)
Definition main_NewtonConfig : NewtonConfig :=
  mkNewtonConfig 1e-8 50 1e-6 true 1e-6 1e6 10 1e-4 0.5 true false.

(** ** The constructed games *)

(** The tree held by a [KuhnPoker] object after its constructor ran. *)
Definition kuhn_tree : GameNode :=
  default new_GameNode (KuhnPoker.build_tree 4).

(** The tree held by a [LeducPoker] object after its constructor ran. *)
Definition leduc_tree : GameNode :=
  default new_GameNode (LeducPoker.build_tree 12).

#[export] Instance InfoSet_eq_dec : EqDecision InfoSet.
Proof. solve_decision. Defined.

(** [std::string::operator<] *)
Definition string_lt (a b : string) : Prop := String.compare a b = Lt.

#[export] Instance string_lt_dec a b : Decision (string_lt a b).
Proof. unfold string_lt. solve_decision. Defined.

(** What the rules ask of a Kuhn terminal node: a fold line pays minus or
    plus one, a showdown pays half the pot to the higher card. *)
Definition kuhn_terminal_payoff (t : GameNode) : Prop :=
  if String.eqb (history t) "cbf" then payoff t = -1
  else if String.eqb (history t) "bf" then payoff t = 1
  else if (p0_card t >? p1_card t)%Z then payoff t = IZR (pot t) / 2
  else payoff t = - (IZR (pot t) / 2).

Definition kuhn_info_sets : list InfoSet :=
  [ mkInfoSet "P0:J:" PLAYER_0 [Check; Bet];
    mkInfoSet "P0:J:cb" PLAYER_0 [Call; Fold];
    mkInfoSet "P0:K:" PLAYER_0 [Check; Bet];
    mkInfoSet "P0:K:cb" PLAYER_0 [Call; Fold];
    mkInfoSet "P0:Q:" PLAYER_0 [Check; Bet];
    mkInfoSet "P0:Q:cb" PLAYER_0 [Call; Fold];
    mkInfoSet "P1:J:b" PLAYER_1 [Call; Fold];
    mkInfoSet "P1:J:c" PLAYER_1 [Check; Bet];
    mkInfoSet "P1:K:b" PLAYER_1 [Call; Fold];
    mkInfoSet "P1:K:c" PLAYER_1 [Check; Bet];
    mkInfoSet "P1:Q:b" PLAYER_1 [Call; Fold];
    mkInfoSet "P1:Q:c" PLAYER_1 [Check; Bet] ].

Definition info_set_of (n : GameNode) : InfoSet :=
  mkInfoSet (info_set_id n) (player n) (legal_actions n).

(** The last character of a history string, if any. *)
Fixpoint last_char (s : string) : option ascii :=
  match s with
  | EmptyString => None
  | String c EmptyString => Some c
  | String _ rest => last_char rest
  end.

(** A player node at which no action has been taken yet in the current
    betting round: the history is empty (round 1) or ends with the round
    separator (round 2). *)
Definition is_round1_opening (n : GameNode) : bool :=
  match type n with
  | Player => String.eqb (history n) ""
  | _ => false
  end.

Definition is_round2_opening (n : GameNode) : bool :=
  match type n with
  | Player => bool_decide (last_char (history n) = Some "|"%char)
  | _ => false
  end.

(** Deal Js to player 0 and Jh to player 1, check, check, deal Qs. *)
Definition leduc_round2_opening : option GameNode :=
  n1 ← get_chance_child leduc_tree 1;
  n2 ← get_child n1 Check;
  n3 ← get_child n2 Check;
  get_chance_child n3 2.

#[export] Instance NodeType_eq_dec : EqDecision NodeType.
Proof. solve_decision. Defined.

(** What is seen at a node and below its Check edge. *)
Definition check_view (n : GameNode)
    : NodeType * PlayerId * string * InfoSetId * list Action * Z
      * option (NodeType * string) :=
  (type n, player n, history n, info_set_id n, legal_actions n, pot n,
   (fun c => (type c, history c)) <$> get_child n Check).

(** ** Properties of a beta schedule *)

(** [P] holds between every element and its successor. *)
Fixpoint adjacent (P : R -> R -> Prop) (l : list R) : Prop :=
  match l with
  | a :: (b :: _) as t => P a b /\ adjacent P t
  | _ => True
  end.

Definition strictly_increasing (l : list R) : Prop := adjacent Rlt l.

Definition at_least_doubling (l : list R) : Prop :=
  adjacent (fun a b => 2 * a <= b) l.

(** The schedule property as the specification words it. *)
Definition schedule_as_specified (target_beta : R) (s : list R) : Prop :=
  strictly_increasing s /\ head s = Some 0.01 /\ last s = Some target_beta
  /\ at_least_doubling s.

(** The loop invariant: the schedule so far is increasing and doubling, its
    last element is below the target and at most half of the next [beta]. *)
Definition schedule_inv (target beta : R) (s : list R) : Prop :=
  strictly_increasing s /\ at_least_doubling s /\ head s = Some 0.01
  /\ exists l, last s = Some l /\ l < target /\ 0 < l /\ 2 * l <= beta.

(** ** Specification helpers for the info-set index *)

Definition num_actions (iset : InfoSet) : Z :=
  Z.of_nat (length (is_legal_actions iset)).

(** Total number of actions of a list of info sets. *)
Definition sum_actions (l : list InfoSet) : Z :=
  fold_left (fun start iset => (start + Z.of_nat (length (is_legal_actions iset)))%Z)
            l 0%Z.

(** Position of the last info set of [l] carrying the id. *)
Fixpoint last_index (l : list InfoSet) (id : InfoSetId) : option nat :=
  match l with
  | [] => None
  | x :: l' =>
      match last_index l' id with
      | Some j => Some (S j)
      | None => if decide (is_id x = id) then Some 0%nat else None
      end
  end.

(** ** Well-formedness of a tree with respect to a strategy

    Every player node is played by player 0 or 1, has as many outgoing edges
    as legal actions and at least one, and the strategy holds a logit vector
    of that length for its info set. *)
Fixpoint fits (sigma : Strategy) (node : GameNode) {struct node} : bool :=
  match type node with
  | Terminal => true
  | Chance => forallb (fun e => fits sigma (child e)) (children node)
  | Player =>
      ((player node =? PLAYER_0)%Z || (player node =? PLAYER_1)%Z)
      && Nat.eqb (length (legal_actions node)) (length (children node))
      && negb (Nat.eqb (length (children node)) 0)
      && match logits_ sigma !! info_set_id node with
         | Some l => Nat.eqb (length l) (length (children node))
         | None => false
         end
      && forallb (fun e => fits sigma (child e)) (children node)
  end.

(** [a] is not a legal action at any node of the info set [id]. *)
Fixpoint not_legal_at (id : InfoSetId) (a : Action) (node : GameNode)
    {struct node} : bool :=
  match type node with
  | Player =>
      (if String.eqb id (info_set_id node) then negb (is_legal node a) else true)
      && forallb (fun e => not_legal_at id a (child e)) (children node)
  | _ => forallb (fun e => not_legal_at id a (child e)) (children node)
  end.

(** The reach of the best-responding player [p], the reach of the other
    player, and the sign that turns player 0's payoff into [p]'s. *)
Definition own_reach (p : PlayerId) (reach_p0 reach_p1 : R) : R :=
  if (p =? PLAYER_0)%Z then reach_p0 else reach_p1.
Definition opp_reach (p : PlayerId) (reach_p0 reach_p1 : R) : R :=
  if (p =? PLAYER_0)%Z then reach_p1 else reach_p0.
Definition payoff_sign (p : PlayerId) : R :=
  if (p =? PLAYER_0)%Z then 1 else -1.

(** Following the specification's words for an override action that is not
    legal: the expected value in which every node of the info set [id]
    assigns probability 0 to all of its actions. *)
Fixpoint ev_zeroed (id : InfoSetId) (node : GameNode) (sigma : Strategy)
    (reach_p0 reach_p1 reach_chance : R) {struct node} : result R :=
  match type node with
  | Terminal => Ok (reach_p0 * reach_p1 * reach_chance * payoff node)
  | Chance =>
      ev_chance_loop (fun c a b d => ev_zeroed id c sigma a b d)
        reach_p0 reach_p1 reach_chance (children node) 0
  | Player =>
      action_probs ←
        (if String.eqb id (info_set_id node)
         then Ok (repeat 0 (length (legal_actions node)))
         else Strategy.probs sigma (info_set_id node));
      ev_player_loop (fun c a b d => ev_zeroed id c sigma a b d)
        (player node) action_probs reach_p0 reach_p1 reach_chance
        (children node) 0%Z 0
  end.

(** The value [ev_recursive] assigns to every node of the info set [id]
    that a traversal can visit, whatever reach it is entered with, is zero. *)
Fixpoint info_set_contributes_zero (id : InfoSetId) (a : Action)
    (sigma : Strategy) (node : GameNode) {struct node} : Prop :=
  (type node = Player -> info_set_id node = id ->
   forall reach_p0 reach_p1 reach_chance,
     ev_recursive node sigma reach_p0 reach_p1 reach_chance (Some (id, a)) = Ok 0)
  /\ match type node with
     | Terminal => True
     | _ => fold_right
              (fun e acc => info_set_contributes_zero id a sigma (child e) /\ acc)
              True (children node)
     end.

(** The uniform strategy of the Kuhn game (all logits zero). *)
Definition kuhn_uniform : Strategy :=
  match Strategy.uniform (InfoSetIndex.build (get_info_sets kuhn_tree)) with
  | Ok s => s
  | Err _ => Strategy.empty
  end.

(** The best response of player [p] dominates the current value at node
    [c]: with the reach of [p] itself factored out, the best-response value
    is at least [p]'s expected value. *)
Definition br_dominates (sigma : Strategy) (p : PlayerId) (c : GameNode) : Prop :=
  forall reach_p0 reach_p1 reach_chance,
    0 <= own_reach p reach_p0 reach_p1 ->
    exists e v,
      ev_recursive c sigma reach_p0 reach_p1 reach_chance None = Ok e
      /\ br_recursive c sigma p (opp_reach p reach_p0 reach_p1) reach_chance
         = Ok (Fin v)
      /\ payoff_sign p * e <= own_reach p reach_p0 reach_p1 * v.

(** ** Specification helpers for the solver *)

(** The columns of the identity matrix, by recursion on the dimension. *)
Fixpoint id_cols (n : nat) : list (list R) :=
  match n with
  | O => []
  | S n' => (1 :: repeat 0 n') :: List.map (cons 0) (id_cols n')
  end.

(** The linear residual [F(x) = x - c]. *)
Definition linear_residual (c : list R) (x : list R) : list R := vsub x c.

(** A smooth residual without a real root, [F(x) = 1 + x + 1e7 x^2]
    componentwise. *)
Definition steep_residual (x : list R) : list R :=
  List.map (fun t => 1 + t + 1e7 * t * t) x.

(** The solver settings the linear-residual results rely on: central
    differences with a non-zero step, line search on, a positive initial
    regularisation that the factor does not shrink, an Armijo constant of at
    most one half and a positive tolerance. *)
Definition standard_config (cfg : NewtonConfig) : Prop :=
  central_diff cfg = true /\ use_line_search cfg = true
  /\ fd_step cfg <> 0 /\ 0 < lambda_init cfg /\ 1 <= lambda_factor cfg
  /\ 0 <= armijo_c cfg <= 1 / 2 /\ 0 < tol cfg.

(** The factor by which one regularised Newton step shrinks a linear
    residual. *)
Definition contraction (cfg : NewtonConfig) : R :=
  lambda_init cfg / (1 + lambda_init cfg).

(** The claim as the specification words it: one iteration suffices. *)
Definition converges_in_one_iteration (cfg : NewtonConfig) (c x0 : list R) : Prop :=
  exists res,
    solve cfg (linear_residual c) x0 = Ok res
    /\ res_converged res = true
    /\ res_iterations res = 1%Z
    /\ norm (linear_residual c (res_x res)) <= 1e-8.


(** [fits] as a function of the lengths of the stored logit vectors only. *)
Fixpoint fits_with (len : InfoSetId -> option nat) (node : GameNode)
    {struct node} : bool :=
  match type node with
  | Terminal => true
  | Chance => forallb (fun e => fits_with len (child e)) (children node)
  | Player =>
      ((player node =? PLAYER_0)%Z || (player node =? PLAYER_1)%Z)
      && Nat.eqb (length (legal_actions node)) (length (children node))
      && negb (Nat.eqb (length (children node)) 0)
      && match len (info_set_id node) with
         | Some l => Nat.eqb l (length (children node))
         | None => false
         end
      && forallb (fun e => fits_with len (child e)) (children node)
  end.

(** The number of logits [from_logits] stores for an id, read off the list
    of info sets the index was built from. *)
Definition index_len (info_sets : list InfoSet) (id : InfoSetId) : option nat :=
  match last_index info_sets id with
  | Some j => (fun iset => length (is_legal_actions iset)) <$> info_sets !! j
  | None => None
  end.

(** ** Specification helpers for the flat layout of the index *)

(** The (info set, action) positions in flat order, info sets numbered from
    [i]. *)
Fixpoint flat_pairs (i : Z) (l : list InfoSet) : list (Z * Z) :=
  match l with
  | [] => []
  | x :: l' =>
      List.map (fun a => (i, Z.of_nat a)) (seq 0 (length (is_legal_actions x)))
      ++ flat_pairs (i + 1) l'
  end.

(** The (id, action) keys in flat order. *)
Fixpoint flat_keys (l : list InfoSet) : list (InfoSetId * Action) :=
  match l with
  | [] => []
  | x :: l' => List.map (pair (is_id x)) (is_legal_actions x) ++ flat_keys l'
  end.

(** Position of the last occurrence of a key. *)
Fixpoint last_pos (ks : list (InfoSetId * Action)) (k : InfoSetId * Action)
    : option nat :=
  match ks with
  | [] => None
  | x :: ks' =>
      match last_pos ks' k with
      | Some j => Some (S j)
      | None => if decide (x = k) then Some 0%nat else None
      end
  end.

(** [w(start), ..., w(start + k - 1)] *)
Definition segment (w : list R) (start : Z) (k : nat) : list R :=
  take k (drop (Z.to_nat start) w).

(** ** Specification helpers for tree traversals *)

(** The nodes of a tree with their depths, in pre-order. *)
Fixpoint visits (node : GameNode) (depth : Z) {struct node}
    : list (GameNode * Z) :=
  (node, depth)
  :: flat_map (fun e => visits (child e) (depth + 1)) (children node).

(** The first node of a list that carries the id. *)
Definition first_with_id (id : InfoSetId) (l : list GameNode) : option GameNode :=
  List.find (fun n => String.eqb (info_set_id n) id) l.

(** ** Specification helper for the solver trace *)

(** The trace numbers its entries consecutively from zero. *)
Definition numbered (its : list IterationStats) : Prop :=
  forall k s, its !! k = Some s -> stats_iteration s = Z.of_nat k.

(** ** Specification helpers for finite differences *)

(** The affine residual [F(x) = A x + b]. *)
Definition affine (A : Matrix) (b : list R) (x : list R) : list R :=
  vadd (mat_vec A x) b.

(** [A] has [n] columns, each with [mrows A] entries. *)
Definition well_shaped (A : Matrix) (n : nat) : Prop :=
  length (mcols A) = n /\ Forall (fun c => length c = mrows A) (mcols A).

(** ** Specification helper for the Leduc info-set ids *)

(** What a player sees of the public card: nothing before it is dealt, its
    rank afterwards. *)
Definition public_view (pub : Card) : option Z :=
  if (pub <? 0)%Z then None else Some (LeducPoker.card_rank pub).

(** ** QRE.hpp / QRE.cpp *)

Record QREResidual : Type := mkQREResidual {
  game_ : GameNode;
  beta_ : R;
  index_ : InfoSetIndex
}.

(** The positions [0 .. num_info_sets - 1] the loops of this file run over. *)
Definition info_set_positions (index : InfoSetIndex) : list Z :=
  List.map Z.of_nat (seq 0 (Z.to_nat (InfoSetIndex.num_info_sets index))).

Definition compute_all_expected_utilities (root : GameNode) (sigma : Strategy)
    (index : InfoSetIndex) : result (gmap string (gmap Action R)) :=
  foldM (fun result i =>
    match InfoSetIndex.info_set index i with
    | None => Err (RuntimeError "index out of range")
    | Some iset =>
        action_eu ←
          foldM (fun action_eu a =>
                   eu ← expected_utility root sigma (is_id iset) a (is_player iset);
                   Ok (<[a := eu]> action_eu))
                (∅ : gmap Action R) (is_legal_actions iset);
        Ok (<[is_id iset := action_eu]> result)
    end) (∅ : gmap string (gmap Action R)) (info_set_positions index).

Module QREResidual.

(** The constructor: both games answer [get_info_sets] with the traversal
    of their tree. *)
Definition new (root : GameNode) (beta : R) : QREResidual :=
  mkQREResidual root beta (InfoSetIndex.build (get_info_sets root)).

Definition dim (q : QREResidual) : Z := InfoSetIndex.total_dim (index_ q).

(** [br] is allocated without initialisation: [fresh] is what it holds. *)
Definition logit_best_response (q : QREResidual) (sigma : Strategy)
    (fresh : list R) : result (list R) :=
  all_eu ← compute_all_expected_utilities (game_ q) sigma (index_ q);
  foldM (fun br i =>
    match InfoSetIndex.info_set (index_ q) i with
    | None => Err (RuntimeError "index out of range")
    | Some iset =>
        let num_actions := Z.of_nat (length (is_legal_actions iset)) in
        let start := InfoSetIndex.info_set_start (index_ q) i in
        let action_eu := default ∅ (all_eu !! is_id iset) in
        scaled_eu ←
          mapM (fun a => match action_eu !! a with
                         | Some eu => Ok (beta_ q * eu)
                         | None => Err (RuntimeError "map::at")
                         end) (is_legal_actions iset);
        let max_eu := maxCoeff scaled_eu in
        let exp_eu := List.map (fun v => std_exp (v - max_eu)) scaled_eu in
        let Z := vsum exp_eu in
        foldM (fun br a => e ← coeff exp_eu (Z.of_nat a);
                           set_coeff br (start + Z.of_nat a) (e / Z)) br
              (seq 0 (Z.to_nat num_actions))
    end) fresh (info_set_positions (index_ q)).

(** [operator()]: the residual [sigma - BR] at the logits [w]; the two
    vectors it fills are allocated without initialisation. *)
Definition apply (q : QREResidual) (w fresh_br fresh_sigma : list R)
    : result (list R) :=
  sigma ← Strategy.from_logits w (index_ q);
  br ← logit_best_response q sigma fresh_br;
  sigma_flat ←
    foldM (fun sigma_flat i =>
      match InfoSetIndex.info_set (index_ q) i with
      | None => Err (RuntimeError "index out of range")
      | Some iset =>
          let start := InfoSetIndex.info_set_start (index_ q) i in
          probs ← Strategy.probs sigma (is_id iset);
          foldM (fun sigma_flat a =>
                   p ← coeff probs (Z.of_nat a);
                   set_coeff sigma_flat (start + Z.of_nat a) p) sigma_flat
                (seq 0 (length (is_legal_actions iset)))
      end) fresh_sigma (info_set_positions (index_ q));
  Ok (vsub sigma_flat br).

End QREResidual.

(** ** Specification helpers for the QRE residual *)

(** The logit response to a list of expected utilities. *)
Definition logit_response (beta : R) (eus : list R) : list R :=
  stable_softmax (List.map (Rmult beta) eus).

(** The expected utility of an action at an info set, as a number. *)
Definition eu_value (root : GameNode) (sigma : Strategy) (x : InfoSet)
    (a : Action) : R :=
  match expected_utility root sigma (is_id x) a (is_player x) with
  | Ok eu => eu
  | Err _ => 0
  end.

(** The inner map [action_eu] of an info set. *)
Definition eu_map (root : GameNode) (sigma : Strategy) (x : InfoSet)
    : gmap Action R :=
  fold_left (fun m a => <[a := eu_value root sigma x a]> m)
            (is_legal_actions x) ∅.

(** The block of the logit best response that belongs to an info set. *)
Definition br_block (root : GameNode) (sigma : Strategy) (beta : R)
    (x : InfoSet) : list R :=
  logit_response beta (List.map (eu_value root sigma x) (is_legal_actions x)).

(** The block of the current strategy that belongs to an info set. *)
Definition sigma_block (sigma : Strategy) (x : InfoSet) : list R :=
  match logits_ sigma !! is_id x with
  | Some lg => stable_softmax lg
  | None => []
  end.

(** ** The value of a node *)

(** The action probabilities [ev_recursive] uses at a player node. *)
Definition action_probs_at (sigma : Strategy)
    (override_opt : option (InfoSetId * Action)) (node : GameNode)
    : result (list R) :=
  match override_opt with
  | Some (id, a) =>
      if String.eqb id (info_set_id node)
      then Ok (override_probs (legal_actions node) a)
      else Strategy.probs sigma (info_set_id node)
  | None => Strategy.probs sigma (info_set_id node)
  end.

(** The value of a node under a strategy: the payoff to player 0 expected
    from the node on. *)
Fixpoint node_value (sigma : Strategy)
    (override_opt : option (InfoSetId * Action)) (node : GameNode)
    {struct node} : R :=
  match type node with
  | Terminal => payoff node
  | Chance =>
      vsum (List.map (fun e => probability e * node_value sigma override_opt (child e))
                     (children node))
  | Player =>
      vsum (zip_with (fun e q => q * node_value sigma override_opt (child e))
                     (children node)
                     (match action_probs_at sigma override_opt node with
                      | Ok probs => probs
                      | Err _ => []
                      end))
  end.

(** The id is carried by a player node of the tree. *)
Fixpoint mentions (id : InfoSetId) (node : GameNode) {struct node} : bool :=
  match type node with
  | Terminal => false
  | Chance => existsb (fun e => mentions id (child e)) (children node)
  | Player =>
      String.eqb id (info_set_id node)
      || existsb (fun e => mentions id (child e)) (children node)
  end.

(** No play passes two nodes of the info set [id], and each of its nodes
    offers the actions [acts]. *)
Fixpoint visited_once (id : InfoSetId) (acts : list Action) (node : GameNode)
    {struct node} : bool :=
  match type node with
  | Terminal => true
  | Chance => forallb (fun e => visited_once id acts (child e)) (children node)
  | Player =>
      if String.eqb id (info_set_id node)
      then bool_decide (legal_actions node = acts)
           && forallb (fun e => negb (mentions id (child e))) (children node)
      else forallb (fun e => visited_once id acts (child e)) (children node)
  end.

(** The sum of [f] over the actions, weighted by the probabilities. *)
Definition weighted_sum (probs : list R) (acts : list Action) (f : Action -> R) : R :=
  vsum (zip_with (fun q a => q * f a) probs acts).

(** ** CFR: the accumulators of one information set (CFR.hpp) *)

Record InfoSetData := mkInfoSetData {
  cumulative_regret : list R;
  cumulative_strategy : list R;
  isd_num_actions : Z  (* [num_actions] *)
}.

Module InfoSetData.

(** [InfoSetData(int n_actions)]. *)
Definition new (n_actions : Z) : InfoSetData :=
  mkInfoSetData (repeat 0 (Z.to_nat n_actions)) (repeat 0 (Z.to_nat n_actions))
                n_actions.

(** [Eigen::VectorXd::Constant(num_actions, 1.0 / num_actions)]. *)
Definition uniform (d : InfoSetData) : list R :=
  repeat (1 / IZR (isd_num_actions d)) (Z.to_nat (isd_num_actions d)).

Definition regret_matching_strategy (d : InfoSetData) : list R :=
  let positive_regret := List.map (fun r => Rmax r 0) (cumulative_regret d) in
  let sum := vsum positive_regret in
  if Rgt_dec sum 0 then List.map (fun r => r / sum) positive_regret
  else uniform d.

Definition average_strategy (d : InfoSetData) : list R :=
  let sum := vsum (cumulative_strategy d) in
  if Rgt_dec sum 0 then List.map (fun r => r / sum) (cumulative_strategy d)
  else uniform d.

End InfoSetData.

(** ** HandEvaluator.hpp: hand values *)

(** [enum class HandRank : uint8_t]. *)
Inductive HandRank :=
  | HighCard | Pair | TwoPair | ThreeOfAKind | Straight
  | Flush | FullHouse | FourOfAKind | StraightFlush.

Definition HandRank_to_Z (r : HandRank) : Z :=
  match r with
  | HighCard => 0
  | Pair => 1
  | TwoPair => 2
  | ThreeOfAKind => 3
  | Straight => 4
  | Flush => 5
  | FullHouse => 6
  | FourOfAKind => 7
  | StraightFlush => 8
  end.

(** The enumerator with the given value, if there is one. *)
Definition HandRank_of_Z (z : Z) : option HandRank :=
  match z with
  | 0 => Some HighCard
  | 1 => Some Pair
  | 2 => Some TwoPair
  | 3 => Some ThreeOfAKind
  | 4 => Some Straight
  | 5 => Some Flush
  | 6 => Some FullHouse
  | 7 => Some FourOfAKind
  | 8 => Some StraightFlush
  | _ => None
  end%Z.

(** Conversion to [uint32_t] and to [uint8_t]. *)
Definition uint32 (z : Z) : Z := z mod 2 ^ 32.
Definition uint8 (z : Z) : Z := z mod 2 ^ 8.

Record HandValue := mkHandValue { value : Z }.

Module HandValue.

(** [static_cast<HandRank>(value >> 20)]; [None] stands for a value that is
    no enumerator. *)
Definition rank (h : HandValue) : option HandRank :=
  HandRank_of_Z (uint8 (Z.shiftr (value h) 20)).

Definition lt (a b : HandValue) : bool := (value a <? value b)%Z.
Definition eq (a b : HandValue) : bool := (value a =? value b)%Z.

End HandValue.

Module HandEvaluator.

Definition make_value (rank : HandRank) (k1 k2 k3 k4 k5 : Z) : HandValue :=
  let v := uint32 (Z.shiftl (uint32 (HandRank_to_Z rank)) 20) in
  let v := Z.lor v (uint32 (Z.shiftl (Z.land k1 15) 16)) in
  let v := Z.lor v (uint32 (Z.shiftl (Z.land k2 15) 12)) in
  let v := Z.lor v (uint32 (Z.shiftl (Z.land k3 15) 8)) in
  let v := Z.lor v (uint32 (Z.shiftl (Z.land k4 15) 4)) in
  let v := Z.lor v (uint32 (Z.land k5 15)) in
  mkHandValue v.

End HandEvaluator.

(** Lexicographic order on lists of the same length. *)
Fixpoint lex_lt (a b : list Z) : Prop :=
  match a, b with
  | x :: a', y :: b' => (x < y)%Z \/ (x = y /\ lex_lt a' b')
  | _, _ => False
  end.

(** * Theorems *)

(** ** Fuel: the builders return the same tree for every larger fuel *)

Lemma foldM_option_mono {A B : Type} (f g : B -> A -> option B) l :
  (forall b x y, f b x = Some y -> g b x = Some y) ->
  forall b r, foldM f b l = Some r -> foldM g b l = Some r.
Proof.
  intros Hfg. induction l as [|x l IH]; intros b r; simpl; [done|].
  destruct (f b x) as [y|] eqn:E; simpl; [|done].
  rewrite (Hfg _ _ _ E). simpl. apply IH.
Qed.

Lemma bind_option_mono {A B : Type} (m m' : option A) (k : A -> option B) r :
  (forall y, m = Some y -> m' = Some y) ->
  m ≫= k = Some r -> m' ≫= k = Some r.
Proof.
  intros H. destruct m as [y|]; simpl; [|done].
  rewrite (H y eq_refl). done.
Qed.

Lemma kuhn_build_subtree_mono fuel :
  forall node to_act h c0 c1 pot b0 b1 t,
    KuhnPoker.build_subtree fuel node to_act h c0 c1 pot b0 b1 = Some t ->
    KuhnPoker.build_subtree (S fuel) node to_act h c0 c1 pot b0 b1 = Some t.
Proof.
  induction fuel as [|fuel IH]; intros node to_act h c0 c1 pot b0 b1 t; [done|].
  intros H. simpl in H. cbn [KuhnPoker.build_subtree].
  revert H. apply foldM_option_mono. intros b x y.
  apply bind_option_mono. intros z.
  destruct (to_act =? PLAYER_0)%Z, x; try done; apply IH.
Qed.

Lemma kuhn_build_tree_mono fuel t :
  KuhnPoker.build_tree fuel = Some t -> KuhnPoker.build_tree (S fuel) = Some t.
Proof.
  unfold KuhnPoker.build_tree. apply foldM_option_mono.
  intros b [c0 c1] y. apply bind_option_mono. intros z.
  apply kuhn_build_subtree_mono.
Qed.

Lemma kuhn_build_tree_fuel fuel :
  (4 <= fuel)%nat -> KuhnPoker.build_tree fuel = Some kuhn_tree.
Proof.
  induction 1 as [|fuel _ IH].
  - vm_compute. reflexivity.
  - apply kuhn_build_tree_mono, IH.
Qed.

Lemma leduc_build_mono fuel :
  (forall node f h c0 c1 pub pot tc rl rnd bs t,
     LeducPoker.build_betting_round fuel node f h c0 c1 pub pot tc rl rnd bs = Some t ->
     LeducPoker.build_betting_round (S fuel) node f h c0 c1 pub pot tc rl rnd bs = Some t)
  /\
  (forall node c0 c1 pot h t,
     LeducPoker.continue_after_round1 fuel node c0 c1 pot h = Some t ->
     LeducPoker.continue_after_round1 (S fuel) node c0 c1 pot h = Some t).
Proof.
  induction fuel as [|fuel [IHb IHc]]; [split; intros; discriminate|].
  split.
  - intros node f h c0 c1 pub pot tc rl rnd bs t H.
    cbn [LeducPoker.build_betting_round] in H |- *.
    revert H. apply foldM_option_mono. intros b x y.
    apply bind_option_mono. intros z.
    destruct x; try done.
    + destruct ((tc =? 0)%Z && String.eqb h ""); [apply IHb|].
      destruct (tc =? 0)%Z; [|done].
      destruct (rnd =? 1)%Z; [apply IHc|done].
    + apply IHb.
    + destruct (rnd =? 1)%Z; [apply IHc|done].
    + apply IHb.
  - intros node c0 c1 pot h t H.
    cbn [LeducPoker.continue_after_round1] in H |- *.
    revert H. apply foldM_option_mono. intros b x y.
    destruct ((x =? c0)%Z || (x =? c1)%Z); [done|].
    apply bind_option_mono. intros z. apply IHb.
Qed.

Lemma leduc_build_tree_mono fuel t :
  LeducPoker.build_tree fuel = Some t -> LeducPoker.build_tree (S fuel) = Some t.
Proof.
  unfold LeducPoker.build_tree. apply foldM_option_mono.
  intros b [c0 c1] y. destruct (c0 =? c1)%Z; [done|].
  apply bind_option_mono. intros z. apply leduc_build_mono.
Qed.

Lemma leduc_build_tree_12 : LeducPoker.build_tree 12 = Some leduc_tree.
Proof. vm_compute. reflexivity. Qed.

Lemma leduc_build_tree_fuel fuel :
  (12 <= fuel)%nat -> LeducPoker.build_tree fuel = Some leduc_tree.
Proof.
  induction 1 as [|fuel _ IH].
  - apply leduc_build_tree_12.
  - apply leduc_build_tree_mono, IH.
Qed.

(** ** The Kuhn tree *)

(** C5: in the constructed Kuhn tree each of the six deals has exactly the
    terminal histories cc, cbk, cbf, bk, bf; every showdown terminal pays
    player 0 half the pot when player 0 holds the higher card and minus half
    the pot otherwise; the fold terminals pay -1 when player 0 folds (cbf)
    and +1 when player 1 folds (bf). *)
Theorem kuhn_terminal_histories_and_payoffs :
  length (children kuhn_tree) = 6%nat
  /\ Forall (fun e => List.map history (terminals (child e))
                      = ["cc"; "cbk"; "cbf"; "bk"; "bf"]%string)
            (children kuhn_tree)
  /\ Forall kuhn_terminal_payoff (terminals kuhn_tree).
Proof.
  split; [vm_compute; reflexivity|]. split.
  - apply (bool_decide_unpack _). vm_compute. exact I.
  - vm_compute. repeat constructor. all: lra.
Qed.

(** C8: the constructed Kuhn game has exactly twelve information sets;
    [get_info_sets] returns these twelve, each with the legal-action list of
    its nodes, in strictly ascending order of their ids. *)
Theorem kuhn_get_info_sets_twelve_sorted :
  get_info_sets kuhn_tree = kuhn_info_sets
  /\ length (get_info_sets kuhn_tree) = 12%nat
  /\ StronglySorted string_lt (List.map is_id (get_info_sets kuhn_tree))
  /\ Forall (fun n => info_set_of n ∈ get_info_sets kuhn_tree)
            (player_nodes kuhn_tree)
  /\ Forall (fun i => Exists (fun n => info_set_of n = i) (player_nodes kuhn_tree))
            (get_info_sets kuhn_tree).
Proof.
  assert (E : get_info_sets kuhn_tree = kuhn_info_sets) by (vm_compute; reflexivity).
  split; [exact E|]. rewrite E. split; [reflexivity|]. split.
  - apply (bool_decide_unpack _). vm_compute. exact I.
  - split; apply (bool_decide_unpack _); vm_compute; exact I.
Qed.

(** ** The Leduc tree *)

(** C4 (the code departs from the claim): after the deal Js/Jh, check, check
    and the public card Qs, player 0 opens round 2 with no bet outstanding;
    the Check edge of that node leads straight to a showdown terminal instead
    of a decision node of player 1.  The same holds at every node opening
    round 2, while every node opening round 1 does hand the move to player 1
    after a check. *)
Theorem leduc_round2_first_check_ends_round :
  check_view <$> leduc_round2_opening
    = Some (Player, PLAYER_0, "cc|"%string, "P0:J:Q:R2:cc|"%string,
            [Check; Bet], 2%Z, Some (Terminal, "cc|c"%string))
  /\ Forall (fun n => is_round2_opening n = true ->
                      type <$> get_child n Check = Some Terminal)
            (nodes leduc_tree)
  /\ Forall (fun n => is_round1_opening n = true ->
                      (fun c => (type c, player c)) <$> get_child n Check
                      = Some (Player, PLAYER_1))
            (nodes leduc_tree)
  /\ length (List.filter is_round2_opening (nodes leduc_tree)) = 840%nat.
Proof.
  split; [vm_compute; reflexivity|].
  split; [apply (bool_decide_unpack _); vm_compute; exact I|].
  split; [apply (bool_decide_unpack _); vm_compute; exact I|].
  vm_compute. reflexivity.
Qed.

(** ** Strategy queries *)

(** C9: querying [probs], [prob] or [logits] for an id that is absent from
    the strategy's map fails with the "Unknown information set" error; the
    queries are pure functions of the strategy, which is therefore left as
    it was. *)
Theorem strategy_query_unknown_info_set (s : Strategy) (id : InfoSetId) (a : Action) :
  logits_ s !! id = None ->
  Strategy.probs s id = Err (Strategy.unknown_info_set id)
  /\ Strategy.prob s id a = Err (Strategy.unknown_info_set id)
  /\ Strategy.logits s id = Err (Strategy.unknown_info_set id).
Proof.
  intros H. unfold Strategy.probs, Strategy.prob, Strategy.logits.
  rewrite H. auto.
Qed.

Lemma strategy_query_unknown_info_set_witness :
  logits_ (Strategy.set_logits Strategy.empty "P0:J:" [0; 0]) !! "P1:K:b"%string = None
  /\ Strategy.probs (Strategy.set_logits Strategy.empty "P0:J:" [0; 0]) "P1:K:b"
     = Err (RuntimeError "Unknown information set: P1:K:b")
  /\ Strategy.prob (Strategy.set_logits Strategy.empty "P0:J:" [0; 0]) "P1:K:b" Call
     = Err (RuntimeError "Unknown information set: P1:K:b")
  /\ Strategy.logits (Strategy.set_logits Strategy.empty "P0:J:" [0; 0]) "P1:K:b"
     = Err (RuntimeError "Unknown information set: P1:K:b").
Proof.
  split; [reflexivity|].
  apply (strategy_query_unknown_info_set
           (Strategy.set_logits Strategy.empty "P0:J:" [0; 0]) "P1:K:b" Call).
  reflexivity.
Defined.

(** ** The beta schedule *)

Lemma adjacent_snoc (P : R -> R -> Prop) (s : list R) (x : R) :
  adjacent P (s ++ [x]) <-> adjacent P s /\ (forall l, last s = Some l -> P l x).
Proof.
  induction s as [|a s IH]; simpl.
  - split; [intros _; split; [exact I|discriminate]|tauto].
  - destruct s as [|b s].
    + simpl. split.
      * intros [H _]. split; [exact I|]. intros l [= <-]. exact H.
      * intros [_ H]. split; [apply H; reflexivity|exact I].
    + change ((a :: b :: s) ++ [x]) with (a :: (b :: s) ++ [x]) in *.
      change (last (a :: b :: s)) with (last (b :: s)).
      simpl in IH |- *. tauto.
Qed.

Lemma beta_loop_mono fuel target beta s r :
  beta_loop fuel target beta s = Some r ->
  beta_loop (S fuel) target beta s = Some r.
Proof.
  revert beta s. induction fuel as [|fuel IH]; intros beta s; [discriminate|].
  intros H. cbn [beta_loop] in H |- *.
  destruct (Rlt_dec beta target); [|exact H].
  apply IH in H. exact H.
Qed.

Lemma beta_loop_mono_le fuel fuel' target beta s r :
  (fuel <= fuel')%nat ->
  beta_loop fuel target beta s = Some r ->
  beta_loop fuel' target beta s = Some r.
Proof.
  induction 1 as [|fuel' _ IH]; [done|].
  intros H. apply beta_loop_mono, IH, H.
Qed.

Lemma beta_loop_spec target fuel :
  forall beta s,
    schedule_inv target beta s ->
    target <= beta * 2 ^ fuel ->
    exists r, beta_loop (S fuel) target beta s = Some r
              /\ strictly_increasing r /\ at_least_doubling r
              /\ head r = Some 0.01
              /\ exists l, last r = Some l /\ l < target.
Proof.
  induction fuel as [|fuel IH]; intros beta s Hinv Hle.
  - cbn [beta_loop]. destruct (Rlt_dec beta target) as [Hlt|_]; [simpl in Hle; lra|].
    destruct Hinv as (Hi & Hd & Hh & l & Hl & Hlt & _).
    exists s. repeat split; try assumption. exists l. auto.
  - cbn [beta_loop]. fold (beta_loop (S fuel)).
    destruct (Rlt_dec beta target) as [Hlt|_].
    + apply IH.
      * destruct Hinv as (Hi & Hd & Hh & l & Hl & Hltl & Hpos & Hdbl).
        unfold schedule_inv, strictly_increasing, at_least_doubling.
        rewrite !adjacent_snoc. repeat split; try assumption.
        -- intros l' Hl'. rewrite Hl in Hl'. injection Hl' as <-. lra.
        -- intros l' Hl'. rewrite Hl in Hl'. injection Hl' as <-. lra.
        -- destruct s; [discriminate|]. exact Hh.
        -- exists beta. rewrite last_snoc. repeat split; try lra.
      * simpl in Hle. lra.
    + destruct Hinv as (Hi & Hd & Hh & l & Hl & Hltl & _).
      exists s. repeat split; try assumption. exists l. auto.
Qed.

Lemma pow2_unbounded (b : R) : exists n : nat, b <= 0.05 * 2 ^ n.
Proof.
  destruct (Pow_x_infinity 2 ltac:(rewrite Rabs_right; lra) (b / 0.05)) as [N HN].
  exists N. specialize (HN N (Nat.le_refl _)).
  rewrite Rabs_right in HN by (apply Rle_ge, pow_le; lra).
  apply Rge_le in HN.
  apply (Rmult_le_compat_l 0.05) in HN; [|lra].
  replace (0.05 * (b / 0.05)) with b in HN by (field; lra). exact HN.
Qed.

(** C3 (as amended): for every target above 0.01 the loop stops, and the
    schedule it returns begins at 0.01, ends exactly at the target, is
    strictly increasing, and doubles at least at every step but the last
    one, the step onto the target. *)
Theorem make_beta_schedule_increasing (target_beta : R) :
  0.01 < target_beta ->
  exists (fuel0 : nat) (body : list R),
    (forall fuel, (fuel0 <= fuel)%nat ->
       make_beta_schedule fuel target_beta = Some (body ++ [target_beta]))
    /\ head (body ++ [target_beta]) = Some 0.01
    /\ last (body ++ [target_beta]) = Some target_beta
    /\ strictly_increasing (body ++ [target_beta])
    /\ at_least_doubling body.
Proof.
  intros Ht.
  destruct (pow2_unbounded target_beta) as [n Hn].
  destruct (beta_loop_spec target_beta n 0.05 [0.01]) as (r & Hr & Hi & Hd & Hh & l & Hl & Hlt).
  - unfold schedule_inv, strictly_increasing, at_least_doubling. simpl.
    repeat split; trivial. exists 0.01. repeat split; try reflexivity; lra.
  - exact Hn.
  - exists (S n), r. split; [|split; [|split; [|split]]].
    + intros fuel Hf. unfold make_beta_schedule.
      rewrite (beta_loop_mono_le _ _ _ _ _ _ Hf Hr). reflexivity.
    + destruct r; [discriminate|]. exact Hh.
    + apply last_snoc.
    + unfold strictly_increasing. rewrite adjacent_snoc. split; [exact Hi|].
      intros l' Hl'. rewrite Hl in Hl'. injection Hl' as <-. exact Hlt.
    + exact Hd.
Qed.

(** The schedule for the default target 10. *)
Example make_beta_schedule_10 : make_beta_schedule 9 10 = Some ([0.01; 0.05; 0.1; 0.2; 0.4; 0.8; 1.6; 3.2; 6.4] ++ [10]).
Proof.
  unfold make_beta_schedule. cbn [beta_loop].
  repeat (match goal with |- context [Rlt_dec ?a ?b] => destruct (Rlt_dec a b); try lra end).
  simpl. repeat f_equal; lra.
Qed.

Lemma make_beta_schedule_increasing_witness :
  0.01 < 10
  /\ exists (fuel0 : nat) (body : list R),
       (forall fuel, (fuel0 <= fuel)%nat ->
          make_beta_schedule fuel 10 = Some (body ++ [10]))
       /\ head (body ++ [10]) = Some 0.01
       /\ last (body ++ [10]) = Some 10
       /\ strictly_increasing (body ++ [10])
       /\ at_least_doubling body.
Proof.
  split; [lra|]. apply (make_beta_schedule_increasing 10). lra.
Defined.

(** C3 fails as specified: for the target 0.06 the last step, from 0.05 to
    0.06, is less than a doubling; for the target 0.005 the schedule
    [0.01; 0.005] is not increasing. *)
Lemma make_beta_schedule_not_as_specified :
  (0 < 0.06
   /\ make_beta_schedule 3 0.06 = Some [0.01; 0.05; 0.06]
   /\ ~ schedule_as_specified 0.06 [0.01; 0.05; 0.06])
  /\ (0 < 0.005
      /\ make_beta_schedule 3 0.005 = Some [0.01; 0.005]
      /\ ~ schedule_as_specified 0.005 [0.01; 0.005]).
Proof.
  split; (split; [lra|split]).
  - unfold make_beta_schedule. cbn [beta_loop].
    repeat (match goal with
            | |- context [Rlt_dec ?a ?b] => destruct (Rlt_dec a b); try lra
            end).
    simpl. repeat f_equal; lra.
  - intros (_ & _ & _ & H). unfold at_least_doubling in H. simpl in H. lra.
  - unfold make_beta_schedule. cbn [beta_loop].
    destruct (Rlt_dec 0.05 0.005); [lra|]. reflexivity.
  - intros (H & _). unfold strictly_increasing in H. simpl in H. lra.
Qed.

(** ** Softmax *)

Lemma vsum_pos (l : list R) : l <> [] -> Forall (Rlt 0) l -> 0 < vsum l.
Proof.
  intros Hne H. induction H as [|x l Hx Hl IH]; [done|].
  simpl. destruct l as [|y l]; [simpl; lra|].
  assert (0 < vsum (y :: l)) by (apply IH; discriminate). lra.
Qed.

Lemma vsum_map_div (l : list R) (s : R) :
  vsum (List.map (fun e => e / s) l) = vsum l / s.
Proof.
  induction l as [|x l IH]; simpl; [unfold Rdiv; lra|].
  rewrite IH. unfold Rdiv. lra.
Qed.

(** ** Bounds on the exponential *)

Lemma exp_twice (x : R) : exp (2 * x) = exp x * exp x.
Proof. replace (2 * x) with (x + x) by ring. apply exp_plus. Qed.

Lemma exp_INR (n : nat) (x : R) : exp (INR n * x) = exp x ^ n.
Proof.
  induction n as [|n IH].
  - cbn [INR]. rewrite Rmult_0_l, exp_0. reflexivity.
  - rewrite S_INR, Rmult_plus_distr_r, Rmult_1_l, exp_plus, IH. cbn [pow]. ring.
Qed.

Lemma exp_1_lower : 27155 / 10000 <= exp 1.
Proof.
  assert (H0 : (1025 / 1024) <= exp (1 / 1024)).
  { pose proof (exp_ineq1_le (1 / 1024)). lra. }
  assert (H1 : (500977039337 / 500000000000) <= exp (1 / 512)).
  { replace (1 / 512) with (2 * (1 / 1024)) by lra. rewrite exp_twice. clear -H0. nra. }
  assert (H2 : (1003911975771 / 1000000000000) <= exp (1 / 256)).
  { replace (1 / 256) with (2 * (1 / 512)) by lra. rewrite exp_twice. clear -H1. nra. }
  assert (H3 : (125979906887 / 125000000000) <= exp (1 / 128)).
  { replace (1 / 128) with (2 * (1 / 256)) by lra. rewrite exp_twice. clear -H2. nra. }
  assert (H4 : (63483747757 / 62500000000) <= exp (1 / 64)).
  { replace (1 / 64) with (2 * (1 / 128)) by lra. rewrite exp_twice. clear -H3. nra. }
  assert (H5 : (515863837347 / 500000000000) <= exp (1 / 32)).
  { replace (1 / 32) with (2 * (1 / 64)) by lra. rewrite exp_twice. clear -H4. nra. }
  assert (H6 : (1064461994729 / 1000000000000) <= exp (1 / 16)).
  { replace (1 / 16) with (2 * (1 / 32)) by lra. rewrite exp_twice. clear -H5. nra. }
  assert (H7 : (566539669111 / 500000000000) <= exp (1 / 8)).
  { replace (1 / 8) with (2 * (1 / 16)) by lra. rewrite exp_twice. clear -H6. nra. }
  assert (H8 : (256773757341 / 200000000000) <= exp (1 / 4)).
  { replace (1 / 4) with (2 * (1 / 8)) by lra. rewrite exp_twice. clear -H7. nra. }
  assert (H9 : (65932762459 / 40000000000) <= exp (1 / 2)).
  { replace (1 / 2) with (2 * (1 / 4)) by lra. rewrite exp_twice. clear -H8. nra. }
  assert (H10 : (2716955728421 / 1000000000000) <= exp (1 / 1)).
  { replace (1 / 1) with (2 * (1 / 2)) by lra. rewrite exp_twice. clear -H9. nra. }
  replace (exp 1) with (exp (1 / 1)) by (f_equal; lra). lra.
Qed.

Lemma exp_1_upper : exp 1 <= 272 / 100.
Proof.
  assert (H0 : 0 < exp (1 / 1024) <= (1024 / 1023)).
  { pose proof (exp_ineq1_le (- (1 / 1024))) as H. rewrite exp_Ropp in H.
    pose proof (exp_pos (1 / 1024)) as Hp. split; [exact Hp|].
    apply Rmult_le_reg_r with (1023 / 1024); [lra|].
    replace (1024 / 1023 * (1023 / 1024)) with 1 by lra.
    apply Rmult_le_reg_r with (/ exp (1 / 1024)); [apply Rinv_0_lt_compat; exact Hp|].
    replace (exp (1 / 1024) * (1023 / 1024) * / exp (1 / 1024)) with (1023 / 1024)
      by (field; lra).
    lra. }
  assert (H1 : 0 < exp (1 / 512) <= (1001955989753 / 1000000000000)).
  { replace (1 / 512) with (2 * (1 / 1024)) by lra. rewrite exp_twice. clear -H0. nra. }
  assert (H2 : 0 < exp (1 / 256) <= (501957902701 / 500000000000)).
  { replace (1 / 256) with (2 * (1 / 512)) by lra. rewrite exp_twice. clear -H1. nra. }
  assert (H3 : 0 < exp (1 / 128) <= (62990434021 / 62500000000)).
  { replace (1 / 128) with (2 * (1 / 256)) by lra. rewrite exp_twice. clear -H2. nra. }
  assert (H4 : 0 < exp (1 / 64) <= (126969432901 / 125000000000)).
  { replace (1 / 64) with (2 * (1 / 128)) by lra. rewrite exp_twice. clear -H3. nra. }
  assert (H5 : 0 < exp (1 / 32) <= (1031759161037 / 1000000000000)).
  { replace (1 / 32) with (2 * (1 / 64)) by lra. rewrite exp_twice. clear -H4. nra. }
  assert (H6 : 0 < exp (1 / 16) <= (66532935399 / 62500000000)).
  { replace (1 / 16) with (2 * (1 / 32)) by lra. rewrite exp_twice. clear -H5. nra. }
  assert (H7 : 0 < exp (1 / 8) <= (1133217662159 / 1000000000000)).
  { replace (1 / 8) with (2 * (1 / 16)) by lra. rewrite exp_twice. clear -H6. nra. }
  assert (H8 : 0 < exp (1 / 4) <= (128418226983 / 100000000000)).
  { replace (1 / 4) with (2 * (1 / 8)) by lra. rewrite exp_twice. clear -H7. nra. }
  assert (H9 : 0 < exp (1 / 2) <= (824562051073 / 500000000000)).
  { replace (1 / 2) with (2 * (1 / 4)) by lra. rewrite exp_twice. clear -H8. nra. }
  assert (H10 : 0 < exp (1 / 1) <= (2719610304279 / 1000000000000)).
  { replace (1 / 1) with (2 * (1 / 2)) by lra. rewrite exp_twice. clear -H9. nra. }
  replace (exp 1) with (exp (1 / 1)) by (f_equal; lra). lra.
Qed.

Lemma pow_ratio_le (a b c : Z) (n m : nat) :
  (0 < b)%Z ->
  (c ^ Z.of_nat m * b ^ Z.of_nat n <= a ^ Z.of_nat n)%Z ->
  IZR c ^ m <= (IZR a / IZR b) ^ n.
Proof.
  intros Hb H. assert (Hb' : 0 < IZR b) by (apply IZR_lt; exact Hb).
  unfold Rdiv. rewrite Rpow_mult_distr, pow_inv.
  apply Rmult_le_reg_r with (IZR b ^ n); [apply pow_lt; exact Hb'|].
  rewrite Rmult_assoc, Rinv_l, Rmult_1_r by (apply pow_nonzero; lra).
  rewrite !pow_IZR, <- mult_IZR. apply IZR_le. exact H.
Qed.

Lemma pow_ratio_lt (a b c : Z) (n m : nat) :
  (0 < b)%Z ->
  (a ^ Z.of_nat n < c ^ Z.of_nat m * b ^ Z.of_nat n)%Z ->
  (IZR a / IZR b) ^ n < IZR c ^ m.
Proof.
  intros Hb H. assert (Hb' : 0 < IZR b) by (apply IZR_lt; exact Hb).
  unfold Rdiv. rewrite Rpow_mult_distr, pow_inv.
  apply Rmult_lt_reg_r with (IZR b ^ n); [apply pow_lt; exact Hb'|].
  rewrite Rmult_assoc, Rinv_l, Rmult_1_r by (apply pow_nonzero; lra).
  rewrite !pow_IZR, <- mult_IZR. apply IZR_lt. exact H.
Qed.

Lemma exp_746_lower : 2 ^ 1075 <= exp 746.
Proof.
  replace 746 with (INR 746 * 1)
    by (rewrite INR_IZR_INZ; change (Z.of_nat 746) with 746%Z; lra).
  rewrite exp_INR.
  apply Rle_trans with ((27155 / 10000) ^ 746).
  - apply (pow_ratio_le 27155 10000 2 746 1075); [lia|].
    apply Z.leb_le. vm_compute. reflexivity.
  - apply pow_incr. pose proof exp_1_lower. lra.
Qed.

Lemma exp_700_upper : exp 700 < 2 ^ 1075.
Proof.
  replace 700 with (INR 700 * 1)
    by (rewrite INR_IZR_INZ; change (Z.of_nat 700) with 700%Z; lra).
  rewrite exp_INR.
  apply Rle_lt_trans with ((272 / 100) ^ 700).
  - apply pow_incr. pose proof exp_1_upper. pose proof (exp_pos 1). lra.
  - apply (pow_ratio_lt 272 100 2 700 1075); [lia|].
    apply Z.ltb_lt. vm_compute. reflexivity.
Qed.

(** ** The exponential on doubles *)

Lemma exp_underflow_bounds : 0 < exp_underflow < 1.
Proof.
  unfold exp_underflow. assert (H : 1 < 2 ^ 1075) by (apply Rlt_pow_R1; [lra|lia]).
  split; [apply Rinv_0_lt_compat; lra|].
  rewrite <- Rinv_1. apply Rinv_lt_contravar; lra.
Qed.

Lemma std_exp_nonneg (x : R) : 0 <= std_exp x.
Proof.
  unfold std_exp. destruct (Rle_dec _ _); [lra|]. left. apply exp_pos.
Qed.

Lemma std_exp_0 : std_exp 0 = 1.
Proof.
  unfold std_exp. rewrite exp_0. pose proof exp_underflow_bounds.
  destruct (Rle_dec _ _); [lra|reflexivity].
Qed.

(** No underflow down to -700 ... *)
Lemma std_exp_pos (x : R) : -700 <= x -> 0 < std_exp x.
Proof.
  intros Hx. unfold std_exp. destruct (Rle_dec _ _) as [Hle|_]; [|apply exp_pos].
  exfalso. pose proof exp_700_upper as Hu. pose proof (exp_pos 700) as Hp.
  assert (Hlow : exp (Ropp 700) <= exp x).
  { destruct (Req_dec (Ropp 700) x) as [<-|Hne]; [lra|].
    left. apply exp_increasing. lra. }
  rewrite exp_Ropp in Hlow. unfold exp_underflow in Hle.
  assert (/ 2 ^ 1075 < / exp 700) by (apply Rinv_lt_contravar; nra).
  lra.
Qed.

(** ... and underflow to zero from -746 on. *)
Lemma std_exp_underflows (x : R) : x <= -746 -> std_exp x = 0.
Proof.
  intros Hx. unfold std_exp. destruct (Rle_dec _ _) as [_|Hn]; [reflexivity|].
  exfalso. apply Hn. pose proof exp_746_lower as Hl. pose proof (exp_pos 746) as Hp.
  assert (Hup : exp x <= exp (Ropp 746)).
  { destruct (Req_dec x (Ropp 746)) as [->|Hne]; [lra|].
    left. apply exp_increasing. lra. }
  rewrite exp_Ropp in Hup. unfold exp_underflow.
  assert (/ exp 746 <= / 2 ^ 1075).
  { apply Rinv_le_contravar; [apply pow_lt; lra|exact Hl]. }
  lra.
Qed.

(** ** The softmax *)

Lemma fold_left_Rmax_ge (v : list R) (x : R) :
  x <= fold_left Rmax v x /\ Forall (fun y => y <= fold_left Rmax v x) v.
Proof.
  revert x. induction v as [|y v IH]; intros x; cbn [fold_left].
  - split; [lra|constructor].
  - destruct (IH (Rmax x y)) as [H1 H2].
    pose proof (Rmax_l x y). pose proof (Rmax_r x y).
    split; [lra|]. constructor; [lra|exact H2].
Qed.

Lemma fold_left_Rmax_In (v : list R) (x : R) : In (fold_left Rmax v x) (x :: v).
Proof.
  revert x. induction v as [|y v IH]; intros x; cbn [fold_left].
  - left. reflexivity.
  - destruct (IH (Rmax x y)) as [H|H].
    + unfold Rmax in H at 1. destruct (Rle_dec x y).
      * right. left. exact H.
      * left. exact H.
    + right. right. exact H.
Qed.

Lemma maxCoeff_ge (l : list R) : Forall (fun y => y <= maxCoeff l) l.
Proof.
  destruct l as [|x v]; [constructor|]. unfold maxCoeff.
  destruct (fold_left_Rmax_ge v x). constructor; assumption.
Qed.

Lemma maxCoeff_In (l : list R) : l <> [] -> In (maxCoeff l) l.
Proof.
  destruct l as [|x v]; [done|]. intros _. apply fold_left_Rmax_In.
Qed.

Lemma vsum_nonneg (l : list R) : Forall (Rle 0) l -> 0 <= vsum l.
Proof. induction 1 as [|x l Hx _ IH]; cbn; [lra|]. unfold vsum in IH. lra. Qed.

Lemma vsum_pos_Exists (l : list R) :
  Forall (Rle 0) l -> Exists (Rlt 0) l -> 0 < vsum l.
Proof.
  intros Hall Hex. induction Hex as [x l Hx|x l _ IH].
  - apply Forall_cons in Hall as [_ Hl]. apply vsum_nonneg in Hl. cbn.
    unfold vsum in Hl. lra.
  - apply Forall_cons in Hall as [Hx Hl]. specialize (IH Hl). cbn.
    unfold vsum in IH. lra.
Qed.

Lemma exp_vals_nonneg (l : list R) (m : R) :
  Forall (Rle 0) (List.map std_exp (List.map (fun x => x - m) l)).
Proof.
  induction l as [|x l IH]; simpl; constructor; [apply std_exp_nonneg|exact IH].
Qed.

Lemma stable_softmax_length (l : list R) :
  length (stable_softmax l) = length l.
Proof. unfold stable_softmax. rewrite !length_map. reflexivity. Qed.

(** The largest logit contributes [exp 0 = 1] to the sum, so the division
    is never by zero. *)
Lemma exp_vals_sum_pos (l : list R) :
  l <> [] -> 0 < vsum (List.map std_exp (List.map (fun x => x - maxCoeff l) l)).
Proof.
  intros Hne. apply vsum_pos_Exists; [apply exp_vals_nonneg|].
  apply Exists_exists. exists 1. split; [|lra].
  apply list_elem_of_In. rewrite <- std_exp_0.
  replace 0 with (maxCoeff l - maxCoeff l) by ring.
  apply in_map. apply (in_map (fun x => x - maxCoeff l)). apply maxCoeff_In, Hne.
Qed.

Lemma stable_softmax_nonneg (l : list R) :
  l <> [] -> Forall (Rle 0) (stable_softmax l).
Proof.
  intros Hne. unfold stable_softmax.
  pose proof (exp_vals_sum_pos l Hne) as Hs.
  pose proof (exp_vals_nonneg l (maxCoeff l)) as He.
  revert Hs He.
  generalize (vsum (List.map std_exp (List.map (fun x => x - maxCoeff l) l))).
  generalize (List.map std_exp (List.map (fun x => x - maxCoeff l) l)).
  intros e s Hs He. induction He as [|x e Hx He IH]; simpl; constructor.
  - apply Rmult_le_pos; [exact Hx|]. left. apply Rinv_0_lt_compat. exact Hs.
  - exact IH.
Qed.

Lemma stable_softmax_sum (l : list R) :
  l <> [] -> vsum (stable_softmax l) = 1.
Proof.
  intros Hne. unfold stable_softmax. rewrite vsum_map_div.
  pose proof (exp_vals_sum_pos l Hne). field. lra.
Qed.

(** One entry of the softmax. *)
Lemma stable_softmax_lookup (l : list R) (a : nat) (x : R) :
  l !! a = Some x ->
  stable_softmax l !! a
  = Some (std_exp (x - maxCoeff l)
          / vsum (List.map std_exp (List.map (fun y => y - maxCoeff l) l))).
Proof.
  intros Hx. unfold stable_softmax.
  assert (Hmap : forall (A B : Type) (f : A -> B) (v : list A) (i : nat),
             List.map f v !! i = f <$> v !! i).
  { intros A B f v. induction v as [|y v IH]; intros [|i]; cbn; try reflexivity.
    apply IH. }
  rewrite !Hmap, Hx. reflexivity.
Qed.

(** A logit within 700 of the largest one gets a positive probability; one
    that is 746 or more below it gets probability zero. *)
Lemma stable_softmax_entry (l : list R) (a : nat) (x : R) :
  l !! a = Some x ->
  (maxCoeff l - x <= 700 -> exists q, stable_softmax l !! a = Some q /\ 0 < q)
  /\ (746 <= maxCoeff l - x -> stable_softmax l !! a = Some 0).
Proof.
  intros Hx. rewrite (stable_softmax_lookup l a x Hx).
  assert (Hne : l <> []) by (intros ->; discriminate).
  pose proof (exp_vals_sum_pos l Hne) as Hs. split.
  - intros Hgap. eexists. split; [reflexivity|].
    apply Rdiv_lt_0_compat; [apply std_exp_pos; lra|exact Hs].
  - intros Hgap. rewrite std_exp_underflows by lra. f_equal. unfold Rdiv. ring.
Qed.

(** ** The info-set index *)

Lemma sum_actions_acc (l : list InfoSet) (a : Z) :
  fold_left (fun start iset => (start + Z.of_nat (length (is_legal_actions iset)))%Z) l a
  = (a + sum_actions l)%Z.
Proof.
  unfold sum_actions. revert a. induction l as [|x l IH]; intros a; simpl; [lia|].
  rewrite IH, (IH (0 + _)%Z). lia.
Qed.

Lemma sum_actions_cons x l :
  sum_actions (x :: l) = (num_actions x + sum_actions l)%Z.
Proof. unfold sum_actions at 1. simpl. rewrite sum_actions_acc. reflexivity. Qed.

Lemma sum_actions_app l1 l2 :
  sum_actions (l1 ++ l2) = (sum_actions l1 + sum_actions l2)%Z.
Proof.
  induction l1 as [|x l1 IH]; [reflexivity|].
  simpl. rewrite !sum_actions_cons, IH. lia.
Qed.

Lemma sum_actions_nonneg l : (0 <= sum_actions l)%Z.
Proof.
  induction l as [|x l IH]; [reflexivity|].
  rewrite sum_actions_cons. unfold num_actions. lia.
Qed.

Lemma last_index_lookup l id j :
  last_index l id = Some j -> exists iset, l !! j = Some iset /\ is_id iset = id.
Proof.
  revert j. induction l as [|x l IH]; intros j; simpl; [discriminate|].
  destruct (last_index l id) as [k|].
  - intros [= <-]. apply IH. reflexivity.
  - destruct (decide (is_id x = id)); [|discriminate].
    intros [= <-]. exists x. auto.
Qed.

Lemma last_index_present l id :
  id ∈ List.map is_id l -> is_Some (last_index l id).
Proof.
  induction l as [|x l IH]; simpl; [intros H; inversion H|].
  intros H. destruct (last_index l id); [eauto|].
  destruct (decide (is_id x = id)); [eauto|].
  apply elem_of_cons in H as [H|H]; [congruence|].
  destruct (IH H) as [? ?]. discriminate.
Qed.

(** The inner loop of [build] leaves the info sets and the id map alone and
    advances the flat index by the number of actions. *)
Lemma build_inner_loop (i : Z) (id : InfoSetId) (acts : list Action) :
  forall idx f a,
    let r := fold_left (fun '(idx, flat_idx, a) act =>
                 (mkInfoSetIndex (info_sets_ idx) (id_to_idx_ idx)
                    (flat_to_pair_ idx ++ [(i, a)])
                    (insert (id, act) flat_idx (pair_to_flat_ idx))
                    (total_dim_ idx),
                  (flat_idx + 1)%Z, (a + 1)%Z))
               acts (idx, f, a) in
    info_sets_ (r.1.1) = info_sets_ idx
    /\ id_to_idx_ (r.1.1) = id_to_idx_ idx
    /\ r.1.2 = (f + Z.of_nat (length acts))%Z.
Proof.
  induction acts as [|act acts IH]; intros idx f a; simpl.
  - repeat split. lia.
  - specialize (IH (mkInfoSetIndex (info_sets_ idx) (id_to_idx_ idx)
                    (flat_to_pair_ idx ++ [(i, a)])
                    (insert (id, act) f (pair_to_flat_ idx))
                    (total_dim_ idx)) (f + 1)%Z (a + 1)%Z).
    simpl in IH. destruct IH as (H1 & H2 & H3).
    repeat split; [exact H1|exact H2|]. rewrite H3. lia.
Qed.

Lemma build_step_spec idx f i iset :
  let r := InfoSetIndex.build_step (idx, f, i) iset in
  info_sets_ (r.1.1) = info_sets_ idx ++ [iset]
  /\ id_to_idx_ (r.1.1) = <[is_id iset := i]> (id_to_idx_ idx)
  /\ r.1.2 = (f + num_actions iset)%Z
  /\ r.2 = (i + 1)%Z.
Proof.
  unfold InfoSetIndex.build_step.
  pose proof (build_inner_loop i (is_id iset) (is_legal_actions iset)
                (mkInfoSetIndex (info_sets_ idx ++ [iset])
                   (<[is_id iset := i]> (id_to_idx_ idx))
                   (flat_to_pair_ idx) (pair_to_flat_ idx) (total_dim_ idx))
                f 0%Z) as H.
  cbv zeta in H. destruct (fold_left _ _ _) as [[idx' f'] a'].
  simpl in *. tauto.
Qed.

Lemma build_fold_spec l :
  forall idx f i,
    let r := fold_left InfoSetIndex.build_step l (idx, f, i) in
    info_sets_ (r.1.1) = info_sets_ idx ++ l
    /\ r.1.2 = (f + sum_actions l)%Z
    /\ forall id,
         id_to_idx_ (r.1.1) !! id
         = match last_index l id with
           | Some j => Some (i + Z.of_nat j)%Z
           | None => id_to_idx_ idx !! id
           end.
Proof.
  induction l as [|x l IH]; intros idx f i; cbv zeta; cbn [fold_left].
  - simpl. rewrite app_nil_r. repeat split. unfold sum_actions. simpl. lia.
  - pose proof (build_step_spec idx f i x) as Hs. cbv zeta in Hs.
    destruct (InfoSetIndex.build_step (idx, f, i) x) as [[idx1 f1] i1].
    simpl in Hs. destruct Hs as (Hs1 & Hs2 & Hs3 & Hs4).
    specialize (IH idx1 f1 i1). cbv zeta in IH.
    destruct IH as (H1 & H2 & H3). split; [|split].
    + rewrite H1, Hs1, <- app_assoc. reflexivity.
    + rewrite H2, Hs3, sum_actions_cons. lia.
    + intros id. rewrite H3. cbn [last_index]. destruct (last_index l id) as [j|].
      * f_equal. lia.
      * rewrite Hs2. destruct (decide (is_id x = id)) as [->|Hne].
        -- rewrite lookup_insert_eq. f_equal. lia.
        -- rewrite lookup_insert_ne by exact Hne. reflexivity.
Qed.

Lemma build_spec l :
  info_sets_ (InfoSetIndex.build l) = l
  /\ InfoSetIndex.total_dim (InfoSetIndex.build l) = sum_actions l
  /\ forall id,
       id_to_idx_ (InfoSetIndex.build l) !! id = Z.of_nat <$> last_index l id.
Proof.
  unfold InfoSetIndex.build, InfoSetIndex.total_dim.
  pose proof (build_fold_spec l InfoSetIndex.empty 0%Z 0%Z) as H. cbv zeta in H.
  destruct (fold_left _ _ _) as [[idx f] i]. simpl in *.
  destruct H as (H1 & H2 & H3). repeat split; [exact H1|lia|].
  intros id. rewrite H3. destruct (last_index l id); simpl; [f_equal; lia|].
  apply lookup_empty.
Qed.

(** ** Building a strategy from flat logits *)

Lemma coeff_in_range (w : list R) (i : Z) :
  (0 <= i < Z.of_nat (length w))%Z -> exists x, coeff w i = Ok x.
Proof.
  intros Hi. unfold coeff.
  destruct (Z.ltb_spec i 0) as [?|_]; [lia|].
  destruct (w !! Z.to_nat i) as [x|] eqn:E; [eauto|].
  apply lookup_ge_None in E. lia.
Qed.

Lemma mapM_coeff (w : list R) (start : Z) (k : nat) :
  forall s,
    (0 <= start)%Z ->
    (start + Z.of_nat s + Z.of_nat k <= Z.of_nat (length w))%Z ->
    exists v, mapM (fun a => coeff w (start + Z.of_nat a)) (seq s k) = Ok v
              /\ length v = k.
Proof.
  induction k as [|k IH]; intros s H0 Hle; simpl.
  - exists []. auto.
  - destruct (coeff_in_range w (start + Z.of_nat s)) as [x Hx]; [lia|].
    destruct (IH (S s) H0) as (v & Hv & Hlen); [lia|].
    exists (x :: v). rewrite Hx. simpl. rewrite Hv. simpl. auto.
Qed.

Lemma info_set_start_build (l : list InfoSet) (a : nat) :
  InfoSetIndex.info_set_start (InfoSetIndex.build l) (Z.of_nat a)
  = sum_actions (take a l).
Proof.
  unfold InfoSetIndex.info_set_start.
  rewrite (proj1 (build_spec l)), Nat2Z.id. reflexivity.
Qed.

Lemma info_set_build (l : list InfoSet) (a : nat) :
  InfoSetIndex.info_set (InfoSetIndex.build l) (Z.of_nat a) = l !! a.
Proof.
  unfold InfoSetIndex.info_set.
  destruct (Z.ltb_spec (Z.of_nat a) 0); [lia|].
  rewrite (proj1 (build_spec l)), Nat2Z.id. reflexivity.
Qed.

Lemma from_logits_step_spec (l : list InfoSet) (w : list R) (s : Strategy)
    (a : nat) (x : InfoSet) :
  l !! a = Some x ->
  (sum_actions l <= Z.of_nat (length w))%Z ->
  exists v,
    Strategy.from_logits_step w (InfoSetIndex.build l) s (Z.of_nat a)
    = Ok (mkStrategy (<[is_id x := v]> (logits_ s))
                     (<[is_id x := is_legal_actions x]> (actions_ s)))
    /\ length v = length (is_legal_actions x).
Proof.
  intros Hx Hw. unfold Strategy.from_logits_step.
  rewrite info_set_build, Hx, info_set_start_build, Nat2Z.id.
  assert (Hsplit : sum_actions l
                   = (sum_actions (take a l) + num_actions x
                      + sum_actions (drop (S a) l))%Z).
  { rewrite <- (take_drop a l) at 1. rewrite sum_actions_app.
    rewrite (drop_S _ _ _ Hx), sum_actions_cons. lia. }
  pose proof (sum_actions_nonneg (take a l)).
  pose proof (sum_actions_nonneg (drop (S a) l)).
  destruct (mapM_coeff w (sum_actions (take a l)) (length (is_legal_actions x)) 0)
    as (v & Hv & Hlen); [lia|unfold num_actions in *; lia|].
  exists v. rewrite Hv. simpl. auto.
Qed.

Lemma from_logits_fold_spec (l : list InfoSet) (w : list R) :
  (sum_actions l <= Z.of_nat (length w))%Z ->
  forall suf a s,
    drop a l = suf ->
    exists s',
      foldM (Strategy.from_logits_step w (InfoSetIndex.build l)) s
            (List.map Z.of_nat (seq a (length suf))) = Ok s'
      /\ forall id,
           length <$> (logits_ s' !! id)
           = match last_index suf id with
             | Some j => (fun iset => length (is_legal_actions iset)) <$> suf !! j
             | None => length <$> (logits_ s !! id)
             end.
Proof.
  intros Hw. induction suf as [|x suf IH]; intros a s Hdrop.
  - exists s. simpl. auto.
  - assert (Hx : l !! a = Some x).
    { rewrite <- (Nat.add_0_r a), <- lookup_drop, Hdrop. reflexivity. }
    assert (Hdrop' : drop (S a) l = suf).
    { rewrite (drop_S _ _ _ Hx) in Hdrop. congruence. }
    destruct (from_logits_step_spec l w s a x Hx Hw) as (v & Hstep & Hlen).
    destruct (IH (S a)
                (mkStrategy (<[is_id x := v]> (logits_ s))
                            (<[is_id x := is_legal_actions x]> (actions_ s)))
                Hdrop') as (s' & Hs' & Hlook).
    exists s'. split.
    + cbn [length seq List.map foldM]. rewrite Hstep. exact Hs'.
    + intros id. rewrite Hlook. cbn [last_index].
      destruct (last_index suf id) as [j|]; [reflexivity|].
      cbn [logits_]. destruct (decide (is_id x = id)) as [->|Hne].
      * rewrite lookup_insert_eq. simpl. congruence.
      * rewrite lookup_insert_ne by exact Hne. reflexivity.
Qed.

(** ** Induction over game trees *)

Lemma GameNode_tree_ind (P : GameNode -> Prop) :
  (forall n, Forall (fun e => P (child e)) (children n) -> P n) ->
  forall n, P n.
Proof.
  intros H.
  exact (fix IH (n : GameNode) : P n :=
           H n ((fix go (l : list ChildEdge) : Forall (fun e => P (child e)) l :=
                   match l with
                   | [] => List.Forall_nil _
                   | e :: l' => List.Forall_cons _ e l' (IH (child e)) (go l')
                   end) (children n))).
Qed.

(** ** Unfolding equations *)

Lemma ev_recursive_eq node sigma rp0 rp1 rc ov :
  ev_recursive node sigma rp0 rp1 rc ov
  = match type node with
    | Terminal => Ok (rp0 * rp1 * rc * payoff node)
    | Chance =>
        ev_chance_loop (fun c a b d => ev_recursive c sigma a b d ov)
          rp0 rp1 rc (children node) 0
    | Player =>
        action_probs ←
          (match ov with
           | Some (id, a) =>
               if String.eqb id (info_set_id node)
               then Ok (override_probs (legal_actions node) a)
               else Strategy.probs sigma (info_set_id node)
           | None => Strategy.probs sigma (info_set_id node)
           end);
        ev_player_loop (fun c a b d => ev_recursive c sigma a b d ov)
          (player node) action_probs rp0 rp1 rc (children node) 0%Z 0
    end.
Proof. destruct node as [[] ? ? ? ? ? ? ? ? ? ?], ov as [[? ?]|]; reflexivity. Qed.

Lemma br_recursive_eq node sigma p ro rc :
  br_recursive node sigma p ro rc
  = match type node with
    | Terminal =>
        Ok (Fin (ro * rc * (if (p =? PLAYER_1)%Z then - payoff node else payoff node)))
    | Chance =>
        br_chance_loop (fun c a b => br_recursive c sigma p a b)
          ro rc (children node) (Fin 0)
    | Player =>
        if (player node =? p)%Z then
          br_max_loop (fun c a b => br_recursive c sigma p a b)
            ro rc (children node) NegInf
        else
          probs ← Strategy.probs sigma (info_set_id node);
          br_opponent_loop (fun c a b => br_recursive c sigma p a b)
            probs ro rc (children node) 0%Z (Fin 0)
    end.
Proof. destruct node as [[] ? ? ? ? ? ? ? ? ? ?]; reflexivity. Qed.

Lemma fits_eq sigma node :
  fits sigma node
  = match type node with
    | Terminal => true
    | Chance => forallb (fun e => fits sigma (child e)) (children node)
    | Player =>
        ((player node =? PLAYER_0)%Z || (player node =? PLAYER_1)%Z)
        && Nat.eqb (length (legal_actions node)) (length (children node))
        && negb (Nat.eqb (length (children node)) 0)
        && match logits_ sigma !! info_set_id node with
           | Some l => Nat.eqb (length l) (length (children node))
           | None => false
           end
        && forallb (fun e => fits sigma (child e)) (children node)
    end.
Proof. destruct node as [[] ? ? ? ? ? ? ? ? ? ?]; reflexivity. Qed.

Lemma forallb_Forall_child (f : GameNode -> bool) (l : list ChildEdge) :
  forallb (fun e => f (child e)) l = true ->
  Forall (fun e => f (child e) = true) l.
Proof.
  intros H. apply Forall_forall. intros e He.
  rewrite forallb_forall in H. apply H. apply list_elem_of_In. exact He.
Qed.

Lemma coeff_app (pre rest : list R) (a : R) :
  coeff (pre ++ a :: rest) (Z.of_nat (length pre)) = Ok a.
Proof.
  unfold coeff. destruct (Z.ltb_spec (Z.of_nat (length pre)) 0); [lia|].
  rewrite Nat2Z.id, list_lookup_middle by reflexivity. reflexivity.
Qed.

Lemma snoc_index (pre : list R) (a : R) :
  (Z.of_nat (length pre) + 1)%Z = Z.of_nat (length (pre ++ [a])).
Proof. rewrite length_app. simpl. lia. Qed.

(** ** Best response against expected value *)

Section BestResponse.
Variable sigma : Strategy.
Variable p : PlayerId.
Hypothesis Hp : p = PLAYER_0 \/ p = PLAYER_1.

Lemma chance_loops_dominate (edges : list ChildEdge) :
  Forall (fun e => br_dominates sigma p (child e)) edges ->
  forall rp0 rp1 rc ev0 v0,
    0 <= own_reach p rp0 rp1 ->
    payoff_sign p * ev0 <= own_reach p rp0 rp1 * v0 ->
    exists e v,
      ev_chance_loop (fun c a b d => ev_recursive c sigma a b d None)
        rp0 rp1 rc edges ev0 = Ok e
      /\ br_chance_loop (fun c a b => br_recursive c sigma p a b)
           (opp_reach p rp0 rp1) rc edges (Fin v0) = Ok (Fin v)
      /\ payoff_sign p * e <= own_reach p rp0 rp1 * v.
Proof.
  induction 1 as [|x edges Hx _ IH]; intros rp0 rp1 rc ev0 v0 Hown Hinv.
  - exists ev0, v0. simpl. auto.
  - destruct (Hx rp0 rp1 (rc * probability x) Hown) as (e1 & v1 & He1 & Hv1 & Hle).
    cbn [ev_chance_loop br_chance_loop]. rewrite He1, Hv1. simpl.
    apply IH; [exact Hown|]. lra.
Qed.

Lemma max_loops_dominate (probs : list R) (edges : list ChildEdge) :
  Forall (fun e => br_dominates sigma p (child e)) edges ->
  forall pre rest rp0 rp1 rc ev0 M S,
    probs = pre ++ rest ->
    length rest = length edges ->
    Forall (Rle 0) rest ->
    0 <= own_reach p rp0 rp1 ->
    0 <= S ->
    payoff_sign p * ev0 <= own_reach p rp0 rp1 * S * M ->
    exists e M',
      ev_player_loop (fun c a b d => ev_recursive c sigma a b d None)
        p probs rp0 rp1 rc edges (Z.of_nat (length pre)) ev0 = Ok e
      /\ br_max_loop (fun c a b => br_recursive c sigma p a b)
           (opp_reach p rp0 rp1) rc edges (Fin M) = Ok (Fin M')
      /\ payoff_sign p * e <= own_reach p rp0 rp1 * (S + vsum rest) * M'.
Proof.
  induction 1 as [|x edges Hx _ IH];
    intros pre rest rp0 rp1 rc ev0 M S Hprobs Hlen Hpos Hown HS Hinv.
  - destruct rest; [|discriminate]. exists ev0, M. simpl.
    rewrite Rplus_0_r. auto.
  - destruct rest as [|a rest]; [discriminate|].
    injection Hlen as Hlen. inversion Hpos as [|? ? Ha Hpos']; subst.
    cbn [ev_player_loop br_max_loop]. rewrite coeff_app. simpl.
    set (n0 := if (p =? PLAYER_0)%Z then rp0 * a else rp0).
    set (n1 := if (p =? PLAYER_0)%Z then rp1 else rp1 * a).
    assert (Hown' : own_reach p n0 n1 = own_reach p rp0 rp1 * a).
    { unfold own_reach, n0, n1. destruct (p =? PLAYER_0)%Z; reflexivity. }
    assert (Hopp' : opp_reach p n0 n1 = opp_reach p rp0 rp1).
    { unfold opp_reach, n0, n1. destruct (p =? PLAYER_0)%Z; reflexivity. }
    destruct (Hx n0 n1 rc) as (e1 & v1 & He1 & Hv1 & Hle).
    { rewrite Hown'. apply Rmult_le_pos; assumption. }
    rewrite Hown', Hopp' in *. rewrite He1, Hv1. simpl.
    rewrite snoc_index with (a := a).
    destruct (IH (pre ++ [a]) rest rp0 rp1 rc (ev0 + e1) (Rmax M v1) (S + a))
      as (e & M' & He & HM' & Hfin).
    + rewrite <- app_assoc. reflexivity.
    + exact Hlen.
    + exact Hpos'.
    + exact Hown.
    + lra.
    + pose proof (Rmax_l M v1). pose proof (Rmax_r M v1).
      assert (0 <= own_reach p rp0 rp1 * S * (Rmax M v1 - M))
        by (apply Rmult_le_pos; [apply Rmult_le_pos; assumption|lra]).
      assert (0 <= own_reach p rp0 rp1 * a * (Rmax M v1 - v1))
        by (apply Rmult_le_pos; [apply Rmult_le_pos; assumption|lra]).
      lra.
    + exists e, M'. split; [exact He|]. split; [exact HM'|].
      simpl. replace (S + (a + vsum rest)) with (S + a + vsum rest) by lra.
      exact Hfin.
Qed.

Lemma opponent_loops_dominate (pl : PlayerId) (probs : list R)
    (edges : list ChildEdge) :
  (pl = PLAYER_0 \/ pl = PLAYER_1) -> pl <> p ->
  Forall (fun e => br_dominates sigma p (child e)) edges ->
  forall pre rest rp0 rp1 rc ev0 v0,
    probs = pre ++ rest ->
    length rest = length edges ->
    0 <= own_reach p rp0 rp1 ->
    payoff_sign p * ev0 <= own_reach p rp0 rp1 * v0 ->
    exists e v,
      ev_player_loop (fun c a b d => ev_recursive c sigma a b d None)
        pl probs rp0 rp1 rc edges (Z.of_nat (length pre)) ev0 = Ok e
      /\ br_opponent_loop (fun c a b => br_recursive c sigma p a b)
           probs (opp_reach p rp0 rp1) rc edges (Z.of_nat (length pre)) (Fin v0)
         = Ok (Fin v)
      /\ payoff_sign p * e <= own_reach p rp0 rp1 * v.
Proof.
  intros Hpl Hne. induction 1 as [|x edges Hx _ IH];
    intros pre rest rp0 rp1 rc ev0 v0 Hprobs Hlen Hown Hinv.
  - exists ev0, v0. simpl. auto.
  - destruct rest as [|a rest]; [discriminate|].
    injection Hlen as Hlen. subst probs.
    cbn [ev_player_loop br_opponent_loop]. rewrite coeff_app. simpl.
    set (n0 := if (pl =? PLAYER_0)%Z then rp0 * a else rp0).
    set (n1 := if (pl =? PLAYER_0)%Z then rp1 else rp1 * a).
    assert (Hown' : own_reach p n0 n1 = own_reach p rp0 rp1).
    { unfold own_reach, n0, n1.
      destruct Hp as [-> | ->], Hpl as [-> | ->]; try congruence; reflexivity. }
    assert (Hopp' : opp_reach p n0 n1 = opp_reach p rp0 rp1 * a).
    { unfold opp_reach, n0, n1.
      destruct Hp as [-> | ->], Hpl as [-> | ->]; try congruence; reflexivity. }
    destruct (Hx n0 n1 rc) as (e1 & v1 & He1 & Hv1 & Hle).
    { rewrite Hown'. exact Hown. }
    rewrite Hown', Hopp' in *. rewrite He1, Hv1. simpl.
    rewrite snoc_index with (a := a).
    destruct (IH (pre ++ [a]) rest rp0 rp1 rc (ev0 + e1) (v0 + v1))
      as (e & v & He & Hv & Hfin).
    + rewrite <- app_assoc. reflexivity.
    + exact Hlen.
    + exact Hown.
    + lra.
    + exists e, v. auto.
Qed.

End BestResponse.

Lemma Forall_child_impl (P Q : GameNode -> Prop) (l : list ChildEdge) :
  Forall (fun e => P (child e) -> Q (child e)) l ->
  Forall (fun e => P (child e)) l ->
  Forall (fun e => Q (child e)) l.
Proof.
  intros H1 H2. induction H1 as [|x l Hx _ IH]; [constructor|].
  inversion H2; subst. constructor; auto.
Qed.

Lemma fits_br_dominates (sigma : Strategy) (p : PlayerId) :
  p = PLAYER_0 \/ p = PLAYER_1 ->
  forall node, fits sigma node = true -> br_dominates sigma p node.
Proof.
  intros Hp node. induction node as [n IH] using GameNode_tree_ind.
  intros Hfits. rewrite fits_eq in Hfits.
  intros rp0 rp1 rc Hown. rewrite ev_recursive_eq, br_recursive_eq.
  destruct (type n).
  - (* chance *)
    apply chance_loops_dominate; [|exact Hown|lra].
    apply (Forall_child_impl (fun c => fits sigma c = true) (br_dominates sigma p) _ IH),
      forallb_Forall_child, Hfits.
  - (* player *)
    apply andb_prop in Hfits as [Hfits Hch].
    apply andb_prop in Hfits as [Hfits Hlog].
    apply andb_prop in Hfits as [Hfits Hne].
    apply andb_prop in Hfits as [Hpl Hlegal].
    pose proof (Forall_child_impl (fun c => fits sigma c = true)
                  (br_dominates sigma p) _ IH (forallb_Forall_child _ _ Hch)) as Hdom.
    unfold Strategy.probs.
    destruct (logits_ sigma !! info_set_id n) as [l|]; [|discriminate].
    apply Nat.eqb_eq in Hlog. apply negb_true_iff, Nat.eqb_neq in Hne.
    assert (Hl : l <> []) by (intros ->; simpl in Hlog; congruence).
    pose proof (stable_softmax_sum l Hl) as Hsum.
    pose proof (stable_softmax_nonneg l Hl) as Hpos.
    pose proof (stable_softmax_length l) as Hslen. rewrite Hlog in Hslen.
    simpl.
    destruct (Z.eqb_spec (player n) p) as [Heq|Hneq].
    + (* the best-responding player moves *)
      rewrite Heq.
      destruct (children n) as [|x ch]; [simpl in Hne; congruence|].
      destruct (stable_softmax l) as [|a rest] eqn:Es; [discriminate|].
      injection Hslen as Hslen.
      apply Forall_cons in Hdom as [Hx Hdom'].
      apply Forall_cons in Hpos as [Ha Hpos'].
      cbn [ev_player_loop br_max_loop]. cbn [coeff Z.ltb Z.compare Z.to_nat].
      simpl lookup. simpl.
      set (n0 := if (p =? PLAYER_0)%Z then rp0 * a else rp0).
      set (n1 := if (p =? PLAYER_0)%Z then rp1 else rp1 * a).
      assert (Hown' : own_reach p n0 n1 = own_reach p rp0 rp1 * a).
      { unfold own_reach, n0, n1. destruct (p =? PLAYER_0)%Z; reflexivity. }
      assert (Hopp' : opp_reach p n0 n1 = opp_reach p rp0 rp1).
      { unfold opp_reach, n0, n1. destruct (p =? PLAYER_0)%Z; reflexivity. }
      destruct (Hx n0 n1 rc) as (e1 & v1 & He1 & Hv1 & Hle).
      { rewrite Hown'. apply Rmult_le_pos; assumption. }
      rewrite Hown', Hopp' in *. rewrite He1, Hv1. simpl.
      destruct (max_loops_dominate sigma p (a :: rest) ch Hdom'
                  [a] rest rp0 rp1 rc (0 + e1) v1 a)
        as (e & M' & He & HM' & Hfin); try assumption; try reflexivity.
      * lra.
      * exists e, M'. split; [exact He|]. split; [exact HM'|].
        simpl in Hsum. rewrite Hsum in Hfin. lra.
    + (* the other player moves *)
      assert (Hpl' : player n = PLAYER_0 \/ player n = PLAYER_1).
      { apply orb_prop in Hpl as [H|H]; apply Z.eqb_eq in H; auto. }
      apply (opponent_loops_dominate sigma p Hp (player n) (stable_softmax l)
               (children n) Hpl' Hneq Hdom [] (stable_softmax l));
        [reflexivity|exact Hslen|exact Hown|lra].
  - (* terminal *)
    eexists _, _. split; [reflexivity|]. split; [reflexivity|].
    unfold payoff_sign, own_reach, opp_reach.
    destruct Hp as [-> | ->]; simpl; lra.
Qed.

(** C7: for a strategy that covers the game tree and a player p in {0,1},
    the best-response value at the root is at least p's expected value
    (the negated player-0 value for p = 1), hence at least that value
    minus 1e-9. *)
Theorem best_response_value_at_least_ev (root : GameNode) (sigma : Strategy)
    (p : PlayerId) :
  p = PLAYER_0 \/ p = PLAYER_1 ->
  fits sigma root = true ->
  exists ev br,
    compute_ev root sigma = Ok ev
    /\ best_response_value root sigma p = Ok (Fin br)
    /\ (if (p =? PLAYER_0)%Z then ev else - ev) - 1e-9 <= br.
Proof.
  intros Hp Hfits.
  destruct (fits_br_dominates sigma p Hp root Hfits 1 1 1) as (e & v & He & Hv & Hle).
  { unfold own_reach. destruct (p =? PLAYER_0)%Z; lra. }
  exists e, v. split; [exact He|]. split.
  - unfold best_response_value. unfold opp_reach in Hv.
    destruct (p =? PLAYER_0)%Z; exact Hv.
  - unfold payoff_sign, own_reach in Hle.
    destruct (p =? PLAYER_0)%Z; lra.
Qed.

Lemma kuhn_uniform_fits : fits kuhn_uniform kuhn_tree = true.
Proof. vm_compute. reflexivity. Qed.

Lemma best_response_value_at_least_ev_witness :
  (PLAYER_1 = PLAYER_0 \/ PLAYER_1 = PLAYER_1)
  /\ fits kuhn_uniform kuhn_tree = true
  /\ exists ev br,
       compute_ev kuhn_tree kuhn_uniform = Ok ev
       /\ best_response_value kuhn_tree kuhn_uniform PLAYER_1 = Ok (Fin br)
       /\ (if (PLAYER_1 =? PLAYER_0)%Z then ev else - ev) - 1e-9 <= br.
Proof.
  assert (H1 : PLAYER_1 = PLAYER_0 \/ PLAYER_1 = PLAYER_1) by (right; reflexivity).
  assert (H2 : fits kuhn_uniform kuhn_tree = true) by (vm_compute; reflexivity).
  split; [exact H1|]. split; [exact H2|].
  exact (best_response_value_at_least_ev kuhn_tree kuhn_uniform PLAYER_1 H1 H2).
Defined.

(** ** Override with an action that is not legal *)

Lemma not_legal_at_eq id a node :
  not_legal_at id a node
  = match type node with
    | Player =>
        (if String.eqb id (info_set_id node) then negb (is_legal node a) else true)
        && forallb (fun e => not_legal_at id a (child e)) (children node)
    | _ => forallb (fun e => not_legal_at id a (child e)) (children node)
    end.
Proof. destruct node as [[] ? ? ? ? ? ? ? ? ? ?]; reflexivity. Qed.

Lemma ev_zeroed_eq id node sigma rp0 rp1 rc :
  ev_zeroed id node sigma rp0 rp1 rc
  = match type node with
    | Terminal => Ok (rp0 * rp1 * rc * payoff node)
    | Chance =>
        ev_chance_loop (fun c a b d => ev_zeroed id c sigma a b d)
          rp0 rp1 rc (children node) 0
    | Player =>
        action_probs ←
          (if String.eqb id (info_set_id node)
           then Ok (repeat 0 (length (legal_actions node)))
           else Strategy.probs sigma (info_set_id node));
        ev_player_loop (fun c a b d => ev_zeroed id c sigma a b d)
          (player node) action_probs rp0 rp1 rc (children node) 0%Z 0
    end.
Proof. destruct node as [[] ? ? ? ? ? ? ? ? ? ?]; reflexivity. Qed.

Lemma override_probs_not_legal (legal : list Action) (a : Action) :
  existsb (fun l => Action_eqb l a) legal = false ->
  override_probs legal a = repeat 0 (length legal).
Proof.
  induction legal as [|l legal IH]; simpl; [reflexivity|].
  intros H. apply orb_false_elim in H as [H1 H2].
  rewrite H1, (IH H2). reflexivity.
Qed.

Lemma override_probs_length (legal : list Action) (a : Action) :
  length (override_probs legal a) = length legal.
Proof.
  induction legal as [|l legal IH]; simpl; [reflexivity|].
  destruct (Action_eqb l a); simpl; [rewrite repeat_length|rewrite IH]; reflexivity.
Qed.

(** Two traversals that agree on the children agree on the loops. *)
Lemma ev_chance_loop_agree (rec1 rec2 : GameNode -> R -> R -> R -> result R)
    (edges : list ChildEdge) :
  Forall (fun e => forall a b d, exists v,
            rec1 (child e) a b d = Ok v /\ rec2 (child e) a b d = Ok v) edges ->
  forall rp0 rp1 rc ev0,
    exists v, ev_chance_loop rec1 rp0 rp1 rc edges ev0 = Ok v
              /\ ev_chance_loop rec2 rp0 rp1 rc edges ev0 = Ok v.
Proof.
  induction 1 as [|x edges Hx _ IH]; intros rp0 rp1 rc ev0; simpl; [eauto|].
  destruct (Hx rp0 rp1 (rc * probability x)) as (v & -> & ->). simpl. apply IH.
Qed.

Lemma ev_player_loop_agree (rec1 rec2 : GameNode -> R -> R -> R -> result R)
    (pl : PlayerId) (probs : list R) (edges : list ChildEdge) :
  Forall (fun e => forall a b d, exists v,
            rec1 (child e) a b d = Ok v /\ rec2 (child e) a b d = Ok v) edges ->
  forall pre rest rp0 rp1 rc ev0,
    probs = pre ++ rest ->
    length rest = length edges ->
    exists v,
      ev_player_loop rec1 pl probs rp0 rp1 rc edges (Z.of_nat (length pre)) ev0 = Ok v
      /\ ev_player_loop rec2 pl probs rp0 rp1 rc edges (Z.of_nat (length pre)) ev0
         = Ok v.
Proof.
  induction 1 as [|x edges Hx _ IH]; intros pre rest rp0 rp1 rc ev0 Hprobs Hlen;
    simpl; [eauto|].
  destruct rest as [|a rest]; [discriminate|]. injection Hlen as Hlen. subst probs.
  rewrite coeff_app. simpl.
  destruct (Hx (if (pl =? PLAYER_0)%Z then rp0 * a else rp0)
               (if (pl =? PLAYER_0)%Z then rp1 else rp1 * a) rc) as (v & -> & ->).
  simpl. rewrite snoc_index with (a := a).
  apply (IH (pre ++ [a]) rest); [rewrite <- app_assoc; reflexivity|exact Hlen].
Qed.

Lemma ev_override_agrees_zeroed (sigma : Strategy) (id : InfoSetId) (a : Action) :
  forall node,
    fits sigma node = true ->
    not_legal_at id a node = true ->
    forall rp0 rp1 rc, exists v,
      ev_recursive node sigma rp0 rp1 rc (Some (id, a)) = Ok v
      /\ ev_zeroed id node sigma rp0 rp1 rc = Ok v.
Proof.
  intros node. induction node as [n IH] using GameNode_tree_ind.
  intros Hfits Hnl rp0 rp1 rc.
  rewrite fits_eq in Hfits. rewrite not_legal_at_eq in Hnl.
  rewrite ev_recursive_eq, ev_zeroed_eq.
  assert (Hagree : type n <> Terminal ->
            Forall (fun e => forall a0 b d, exists v,
                      ev_recursive (child e) sigma a0 b d (Some (id, a)) = Ok v
                      /\ ev_zeroed id (child e) sigma a0 b d = Ok v) (children n)).
  { intros Hty.
    assert (H1 : Forall (fun e => fits sigma (child e) = true) (children n)).
    { apply forallb_Forall_child. destruct (type n); [exact Hfits| |congruence].
      apply andb_prop in Hfits as [_ H]. exact H. }
    assert (H2 : Forall (fun e => not_legal_at id a (child e) = true) (children n)).
    { apply forallb_Forall_child. destruct (type n); [exact Hnl| |congruence].
      apply andb_prop in Hnl as [_ H]. exact H. }
    clear -IH H1 H2. induction IH as [|x l Hx _ IHl]; [constructor|].
    apply Forall_cons in H1 as [? ?]. apply Forall_cons in H2 as [? ?].
    constructor; [intros; apply Hx; assumption|apply IHl; assumption]. }
  destruct (type n) eqn:Ety.
  - apply ev_chance_loop_agree, Hagree. discriminate.
  - apply andb_prop in Hfits as [Hfits _].
    apply andb_prop in Hfits as [Hfits Hlog].
    apply andb_prop in Hfits as [Hfits _].
    apply andb_prop in Hfits as [_ Hlegal].
    apply andb_prop in Hnl as [Hnl _].
    apply Nat.eqb_eq in Hlegal.
    destruct (String.eqb id (info_set_id n)).
    + apply negb_true_iff in Hnl. unfold is_legal in Hnl.
      rewrite (override_probs_not_legal _ _ Hnl). simpl.
      apply (ev_player_loop_agree _ _ _ _ _ (Hagree ltac:(discriminate)) []
               (repeat 0 (length (legal_actions n)))); [reflexivity|].
      rewrite repeat_length. exact Hlegal.
    + unfold Strategy.probs.
      destruct (logits_ sigma !! info_set_id n) as [l|]; [|discriminate].
      apply Nat.eqb_eq in Hlog. simpl.
      apply (ev_player_loop_agree _ _ _ _ _ (Hagree ltac:(discriminate)) []
               (stable_softmax l)); [reflexivity|].
      rewrite stable_softmax_length. exact Hlog.
  - eauto.
Qed.

(** A subtree entered with a zero reach of either player is worth zero. *)
Lemma ev_chance_loop_zero (rec : GameNode -> R -> R -> R -> result R)
    (edges : list ChildEdge) :
  Forall (fun e => forall a b d, a = 0 \/ b = 0 -> rec (child e) a b d = Ok 0) edges ->
  forall rp0 rp1 rc ev0,
    rp0 = 0 \/ rp1 = 0 ->
    ev_chance_loop rec rp0 rp1 rc edges ev0 = Ok ev0.
Proof.
  induction 1 as [|x edges Hx _ IH]; intros rp0 rp1 rc ev0 Hz; simpl; [reflexivity|].
  rewrite (Hx _ _ _ Hz). simpl. rewrite Rplus_0_r. apply IH, Hz.
Qed.

Lemma ev_player_loop_zero (rec : GameNode -> R -> R -> R -> result R)
    (pl : PlayerId) (probs : list R) (edges : list ChildEdge) :
  Forall (fun e => forall a b d, a = 0 \/ b = 0 -> rec (child e) a b d = Ok 0) edges ->
  forall pre rest rp0 rp1 rc ev0,
    probs = pre ++ rest ->
    length rest = length edges ->
    rp0 = 0 \/ rp1 = 0 ->
    ev_player_loop rec pl probs rp0 rp1 rc edges (Z.of_nat (length pre)) ev0 = Ok ev0.
Proof.
  induction 1 as [|x edges Hx _ IH]; intros pre rest rp0 rp1 rc ev0 Hprobs Hlen Hz;
    simpl; [reflexivity|].
  destruct rest as [|a rest]; [discriminate|]. injection Hlen as Hlen. subst probs.
  rewrite coeff_app. simpl. rewrite Hx.
  - simpl. rewrite Rplus_0_r, snoc_index with (a := a).
    apply (IH (pre ++ [a]) rest); [rewrite <- app_assoc; reflexivity|exact Hlen|exact Hz].
  - destruct (pl =? PLAYER_0)%Z, Hz as [-> | ->]; auto; [left|right]; ring.
Qed.

(** With the zero vector as action probabilities every child is entered with
    a zero reach of the acting player. *)
Lemma ev_player_loop_zero_probs (rec : GameNode -> R -> R -> R -> result R)
    (pl : PlayerId) (probs : list R) (edges : list ChildEdge) :
  Forall (fun e => forall a b d, a = 0 \/ b = 0 -> rec (child e) a b d = Ok 0) edges ->
  forall pre rest rp0 rp1 rc ev0,
    probs = pre ++ rest ->
    length rest = length edges ->
    Forall (eq 0) rest ->
    ev_player_loop rec pl probs rp0 rp1 rc edges (Z.of_nat (length pre)) ev0 = Ok ev0.
Proof.
  induction 1 as [|x edges Hx _ IH]; intros pre rest rp0 rp1 rc ev0 Hprobs Hlen Hz;
    simpl; [reflexivity|].
  destruct rest as [|a rest]; [discriminate|]. injection Hlen as Hlen. subst probs.
  apply Forall_cons in Hz as [<- Hz].
  rewrite coeff_app. simpl. rewrite Hx.
  - simpl. rewrite Rplus_0_r, snoc_index with (a := 0).
    apply (IH (pre ++ [0]) rest); [rewrite <- app_assoc; reflexivity|exact Hlen|exact Hz].
  - destruct (pl =? PLAYER_0)%Z; [left|right]; ring.
Qed.

Lemma Forall_repeat_zero (k : nat) : Forall (eq 0) (repeat 0 k).
Proof. induction k; simpl; constructor; auto. Qed.

Lemma ev_recursive_zero_reach (sigma : Strategy) (ov : option (InfoSetId * Action)) :
  forall node,
    fits sigma node = true ->
    forall rp0 rp1 rc,
      rp0 = 0 \/ rp1 = 0 ->
      ev_recursive node sigma rp0 rp1 rc ov = Ok 0.
Proof.
  intros node. induction node as [n IH] using GameNode_tree_ind.
  intros Hfits rp0 rp1 rc Hz. rewrite fits_eq in Hfits. rewrite ev_recursive_eq.
  destruct (type n).
  - apply ev_chance_loop_zero; [|exact Hz].
    apply (Forall_child_impl (fun c => fits sigma c = true)
             (fun c => forall a b d, a = 0 \/ b = 0 ->
                       ev_recursive c sigma a b d ov = Ok 0) _ IH),
      forallb_Forall_child, Hfits.
  - apply andb_prop in Hfits as [Hfits Hch].
    apply andb_prop in Hfits as [Hfits Hlog].
    apply andb_prop in Hfits as [Hfits _].
    apply andb_prop in Hfits as [_ Hlegal].
    apply Nat.eqb_eq in Hlegal.
    pose proof (Forall_child_impl (fun c => fits sigma c = true)
                  (fun c => forall a b d, a = 0 \/ b = 0 ->
                            ev_recursive c sigma a b d ov = Ok 0) _ IH
                  (forallb_Forall_child _ _ Hch)) as Hzero.
    unfold Strategy.probs.
    destruct (logits_ sigma !! info_set_id n) as [l|]; [|discriminate].
    apply Nat.eqb_eq in Hlog.
    assert (Hsig : ev_player_loop (fun c a b d => ev_recursive c sigma a b d ov)
                     (player n) (stable_softmax l) rp0 rp1 rc (children n) 0%Z 0
                   = Ok 0).
    { apply (ev_player_loop_zero _ _ _ _ Hzero [] (stable_softmax l));
        [reflexivity| |exact Hz]. rewrite stable_softmax_length. exact Hlog. }
    destruct ov as [[id a]|]; [|exact Hsig].
    destruct (String.eqb id (info_set_id n)); [|exact Hsig]. simpl.
    apply (ev_player_loop_zero _ _ _ _ Hzero [] (override_probs (legal_actions n) a));
      [reflexivity| |exact Hz]. rewrite override_probs_length. exact Hlegal.
  - f_equal. destruct Hz as [-> | ->]; ring.
Qed.

Lemma info_set_contributes_zero_eq id a sigma node :
  info_set_contributes_zero id a sigma node
  = ((type node = Player -> info_set_id node = id ->
      forall rp0 rp1 rc,
        ev_recursive node sigma rp0 rp1 rc (Some (id, a)) = Ok 0)
     /\ match type node with
        | Terminal => True
        | _ => fold_right
                 (fun e acc => info_set_contributes_zero id a sigma (child e) /\ acc)
                 True (children node)
        end).
Proof. destruct node; reflexivity. Qed.

Lemma info_set_nodes_contribute_zero (sigma : Strategy) (id : InfoSetId) (a : Action) :
  forall node,
    fits sigma node = true ->
    not_legal_at id a node = true ->
    info_set_contributes_zero id a sigma node.
Proof.
  intros node. induction node as [n IH] using GameNode_tree_ind.
  intros Hfits Hnl. rewrite info_set_contributes_zero_eq.
  rewrite fits_eq in Hfits. rewrite not_legal_at_eq in Hnl. split.
  - intros Hty Hid rp0 rp1 rc.
    rewrite ev_recursive_eq. rewrite Hty in *.
    apply andb_prop in Hfits as [Hfits Hch].
    apply andb_prop in Hfits as [Hfits _].
    apply andb_prop in Hfits as [Hfits _].
    apply andb_prop in Hfits as [_ Hlegal].
    apply andb_prop in Hnl as [Hnl _].
    apply Nat.eqb_eq in Hlegal.
    rewrite Hid, String.eqb_refl in *.
    apply negb_true_iff in Hnl. unfold is_legal in Hnl.
    rewrite (override_probs_not_legal _ _ Hnl). simpl.
    apply (ev_player_loop_zero_probs _ _ _ _
             (Forall_impl _ _ _ (forallb_Forall_child _ _ Hch)
                (fun e He => ev_recursive_zero_reach sigma _ (child e) He))
             [] (repeat 0 (length (legal_actions n))));
      [reflexivity| |apply Forall_repeat_zero].
    rewrite repeat_length. exact Hlegal.
  - assert (Hch : type n <> Terminal ->
              Forall (fun e => info_set_contributes_zero id a sigma (child e))
                     (children n)).
    { intros Hty.
      assert (H1 : Forall (fun e => fits sigma (child e) = true) (children n)).
      { apply forallb_Forall_child. destruct (type n); [exact Hfits| |congruence].
        apply andb_prop in Hfits as [_ H]. exact H. }
      assert (H2 : Forall (fun e => not_legal_at id a (child e) = true) (children n)).
      { apply forallb_Forall_child. destruct (type n); [exact Hnl| |congruence].
        apply andb_prop in Hnl as [_ H]. exact H. }
      clear -IH H1 H2. induction IH as [|x l Hx _ IHl]; [constructor|].
      apply Forall_cons in H1 as [? ?]. apply Forall_cons in H2 as [? ?].
      constructor; [apply Hx; assumption|apply IHl; assumption]. }
    assert (Hfold : forall l,
              Forall (fun e => info_set_contributes_zero id a sigma (child e)) l ->
              fold_right
                (fun e acc => info_set_contributes_zero id a sigma (child e) /\ acc)
                True l).
    { induction 1; simpl; auto. }
    destruct (type n); [apply Hfold, Hch; discriminate| |exact I].
    apply Hfold, Hch. discriminate.
Qed.



(** ** Strategies over the index of a constructed game *)

Lemma fits_with_eq len node :
  fits_with len node
  = match type node with
    | Terminal => true
    | Chance => forallb (fun e => fits_with len (child e)) (children node)
    | Player =>
        ((player node =? PLAYER_0)%Z || (player node =? PLAYER_1)%Z)
        && Nat.eqb (length (legal_actions node)) (length (children node))
        && negb (Nat.eqb (length (children node)) 0)
        && match len (info_set_id node) with
           | Some l => Nat.eqb l (length (children node))
           | None => false
           end
        && forallb (fun e => fits_with len (child e)) (children node)
    end.
Proof. destruct node as [[] ? ? ? ? ? ? ? ? ? ?]; reflexivity. Qed.

Lemma forallb_child_ext (f g : GameNode -> bool) (l : list ChildEdge) :
  Forall (fun e => f (child e) = g (child e)) l ->
  forallb (fun e => f (child e)) l = forallb (fun e => g (child e)) l.
Proof. induction 1 as [|x l Hx _ IH]; simpl; congruence. Qed.

Lemma fits_fits_with sigma len :
  (forall id, length <$> (logits_ sigma !! id) = len id) ->
  forall node, fits sigma node = fits_with len node.
Proof.
  intros Hlen node. induction node as [n IH] using GameNode_tree_ind.
  rewrite fits_eq, fits_with_eq, (forallb_child_ext _ _ _ IH), <- Hlen.
  destruct (logits_ sigma !! info_set_id n); reflexivity.
Qed.

(** A strategy built from a flat vector of the index's dimension fits a
    tree as soon as the index's action counts do. *)
Lemma from_logits_fits (info_sets : list InfoSet) (w : list R) (tree : GameNode) :
  Z.of_nat (length w) = InfoSetIndex.total_dim (InfoSetIndex.build info_sets) ->
  fits_with (index_len info_sets) tree = true ->
  exists sigma,
    Strategy.from_logits w (InfoSetIndex.build info_sets) = Ok sigma
    /\ fits sigma tree = true.
Proof.
  intros Hw Hfits.
  destruct (build_spec info_sets) as (Hsets & Hdim & _).
  destruct (from_logits_fold_spec info_sets w ltac:(lia) info_sets 0%nat
              Strategy.empty eq_refl) as (sigma & Hsigma & Hlook).
  exists sigma. split.
  - unfold Strategy.from_logits, InfoSetIndex.num_info_sets.
    rewrite Hsets, Nat2Z.id. exact Hsigma.
  - rewrite (fits_fits_with sigma (index_len info_sets)); [exact Hfits|].
    intros id. rewrite Hlook. unfold index_len.
    destruct (last_index info_sets id); [reflexivity|].
    simpl. rewrite lookup_empty. reflexivity.
Qed.

Lemma kuhn_index_fits :
  fits_with (index_len (get_info_sets kuhn_tree)) kuhn_tree = true.
Proof. vm_compute. reflexivity. Qed.

Lemma leduc_index_fits :
  fits_with (index_len (get_info_sets leduc_tree)) leduc_tree = true.
Proof. vm_compute. reflexivity. Qed.

Lemma kuhn_total_dim :
  InfoSetIndex.total_dim (InfoSetIndex.build (get_info_sets kuhn_tree)) = 24%Z.
Proof. vm_compute. reflexivity. Qed.

Lemma leduc_total_dim :
  InfoSetIndex.total_dim (InfoSetIndex.build (get_info_sets leduc_tree)) = 690%Z.
Proof. vm_compute. reflexivity. Qed.

(** In both constructed games, for every flat logit vector of the game's
    dimension and either player, the best response is at least as good as
    the current strategy. *)
Lemma constructed_games_best_response (tree : GameNode) (w : list R) (p : PlayerId) :
  tree = kuhn_tree \/ tree = leduc_tree ->
  Z.of_nat (length w)
  = InfoSetIndex.total_dim (InfoSetIndex.build (get_info_sets tree)) ->
  p = PLAYER_0 \/ p = PLAYER_1 ->
  exists sigma ev br,
    Strategy.from_logits w (InfoSetIndex.build (get_info_sets tree)) = Ok sigma
    /\ compute_ev tree sigma = Ok ev
    /\ best_response_value tree sigma p = Ok (Fin br)
    /\ (if (p =? PLAYER_0)%Z then ev else - ev) <= br.
Proof.
  intros Htree Hw Hp.
  assert (Hfits : fits_with (index_len (get_info_sets tree)) tree = true).
  { destruct Htree as [-> | ->]; [apply kuhn_index_fits|apply leduc_index_fits]. }
  destruct (from_logits_fits _ w tree Hw Hfits) as (sigma & Hsigma & Hfit).
  destruct (fits_br_dominates sigma p Hp tree Hfit 1 1 1) as (e & v & He & Hv & Hle).
  { unfold own_reach. destruct (p =? PLAYER_0)%Z; lra. }
  exists sigma, e, v. split; [exact Hsigma|]. split; [exact He|]. split.
  - unfold best_response_value. unfold opp_reach in Hv.
    destruct (p =? PLAYER_0)%Z; exact Hv.
  - unfold payoff_sign, own_reach in Hle. destruct (p =? PLAYER_0)%Z; lra.
Qed.

(** In both constructed games, for every flat logit vector of the game's
    dimension, overriding an info set with an action that is not legal there
    raises no error and zeroes the info set's contribution. *)
Lemma constructed_games_override_illegal (tree : GameNode) (w : list R)
    (id : InfoSetId) (a : Action) :
  tree = kuhn_tree \/ tree = leduc_tree ->
  Z.of_nat (length w)
  = InfoSetIndex.total_dim (InfoSetIndex.build (get_info_sets tree)) ->
  not_legal_at id a tree = true ->
  exists sigma v,
    Strategy.from_logits w (InfoSetIndex.build (get_info_sets tree)) = Ok sigma
    /\ compute_ev_with_override tree sigma id a = Ok v
    /\ ev_zeroed id tree sigma 1 1 1 = Ok v
    /\ info_set_contributes_zero id a sigma tree.
Proof.
  intros Htree Hw Hnl.
  assert (Hfits : fits_with (index_len (get_info_sets tree)) tree = true).
  { destruct Htree as [-> | ->]; [apply kuhn_index_fits|apply leduc_index_fits]. }
  destruct (from_logits_fits _ w tree Hw Hfits) as (sigma & Hsigma & Hfit).
  destruct (ev_override_agrees_zeroed sigma id a tree Hfit Hnl 1 1 1) as (v & H1 & H2).
  exists sigma, v. split; [exact Hsigma|]. split; [exact H1|]. split; [exact H2|].
  apply info_set_nodes_contribute_zero; assumption.
Qed.

(** ** Vectors *)

Lemma vscale_length s v : length (vscale s v) = length v.
Proof. apply length_map. Qed.

Lemma vscale_vscale a b v : vscale a (vscale b v) = vscale (a * b) v.
Proof.
  unfold vscale. rewrite List.map_map. apply List.map_ext. intros; ring.
Qed.

Lemma vscale_1 v : vscale 1 v = v.
Proof.
  unfold vscale. rewrite <- (List.map_id v) at 2. apply List.map_ext. intros; ring.
Qed.

Lemma vneg_vscale v : vneg v = vscale (-1) v.
Proof. unfold vneg, vscale. apply List.map_ext. intros; ring. Qed.

Lemma dot_vscale_r s a b : dot a (vscale s b) = s * dot a b.
Proof.
  unfold dot, vscale. revert b. induction a as [|x a IH]; intros [|y b]; simpl;
    try ring.
  rewrite IH. ring.
Qed.

Lemma squaredNorm_nonneg v : 0 <= squaredNorm v.
Proof.
  unfold squaredNorm, dot. induction v as [|x v IH]; simpl; [lra|]. nra.
Qed.

Lemma squaredNorm_vscale s v : squaredNorm (vscale s v) = s * s * squaredNorm v.
Proof.
  unfold squaredNorm, dot, vscale. induction v as [|x v IH]; simpl; [ring|].
  rewrite IH. ring.
Qed.

Lemma norm_nonneg v : 0 <= norm v.
Proof. apply sqrt_pos. Qed.

Lemma norm_vscale s v : 0 <= s -> norm (vscale s v) = s * norm v.
Proof.
  intros Hs. unfold norm. rewrite squaredNorm_vscale.
  rewrite sqrt_mult; [|nra|apply squaredNorm_nonneg].
  rewrite sqrt_square by exact Hs. reflexivity.
Qed.

Lemma norm_pos_squaredNorm v : 0 < norm v -> 0 < squaredNorm v.
Proof.
  unfold norm. intros H. pose proof (squaredNorm_nonneg v) as [Hp|Hz]; [exact Hp|].
  rewrite <- Hz, sqrt_0 in H. lra.
Qed.

Lemma squaredNorm_norm v : squaredNorm v = norm v * norm v.
Proof. unfold norm. rewrite sqrt_sqrt; [reflexivity|apply squaredNorm_nonneg]. Qed.

(** ** The identity matrix *)

Lemma map_const_repeat {A : Type} (l : list A) :
  List.map (fun _ => 0) l = repeat 0 (length l).
Proof. induction l; simpl; congruence. Qed.

Lemma unit_vec_0 n : unit_vec (S n) 0 = 1 :: repeat 0 n.
Proof.
  unfold unit_vec. simpl. f_equal.
  rewrite <- seq_shift, List.map_map. simpl.
  rewrite map_const_repeat, length_seq. reflexivity.
Qed.

Lemma unit_vec_S n j : unit_vec (S n) (S j) = 0 :: unit_vec n j.
Proof.
  unfold unit_vec. simpl. f_equal.
  rewrite <- seq_shift, List.map_map. reflexivity.
Qed.

Lemma Identity_cols n : List.map (unit_vec n) (seq 0 n) = id_cols n.
Proof.
  induction n as [|n IH]; [reflexivity|].
  cbn [seq List.map id_cols]. rewrite unit_vec_0. f_equal.
  rewrite <- seq_shift, List.map_map, <- IH, List.map_map.
  apply List.map_ext. intros j. apply unit_vec_S.
Qed.

Lemma Identity_eq n : Identity n = mkMatrix n (id_cols n).
Proof. unfold Identity. rewrite Identity_cols. reflexivity. Qed.

Lemma id_cols_length n : length (id_cols n) = n.
Proof. induction n; simpl; [|rewrite length_map]; congruence. Qed.

Lemma id_cols_col_length n : Forall (fun c => length c = n) (id_cols n).
Proof.
  induction n as [|n IH]; simpl; constructor.
  - simpl. rewrite repeat_length. reflexivity.
  - apply Forall_forall. intros c Hc. apply list_elem_of_In, in_map_iff in Hc.
    destruct Hc as (c' & <- & Hc'). simpl. f_equal.
    rewrite Forall_forall in IH. apply IH, list_elem_of_In, Hc'.
Qed.

Lemma dot_repeat_0 n r : dot (repeat 0 n) r = 0.
Proof.
  unfold dot. revert r. induction n as [|n IH]; intros [|y r]; simpl; try reflexivity.
  rewrite IH. ring.
Qed.

Lemma mat_tvec_id_cols n r :
  length r = n -> List.map (fun col => dot col r) (id_cols n) = r.
Proof.
  revert r. induction n as [|n IH]; intros [|r0 r] Hlen; try discriminate;
    [reflexivity|].
  injection Hlen as Hlen. cbn [id_cols List.map]. f_equal.
  - unfold dot. simpl. fold (dot (repeat 0 n) r). rewrite dot_repeat_0. ring.
  - rewrite List.map_map.
    transitivity (List.map (fun col => dot col r) (id_cols n)); [|apply IH, Hlen].
    apply List.map_ext. intros c. unfold dot. simpl. ring.
Qed.

Lemma mat_tvec_Identity n r : length r = n -> mat_tvec (Identity n) r = r.
Proof. intros H. rewrite Identity_eq. apply mat_tvec_id_cols, H. Qed.

Lemma mat_tmul_Identity n : mat_tmul (Identity n) = Identity n.
Proof.
  rewrite Identity_eq. unfold mat_tmul. cbn [mcols]. rewrite id_cols_length.
  f_equal. transitivity (List.map (fun c => c) (id_cols n)); [|apply List.map_id].
  apply List.map_ext_in. intros c Hc. apply mat_tvec_id_cols.
  pose proof (id_cols_col_length n) as H. rewrite Forall_forall in H.
  apply H, list_elem_of_In, Hc.
Qed.

Lemma vadd_vscale_self s c : vadd c (vscale s c) = vscale (1 + s) c.
Proof.
  unfold vadd, vscale. induction c as [|x c IH]; simpl; [reflexivity|].
  rewrite IH. f_equal. ring.
Qed.

Lemma regularised_Identity n s :
  mat_add (Identity n) (mat_scale s (Identity n)) = mat_scale (1 + s) (Identity n).
Proof.
  rewrite Identity_eq. unfold mat_add, mat_scale. cbn [mrows mcols]. f_equal.
  induction (id_cols n) as [|c C IH]; simpl; [reflexivity|].
  rewrite IH, vadd_vscale_self. reflexivity.
Qed.

Lemma mat_vec_cons0 s n (C : list (list R)) (d : list R) :
  fold_right (fun cd acc => vadd (vscale (snd cd) (fst cd)) acc)
             (repeat 0 (S n)) (zip (List.map (vscale s) (List.map (cons 0) C)) d)
  = 0 :: fold_right (fun cd acc => vadd (vscale (snd cd) (fst cd)) acc)
                    (repeat 0 n) (zip (List.map (vscale s) C) d).
Proof.
  revert d. induction C as [|c C IH]; intros [|d0 d]; try reflexivity.
  cbn [List.map zip zip_with fold_right fst snd].
  change (zip_with pair (List.map (vscale s) (List.map (cons 0) C)) d)
    with (zip (List.map (vscale s) (List.map (cons 0) C)) d).
  rewrite IH. unfold vadd, vscale. simpl. f_equal. ring.
Qed.

Lemma vadd_scaled_zeros a s n y :
  length y = n -> vadd (vscale a (vscale s (repeat 0 n))) y = y.
Proof.
  revert y. induction n as [|n IH]; intros [|y0 y] Hlen; try discriminate;
    [reflexivity|].
  injection Hlen as Hlen. unfold vadd, vscale in *. simpl. rewrite IH by exact Hlen.
  f_equal. ring.
Qed.

Lemma mat_vec_scaled_Identity s n d :
  length d = n -> mat_vec (mat_scale s (Identity n)) d = vscale s d.
Proof.
  rewrite Identity_eq. unfold mat_vec, mat_scale. cbn [mrows mcols].
  revert d. induction n as [|n IH]; intros [|d0 d] Hlen; try discriminate;
    [reflexivity|].
  injection Hlen as Hlen.
  cbn [id_cols List.map zip zip_with fold_right fst snd].
  change (zip_with pair (List.map (vscale s) (List.map (cons 0) (id_cols n))) d)
    with (zip (List.map (vscale s) (List.map (cons 0) (id_cols n))) d).
  rewrite mat_vec_cons0, IH by exact Hlen.
  unfold vadd at 1. unfold vscale at 1 2. simpl.
  fold (vscale s (repeat 0 n)). fold (vscale d0 (vscale s (repeat 0 n))).
  fold (vadd (vscale d0 (vscale s (repeat 0 n))) (vscale s d)).
  rewrite vadd_scaled_zeros by (rewrite vscale_length; exact Hlen).
  f_equal. ring.
Qed.

Lemma mat_scale_1 A : mat_scale 1 A = A.
Proof.
  destruct A as [m C]. unfold mat_scale. simpl. f_equal.
  transitivity (List.map (fun c => c) C); [|apply List.map_id].
  apply List.map_ext. intros c. apply vscale_1.
Qed.

Lemma mat_vec_Identity n d : length d = n -> mat_vec (Identity n) d = d.
Proof.
  intros H. rewrite <- (mat_scale_1 (Identity n)), mat_vec_scaled_Identity by exact H.
  apply vscale_1.
Qed.

(** ** The factorisation of a scaled identity *)

Lemma scaled_Identity_solution s n b d :
  s <> 0 -> length b = n ->
  is_solution n (mat_scale s (Identity n)) b d <-> d = vscale (/ s) b.
Proof.
  intros Hs Hb. unfold is_solution. split.
  - intros [Hd Hmv]. rewrite mat_vec_scaled_Identity in Hmv by exact Hd.
    rewrite <- Hmv, vscale_vscale, Rinv_l by exact Hs. symmetry. apply vscale_1.
  - intros ->. split; [rewrite vscale_length; exact Hb|].
    rewrite mat_vec_scaled_Identity by (rewrite vscale_length; exact Hb).
    rewrite vscale_vscale, Rinv_r by exact Hs. apply vscale_1.
Qed.

Lemma scaled_Identity_invertible s n :
  s <> 0 -> isInvertible n (mat_scale s (Identity n)).
Proof.
  intros Hs b Hb. exists (vscale (/ s) b). split.
  - apply scaled_Identity_solution; auto.
  - intros d Hd. symmetry. apply (scaled_Identity_solution s n b d Hs Hb), Hd.
Qed.

Lemma lu_solve_scaled_Identity s n b :
  s <> 0 -> length b = n ->
  lu_solve n (mat_scale s (Identity n)) b = vscale (/ s) b.
Proof.
  intros Hs Hb. unfold lu_solve.
  apply (scaled_Identity_solution s n b _ Hs Hb).
  apply epsilon_spec. exists (vscale (/ s) b).
  apply scaled_Identity_solution; auto.
Qed.

(** With an identity Jacobian the first factorisation succeeds and the step
    is the residual scaled by [-1/(1+lambda)]. *)
Lemma reg_loop_Identity n r factor tries lambda :
  length r = n -> 0 < lambda ->
  reg_loop n (mat_tmul (Identity n)) (mat_tvec (Identity n) r) factor (S tries) lambda
  = (Some (vscale (- / (1 + lambda)) r), lambda).
Proof.
  intros Hr Hl. cbn [reg_loop].
  rewrite mat_tmul_Identity, mat_tvec_Identity, regularised_Identity by exact Hr.
  destruct (excluded_middle_informative _) as [_|Hni].
  - rewrite lu_solve_scaled_Identity.
    + rewrite vneg_vscale, vscale_vscale.
      replace (/ (1 + lambda) * -1) with (- / (1 + lambda)) by (field; lra).
      reflexivity.
    + lra.
    + unfold vneg. rewrite length_map. exact Hr.
  - exfalso. apply Hni, scaled_Identity_invertible. lra.
Qed.

(** ** The finite-difference Jacobian of the linear residual *)

Lemma vsub_length a b : length a = length b -> length (vsub a b) = length a.
Proof. intros H. unfold vsub. rewrite length_zip_with. lia. Qed.

Lemma vdiv_vsub_self v s : vdiv (vsub v v) s = repeat 0 (length v).
Proof.
  unfold vdiv, vsub. induction v as [|x v IH]; simpl; [reflexivity|].
  rewrite IH. f_equal. unfold Rdiv. ring.
Qed.

Lemma linear_residual_column (h : R) (x : list R) :
  h <> 0 ->
  forall c j,
    length x = length c -> (j < length x)%nat ->
    vdiv (vsub (linear_residual c (alter (fun v => v + h) j x))
               (linear_residual c (alter (fun v => v - h) j x))) (2 * h)
    = unit_vec (length x) j.
Proof.
  intros Hh. unfold linear_residual.
  induction x as [|x0 x IH]; intros [|c0 c] j Hlen Hj; try discriminate;
    [simpl in Hj; lia|].
  injection Hlen as Hlen. destruct j as [|j].
  - cbn [length]. rewrite unit_vec_0. simpl. f_equal; [field; exact Hh|].
    fold (vsub x c). fold (vsub (vsub x c) (vsub x c)).
    fold (vdiv (vsub (vsub x c) (vsub x c)) (2 * h)).
    rewrite vdiv_vsub_self, vsub_length by exact Hlen. reflexivity.
  - cbn [length]. rewrite unit_vec_S. simpl. f_equal; [unfold Rdiv; ring|].
    apply IH; [exact Hlen|simpl in Hj; lia].
Qed.

Lemma compute_jacobian_linear (c x : list R) (h : R) :
  h <> 0 -> length x = length c ->
  compute_jacobian (linear_residual c) x h true = Identity (length x).
Proof.
  intros Hh Hlen. unfold compute_jacobian, Identity. f_equal.
  - unfold linear_residual. apply vsub_length, Hlen.
  - apply List.map_ext_in. intros j Hj. apply in_seq in Hj.
    apply linear_residual_column; [exact Hh|exact Hlen|lia].
Qed.

Lemma linear_residual_step (a u : R) (x c : list R) :
  length x = length c ->
  linear_residual c (vadd x (vscale a (vscale (- u) (linear_residual c x))))
  = vscale (1 - a * u) (linear_residual c x).
Proof.
  unfold linear_residual, vadd, vsub, vscale. revert c.
  induction x as [|x0 x IH]; intros [|c0 c] Hlen; try discriminate; [reflexivity|].
  injection Hlen as Hlen. simpl. rewrite IH by exact Hlen. f_equal. ring.
Qed.

(** ** The line search on an identity Jacobian *)

Lemma armijo_backtrack_accepts_full_step (F : list R -> list R) (x : list R)
    (c rho lambda q : R) (n : nat) :
  length (F x) = n ->
  0 < lambda -> 0 <= c <= 1 / 2 ->
  0 < squaredNorm (F x) ->
  q = lambda / (1 + lambda) ->
  F (vadd x (vscale 1 (vscale (- / (1 + lambda)) (F x)))) = vscale q (F x) ->
  ls_alpha (armijo_backtrack F x (vscale (- / (1 + lambda)) (F x)) (Identity n)
              c rho 20) = 1.
Proof.
  intros Hlen Hl Hc Hsn Hq Hstep. unfold armijo_backtrack.
  rewrite mat_vec_Identity by (rewrite vscale_length; exact Hlen).
  rewrite dot_vscale_r. fold (squaredNorm (F x)).
  set (S := squaredNorm (F x)) in *.
  set (u := / (1 + lambda)) in *.
  assert (Hu : 0 < u) by (apply Rinv_0_lt_compat; lra).
  assert (Hu1 : (1 + lambda) * u = 1) by (unfold u; field; lra).
  assert (Hqu : q = 1 - u) by (rewrite Hq; unfold u; field; lra).
  destruct (Rge_dec (- u * S) 0) as [Hge|_]; [nra|].
  change (Z.to_nat 20) with 20%nat. cbn [armijo_loop].
  rewrite Hstep, squaredNorm_vscale. fold S.
  destruct (Rle_dec _ _) as [_|Hn]; [reflexivity|].
  exfalso. apply Hn. rewrite Hqu.
  assert (u <= 1) by nra.
  assert (0 <= S * u * (2 - u - 2 * c)) by (apply Rmult_le_pos; nra).
  nra.
Qed.

(** ** Newton on the linear residual *)

Lemma contraction_bounds cfg :
  standard_config cfg -> 0 < contraction cfg < 1.
Proof.
  intros (_ & _ & _ & Hl & _). unfold contraction. split.
  - apply Rdiv_lt_0_compat; lra.
  - apply Rmult_lt_reg_r with (1 + lambda_init cfg); [lra|].
    unfold Rdiv. rewrite Rmult_assoc, Rinv_l by lra. lra.
Qed.

Lemma contraction_eq cfg :
  standard_config cfg -> 1 - 1 * / (1 + lambda_init cfg) = contraction cfg.
Proof. intros (_ & _ & _ & Hl & _). unfold contraction. field. lra. Qed.

Lemma solve_loop_linear_step cfg c fuel iter x trace :
  standard_config cfg ->
  length x = length c ->
  tol cfg <= norm (linear_residual c x) ->
  let r := linear_residual c x in
  let d := vscale (- / (1 + lambda_init cfg)) r in
  let x' := vadd x (vscale 1 d) in
  solve_loop cfg (linear_residual c) (length x) (S fuel) iter x trace
             r (norm r) (lambda_init cfg)
  = solve_loop cfg (linear_residual c) (length x) fuel (iter + 1) x'
      (add_iteration trace
         (mkIterationStats iter (norm r) (norm d) 1 (lambda_init cfg) false
            "Iteration complete"))
      (vscale (contraction cfg) r) (contraction cfg * norm r) (lambda_init cfg).
Proof.
  intros Hcfg Hlen Htol. cbv zeta.
  pose proof (contraction_bounds cfg Hcfg) as Hq.
  destruct Hcfg as (Hcd & Hls & Hh & Hl & Hf & Hc & Ht).
  assert (Hr : length (linear_residual c x) = length x) by (apply vsub_length, Hlen).
  assert (Hpos : 0 < norm (linear_residual c x)) by lra.
  assert (Hstep : linear_residual c
                    (vadd x (vscale 1 (vscale (- / (1 + lambda_init cfg))
                                              (linear_residual c x))))
                  = vscale (contraction cfg) (linear_residual c x)).
  { rewrite linear_residual_step by exact Hlen.
    f_equal. unfold contraction. field. lra. }
  cbn [solve_loop].
  destruct (Rlt_dec (norm (linear_residual c x)) (tol cfg)) as [Hlt|_]; [lra|].
  rewrite Hcd, compute_jacobian_linear by assumption.
  rewrite reg_loop_Identity by assumption.
  rewrite Hls.
  rewrite (armijo_backtrack_accepts_full_step (linear_residual c) x
             (armijo_c cfg) (armijo_rho cfg) (lambda_init cfg) (contraction cfg)
             (length x)); try assumption; try reflexivity.
  2:{ apply norm_pos_squaredNorm, Hpos. }
  rewrite Hstep, (norm_vscale (contraction cfg)) by lra.
  destruct (Rlt_dec (contraction cfg * norm (linear_residual c x))
                    (norm (linear_residual c x))) as [_|Hn].
  - rewrite Rmax_left; [reflexivity|].
    apply Rmult_le_reg_r with (lambda_factor cfg); [lra|].
    unfold Rdiv. rewrite Rmult_assoc, Rinv_l by lra. nra.
  - exfalso. apply Hn. nra.
Qed.

Lemma solve_loop_linear cfg c :
  standard_config cfg ->
  forall k fuel iter x trace,
    length x = length c ->
    (k < fuel)%nat ->
    (forall j, (j < k)%nat ->
               tol cfg <= norm (linear_residual c x) * contraction cfg ^ j) ->
    norm (linear_residual c x) * contraction cfg ^ k < tol cfg ->
    let res := solve_loop cfg (linear_residual c) (length x) fuel iter x trace
                 (linear_residual c x) (norm (linear_residual c x))
                 (lambda_init cfg) in
    res_converged res = true
    /\ res_iterations res = (iter + Z.of_nat k)%Z
    /\ linear_residual c (res_x res)
       = vscale (contraction cfg ^ k) (linear_residual c x)
    /\ res_final_residual res = norm (linear_residual c x) * contraction cfg ^ k
    /\ length (trace_iterations (res_trace res))
       = (length (trace_iterations trace) + k + 1)%nat.
Proof.
  intros Hcfg. pose proof (contraction_bounds cfg Hcfg) as Hq.
  induction k as [|k IH]; intros fuel iter x trace Hlen Hfuel Hbefore Hnow.
  - destruct fuel as [|fuel]; [lia|]. cbn [solve_loop]. simpl in Hnow.
    destruct (Rlt_dec _ _) as [_|Hn]; [|exfalso; apply Hn; lra].
    cbn [res_converged res_iterations res_x res_final_residual res_trace
         finish_trace add_iteration trace_iterations].
    repeat split.
    + lia.
    + simpl. symmetry. apply vscale_1.
    + simpl. lra.
    + rewrite length_app. simpl. lia.
  - destruct fuel as [|fuel]; [lia|].
    assert (Htol : tol cfg <= norm (linear_residual c x)).
    { specialize (Hbefore 0%nat ltac:(lia)). simpl in Hbefore. lra. }
    pose proof (solve_loop_linear_step cfg c fuel iter x trace Hcfg Hlen Htol) as Hs.
    cbv zeta in Hs |- *. rewrite Hs. clear Hs.
    set (x' := vadd x (vscale 1 (vscale (- / (1 + lambda_init cfg))
                                        (linear_residual c x)))).
    assert (Hx' : linear_residual c x'
                  = vscale (contraction cfg) (linear_residual c x)).
    { unfold x'. rewrite linear_residual_step by exact Hlen.
      f_equal. apply contraction_eq, Hcfg. }
    assert (Hlen' : length x' = length x).
    { unfold x', vadd, linear_residual. rewrite length_zip_with, !vscale_length.
      rewrite vsub_length by exact Hlen. lia. }
    assert (Hn' : norm (linear_residual c x')
                  = contraction cfg * norm (linear_residual c x)).
    { rewrite Hx'. apply norm_vscale. lra. }
    rewrite <- Hx', <- Hn', <- Hlen'.
    destruct (IH fuel (iter + 1)%Z x'
                (add_iteration trace
                   (mkIterationStats iter (norm (linear_residual c x))
                      (norm (vscale (- / (1 + lambda_init cfg)) (linear_residual c x)))
                      1 (lambda_init cfg) false "Iteration complete")))
      as (H1 & H2 & H3 & H4 & H5).
    + rewrite Hlen'. exact Hlen.
    + lia.
    + intros j Hj. rewrite Hn'. specialize (Hbefore (S j) ltac:(lia)).
      simpl in Hbefore. lra.
    + rewrite Hn'. simpl in Hnow. lra.
    + cbv zeta in *. repeat split.
      * exact H1.
      * rewrite H2. lia.
      * rewrite H3, Hx', vscale_vscale. f_equal. simpl. ring.
      * rewrite H4, Hn'. simpl. ring.
      * rewrite H5. cbn [add_iteration trace_iterations].
        rewrite length_app. simpl. lia.
Qed.

Lemma solve_linear cfg c x0 k :
  standard_config cfg ->
  length x0 = length c ->
  (Z.of_nat k < max_iters cfg)%Z ->
  (forall j, (j < k)%nat ->
             tol cfg <= norm (linear_residual c x0) * contraction cfg ^ j) ->
  norm (linear_residual c x0) * contraction cfg ^ k < tol cfg ->
  exists res,
    solve cfg (linear_residual c) x0 = Ok res
    /\ res_converged res = true
    /\ res_iterations res = Z.of_nat k
    /\ norm (linear_residual c (res_x res)) < tol cfg
    /\ length (trace_iterations (res_trace res)) = S k.
Proof.
  intros Hcfg Hlen Hk Hbefore Hnow. unfold solve.
  replace (length (linear_residual c x0)) with (length x0)
    by (symmetry; apply vsub_length, Hlen). rewrite Nat.eqb_refl. simpl negb. cbv iota.
  eexists. split; [reflexivity|].
  destruct (solve_loop_linear cfg c Hcfg k (Z.to_nat (max_iters cfg)) 0%Z x0
              new_SolverTrace Hlen ltac:(lia) Hbefore Hnow)
    as (H1 & H2 & H3 & H4 & H5).
  cbv zeta in *. repeat split.
  - exact H1.
  - rewrite H2. lia.
  - rewrite H3, norm_vscale; [lra|].
    apply pow_le. pose proof (contraction_bounds cfg Hcfg). lra.
  - rewrite H5. simpl. lia.
Qed.

Lemma norm_singleton a : norm [a] = Rabs a.
Proof.
  unfold norm, squaredNorm, dot. simpl. rewrite Rplus_0_r.
  apply sqrt_Rsqr_abs.
Qed.

Lemma main_config_standard : standard_config main_NewtonConfig.
Proof. unfold standard_config, main_NewtonConfig. simpl. repeat split; lra. Qed.

Lemma main_contraction_bounds :
  9e-7 < contraction main_NewtonConfig < 1e-6.
Proof. unfold contraction, main_NewtonConfig. simpl. split; lra. Qed.

(** C1 (as amended): with the finite-difference step 1e-6, the initial
    regularisation 1e-6 and the tolerance 1e-8, every iteration on the linear
    residual multiplies the residual by lambda/(1+lambda), about 1e-6, so the
    solver converges after k iterations, k being the index at which the
    starting distance times (lambda/(1+lambda))^k has fallen below the
    tolerance; the returned point is within the tolerance of c.  One
    iteration suffices only for starting points whose distance, shrunk once,
    is below the tolerance.

    The statement keeps to the range in which rounding does not change the
    count: the entries of x0 and c are at most 1000 in magnitude, so that
    the finite-difference Jacobian is accurate (for entries of 1e9 and more
    x + h rounds to x and the Jacobian degenerates), and the distances stay
    a factor 2 away from the tolerance on both sides. *)
Theorem newton_linear_converges_geometrically (cfg : NewtonConfig)
    (c x0 : list R) (k : nat) :
  standard_config cfg ->
  fd_step cfg = 1e-6 -> lambda_init cfg = 1e-6 -> tol cfg = 1e-8 ->
  length x0 = length c ->
  Forall (fun x => Rabs x <= 1000) x0 ->
  Forall (fun x => Rabs x <= 1000) c ->
  (Z.of_nat k < max_iters cfg)%Z ->
  (forall j, (j < k)%nat ->
             2 * tol cfg <= norm (linear_residual c x0) * contraction cfg ^ j) ->
  norm (linear_residual c x0) * contraction cfg ^ k <= tol cfg / 2 ->
  exists res,
    solve cfg (linear_residual c) x0 = Ok res
    /\ res_converged res = true
    /\ res_iterations res = Z.of_nat k
    /\ norm (linear_residual c (res_x res)) < tol cfg
    /\ length (trace_iterations (res_trace res)) = S k.
Proof.
  intros Hcfg _ _ Htol Hlen _ _ Hk Hbefore Hnow.
  apply solve_linear; try assumption.
  - intros j Hj. specialize (Hbefore j Hj). rewrite Htol in *. lra.
  - rewrite Htol in *. lra.
Qed.

Lemma newton_linear_converges_geometrically_witness :
  standard_config main_NewtonConfig
  /\ fd_step main_NewtonConfig = 1e-6
  /\ lambda_init main_NewtonConfig = 1e-6
  /\ tol main_NewtonConfig = 1e-8
  /\ length [0.001] = length [0]
  /\ Forall (fun x => Rabs x <= 1000) [0.001]
  /\ Forall (fun x => Rabs x <= 1000) [0]
  /\ (Z.of_nat 1 < max_iters main_NewtonConfig)%Z
  /\ (forall j, (j < 1)%nat ->
                2 * tol main_NewtonConfig
                <= norm (linear_residual [0] [0.001])
                   * contraction main_NewtonConfig ^ j)
  /\ norm (linear_residual [0] [0.001]) * contraction main_NewtonConfig ^ 1
     <= tol main_NewtonConfig / 2
  /\ exists res,
       solve main_NewtonConfig (linear_residual [0]) [0.001] = Ok res
       /\ res_converged res = true
       /\ res_iterations res = Z.of_nat 1
       /\ norm (linear_residual [0] (res_x res)) < tol main_NewtonConfig
       /\ length (trace_iterations (res_trace res)) = 2%nat.
Proof.
  assert (Hn : norm (linear_residual [0] [0.001]) = 0.001).
  { unfold linear_residual, vsub. simpl. rewrite norm_singleton, Rabs_right; lra. }
  pose proof main_contraction_bounds as Hq.
  assert (H1 : standard_config main_NewtonConfig) by exact main_config_standard.
  assert (Hf : fd_step main_NewtonConfig = 1e-6) by reflexivity.
  assert (Hl : lambda_init main_NewtonConfig = 1e-6) by reflexivity.
  assert (Ht : tol main_NewtonConfig = 1e-8) by reflexivity.
  assert (H2 : length [0.001] = length [0]) by reflexivity.
  assert (Hx : Forall (fun x => Rabs x <= 1000) [0.001]).
  { constructor; [rewrite Rabs_right; lra|constructor]. }
  assert (Hc : Forall (fun x => Rabs x <= 1000) [0]).
  { constructor; [rewrite Rabs_R0; lra|constructor]. }
  assert (H3 : (Z.of_nat 1 < max_iters main_NewtonConfig)%Z) by (simpl; lia).
  assert (H4 : forall j, (j < 1)%nat ->
                 2 * tol main_NewtonConfig
                 <= norm (linear_residual [0] [0.001])
                    * contraction main_NewtonConfig ^ j).
  { intros j Hj. assert (j = 0%nat) as -> by lia. rewrite Hn, Ht. simpl. lra. }
  assert (H5 : norm (linear_residual [0] [0.001]) * contraction main_NewtonConfig ^ 1
               <= tol main_NewtonConfig / 2).
  { rewrite Hn, Ht. simpl. lra. }
  split; [exact H1|]. split; [exact Hf|]. split; [exact Hl|]. split; [exact Ht|].
  split; [exact H2|]. split; [exact Hx|]. split; [exact Hc|]. split; [exact H3|].
  split; [exact H4|]. split; [exact H5|].
  exact (newton_linear_converges_geometrically main_NewtonConfig [0] [0.001] 1
           H1 Hf Hl Ht H2 Hx Hc H3 H4 H5).
Defined.

(** C1 fails as specified: from x0 = 1 towards c = 0 the first iteration
    leaves a residual of about 1e-6, above the tolerance 1e-8, and the
    solver reports convergence after two iterations, not one. *)
Lemma newton_linear_needs_two_iterations :
  (exists res,
      solve main_NewtonConfig (linear_residual [0]) [1] = Ok res
      /\ res_converged res = true
      /\ res_iterations res = 2%Z)
  /\ ~ converges_in_one_iteration main_NewtonConfig [0] [1].
Proof.
  assert (Hn : norm (linear_residual [0] [1]) = 1).
  { unfold linear_residual, vsub. simpl. rewrite norm_singleton, Rabs_right; lra. }
  pose proof main_contraction_bounds as Hq.
  destruct (solve_linear main_NewtonConfig [0] [1] 2 main_config_standard eq_refl)
    as (res & Hres & Hconv & Hit & _).
  - simpl. lia.
  - intros j Hj. rewrite Hn.
    assert (j = 0%nat \/ j = 1%nat) as [-> | ->] by lia; simpl; lra.
  - rewrite Hn. simpl. nra.
  - split; [exists res; auto|].
    intros (res' & Hres' & _ & Hit' & _).
    rewrite Hres in Hres'. injection Hres' as <-.
    rewrite Hit in Hit'. discriminate.
Qed.

(** ** The recorded trace *)

Lemma solve_loop_trace_extends cfg F n fuel :
  forall iter x trace r rn lambda,
    exists rest,
      trace_iterations (res_trace (solve_loop cfg F n fuel iter x trace r rn lambda))
      = trace_iterations trace ++ rest.
Proof.
  induction fuel as [|fuel IH]; intros iter x trace r rn lambda; cbn [solve_loop].
  - exists []. simpl. rewrite app_nil_r. reflexivity.
  - destruct (Rlt_dec rn (tol cfg)); [eexists; reflexivity|].
    destruct (reg_loop _ _ _ _ _ _) as [[d|] lambda_reg]; [|eexists; reflexivity].
    match goal with
    | |- context [solve_loop cfg F n fuel ?i ?x' (add_iteration trace ?s) ?r' ?rn' ?l'] =>
        destruct (IH i x' (add_iteration trace s) r' rn' l') as [rest Hrest];
        exists (s :: rest); rewrite Hrest
    end.
    cbn [add_iteration trace_iterations]. rewrite <- app_assoc. reflexivity.
Qed.

(** Every iteration that starts records the residual norm it starts with. *)
Lemma solve_loop_trace_head cfg F n fuel iter x trace r rn lambda :
  exists s rest,
    trace_iterations
      (res_trace (solve_loop cfg F n (S fuel) iter x trace r rn lambda))
    = trace_iterations trace ++ s :: rest
    /\ stats_residual_norm s = rn.
Proof.
  cbn [solve_loop].
  destruct (Rlt_dec rn (tol cfg)); [eexists _, []; split; reflexivity|].
  destruct (reg_loop _ _ _ _ _ _) as [[d|] lambda_reg];
    [|eexists _, []; split; reflexivity].
  match goal with
  | |- context [solve_loop cfg F n fuel ?i ?x' (add_iteration trace ?s) ?r' ?rn' ?l'] =>
      destruct (solve_loop_trace_extends cfg F n fuel i x' (add_iteration trace s)
                  r' rn' l') as [rest Hrest];
      exists s, rest; rewrite Hrest
  end.
  cbn [add_iteration trace_iterations]. rewrite <- app_assoc.
  split; reflexivity.
Qed.

(** One iteration of the solver at a point where the finite-difference
    Jacobian is the identity. *)
Lemma solve_loop_step_Identity cfg F n fuel iter x trace r rn lambda :
  ~ rn < tol cfg ->
  compute_jacobian F x (fd_step cfg) (central_diff cfg) = Identity n ->
  length r = n -> 0 < lambda ->
  use_line_search cfg = true ->
  let d := vscale (- / (1 + lambda)) r in
  let alpha := ls_alpha (armijo_backtrack F x d (Identity n)
                           (armijo_c cfg) (armijo_rho cfg) 20) in
  let x_new := vadd x (vscale alpha d) in
  exists lambda_new,
    solve_loop cfg F n (S fuel) iter x trace r rn lambda
    = solve_loop cfg F n fuel (iter + 1) x_new
        (add_iteration trace
           (mkIterationStats iter rn (norm d) alpha lambda false "Iteration complete"))
        (F x_new) (norm (F x_new)) lambda_new.
Proof.
  intros Hnt HJ Hr Hl Hls. cbv zeta. cbn [solve_loop].
  destruct (Rlt_dec rn (tol cfg)) as [Hlt|_]; [contradiction|].
  rewrite HJ, reg_loop_Identity by assumption. rewrite Hls.
  eexists. reflexivity.
Qed.

(** ** The line search running out of backtracking steps *)

Lemma armijo_loop_exhausted F x d c rho phi0 dphi0 :
  forall iters alpha evaluations,
    (forall i, (i < iters)%nat ->
       ~ 0.5 * squaredNorm (F (vadd x (vscale (alpha * rho ^ i) d)))
         <= phi0 + c * (alpha * rho ^ i) * dphi0) ->
    ls_alpha (armijo_loop F x d c rho phi0 dphi0 iters alpha evaluations)
    = alpha * rho ^ iters
    /\ ls_success (armijo_loop F x d c rho phi0 dphi0 iters alpha evaluations)
       = false.
Proof.
  induction iters as [|iters IH]; intros alpha evaluations Hfail; cbn [armijo_loop].
  - simpl. split; [ring|reflexivity].
  - destruct (Rle_dec _ _) as [Hle|_].
    + exfalso. apply (Hfail 0%nat ltac:(lia)). simpl. rewrite Rmult_1_r. exact Hle.
    + destruct (IH (alpha * rho) (evaluations + 1)%Z) as [H1 H2].
      * intros i Hi. specialize (Hfail (S i) ltac:(lia)). simpl in Hfail.
        replace (alpha * rho * rho ^ i) with (alpha * (rho * rho ^ i)) by ring.
        exact Hfail.
      * rewrite H1, H2. split; [simpl; ring|reflexivity].
Qed.

(** ** A residual on which the line search runs out of steps *)

Lemma steep_residual_0 : steep_residual [0] = [1].
Proof. unfold steep_residual. simpl. f_equal. ring. Qed.

Lemma steep_jacobian h :
  h <> 0 -> compute_jacobian steep_residual [0] h true = Identity 1.
Proof.
  intros Hh. unfold compute_jacobian, Identity, steep_residual, unit_vec, vdiv, vsub.
  simpl. do 3 f_equal. field. exact Hh.
Qed.

Lemma half_pow_bounds i : (i <= 20)%nat -> 9.5e-7 <= 0.5 ^ i <= 1.
Proof.
  intros Hi. do 21 (destruct i as [|i]; [simpl; lra|]). lia.
Qed.

(** The residual along the step direction [-u]: it stays at or above 1 for
    every step length the line search tries. *)
Lemma steep_along_step (a u : R) :
  9.5e-7 <= a <= 1 -> 0.99 <= u <= 1 ->
  steep_residual (vadd [0] (vscale a (vscale (- u) [1])))
  = [1 + a * u * (1e7 * (a * u) - 1)]
  /\ 1 + 8 * (a * u) <= 1 + a * u * (1e7 * (a * u) - 1).
Proof.
  intros Ha Hu. split.
  - unfold steep_residual, vadd, vscale. simpl. f_equal. ring.
  - assert (9.4e-7 <= a * u) by nra.
    assert (0 <= a * u * (1e7 * (a * u) - 9)) by (apply Rmult_le_pos; nra).
    nra.
Qed.

Lemma steep_line_search_exhausted :
  let u := / (1 + 1e-6) in
  ls_alpha (armijo_backtrack steep_residual [0] (vscale (- u) [1]) (Identity 1)
              1e-4 0.5 20)
  = 1 * 0.5 ^ 20.
Proof.
  intros u.
  assert (Hu : 0.99 <= u <= 1).
  { unfold u. split.
    - apply Rmult_le_reg_r with (1 + 1e-6); [lra|]. rewrite Rinv_l by lra. lra.
    - apply Rmult_le_reg_r with (1 + 1e-6); [lra|]. rewrite Rinv_l by lra. lra. }
  unfold armijo_backtrack. rewrite steep_residual_0.
  rewrite mat_vec_Identity by reflexivity.
  assert (Hd : dot [1] (vscale (- u) [1]) = - u) by (unfold dot, vscale; simpl; ring).
  assert (Hs1 : squaredNorm [1] = 1) by (unfold squaredNorm, dot; simpl; ring).
  rewrite Hd, Hs1.
  destruct (Rge_dec (- u) 0) as [Hge|_]; [lra|].
  change (Z.to_nat 20) with 20%nat.
  apply armijo_loop_exhausted. intros i Hi.
  pose proof (half_pow_bounds i ltac:(lia)) as Hp.
  destruct (steep_along_step (1 * 0.5 ^ i) u ltac:(lra) Hu) as [-> Hle].
  unfold squaredNorm, dot. simpl zip_with. simpl vsum.
  set (t := 1 + 1 * 0.5 ^ i * u * (1e7 * (1 * 0.5 ^ i * u) - 1)) in *.
  assert (0 < 1 * 0.5 ^ i * u) by nra.
  intros Hcond. nra.
Qed.

(** C2 (the code departs from the claim): on the smooth residual
    F(x) = 1 + x + 1e7 x^2 started at 0 the Armijo test fails at all twenty
    step lengths; the solver still moves by the last one, 0.5^20 times the
    step, and the residual norm recorded for the next iteration is larger
    than the one recorded for the first. *)
Theorem newton_trace_residual_increases :
  exists res s0 s1 rest,
    solve main_NewtonConfig steep_residual [0] = Ok res
    /\ trace_iterations (res_trace res) = s0 :: s1 :: rest
    /\ stats_residual_norm s0 = 1
    /\ stats_alpha s0 = 0.5 ^ 20
    /\ stats_residual_norm s0 < stats_residual_norm s1.
Proof.
  assert (Hn1 : norm [1] = 1) by (rewrite norm_singleton, Rabs_right; lra).
  assert (Hu : 0.99 <= / (1 + 1e-6) <= 1).
  { split.
    - apply Rmult_le_reg_r with (1 + 1e-6); [lra|]. rewrite Rinv_l by lra. lra.
    - apply Rmult_le_reg_r with (1 + 1e-6); [lra|]. rewrite Rinv_l by lra. lra. }
  unfold solve. rewrite steep_residual_0. cbn [length Nat.eqb negb].
  change (Z.to_nat (max_iters main_NewtonConfig)) with 50%nat.
  destruct (solve_loop_step_Identity main_NewtonConfig steep_residual 1 49 0%Z [0]
              new_SolverTrace [1] (norm [1]) (lambda_init main_NewtonConfig))
    as [lambda_new Hstep].
  - rewrite Hn1. simpl. lra.
  - apply steep_jacobian. simpl. lra.
  - reflexivity.
  - simpl. lra.
  - reflexivity.
  - cbv zeta in Hstep. rewrite Hstep. clear Hstep.
    change (lambda_init main_NewtonConfig) with 1e-6.
    change (armijo_c main_NewtonConfig) with 1e-4.
    change (armijo_rho main_NewtonConfig) with 0.5.
    pose proof steep_line_search_exhausted as Hls. cbv zeta in Hls. rewrite Hls.
    pose proof (half_pow_bounds 20 ltac:(lia)) as Hp.
    destruct (steep_along_step (1 * 0.5 ^ 20) (/ (1 + 1e-6)) ltac:(lra) Hu)
      as [Hx Hle].
    rewrite Hx.
    match goal with
    | |- context [solve_loop ?cfg ?F ?n 49 ?i ?x' ?tr ?r' ?rn' ?l'] =>
        destruct (solve_loop_trace_head cfg F n 48 i x' tr r' rn' l')
          as (s1 & rest & Htr & Hs1)
    end.
    eexists _, _, s1, rest. split; [reflexivity|].
    split; [rewrite Htr; reflexivity|].
    split; [exact Hn1|].
    split; [cbn [stats_alpha]; ring|].
    rewrite Hs1. cbn [stats_residual_norm]. rewrite Hn1, norm_singleton.
    rewrite Rabs_right by nra. nra.
Qed.

(** * Further properties of the code *)

(** ** The flat layout of the index *)

Lemma last_pos_app ks1 ks2 k :
  last_pos (ks1 ++ ks2) k
  = match last_pos ks2 k with
    | Some j => Some (length ks1 + j)%nat
    | None => last_pos ks1 k
    end.
Proof.
  induction ks1 as [|x ks1 IH]; simpl.
  - destruct (last_pos ks2 k); reflexivity.
  - rewrite IH. destruct (last_pos ks2 k); [reflexivity|].
    reflexivity.
Qed.

Lemma last_pos_lookup ks k j : last_pos ks k = Some j -> ks !! j = Some k.
Proof.
  revert j. induction ks as [|x ks IH]; intros j; simpl; [discriminate|].
  destruct (last_pos ks k) as [i|].
  - intros [= <-]. apply IH. reflexivity.
  - destruct (decide (x = k)) as [->|]; [|discriminate]. intros [= <-]. reflexivity.
Qed.

Lemma last_pos_None ks k : last_pos ks k = None -> k ∉ ks.
Proof.
  induction ks as [|x ks IH]; simpl; intros H.
  - apply not_elem_of_nil.
  - destruct (last_pos ks k); [discriminate|].
    destruct (decide (x = k)); [discriminate|].
    apply not_elem_of_cons. split; [congruence|]. apply IH. reflexivity.
Qed.

Lemma last_pos_unique ks k j :
  ks !! j = Some k -> (forall j', ks !! j' = Some k -> j' = j) ->
  last_pos ks k = Some j.
Proof.
  intros Hj Hu. destruct (last_pos ks k) as [i|] eqn:E.
  - f_equal. apply Hu. apply last_pos_lookup. exact E.
  - apply last_pos_None in E. exfalso. apply E.
    apply list_elem_of_lookup_2 with j. exact Hj.
Qed.

(** The inner loop of [build]: one flat position per action. *)
Lemma build_inner_loop_flat (i : Z) (id : InfoSetId) (acts : list Action) :
  forall idx f a,
    let r := fold_left (fun '(idx, flat_idx, a) act =>
                 (mkInfoSetIndex (info_sets_ idx) (id_to_idx_ idx)
                    (flat_to_pair_ idx ++ [(i, a)])
                    (insert (id, act) flat_idx (pair_to_flat_ idx))
                    (total_dim_ idx),
                  (flat_idx + 1)%Z, (a + 1)%Z))
               acts (idx, f, a) in
    flat_to_pair_ (r.1.1)
    = flat_to_pair_ idx
      ++ List.map (fun j => (i, (a + Z.of_nat j)%Z)) (seq 0 (length acts))
    /\ forall k,
         pair_to_flat_ (r.1.1) !! k
         = match last_pos (List.map (pair id) acts) k with
           | Some j => Some (f + Z.of_nat j)%Z
           | None => pair_to_flat_ idx !! k
           end.
Proof.
  induction acts as [|act acts IH]; intros idx f a; cbv zeta; cbn [fold_left].
  - simpl. rewrite app_nil_r. auto.
  - specialize (IH (mkInfoSetIndex (info_sets_ idx) (id_to_idx_ idx)
                    (flat_to_pair_ idx ++ [(i, a)])
                    (insert (id, act) f (pair_to_flat_ idx))
                    (total_dim_ idx)) (f + 1)%Z (a + 1)%Z).
    cbv zeta in IH. destruct IH as (H1 & H2). split.
    + rewrite H1. cbn [flat_to_pair_ length seq List.map].
      rewrite <- app_assoc. f_equal. cbn [app]. f_equal.
      * f_equal. lia.
      * rewrite <- seq_shift, List.map_map. apply List.map_ext.
        intros j. f_equal. lia.
    + intros k. rewrite H2. cbn [List.map last_pos pair_to_flat_].
      destruct (last_pos (List.map (pair id) acts) k) as [j|].
      * f_equal. lia.
      * destruct (decide ((id, act) = k)) as [->|Hne].
        -- rewrite lookup_insert_eq. f_equal. lia.
        -- rewrite lookup_insert_ne by exact Hne. reflexivity.
Qed.

Lemma build_step_flat idx f i iset :
  let r := InfoSetIndex.build_step (idx, f, i) iset in
  flat_to_pair_ (r.1.1)
  = flat_to_pair_ idx
    ++ List.map (fun a => (i, Z.of_nat a)) (seq 0 (length (is_legal_actions iset)))
  /\ forall k,
       pair_to_flat_ (r.1.1) !! k
       = match last_pos (List.map (pair (is_id iset)) (is_legal_actions iset)) k with
         | Some j => Some (f + Z.of_nat j)%Z
         | None => pair_to_flat_ idx !! k
         end.
Proof.
  unfold InfoSetIndex.build_step.
  pose proof (build_inner_loop_flat i (is_id iset) (is_legal_actions iset)
                (mkInfoSetIndex (info_sets_ idx ++ [iset])
                   (<[is_id iset := i]> (id_to_idx_ idx))
                   (flat_to_pair_ idx) (pair_to_flat_ idx) (total_dim_ idx))
                f 0%Z) as H.
  cbv zeta in H. destruct (fold_left _ _ _) as [[idx' f'] a'].
  simpl in *. exact H.
Qed.

Lemma flat_keys_length l : Z.of_nat (length (flat_keys l)) = sum_actions l.
Proof.
  induction l as [|x l IH]; [reflexivity|].
  cbn [flat_keys]. rewrite length_app, length_map, sum_actions_cons.
  unfold num_actions. lia.
Qed.

Lemma build_fold_flat l :
  forall idx f i,
    let r := fold_left InfoSetIndex.build_step l (idx, f, i) in
    flat_to_pair_ (r.1.1) = flat_to_pair_ idx ++ flat_pairs i l
    /\ forall k,
         pair_to_flat_ (r.1.1) !! k
         = match last_pos (flat_keys l) k with
           | Some j => Some (f + Z.of_nat j)%Z
           | None => pair_to_flat_ idx !! k
           end.
Proof.
  induction l as [|x l IH]; intros idx f i; cbv zeta; cbn [fold_left].
  - simpl. rewrite app_nil_r. auto.
  - pose proof (build_step_spec idx f i x) as Hs. cbv zeta in Hs.
    pose proof (build_step_flat idx f i x) as Hf. cbv zeta in Hf.
    destruct (InfoSetIndex.build_step (idx, f, i) x) as [[idx1 f1] i1].
    simpl in Hs, Hf. destruct Hs as (_ & _ & Hs3 & Hs4). destruct Hf as (Hf1 & Hf2).
    specialize (IH idx1 f1 i1). cbv zeta in IH. destruct IH as (H1 & H2). split.
    + rewrite H1, Hf1, <- app_assoc, Hs4. reflexivity.
    + intros k. rewrite H2. cbn [flat_keys]. rewrite last_pos_app.
      destruct (last_pos (flat_keys l) k) as [j|].
      * f_equal. rewrite length_map, Hs3. unfold num_actions. lia.
      * apply Hf2.
Qed.

Lemma build_flat l :
  flat_to_pair_ (InfoSetIndex.build l) = flat_pairs 0 l
  /\ forall k,
       pair_to_flat_ (InfoSetIndex.build l) !! k = Z.of_nat <$> last_pos (flat_keys l) k.
Proof.
  unfold InfoSetIndex.build.
  pose proof (build_fold_flat l InfoSetIndex.empty 0%Z 0%Z) as H. cbv zeta in H.
  destruct (fold_left _ _ _) as [[idx f] i]. simpl in *.
  destruct H as (H1 & H2). split; [exact H1|].
  intros k. rewrite H2. destruct (last_pos (flat_keys l) k); simpl; [f_equal; lia|].
  apply lookup_empty.
Qed.

Lemma flat_keys_app l1 l2 : flat_keys (l1 ++ l2) = flat_keys l1 ++ flat_keys l2.
Proof.
  induction l1 as [|x l1 IH]; [reflexivity|].
  cbn [app flat_keys]. rewrite IH, app_assoc. reflexivity.
Qed.

Lemma flat_pairs_app i l1 l2 :
  flat_pairs i (l1 ++ l2)
  = flat_pairs i l1 ++ flat_pairs (i + Z.of_nat (length l1)) l2.
Proof.
  revert i. induction l1 as [|x l1 IH]; intros i.
  - cbn [app flat_pairs length]. f_equal. lia.
  - cbn [app flat_pairs length]. rewrite IH, <- app_assoc. do 3 f_equal. lia.
Qed.

Lemma flat_pairs_length i l : length (flat_pairs i l) = length (flat_keys l).
Proof.
  revert i. induction l as [|x l IH]; intros i; [reflexivity|].
  cbn [flat_pairs flat_keys]. rewrite !length_app, !length_map, length_seq, IH.
  reflexivity.
Qed.

(** An info set splits the list around its position. *)
Lemma split_at (l : list InfoSet) (i : nat) (x : InfoSet) :
  l !! i = Some x -> l = take i l ++ x :: drop (S i) l.
Proof.
  intros H. rewrite <- (take_drop i l) at 1. rewrite (drop_S _ _ _ H). reflexivity.
Qed.

Lemma start_as_length (l : list InfoSet) (i : nat) :
  InfoSetIndex.info_set_start (InfoSetIndex.build l) (Z.of_nat i)
  = Z.of_nat (length (flat_keys (take i l))).
Proof. rewrite info_set_start_build, flat_keys_length. reflexivity. Qed.

Lemma flat_keys_lookup (l : list InfoSet) (i a : nat) (x : InfoSet) (act : Action) :
  l !! i = Some x -> is_legal_actions x !! a = Some act ->
  flat_keys l !! (length (flat_keys (take i l)) + a)%nat = Some (is_id x, act).
Proof.
  intros Hx Ha.
  assert (Hk : flat_keys l = flat_keys (take i l) ++ flat_keys (x :: drop (S i) l)).
  { rewrite <- flat_keys_app, <- split_at by exact Hx. reflexivity. }
  rewrite Hk, lookup_app_r by lia.
  replace (length (flat_keys (take i l)) + a - length (flat_keys (take i l)))%nat
    with a by lia.
  cbn [flat_keys]. rewrite lookup_app_l.
  - rewrite list_lookup_fmap, Ha. reflexivity.
  - rewrite length_map. apply lookup_lt_Some in Ha. exact Ha.
Qed.

Lemma flat_pairs_lookup (l : list InfoSet) (i a : nat) (x : InfoSet) (i0 : Z) :
  l !! i = Some x -> (a < length (is_legal_actions x))%nat ->
  flat_pairs i0 l !! (length (flat_keys (take i l)) + a)%nat
  = Some ((i0 + Z.of_nat i)%Z, Z.of_nat a).
Proof.
  intros Hx Ha.
  assert (Hk : flat_pairs i0 l
               = flat_pairs i0 (take i l)
                 ++ flat_pairs (i0 + Z.of_nat (length (take i l))) (x :: drop (S i) l)).
  { rewrite <- flat_pairs_app, <- split_at by exact Hx. reflexivity. }
  rewrite Hk, lookup_app_r by (rewrite flat_pairs_length; lia).
  rewrite flat_pairs_length.
  replace (length (flat_keys (take i l)) + a - length (flat_keys (take i l)))%nat
    with a by lia.
  cbn [flat_pairs]. rewrite lookup_app_l by (rewrite length_map, length_seq; exact Ha).
  rewrite list_lookup_fmap, lookup_seq_lt by exact Ha. cbn.
  rewrite length_take_le; [reflexivity|].
  apply lookup_lt_Some in Hx. lia.
Qed.

Lemma flat_keys_lookup_inv (l : list InfoSet) (j : nat) (id : InfoSetId) (act : Action) :
  flat_keys l !! j = Some (id, act) ->
  exists i x a,
    l !! i = Some x /\ is_id x = id /\ is_legal_actions x !! a = Some act
    /\ j = (length (flat_keys (take i l)) + a)%nat.
Proof.
  revert j. induction l as [|x l IH]; intros j; cbn [flat_keys]; [discriminate|].
  intros H. destruct (decide (j < length (is_legal_actions x))%nat) as [Hlt|Hge].
  - rewrite lookup_app_l in H by (rewrite length_map; exact Hlt).
    rewrite list_lookup_fmap in H.
    destruct (is_legal_actions x !! j) as [b|] eqn:E; [|discriminate].
    injection H as H1 H2. subst. exists 0%nat, x, j. auto.
  - rewrite lookup_app_r in H by (rewrite length_map; lia).
    rewrite length_map in H. apply IH in H as (i & y & a & Hy & Hid & Ha & Hj).
    exists (S i), y, a. repeat split; [exact Hy|exact Hid|exact Ha|].
    cbn [take flat_keys]. rewrite length_app, length_map. lia.
Qed.

(** With distinct ids and distinct actions, a key sits at one flat position. *)
Lemma flat_keys_last_pos (l : list InfoSet) (i a : nat) (x : InfoSet) (act : Action) :
  NoDup (List.map is_id l) -> NoDup (is_legal_actions x) ->
  l !! i = Some x -> is_legal_actions x !! a = Some act ->
  last_pos (flat_keys l) (is_id x, act)
  = Some (length (flat_keys (take i l)) + a)%nat.
Proof.
  intros Hids Hacts Hx Ha. apply last_pos_unique.
  - apply flat_keys_lookup; assumption.
  - intros j' Hj'. apply flat_keys_lookup_inv in Hj' as (i' & y & a' & Hy & Hid & Ha' & ->).
    assert (i' = i) as ->.
    { apply (NoDup_lookup _ _ _ (is_id x) Hids); rewrite list_lookup_fmap.
      - rewrite Hy. cbn. congruence.
      - rewrite Hx. reflexivity. }
    assert (y = x) as -> by congruence.
    f_equal. apply (NoDup_lookup _ _ _ act Hacts); assumption.
Qed.

Lemma last_index_unique (l : list InfoSet) (i : nat) (x : InfoSet) :
  NoDup (List.map is_id l) -> l !! i = Some x -> last_index l (is_id x) = Some i.
Proof.
  intros Hids Hx.
  destruct (last_index_present l (is_id x)) as [j Hj].
  { apply list_elem_of_lookup_2 with i. rewrite list_lookup_fmap, Hx. reflexivity. }
  rewrite Hj. f_equal.
  destruct (last_index_lookup l (is_id x) j Hj) as (y & Hy & Hid).
  apply (NoDup_lookup _ _ _ (is_id x) Hids); rewrite list_lookup_fmap.
  - rewrite Hy. cbn. congruence.
  - rewrite Hx. reflexivity.
Qed.

Lemma last_index_None (l : list InfoSet) (id : InfoSetId) :
  last_index l id = None -> id ∉ List.map is_id l.
Proof.
  intros H Hin. apply last_index_present in Hin as [j Hj]. congruence.
Qed.

Lemma flat_to_pair_length (l : list InfoSet) :
  Z.of_nat (length (flat_to_pair_ (InfoSetIndex.build l)))
  = InfoSetIndex.total_dim (InfoSetIndex.build l).
Proof.
  rewrite (proj1 (build_flat l)), flat_pairs_length, flat_keys_length.
  symmetry. apply build_spec.
Qed.

(** X1: in an index made by [build], the flat position [info_set_start i + a]
    of action number [a] of info set number [i] lies inside the strategy
    vector and [flat_to_pair] maps it back to [(i, a)]; [flat_to_pair] has an
    entry exactly for the positions [0 .. total_dim - 1]. *)
Theorem flat_to_pair_of_block_position (l : list InfoSet) (i a : nat)
    (iset : InfoSet) :
  l !! i = Some iset -> (a < length (is_legal_actions iset))%nat ->
  let index := InfoSetIndex.build l in
  let flat := (InfoSetIndex.info_set_start index (Z.of_nat i) + Z.of_nat a)%Z in
  InfoSetIndex.flat_to_pair index flat = Some (Z.of_nat i, Z.of_nat a)
  /\ (0 <= flat < InfoSetIndex.total_dim index)%Z
  /\ forall f, is_Some (InfoSetIndex.flat_to_pair index f)
               <-> (0 <= f < InfoSetIndex.total_dim index)%Z.
Proof.
  intros Hx Ha index flat.
  assert (Hflat : flat = Z.of_nat (length (flat_keys (take i l)) + a)).
  { unfold flat, index. rewrite start_as_length. lia. }
  assert (Hlook : InfoSetIndex.flat_to_pair index flat = Some (Z.of_nat i, Z.of_nat a)).
  { unfold InfoSetIndex.flat_to_pair. rewrite Hflat.
    destruct (Z.ltb_spec (Z.of_nat (length (flat_keys (take i l)) + a)) 0); [lia|].
    rewrite Nat2Z.id. unfold index. rewrite (proj1 (build_flat l)).
    rewrite (flat_pairs_lookup l i a iset 0 Hx Ha). f_equal. }
  assert (Hrange : forall f, is_Some (InfoSetIndex.flat_to_pair index f)
                             <-> (0 <= f < InfoSetIndex.total_dim index)%Z).
  { intros f. unfold InfoSetIndex.flat_to_pair, index.
    rewrite <- flat_to_pair_length.
    destruct (Z.ltb_spec f 0) as [Hneg|Hpos].
    - split; [intros [? ?]; discriminate|lia].
    - rewrite lookup_lt_is_Some. lia. }
  split; [exact Hlook|]. split; [|exact Hrange].
  apply Hrange. rewrite Hlook. eauto.
Qed.

Lemma flat_to_pair_of_block_position_witness :
  InfoSetIndex.flat_to_pair (InfoSetIndex.build kuhn_info_sets)
    (InfoSetIndex.info_set_start (InfoSetIndex.build kuhn_info_sets) 3 + 1)
  = Some (3%Z, 1%Z).
Proof.
  apply (flat_to_pair_of_block_position kuhn_info_sets 3 1
           (mkInfoSet "P0:K:cb" PLAYER_0 [Call; Fold])).
  - reflexivity.
  - simpl. lia.
Defined.

(** X2: when the ids of the info sets are pairwise distinct and an info set
    lists no action twice, [info_set_idx] returns the position of the info
    set, [pair_to_flat] returns [info_set_start] plus the position of the
    action, and [flat_to_pair] takes that flat position back to the pair of
    positions. *)
Theorem pair_to_flat_round_trip (l : list InfoSet) (i a : nat) (iset : InfoSet)
    (act : Action) :
  NoDup (List.map is_id l) -> NoDup (is_legal_actions iset) ->
  l !! i = Some iset -> is_legal_actions iset !! a = Some act ->
  let index := InfoSetIndex.build l in
  InfoSetIndex.info_set_idx index (is_id iset) = Z.of_nat i
  /\ InfoSetIndex.pair_to_flat index (is_id iset) act
     = (InfoSetIndex.info_set_start index (Z.of_nat i) + Z.of_nat a)%Z
  /\ InfoSetIndex.flat_to_pair index
       (InfoSetIndex.pair_to_flat index (is_id iset) act)
     = Some (Z.of_nat i, Z.of_nat a).
Proof.
  intros Hids Hacts Hx Ha index.
  assert (Hp : InfoSetIndex.pair_to_flat index (is_id iset) act
               = (InfoSetIndex.info_set_start index (Z.of_nat i) + Z.of_nat a)%Z).
  { unfold InfoSetIndex.pair_to_flat, index.
    rewrite (proj2 (build_flat l)), (flat_keys_last_pos l i a iset act Hids Hacts Hx Ha).
    cbn. rewrite start_as_length. lia. }
  split; [|split; [exact Hp|]].
  - unfold InfoSetIndex.info_set_idx, index.
    rewrite (proj2 (proj2 (build_spec l))), (last_index_unique l i iset Hids Hx).
    reflexivity.
  - rewrite Hp. unfold InfoSetIndex.flat_to_pair, index.
    rewrite start_as_length.
    destruct (Z.ltb_spec (Z.of_nat (length (flat_keys (take i l))) + Z.of_nat a) 0); [lia|].
    rewrite <- Nat2Z.inj_add, Nat2Z.id, (proj1 (build_flat l)).
    apply lookup_lt_Some in Ha.
    rewrite (flat_pairs_lookup l i a iset 0 Hx Ha). f_equal.
Qed.

Lemma pair_to_flat_round_trip_witness :
  let index := InfoSetIndex.build kuhn_info_sets in
  InfoSetIndex.info_set_idx index "P0:K:cb" = 3%Z
  /\ InfoSetIndex.pair_to_flat index "P0:K:cb" Fold
     = (InfoSetIndex.info_set_start index 3 + 1)%Z
  /\ InfoSetIndex.flat_to_pair index (InfoSetIndex.pair_to_flat index "P0:K:cb" Fold)
     = Some (3%Z, 1%Z).
Proof.
  apply (pair_to_flat_round_trip kuhn_info_sets 3 1
           (mkInfoSet "P0:K:cb" PLAYER_0 [Call; Fold]) Fold).
  - apply (bool_decide_unpack _). vm_compute. exact I.
  - apply (bool_decide_unpack _). vm_compute. exact I.
  - reflexivity.
  - reflexivity.
Defined.

(** X3: [info_set_idx] answers -1 exactly for the ids that no info set of
    the index carries, and [pair_to_flat] answers -1 exactly for the
    (id, action) pairs that occur in no info set.  A present id gets a
    position below the number of info sets, a present pair a position below
    the total dimension, so every present key gets a non-negative answer. *)
Theorem index_lookup_missing_key (l : list InfoSet) (id : InfoSetId) (act : Action) :
  let index := InfoSetIndex.build l in
  (InfoSetIndex.info_set_idx index id = (-1)%Z <-> id ∉ List.map is_id l)
  /\ (InfoSetIndex.pair_to_flat index id act = (-1)%Z <-> (id, act) ∉ flat_keys l)
  /\ (id ∈ List.map is_id l ->
      (0 <= InfoSetIndex.info_set_idx index id < InfoSetIndex.num_info_sets index)%Z)
  /\ ((id, act) ∈ flat_keys l ->
      (0 <= InfoSetIndex.pair_to_flat index id act < InfoSetIndex.total_dim index)%Z).
Proof.
  intros index.
  assert (Hidx : InfoSetIndex.info_set_idx index id
                 = match last_index l id with Some j => Z.of_nat j | None => (-1)%Z end).
  { unfold InfoSetIndex.info_set_idx, index. rewrite (proj2 (proj2 (build_spec l))).
    destruct (last_index l id); reflexivity. }
  assert (Hflat : InfoSetIndex.pair_to_flat index id act
                  = match last_pos (flat_keys l) (id, act) with
                    | Some j => Z.of_nat j
                    | None => (-1)%Z
                    end).
  { unfold InfoSetIndex.pair_to_flat, index. rewrite (proj2 (build_flat l)).
    destruct (last_pos (flat_keys l) (id, act)); reflexivity. }
  assert (Hin : forall j, last_index l id = Some j ->
                          id ∈ List.map is_id l /\ (j < length l)%nat).
  { intros j E. destruct (last_index_lookup l id j E) as (x & Hx & Hid). split.
    - apply list_elem_of_lookup_2 with j. rewrite list_lookup_fmap, Hx. cbn. congruence.
    - apply lookup_lt_Some with x. exact Hx. }
  assert (Hkey : forall j, last_pos (flat_keys l) (id, act) = Some j ->
                           (id, act) ∈ flat_keys l /\ (j < length (flat_keys l))%nat).
  { intros j E. apply last_pos_lookup in E. split.
    - apply list_elem_of_lookup_2 with j. exact E.
    - apply lookup_lt_Some with (id, act). exact E. }
  rewrite Hidx, Hflat. split; [|split; [|split]].
  - destruct (last_index l id) as [j|] eqn:E.
    + split; [lia|]. intros Hn. exfalso. apply Hn. apply (Hin j eq_refl).
    + split; [|reflexivity]. intros _. apply last_index_None. exact E.
  - destruct (last_pos (flat_keys l) (id, act)) as [j|] eqn:E.
    + split; [lia|]. intros Hn. exfalso. apply Hn. apply (Hkey j eq_refl).
    + split; [|reflexivity]. intros _. apply last_pos_None. exact E.
  - intros Hpresent. destruct (last_index l id) as [j|] eqn:E.
    + destruct (Hin j eq_refl) as [_ Hj].
      unfold InfoSetIndex.num_info_sets, index. rewrite (proj1 (build_spec l)). lia.
    + exfalso. apply (last_index_None l id E). exact Hpresent.
  - intros Hpresent. destruct (last_pos (flat_keys l) (id, act)) as [j|] eqn:E.
    + destruct (Hkey j eq_refl) as [_ Hj].
      unfold index. rewrite (proj1 (proj2 (build_spec l))), <- flat_keys_length. lia.
    + exfalso. apply (last_pos_None _ _ E). exact Hpresent.
Qed.

(** ** Strategies and flat logit vectors *)

Lemma coeff_lookup (w : list R) (i : nat) (x : R) :
  w !! i = Some x -> coeff w (Z.of_nat i) = Ok x.
Proof.
  intros H. unfold coeff. destruct (Z.ltb_spec (Z.of_nat i) 0); [lia|].
  rewrite Nat2Z.id, H. reflexivity.
Qed.

Lemma set_coeff_in_range (v : list R) (i : nat) (x : R) :
  (i < length v)%nat -> set_coeff v (Z.of_nat i) x = Ok (<[i := x]> v).
Proof.
  intros H. unfold set_coeff. destruct (Z.ltb_spec (Z.of_nat i) 0); [lia|].
  rewrite Nat2Z.id. destruct (Nat.ltb_spec i (length v)); [reflexivity|lia].
Qed.

Lemma mapM_coeff_segment (w : list R) (start : nat) (k : nat) :
  forall s,
    (start + s + k <= length w)%nat ->
    mapM (fun a => coeff w (Z.of_nat start + Z.of_nat a)) (seq s k)
    = Ok (take k (drop (start + s) w)).
Proof.
  induction k as [|k IH]; intros s Hle; cbn [seq mapM].
  - rewrite take_0. reflexivity.
  - destruct (lookup_lt_is_Some_2 w (start + s)) as [x Hx]; [lia|].
    rewrite <- Nat2Z.inj_add, (coeff_lookup w (start + s) x Hx). cbn.
    rewrite IH by lia. cbn.
    rewrite (drop_S _ _ _ Hx). cbn [take].
    replace (start + S s)%nat with (S (start + s)) by lia. reflexivity.
Qed.

Lemma from_logits_step_segment (l : list InfoSet) (w : list R) (s : Strategy)
    (a : nat) (x : InfoSet) :
  l !! a = Some x ->
  (sum_actions l <= Z.of_nat (length w))%Z ->
  Strategy.from_logits_step w (InfoSetIndex.build l) s (Z.of_nat a)
  = Ok (mkStrategy
          (<[is_id x := segment w (sum_actions (take a l))
                          (length (is_legal_actions x))]> (logits_ s))
          (<[is_id x := is_legal_actions x]> (actions_ s))).
Proof.
  intros Hx Hw. unfold Strategy.from_logits_step.
  rewrite info_set_build, Hx, info_set_start_build, Nat2Z.id.
  assert (Hsplit : sum_actions l
                   = (sum_actions (take a l) + num_actions x
                      + sum_actions (drop (S a) l))%Z).
  { rewrite <- (take_drop a l) at 1. rewrite sum_actions_app.
    rewrite (drop_S _ _ _ Hx), sum_actions_cons. lia. }
  pose proof (sum_actions_nonneg (take a l)).
  pose proof (sum_actions_nonneg (drop (S a) l)).
  unfold num_actions in Hsplit.
  set (st := sum_actions (take a l)) in *.
  assert (Hst : st = Z.of_nat (Z.to_nat st)) by lia.
  rewrite Hst.
  rewrite (mapM_coeff_segment w (Z.to_nat st)
             (length (is_legal_actions x)) 0) by lia.
  cbn. unfold segment. rewrite Nat.add_0_r, Nat2Z.id. reflexivity.
Qed.

(** What [from_logits] stores for an id: the segment of [w] and the legal
    actions of the last info set carrying the id. *)
Lemma from_logits_fold_segment (l : list InfoSet) (w : list R) :
  (sum_actions l <= Z.of_nat (length w))%Z ->
  forall suf a s,
    drop a l = suf ->
    exists s',
      foldM (Strategy.from_logits_step w (InfoSetIndex.build l)) s
            (List.map Z.of_nat (seq a (length suf))) = Ok s'
      /\ forall id,
           (logits_ s' !! id
            = match last_index suf id with
              | Some j =>
                  (fun iset => segment w (sum_actions (take (a + j) l))
                                 (length (is_legal_actions iset))) <$> suf !! j
              | None => logits_ s !! id
              end)
           /\ (actions_ s' !! id
               = match last_index suf id with
                 | Some j => is_legal_actions <$> suf !! j
                 | None => actions_ s !! id
                 end).
Proof.
  intros Hw. induction suf as [|x suf IH]; intros a s Hdrop.
  - exists s. simpl. auto.
  - assert (Hx : l !! a = Some x).
    { rewrite <- (Nat.add_0_r a), <- lookup_drop, Hdrop. reflexivity. }
    assert (Hdrop' : drop (S a) l = suf).
    { rewrite (drop_S _ _ _ Hx) in Hdrop. congruence. }
    pose proof (from_logits_step_segment l w s a x Hx Hw) as Hstep.
    destruct (IH (S a)
                (mkStrategy
                   (<[is_id x := segment w (sum_actions (take a l))
                                   (length (is_legal_actions x))]> (logits_ s))
                   (<[is_id x := is_legal_actions x]> (actions_ s)))
                Hdrop') as (s' & Hs' & Hlook).
    exists s'. split.
    + cbn [length seq List.map foldM]. rewrite Hstep. exact Hs'.
    + intros id. destruct (Hlook id) as [Hl Ha]. rewrite Hl, Ha. cbn [last_index].
      destruct (last_index suf id) as [j|].
      * cbn [lookup list_lookup]. replace (S a + j)%nat with (a + S j)%nat by lia.
        split; reflexivity.
      * cbn [logits_ actions_]. destruct (decide (is_id x = id)) as [->|Hne].
        -- rewrite !lookup_insert_eq. cbn. rewrite Nat.add_0_r. split; reflexivity.
        -- rewrite !lookup_insert_ne by exact Hne. split; reflexivity.
Qed.

Lemma from_logits_segment (l : list InfoSet) (w : list R) :
  (sum_actions l <= Z.of_nat (length w))%Z ->
  exists s,
    Strategy.from_logits w (InfoSetIndex.build l) = Ok s
    /\ forall id,
         (logits_ s !! id
          = match last_index l id with
            | Some j =>
                (fun iset => segment w (sum_actions (take j l))
                               (length (is_legal_actions iset))) <$> l !! j
            | None => None
            end)
         /\ (actions_ s !! id
             = match last_index l id with
               | Some j => is_legal_actions <$> l !! j
               | None => None
               end).
Proof.
  intros Hw. unfold Strategy.from_logits, InfoSetIndex.num_info_sets.
  rewrite (proj1 (build_spec l)), Nat2Z.id.
  destruct (from_logits_fold_segment l w Hw l 0 Strategy.empty (drop_0 l))
    as (s & Hs & Hlook).
  exists s. split; [exact Hs|]. intros id. destruct (Hlook id) as [Hl Ha].
  rewrite Hl, Ha. destruct (last_index l id); cbn; split; try reflexivity;
    apply lookup_empty.
Qed.

Lemma from_logits_at (l : list InfoSet) (w : list R) (s : Strategy) (i : nat)
    (x : InfoSet) :
  (sum_actions l <= Z.of_nat (length w))%Z ->
  NoDup (List.map is_id l) ->
  Strategy.from_logits w (InfoSetIndex.build l) = Ok s ->
  l !! i = Some x ->
  logits_ s !! is_id x
  = Some (segment w (sum_actions (take i l)) (length (is_legal_actions x)))
  /\ actions_ s !! is_id x = Some (is_legal_actions x).
Proof.
  intros Hw Hids Hs Hx.
  destruct (from_logits_segment l w Hw) as (s' & Hs' & Hlook).
  assert (s' = s) as -> by congruence.
  destruct (Hlook (is_id x)) as [Hl Ha].
  rewrite Hl, Ha, (last_index_unique l i x Hids Hx), Hx. split; reflexivity.
Qed.

(** Writing a block of a vector cell by cell. *)
Lemma write_block (seg : list R) (start : nat) :
  forall k s v,
    (s + k <= length seg)%nat -> (start + s + k <= length v)%nat ->
    foldM (fun w a => x ← coeff seg (Z.of_nat a);
                      set_coeff w (Z.of_nat start + Z.of_nat a) x) v (seq s k)
    = Ok (take (start + s) v ++ take k (drop s seg) ++ drop (start + s + k) v).
Proof.
  induction k as [|k IH]; intros s v Hs Hv; cbn [seq foldM].
  - rewrite take_0, Nat.add_0_r. cbn [app]. rewrite take_drop. reflexivity.
  - destruct (lookup_lt_is_Some_2 seg s) as [x Hx]; [lia|].
    rewrite (coeff_lookup seg s x Hx). cbn.
    rewrite <- Nat2Z.inj_add, set_coeff_in_range by lia. cbn.
    rewrite IH by (rewrite ?length_insert; lia).
    f_equal. rewrite (drop_S _ _ _ Hx). cbn [take].
    replace (start + S s)%nat with (S (start + s)) by lia.
    rewrite (take_S_r (<[(start + s)%nat := x]> v) (start + s) x)
      by (apply list_lookup_insert_eq; lia).
    rewrite take_insert_ge by lia.
    rewrite drop_insert_lt by lia.
    rewrite <- app_assoc. cbn [app].
    replace (S (start + s) + k)%nat with (start + s + S k)%nat by lia.
    reflexivity.
Qed.

Lemma write_zeros (k0 : nat) (start : nat) :
  forall k s v,
    (start + s + k <= length v)%nat ->
    foldM (fun w a => set_coeff w (Z.of_nat start + Z.of_nat a) 0) v (seq s k)
    = Ok (take (start + s) v ++ repeat 0 k ++ drop (start + s + k) v).
Proof.
  induction k as [|k IH]; intros s v Hv; cbn [seq foldM].
  - cbn [repeat app]. rewrite Nat.add_0_r, take_drop. reflexivity.
  - rewrite <- Nat2Z.inj_add, set_coeff_in_range by lia. cbn.
    rewrite IH by (rewrite ?length_insert; lia).
    f_equal.
    replace (start + S s)%nat with (S (start + s)) by lia.
    rewrite (take_S_r (<[(start + s)%nat := 0]> v) (start + s) 0)
      by (apply list_lookup_insert_eq; lia).
    rewrite take_insert_ge by lia.
    rewrite drop_insert_lt by lia.
    rewrite <- app_assoc. cbn [app repeat].
    replace (S (start + s) + k)%nat with (start + s + S k)%nat by lia.
    reflexivity.
Qed.

Lemma segment_length (w : list R) (start : Z) (k : nat) :
  (0 <= start)%Z -> (start + Z.of_nat k <= Z.of_nat (length w))%Z ->
  length (segment w start k) = k.
Proof.
  intros H0 H. unfold segment. rewrite length_take, length_drop. lia.
Qed.

(** ** The distribution answered for an info set *)

(** C6 (as amended): for a flat logit vector of the index's dimension and an
    id present in the index, the strategy built by [from_logits] stores for
    the id the segment of [w] of its info set, and [probs] answers with one
    entry per legal action, none negative, summing to 1 (so within 1e-9 of
    1).  An action whose logit is within 700 of the largest logit of the
    info set has a strictly positive probability; one whose logit is 746 or
    more below it has probability exactly zero, the exponential having
    underflowed.  The info set is a decision point: it has at least one
    legal action. *)
Theorem from_logits_probs_distribution (info_sets : list InfoSet) (w : list R)
    (id : InfoSetId) :
  let index := InfoSetIndex.build info_sets in
  Z.of_nat (length w) = InfoSetIndex.total_dim index ->
  id ∈ List.map is_id info_sets ->
  Forall (fun iset => is_id iset = id -> is_legal_actions iset <> []) info_sets ->
  exists sigma p iset,
    Strategy.from_logits w index = Ok sigma
    /\ Strategy.probs sigma id = Ok p
    /\ InfoSetIndex.info_set index (InfoSetIndex.info_set_idx index id) = Some iset
    /\ is_id iset = id
    /\ length p = length (is_legal_actions iset)
    /\ Forall (Rle 0) p
    /\ Rabs (vsum p - 1) <= 1e-9
    /\ let lg := segment w (InfoSetIndex.info_set_start index
                              (InfoSetIndex.info_set_idx index id))
                         (length (is_legal_actions iset)) in
       Strategy.logits sigma id = Ok lg
       /\ (forall a x, lg !! a = Some x -> maxCoeff lg - x <= 700 ->
             exists q, p !! a = Some q /\ 0 < q)
       /\ (forall a x, lg !! a = Some x -> 746 <= maxCoeff lg - x ->
             p !! a = Some 0).
Proof.
  intros index Hw Hid Hne.
  destruct (build_spec info_sets) as (Hsets & Hdim & Hidx).
  fold index in Hsets, Hdim, Hidx.
  destruct (last_index_present _ _ Hid) as [j Hj].
  destruct (last_index_lookup _ _ _ Hj) as (iset & Hiset & Hisid).
  destruct (from_logits_segment info_sets w ltac:(lia)) as (sigma & Hsigma & Hlook).
  fold index in Hsigma.
  destruct (Hlook id) as [Hlg _]. rewrite Hj, Hiset in Hlg. cbn in Hlg.
  assert (Hj' : InfoSetIndex.info_set_idx index id = Z.of_nat j).
  { unfold InfoSetIndex.info_set_idx. rewrite Hidx, Hj. reflexivity. }
  assert (Hstart : InfoSetIndex.info_set_start index (InfoSetIndex.info_set_idx index id)
                   = sum_actions (take j info_sets)).
  { rewrite Hj'. apply info_set_start_build. }
  assert (Hsplit : sum_actions info_sets
                   = (sum_actions (take j info_sets) + num_actions iset
                      + sum_actions (drop (S j) info_sets))%Z).
  { rewrite <- (take_drop j info_sets) at 1. rewrite sum_actions_app.
    rewrite (drop_S _ _ _ Hiset), sum_actions_cons. lia. }
  pose proof (sum_actions_nonneg (take j info_sets)) as Hnn1.
  pose proof (sum_actions_nonneg (drop (S j) info_sets)) as Hnn2.
  set (lg := segment w (sum_actions (take j info_sets))
                     (length (is_legal_actions iset))) in *.
  assert (Hlen : length lg = length (is_legal_actions iset)).
  { apply segment_length; [exact Hnn1|]. unfold num_actions in Hsplit. lia. }
  assert (Hv : lg <> []).
  { intros Hnil. rewrite Hnil in Hlen. rewrite Forall_forall in Hne.
    apply (Hne iset); [eapply list_elem_of_lookup_2; exact Hiset|exact Hisid|].
    destruct (is_legal_actions iset); [reflexivity|discriminate]. }
  exists sigma, (stable_softmax lg), iset.
  split; [exact Hsigma|].
  split; [unfold Strategy.probs; rewrite Hlg; reflexivity|].
  split; [rewrite Hj'; unfold index; rewrite info_set_build; exact Hiset|].
  split; [exact Hisid|].
  split; [rewrite stable_softmax_length; exact Hlen|].
  split; [apply stable_softmax_nonneg, Hv|].
  split.
  { rewrite (stable_softmax_sum lg Hv).
    replace (1 - 1) with 0 by lra. rewrite Rabs_R0. lra. }
  cbv zeta. rewrite Hstart. fold lg.
  split; [unfold Strategy.logits; rewrite Hlg; reflexivity|].
  split; intros a x Hx Hgap; apply (stable_softmax_entry lg a x Hx); exact Hgap.
Qed.

Lemma from_logits_probs_distribution_witness :
  Z.of_nat (length (repeat 0 24))
  = InfoSetIndex.total_dim (InfoSetIndex.build kuhn_info_sets)
  /\ "P1:K:b"%string ∈ List.map is_id kuhn_info_sets
  /\ Forall (fun iset => is_id iset = "P1:K:b"%string -> is_legal_actions iset <> [])
            kuhn_info_sets
  /\ exists sigma p iset,
       Strategy.from_logits (repeat 0 24) (InfoSetIndex.build kuhn_info_sets)
       = Ok sigma
       /\ Strategy.probs sigma "P1:K:b" = Ok p
       /\ InfoSetIndex.info_set (InfoSetIndex.build kuhn_info_sets)
            (InfoSetIndex.info_set_idx (InfoSetIndex.build kuhn_info_sets) "P1:K:b")
          = Some iset
       /\ is_id iset = "P1:K:b"%string
       /\ length p = length (is_legal_actions iset)
       /\ Forall (Rle 0) p
       /\ Rabs (vsum p - 1) <= 1e-9
       /\ let lg := segment (repeat 0 24)
                      (InfoSetIndex.info_set_start (InfoSetIndex.build kuhn_info_sets)
                         (InfoSetIndex.info_set_idx
                            (InfoSetIndex.build kuhn_info_sets) "P1:K:b"))
                      (length (is_legal_actions iset)) in
          Strategy.logits sigma "P1:K:b" = Ok lg
          /\ (forall a x, lg !! a = Some x -> maxCoeff lg - x <= 700 ->
                exists q, p !! a = Some q /\ 0 < q)
          /\ (forall a x, lg !! a = Some x -> 746 <= maxCoeff lg - x ->
                p !! a = Some 0).
Proof.
  assert (H1 : Z.of_nat (length (repeat 0 24))
               = InfoSetIndex.total_dim (InfoSetIndex.build kuhn_info_sets))
    by (vm_compute; reflexivity).
  assert (H2 : "P1:K:b"%string ∈ List.map is_id kuhn_info_sets)
    by (apply (bool_decide_unpack _); vm_compute; exact I).
  assert (H3 : Forall (fun iset => is_id iset = "P1:K:b"%string ->
                                   is_legal_actions iset <> []) kuhn_info_sets)
    by (apply (bool_decide_unpack _); vm_compute; exact I).
  split; [exact H1|]. split; [exact H2|]. split; [exact H3|].
  exact (from_logits_probs_distribution kuhn_info_sets (repeat 0 24) "P1:K:b"
           H1 H2 H3).
Defined.

(** C6 fails as specified: with the logit 1000 for Fold and 0 for Call at
    the Kuhn info set P1:K:b, the exponential of -1000 underflows to zero and
    [probs] answers [0; 1]: the entries are not all strictly positive. *)
Lemma from_logits_probs_underflow :
  exists sigma p,
    Strategy.from_logits (<[17%nat := 1000]> (repeat 0 24))
                         (InfoSetIndex.build kuhn_info_sets) = Ok sigma
    /\ Z.of_nat (length (<[17%nat := 1000]> (repeat 0 24)))
       = InfoSetIndex.total_dim (InfoSetIndex.build kuhn_info_sets)
    /\ "P1:K:b"%string ∈ List.map is_id kuhn_info_sets
    /\ Strategy.probs sigma "P1:K:b" = Ok p
    /\ p = [0; 1]
    /\ ~ Forall (Rlt 0) p.
Proof.
  assert (Hw : Z.of_nat (length (<[17%nat := 1000]> (repeat 0 24)))
               = InfoSetIndex.total_dim (InfoSetIndex.build kuhn_info_sets))
    by (vm_compute; reflexivity).
  assert (Hid : "P1:K:b"%string ∈ List.map is_id kuhn_info_sets)
    by (apply (bool_decide_unpack _); vm_compute; exact I).
  destruct (from_logits_segment kuhn_info_sets (<[17%nat := 1000]> (repeat 0 24)))
    as (sigma & Hsigma & Hlook).
  { rewrite Hw. rewrite (proj1 (proj2 (build_spec kuhn_info_sets))). lia. }
  destruct (Hlook "P1:K:b"%string) as [Hlg _].
  assert (Hlast : last_index kuhn_info_sets "P1:K:b" = Some 8%nat)
    by (vm_compute; reflexivity).
  rewrite Hlast in Hlg. cbn in Hlg.
  assert (Hp : stable_softmax [0; 1000] = [0; 1]).
  { unfold stable_softmax. cbv zeta.
    assert (Hm : maxCoeff [0; 1000] = 1000).
    { cbn [maxCoeff fold_left]. apply Rmax_right. lra. }
    rewrite Hm. cbn [List.map].
    rewrite (std_exp_underflows (0 - 1000)) by lra.
    replace (1000 - 1000) with 0 by ring. rewrite std_exp_0.
    cbn [vsum fold_right]. f_equal; [|f_equal]; field. }
  exists sigma, [0; 1].
  split; [exact Hsigma|]. split; [exact Hw|]. split; [exact Hid|].
  split.
  - unfold Strategy.probs. rewrite Hlg.
    change (take 2 (drop _ _)) with [0; 1000]. rewrite Hp. reflexivity.
  - split; [reflexivity|]. intros H. apply Forall_cons in H as [H _]. lra.
Qed.

(** One pass of [to_flat_logits] over the info set at position [i] copies
    its segment back. *)
Lemma to_flat_logits_step_spec (l : list InfoSet) (w v : list R) (s : Strategy)
    (i : nat) (x : InfoSet) :
  Z.of_nat (length w) = sum_actions l ->
  length v = length w ->
  NoDup (List.map is_id l) ->
  Strategy.from_logits w (InfoSetIndex.build l) = Ok s ->
  l !! i = Some x ->
  Strategy.to_flat_logits_step s (InfoSetIndex.build l) v (Z.of_nat i)
  = Ok (take (length (flat_keys (take i l))) v
        ++ segment w (sum_actions (take i l)) (length (is_legal_actions x))
        ++ drop (length (flat_keys (take (S i) l))) v).
Proof.
  intros Hw Hv Hids Hs Hx. unfold Strategy.to_flat_logits_step.
  rewrite info_set_build, Hx, start_as_length, Nat2Z.id.
  destruct (from_logits_at l w s i x ltac:(lia) Hids Hs Hx) as [Hl _].
  rewrite Hl.
  assert (Hsplit : length (flat_keys l)
                   = (length (flat_keys (take i l)) + length (is_legal_actions x)
                      + length (flat_keys (drop (S i) l)))%nat).
  { rewrite (split_at l i x Hx) at 1. rewrite flat_keys_app. cbn [flat_keys].
    rewrite !length_app, length_map. lia. }
  pose proof (flat_keys_length l) as Hfl.
  pose proof (flat_keys_length (take i l)) as Hft.
  assert (Hseg : length (segment w (sum_actions (take i l)) (length (is_legal_actions x)))
                 = length (is_legal_actions x)).
  { apply segment_length; lia. }
  rewrite (write_block _ (length (flat_keys (take i l))) (length (is_legal_actions x)) 0 v)
    by lia.
  rewrite Nat.add_0_r, drop_0.
  rewrite (take_ge (segment w (sum_actions (take i l)) (length (is_legal_actions x))))
    by lia.
  do 3 f_equal. rewrite (take_S_r _ _ _ Hx), flat_keys_app. cbn [flat_keys].
  rewrite length_app, length_app, length_map. cbn. f_equal. lia.
Qed.

Lemma flat_keys_take_le (l : list InfoSet) (i : nat) :
  (length (flat_keys (take i l)) <= length (flat_keys l))%nat.
Proof.
  assert (H : flat_keys l = flat_keys (take i l) ++ flat_keys (drop i l)).
  { rewrite <- flat_keys_app, take_drop. reflexivity. }
  rewrite H, length_app. lia.
Qed.

Lemma segment_take_drop (w : list R) (n k : nat) :
  take n w ++ segment w (Z.of_nat n) k = take (n + k) w.
Proof. unfold segment. rewrite Nat2Z.id. apply take_take_drop. Qed.

Lemma to_flat_logits_fold (l : list InfoSet) (w fresh : list R) (s : Strategy) :
  Z.of_nat (length w) = sum_actions l ->
  length fresh = length w ->
  NoDup (List.map is_id l) ->
  Strategy.from_logits w (InfoSetIndex.build l) = Ok s ->
  forall suf i,
    drop i l = suf ->
    foldM (Strategy.to_flat_logits_step s (InfoSetIndex.build l))
          (take (length (flat_keys (take i l))) w
           ++ drop (length (flat_keys (take i l))) fresh)
          (List.map Z.of_nat (seq i (length suf)))
    = Ok w.
Proof.
  intros Hw Hf Hids Hs. induction suf as [|x suf IH]; intros i Hdrop.
  - cbn. f_equal.
    assert (Hlen : (length l <= i)%nat).
    { apply (f_equal length) in Hdrop. rewrite length_drop in Hdrop. simpl in Hdrop. lia. }
    rewrite (take_ge l i Hlen).
    pose proof (flat_keys_length l).
    rewrite take_ge, drop_ge by lia. apply app_nil_r.
  - assert (Hx : l !! i = Some x).
    { rewrite <- (Nat.add_0_r i), <- lookup_drop, Hdrop. reflexivity. }
    assert (Hdrop' : drop (S i) l = suf).
    { rewrite (drop_S _ _ _ Hx) in Hdrop. congruence. }
    cbn [length seq List.map foldM].
    pose proof (flat_keys_length l) as Hfl.
    assert (Hle : (length (flat_keys (take i l)) <= length (flat_keys (take (S i) l))
                   <= length (flat_keys l))%nat).
    { split.
      - rewrite (take_S_r _ _ _ Hx), flat_keys_app, length_app. lia.
      - apply flat_keys_take_le. }
    rewrite (to_flat_logits_step_spec l w _ s i x Hw) ; [|
      rewrite length_app, length_take, length_drop; lia | exact Hids | exact Hs | exact Hx].
    cbn. rewrite <- (IH (S i) Hdrop'). f_equal.
    rewrite take_app_le by (rewrite length_take; lia).
    rewrite take_take, Nat.min_id.
    rewrite drop_app_ge by (rewrite length_take; lia).
    rewrite length_take, drop_drop.
    pose proof (flat_keys_length (take i l)) as Hft. rewrite <- Hft.
    rewrite app_assoc, segment_take_drop.
    f_equal.
    + f_equal. rewrite (take_S_r _ _ _ Hx), flat_keys_app. cbn [flat_keys].
      rewrite !length_app, length_map. cbn. lia.
    + f_equal. lia.
Qed.

(** X4: for info sets with pairwise distinct ids and a logit vector of the
    index's dimension, [to_flat_logits] applied to the strategy made by
    [from_logits] returns the logit vector itself, whatever the freshly
    allocated result vector held. *)
Theorem to_flat_logits_from_logits (l : list InfoSet) (w fresh : list R) :
  let index := InfoSetIndex.build l in
  Z.of_nat (length w) = InfoSetIndex.total_dim index ->
  length fresh = length w ->
  NoDup (List.map is_id l) ->
  exists sigma,
    Strategy.from_logits w index = Ok sigma
    /\ Strategy.to_flat_logits sigma index fresh = Ok w.
Proof.
  intros index Hw Hf Hids. unfold index in *.
  rewrite (proj1 (proj2 (build_spec l))) in Hw.
  destruct (from_logits_segment l w ltac:(lia)) as (s & Hs & _).
  exists s. split; [exact Hs|].
  unfold Strategy.to_flat_logits, InfoSetIndex.num_info_sets.
  rewrite (proj1 (build_spec l)), Nat2Z.id.
  pose proof (to_flat_logits_fold l w fresh s Hw Hf Hids Hs l 0 (drop_0 l)) as H.
  cbn [take flat_keys length drop app] in H. exact H.
Qed.

Lemma to_flat_logits_from_logits_witness :
  exists sigma,
    Strategy.from_logits (List.map INR (seq 0 24)) (InfoSetIndex.build kuhn_info_sets)
    = Ok sigma
    /\ Strategy.to_flat_logits sigma (InfoSetIndex.build kuhn_info_sets) (repeat 7 24)
       = Ok (List.map INR (seq 0 24)).
Proof.
  apply (to_flat_logits_from_logits kuhn_info_sets (List.map INR (seq 0 24))
           (repeat 7 24)).
  - vm_compute. reflexivity.
  - reflexivity.
  - apply (bool_decide_unpack _). vm_compute. exact I.
Defined.

Lemma to_flat_logits_step_unknown (l : list InfoSet) (v : list R) (s : Strategy)
    (i : nat) (x : InfoSet) :
  Z.of_nat (length v) = sum_actions l ->
  logits_ s !! is_id x = None ->
  l !! i = Some x ->
  Strategy.to_flat_logits_step s (InfoSetIndex.build l) v (Z.of_nat i)
  = Ok (take (length (flat_keys (take i l))) v
        ++ repeat 0 (length (is_legal_actions x))
        ++ drop (length (flat_keys (take (S i) l))) v).
Proof.
  intros Hv Hl Hx. unfold Strategy.to_flat_logits_step.
  rewrite info_set_build, Hx, start_as_length, Nat2Z.id, Hl.
  assert (Hsplit : length (flat_keys l)
                   = (length (flat_keys (take i l)) + length (is_legal_actions x)
                      + length (flat_keys (drop (S i) l)))%nat).
  { rewrite (split_at l i x Hx) at 1. rewrite flat_keys_app. cbn [flat_keys].
    rewrite !length_app, length_map. lia. }
  pose proof (flat_keys_length l) as Hfl.
  rewrite (write_zeros 0 (length (flat_keys (take i l))) (length (is_legal_actions x)) 0 v)
    by lia.
  rewrite Nat.add_0_r.
  do 3 f_equal. rewrite (take_S_r _ _ _ Hx), flat_keys_app. cbn [flat_keys].
  rewrite length_app, length_app, length_map. cbn. f_equal. lia.
Qed.

Lemma to_flat_logits_unknown_fold (l : list InfoSet) (fresh : list R) (s : Strategy) :
  Z.of_nat (length fresh) = sum_actions l ->
  Forall (fun x => logits_ s !! is_id x = None) l ->
  forall suf i,
    drop i l = suf ->
    foldM (Strategy.to_flat_logits_step s (InfoSetIndex.build l))
          (repeat 0 (length (flat_keys (take i l)))
           ++ drop (length (flat_keys (take i l))) fresh)
          (List.map Z.of_nat (seq i (length suf)))
    = Ok (repeat 0 (length fresh)).
Proof.
  intros Hf Hnone. induction suf as [|x suf IH]; intros i Hdrop.
  - cbn. f_equal.
    assert (Hlen : (length l <= i)%nat).
    { apply (f_equal length) in Hdrop. rewrite length_drop in Hdrop. simpl in Hdrop. lia. }
    rewrite (take_ge l i Hlen).
    pose proof (flat_keys_length l).
    rewrite drop_ge, app_nil_r by lia. f_equal. lia.
  - assert (Hx : l !! i = Some x).
    { rewrite <- (Nat.add_0_r i), <- lookup_drop, Hdrop. reflexivity. }
    assert (Hdrop' : drop (S i) l = suf).
    { rewrite (drop_S _ _ _ Hx) in Hdrop. congruence. }
    cbn [length seq List.map foldM].
    pose proof (flat_keys_length l) as Hfl.
    pose proof (flat_keys_take_le l i) as Hle1.
    pose proof (flat_keys_take_le l (S i)) as Hle2.
    assert (Hstep : length (flat_keys (take (S i) l))
                    = (length (flat_keys (take i l)) + length (is_legal_actions x))%nat).
    { rewrite (take_S_r _ _ _ Hx), flat_keys_app. cbn [flat_keys].
      rewrite !length_app, length_map. cbn. lia. }
    rewrite (to_flat_logits_step_unknown l _ s i x);
      [| rewrite length_app, repeat_length, length_drop; lia
       | apply (proj1 (Forall_lookup _ _) Hnone i x Hx) | exact Hx].
    cbn. rewrite <- (IH (S i) Hdrop'). f_equal.
    rewrite take_app_length' by (rewrite repeat_length; reflexivity).
    rewrite drop_app_ge by (rewrite repeat_length; lia).
    rewrite repeat_length, drop_drop.
    rewrite app_assoc, <- repeat_app, Hstep.
    do 2 f_equal. lia.
Qed.

(** X5: [to_flat_logits] of a strategy that holds none of the index's info
    sets writes zero logits everywhere: the result is the zero vector,
    whatever the freshly allocated vector held. *)
Theorem to_flat_logits_unknown_ids (l : list InfoSet) (s : Strategy)
    (fresh : list R) :
  let index := InfoSetIndex.build l in
  Z.of_nat (length fresh) = InfoSetIndex.total_dim index ->
  Forall (fun x => Strategy.has_info_set s (is_id x) = false) l ->
  Strategy.to_flat_logits s index fresh = Ok (repeat 0 (length fresh)).
Proof.
  intros index Hf Hnone. unfold index in *.
  rewrite (proj1 (proj2 (build_spec l))) in Hf.
  unfold Strategy.to_flat_logits, InfoSetIndex.num_info_sets.
  rewrite (proj1 (build_spec l)), Nat2Z.id.
  assert (Hnone' : Forall (fun x => logits_ s !! is_id x = None) l).
  { eapply Forall_impl; [exact Hnone|]. intros x Hx. unfold Strategy.has_info_set in Hx.
    apply bool_decide_eq_false in Hx. destruct (logits_ s !! is_id x); [|reflexivity].
    exfalso. apply Hx. eauto. }
  pose proof (to_flat_logits_unknown_fold l fresh s Hf Hnone' l 0 (drop_0 l)) as H.
  cbn [take flat_keys length drop app repeat] in H. exact H.
Qed.

Lemma to_flat_logits_unknown_ids_witness :
  Strategy.to_flat_logits Strategy.empty (InfoSetIndex.build kuhn_info_sets)
    (repeat 7 24)
  = Ok (repeat 0 (length (repeat 7 24))).
Proof.
  apply (to_flat_logits_unknown_ids kuhn_info_sets Strategy.empty (repeat 7 24)).
  - vm_compute. reflexivity.
  - apply (bool_decide_unpack _). vm_compute. exact I.
Defined.

(** ** Softmax: shift invariance and equal logits *)

Lemma fold_left_Rmax_shift (c : R) (l : list R) :
  forall a, fold_left Rmax (List.map (fun x => x + c) l) (a + c)
            = fold_left Rmax l a + c.
Proof.
  induction l as [|x l IH]; intros a; cbn [List.map fold_left]; [reflexivity|].
  rewrite <- IH. f_equal. unfold Rmax.
  destruct (Rle_dec (a + c) (x + c)), (Rle_dec a x); try reflexivity; lra.
Qed.

Lemma maxCoeff_shift (c : R) (l : list R) :
  l <> [] -> maxCoeff (List.map (fun x => x + c) l) = maxCoeff l + c.
Proof.
  destruct l as [|x l]; [congruence|]. intros _. cbn [List.map maxCoeff].
  apply fold_left_Rmax_shift.
Qed.

(** X6: [stable_softmax] does not change when one constant is added to
    every logit. *)
Theorem stable_softmax_shift_invariant (c : R) (logits : list R) :
  stable_softmax (List.map (fun x => x + c) logits) = stable_softmax logits.
Proof.
  destruct logits as [|x l]; [reflexivity|].
  unfold stable_softmax. cbv zeta.
  rewrite maxCoeff_shift by discriminate.
  set (m := maxCoeff (x :: l)).
  assert (H : List.map (fun l0 => l0 - (m + c)) (List.map (fun x0 => x0 + c) (x :: l))
              = List.map (fun l0 => l0 - m) (x :: l)).
  { rewrite List.map_map. apply List.map_ext. intros y. lra. }
  rewrite H. reflexivity.
Qed.

Lemma fold_left_Rmax_repeat (a : R) (k : nat) : fold_left Rmax (repeat a k) a = a.
Proof.
  induction k as [|k IH]; [reflexivity|]. cbn [repeat fold_left].
  rewrite Rmax_left by lra. exact IH.
Qed.

Lemma vsum_repeat (a : R) (k : nat) : vsum (repeat a k) = INR k * a.
Proof.
  induction k as [|k IH]; [cbn; lra|].
  cbn [repeat vsum fold_right]. fold (vsum (repeat a k)). rewrite IH, S_INR. lra.
Qed.

Lemma map_repeat {A B : Type} (f : A -> B) (a : A) (k : nat) :
  List.map f (repeat a k) = repeat (f a) k.
Proof. induction k as [|k IH]; [reflexivity|]. cbn. rewrite IH. reflexivity. Qed.

Lemma stable_softmax_repeat (a : R) (k : nat) :
  stable_softmax (repeat a k) = repeat (1 / INR k) k.
Proof.
  destruct k as [|k]; [reflexivity|].
  unfold stable_softmax. cbv zeta.
  assert (Hm : maxCoeff (repeat a (S k)) = a).
  { cbn [repeat maxCoeff]. apply fold_left_Rmax_repeat. }
  rewrite Hm, !map_repeat. rewrite Rminus_diag, std_exp_0, vsum_repeat.
  f_equal. rewrite Rmult_1_r. reflexivity.
Qed.

Lemma repeat_replicate {A : Type} (a : A) (n : nat) : repeat a n = replicate n a.
Proof. induction n as [|n IH]; [reflexivity|]. cbn. rewrite IH. reflexivity. Qed.

Lemma segment_repeat (a : R) (n k : nat) (start : Z) :
  (0 <= start)%Z -> (start + Z.of_nat k <= Z.of_nat n)%Z ->
  segment (repeat a n) start k = repeat a k.
Proof.
  intros H0 H. unfold segment.
  rewrite !repeat_replicate, drop_replicate, take_replicate. f_equal. lia.
Qed.

Lemma start_plus_block (l : list InfoSet) (i : nat) (x : InfoSet) :
  l !! i = Some x ->
  (0 <= sum_actions (take i l))%Z
  /\ (sum_actions (take i l) + Z.of_nat (length (is_legal_actions x))
      <= sum_actions l)%Z.
Proof.
  intros Hx. split; [apply sum_actions_nonneg|].
  rewrite (split_at l i x Hx) at 2. rewrite sum_actions_app, sum_actions_cons.
  pose proof (sum_actions_nonneg (drop (S i) l)). unfold num_actions. lia.
Qed.

(** X7: the strategy made by [Strategy::uniform] answers [probs] for an
    info set with [k] legal actions by the vector of [k] entries [1/k]. *)
Theorem uniform_probs_equal (l : list InfoSet) (i : nat) (iset : InfoSet) :
  NoDup (List.map is_id l) ->
  l !! i = Some iset ->
  exists sigma,
    Strategy.uniform (InfoSetIndex.build l) = Ok sigma
    /\ Strategy.probs sigma (is_id iset)
       = Ok (repeat (1 / INR (length (is_legal_actions iset)))
                    (length (is_legal_actions iset))).
Proof.
  intros Hids Hx. unfold Strategy.uniform.
  rewrite (proj1 (proj2 (build_spec l))).
  pose proof (sum_actions_nonneg l) as Hn.
  assert (Hw : (sum_actions l
                <= Z.of_nat (length (repeat 0%R (Z.to_nat (sum_actions l)))))%Z).
  { rewrite repeat_length. lia. }
  destruct (from_logits_segment l _ Hw) as (s & Hs & _).
  exists s. split; [exact Hs|].
  destruct (from_logits_at l _ s i iset Hw Hids Hs Hx) as [Hl _].
  unfold Strategy.probs. rewrite Hl.
  destruct (start_plus_block l i iset Hx) as [H0 H1].
  rewrite segment_repeat by lia.
  rewrite stable_softmax_repeat. reflexivity.
Qed.

Lemma uniform_probs_equal_witness :
  exists sigma,
    Strategy.uniform (InfoSetIndex.build kuhn_info_sets) = Ok sigma
    /\ Strategy.probs sigma "P1:Q:b" = Ok (repeat (1 / INR 2) 2).
Proof.
  apply (uniform_probs_equal kuhn_info_sets 10
           (mkInfoSet "P1:Q:b" PLAYER_1 [Call; Fold])).
  - apply (bool_decide_unpack _). vm_compute. exact I.
  - reflexivity.
Defined.

Lemma Action_eqb_eq (a b : Action) : Action_eqb a b = true <-> a = b.
Proof. destruct a, b; cbn; split; congruence. Qed.

Lemma find_action_None (actions : list Action) (a : Action) (i0 : Z) :
  a ∉ actions -> Strategy.find_action actions a i0 = None.
Proof.
  revert i0. induction actions as [|x rest IH]; intros i0 Hn; cbn; [reflexivity|].
  apply not_elem_of_cons in Hn as [Hne Hn].
  destruct (Action_eqb x a) eqn:E.
  - apply Action_eqb_eq in E. congruence.
  - apply IH. exact Hn.
Qed.

Lemma find_action_first (actions : list Action) (a : Action) (j : nat) :
  forall i0,
    actions !! j = Some a -> a ∉ take j actions ->
    Strategy.find_action actions a i0 = Some (i0 + Z.of_nat j)%Z.
Proof.
  revert j. induction actions as [|x rest IH]; intros j i0 Hj Hn; [discriminate|].
  cbn [Strategy.find_action]. destruct j as [|j].
  - injection Hj as ->. rewrite (proj2 (Action_eqb_eq a a) eq_refl). f_equal. lia.
  - cbn in Hj, Hn. apply not_elem_of_cons in Hn as [Hne Hn].
    destruct (Action_eqb x a) eqn:E.
    + apply Action_eqb_eq in E. congruence.
    + rewrite (IH j (i0 + 1)%Z Hj Hn). f_equal. lia.
Qed.

(** X8: for a strategy made by [from_logits], [prob] of an action that is
    not legal at the info set fails with the action-not-legal error, and
    [prob] of a legal action is the entry of [probs] at the first position
    of that action. *)
Theorem prob_agrees_with_probs (l : list InfoSet) (w : list R) (i : nat)
    (iset : InfoSet) (act : Action) :
  let index := InfoSetIndex.build l in
  Z.of_nat (length w) = InfoSetIndex.total_dim index ->
  NoDup (List.map is_id l) ->
  l !! i = Some iset ->
  exists sigma v,
    Strategy.from_logits w index = Ok sigma
    /\ Strategy.probs sigma (is_id iset) = Ok v
    /\ length v = length (is_legal_actions iset)
    /\ (act ∉ is_legal_actions iset ->
        Strategy.prob sigma (is_id iset) act
        = Err (Strategy.action_not_legal (is_id iset)))
    /\ (forall a, is_legal_actions iset !! a = Some act ->
                  act ∉ take a (is_legal_actions iset) ->
                  exists p, v !! a = Some p
                            /\ Strategy.prob sigma (is_id iset) act = Ok p).
Proof.
  intros index Hw Hids Hx. unfold index in *.
  rewrite (proj1 (proj2 (build_spec l))) in Hw.
  destruct (from_logits_segment l w ltac:(lia)) as (s & Hs & _).
  destruct (from_logits_at l w s i iset ltac:(lia) Hids Hs Hx) as [Hl Ha].
  destruct (start_plus_block l i iset Hx) as [H0 H1].
  set (seg := segment w (sum_actions (take i l)) (length (is_legal_actions iset))) in *.
  assert (Hseg : length seg = length (is_legal_actions iset)).
  { apply segment_length; lia. }
  exists s, (stable_softmax seg).
  split; [exact Hs|]. split; [unfold Strategy.probs; rewrite Hl; reflexivity|].
  split; [rewrite stable_softmax_length; exact Hseg|]. split.
  - intros Hn. unfold Strategy.prob. rewrite Hl, Ha, find_action_None by exact Hn.
    reflexivity.
  - intros a Hact Hfirst.
    destruct (lookup_lt_is_Some_2 (stable_softmax seg) a) as [p Hp].
    { rewrite stable_softmax_length, Hseg. apply lookup_lt_Some in Hact. exact Hact. }
    exists p. split; [exact Hp|].
    unfold Strategy.prob. rewrite Hl, Ha.
    rewrite (find_action_first _ act a 0%Z Hact Hfirst). cbn.
    apply coeff_lookup. exact Hp.
Qed.

Lemma prob_agrees_with_probs_witness :
  exists sigma v,
    Strategy.from_logits (List.map INR (seq 0 24)) (InfoSetIndex.build kuhn_info_sets)
    = Ok sigma
    /\ Strategy.probs sigma "P1:Q:b" = Ok v
    /\ length v = 2%nat
    /\ (Fold ∉ [Call; Fold] ->
        Strategy.prob sigma "P1:Q:b" Fold
        = Err (Strategy.action_not_legal "P1:Q:b"))
    /\ (forall a, [Call; Fold] !! a = Some Fold ->
                  Fold ∉ take a [Call; Fold] ->
                  exists p, v !! a = Some p
                            /\ Strategy.prob sigma "P1:Q:b" Fold = Ok p).
Proof.
  apply (prob_agrees_with_probs kuhn_info_sets (List.map INR (seq 0 24)) 10
           (mkInfoSet "P1:Q:b" PLAYER_1 [Call; Fold]) Fold).
  - vm_compute. reflexivity.
  - apply (bool_decide_unpack _). vm_compute. exact I.
  - reflexivity.
Defined.

(** X9: [set_logits] for an id without an action list makes
    [has_info_set], [logits] and [probs] answer for the id, while [prob]
    still fails with the unknown-information-set error; other ids are not
    affected. *)
Theorem set_logits_new_id (s : Strategy) (id : InfoSetId) (new_logits : list R)
    (a : Action) :
  actions_ s !! id = None ->
  let s' := Strategy.set_logits s id new_logits in
  Strategy.has_info_set s' id = true
  /\ Strategy.logits s' id = Ok new_logits
  /\ Strategy.probs s' id = Ok (stable_softmax new_logits)
  /\ Strategy.prob s' id a = Err (Strategy.unknown_info_set id)
  /\ forall id', id' <> id ->
       Strategy.logits s' id' = Strategy.logits s id'
       /\ Strategy.prob s' id' a = Strategy.prob s id' a.
Proof.
  intros Hact s'. unfold s', Strategy.set_logits.
  unfold Strategy.has_info_set, Strategy.logits, Strategy.probs, Strategy.prob.
  cbn [logits_ actions_]. rewrite lookup_insert_eq, Hact.
  split; [apply bool_decide_eq_true; eauto|].
  do 3 (split; [reflexivity|]).
  intros id' Hne. rewrite lookup_insert_ne by congruence. split; reflexivity.
Qed.

Lemma set_logits_new_id_witness :
  let s' := Strategy.set_logits Strategy.empty "P0:J:" [0; 1] in
  Strategy.has_info_set s' "P0:J:" = true
  /\ Strategy.logits s' "P0:J:" = Ok [0; 1]
  /\ Strategy.probs s' "P0:J:" = Ok (stable_softmax [0; 1])
  /\ Strategy.prob s' "P0:J:" Check = Err (Strategy.unknown_info_set "P0:J:")
  /\ forall id', id' <> "P0:J:" ->
       Strategy.logits s' id' = Strategy.logits Strategy.empty id'
       /\ Strategy.prob s' id' Check = Strategy.prob Strategy.empty id' Check.
Proof.
  apply (set_logits_new_id Strategy.empty "P0:J:" [0; 1] Check).
  reflexivity.
Defined.

(** ** Tree traversals *)

Lemma traverse_tree_eq {S : Type} (node : GameNode)
    (visitor : S -> GameNode -> Z -> S) (depth : Z) (s : S) :
  traverse_tree node visitor depth s
  = fold_left (fun s' e => traverse_tree (child e) visitor (depth + 1) s')
              (children node) (visitor s node depth).
Proof. destruct node. reflexivity. Qed.

Lemma visits_eq (node : GameNode) (depth : Z) :
  visits node depth
  = (node, depth) :: flat_map (fun e => visits (child e) (depth + 1)) (children node).
Proof. destruct node. reflexivity. Qed.

(** A traversal is a left fold of the visitor over the pre-order list. *)
Lemma traverse_tree_visits {S : Type} (visitor : S -> GameNode -> Z -> S)
    (node : GameNode) :
  forall depth s,
    traverse_tree node visitor depth s
    = fold_left (fun s' nd => visitor s' (fst nd) (snd nd)) (visits node depth) s.
Proof.
  induction node as [node IH] using GameNode_tree_ind. intros depth s.
  rewrite traverse_tree_eq, visits_eq. cbn [fold_left fst snd].
  generalize (visitor s node depth) as s0.
  induction (children node) as [|e l IHl]; intros s0; cbn [fold_left flat_map];
    [reflexivity|].
  apply Forall_cons in IH as [He Hl].
  rewrite fold_left_app, <- He. apply IHl. exact Hl.
Qed.

Lemma fold_left_snoc_map {A B : Type} (f : A -> B) (l : list A) (acc : list B) :
  fold_left (fun acc x => acc ++ [f x]) l acc = acc ++ List.map f l.
Proof.
  revert acc. induction l as [|x l IH]; intros acc; cbn [fold_left List.map].
  - rewrite app_nil_r. reflexivity.
  - rewrite IH, <- app_assoc. reflexivity.
Qed.

Lemma nodes_visits (root : GameNode) : nodes root = List.map fst (visits root 0).
Proof.
  unfold nodes. rewrite traverse_tree_visits.
  apply (fold_left_snoc_map fst (visits root 0) []).
Qed.

(** *** Counting nodes *)

Lemma count_fold (l : list (GameNode * Z)) :
  forall s,
    let r := fold_left (fun s' nd => count_node s' (fst nd) (snd nd)) l s in
    ts_total_nodes r = (ts_total_nodes s + Z.of_nat (length l))%Z
    /\ ts_chance_nodes r
       = (ts_chance_nodes s
          + Z.of_nat (length (List.filter
               (fun n => match type n with Chance => true | _ => false end)
               (List.map fst l))))%Z
    /\ ts_player_nodes r
       = (ts_player_nodes s
          + Z.of_nat (length (List.filter
               (fun n => match type n with Player => true | _ => false end)
               (List.map fst l))))%Z
    /\ ts_terminal_nodes r
       = (ts_terminal_nodes s
          + Z.of_nat (length (List.filter
               (fun n => match type n with Terminal => true | _ => false end)
               (List.map fst l))))%Z
    /\ ts_max_depth r = fold_left Z.max (List.map snd l) (ts_max_depth s).
Proof.
  induction l as [|[n d] l IH]; intros s; cbv zeta; cbn [fold_left List.map fst snd].
  - cbn. repeat split; lia.
  - specialize (IH (count_node s n d)). cbv zeta in IH.
    destruct IH as (H1 & H2 & H3 & H4 & H5).
    rewrite H1, H2, H3, H4, H5. cbn [List.filter].
    unfold count_node. destruct (type n); cbn [ts_total_nodes ts_chance_nodes
      ts_player_nodes ts_terminal_nodes ts_max_depth length];
      repeat split; lia.
Qed.

Lemma fold_left_Zmax_le (l : list Z) (a : Z) :
  (a <= fold_left Z.max l a)%Z /\ Forall (fun d => (d <= fold_left Z.max l a)%Z) l
  /\ (fold_left Z.max l a = a \/ fold_left Z.max l a ∈ l).
Proof.
  revert a. induction l as [|x l IH]; intros a; cbn [fold_left].
  - split; [lia|]. split; [constructor|]. left. reflexivity.
  - destruct (IH (Z.max a x)) as (H1 & H2 & H3). split; [lia|]. split.
    + constructor; [lia|exact H2].
    + destruct H3 as [H3|H3].
      * destruct (Z.max_spec a x) as [[? E]|[? E]]; rewrite E in *.
        -- right. rewrite H3. apply list_elem_of_here.
        -- left. exact H3.
      * right. apply list_elem_of_further. exact H3.
Qed.

(** X10: [compute_tree_stats] counts every node of the tree once, under
    exactly one of the three node types, and reports as [max_depth] the
    largest depth of a node (the root having depth 0). *)
Theorem compute_tree_stats_counts (root : GameNode) :
  let stats := compute_tree_stats root in
  ts_total_nodes stats = Z.of_nat (length (nodes root))
  /\ ts_player_nodes stats = Z.of_nat (length (player_nodes root))
  /\ ts_terminal_nodes stats = Z.of_nat (length (terminals root))
  /\ ts_total_nodes stats
     = (ts_chance_nodes stats + ts_player_nodes stats + ts_terminal_nodes stats)%Z
  /\ (1 <= ts_total_nodes stats)%Z
  /\ Forall (fun nd => (snd nd <= ts_max_depth stats)%Z) (visits root 0)
  /\ Exists (fun nd => snd nd = ts_max_depth stats) (visits root 0).
Proof.
  intros stats. unfold stats, compute_tree_stats.
  rewrite traverse_tree_visits.
  pose proof (count_fold (visits root 0) (mkTreeStats 0 0 0 0 0)) as H.
  cbv zeta in H. cbn [ts_total_nodes ts_chance_nodes ts_player_nodes
                      ts_terminal_nodes ts_max_depth] in H.
  destruct H as (H1 & H2 & H3 & H4 & H5).
  set (r := fold_left _ _ _) in *.
  unfold player_nodes, terminals. rewrite nodes_visits.
  rewrite H1, H2, H3, H4, length_map.
  split; [lia|]. split; [lia|]. split; [lia|]. split.
  - assert (Hsum : forall l : list GameNode,
               length l
               = (length (List.filter (fun n => match type n with Chance => true | _ => false end) l)
                  + length (List.filter (fun n => match type n with Player => true | _ => false end) l)
                  + length (List.filter (fun n => match type n with Terminal => true | _ => false end) l))%nat).
    { induction l as [|n l IH]; [reflexivity|]. cbn [List.filter].
      destruct (type n); cbn [length]; lia. }
    rewrite <- (length_map fst (visits root 0)), (Hsum (List.map fst (visits root 0))) at 1.
    lia.
  - split; [rewrite visits_eq; cbn [length]; lia|].
    rewrite H5. destruct (fold_left_Zmax_le (List.map snd (visits root 0)) 0) as (A & B & C).
    split.
    + apply Forall_forall. intros nd Hnd. rewrite Forall_forall in B. apply B.
      apply list_elem_of_fmap. exists nd. auto.
    + destruct C as [C|C].
      * rewrite C. rewrite visits_eq. apply Exists_cons_hd. reflexivity.
      * apply list_elem_of_fmap in C as (nd & Hnd1 & Hnd2).
        apply Exists_exists. exists nd. auto.
Qed.

(** *** The sorted map of [get_info_sets] *)

Lemma string_lt_trans (a b c : string) :
  string_lt a b -> string_lt b c -> string_lt a c.
Proof.
  unfold string_lt. intros H1 H2.
  apply OrderedTypeEx.String_as_OT.cmp_lt.
  apply OrderedTypeEx.String_as_OT.cmp_lt in H1, H2.
  eapply OrderedTypeEx.String_as_OT.lt_trans; eassumption.
Qed.

Lemma string_compare_Gt (a b : string) : String.compare a b = Gt -> string_lt b a.
Proof.
  unfold string_lt. intros H. rewrite String.compare_antisym, H. reflexivity.
Qed.

Lemma smap_find_None {V : Type} (k : string) (m : smap V) :
  smap_find k m = None <-> k ∉ List.map fst m.
Proof.
  induction m as [|[k' v] m IH]; cbn [smap_find List.map fst].
  - split; [intros _; apply not_elem_of_nil|reflexivity].
  - rewrite not_elem_of_cons. destruct (String.eqb_spec k k') as [->|Hne].
    + split; [discriminate|]. intros [H _]. congruence.
    + rewrite IH. tauto.
Qed.

Lemma smap_assign_keys {V : Type} (k : string) (v : V) (m : smap V) :
  forall k', k' ∈ List.map fst (smap_assign k v m) <-> k' = k \/ k' ∈ List.map fst m.
Proof.
  induction m as [|[k1 v1] m IH]; intros k'; cbn [smap_assign List.map fst].
  - rewrite list_elem_of_singleton, elem_of_nil. tauto.
  - destruct (String.compare k k1) eqn:E; cbn [List.map fst].
    + apply String.compare_eq_iff in E. subst. rewrite !elem_of_cons. tauto.
    + rewrite !elem_of_cons. tauto.
    + rewrite !elem_of_cons, IH. tauto.
Qed.

Lemma smap_assign_sorted {V : Type} (k : string) (v : V) (m : smap V) :
  StronglySorted string_lt (List.map fst m) ->
  StronglySorted string_lt (List.map fst (smap_assign k v m)).
Proof.
  induction m as [|[k1 v1] m IH]; intros Hs; cbn [smap_assign List.map fst].
  - repeat constructor.
  - cbn [List.map fst] in Hs. apply StronglySorted_inv in Hs as [Hs Hall].
    destruct (String.compare k k1) eqn:E; cbn [List.map fst].
    + apply String.compare_eq_iff in E. subst. constructor; assumption.
    + constructor; [constructor; assumption|].
      constructor; [exact E|].
      eapply Forall_impl; [exact Hall|]. intros x Hx.
      apply string_lt_trans with k1; [exact E|exact Hx].
    + constructor; [apply IH; exact Hs|].
      apply Forall_forall. intros x Hx. apply smap_assign_keys in Hx as [->|Hx].
      * apply string_compare_Gt. exact E.
      * rewrite Forall_forall in Hall. apply Hall. exact Hx.
Qed.

Lemma smap_assign_elem_of {V : Type} (k : string) (v : V) (m : smap V) :
  k ∉ List.map fst m ->
  forall kv, kv ∈ smap_assign k v m <-> kv = (k, v) \/ kv ∈ m.
Proof.
  induction m as [|[k1 v1] m IH]; intros Hk kv; cbn [smap_assign].
  - rewrite list_elem_of_singleton, elem_of_nil. tauto.
  - cbn [List.map fst] in Hk. apply not_elem_of_cons in Hk as [Hne Hk].
    destruct (String.compare k k1) eqn:E.
    + apply String.compare_eq_iff in E. congruence.
    + rewrite !elem_of_cons. tauto.
    + rewrite !elem_of_cons, (IH Hk). tauto.
Qed.

Lemma find_app_Some {A : Type} (f : A -> bool) (l1 l2 : list A) :
  List.find f (l1 ++ l2)
  = match List.find f l1 with
    | Some x => Some x
    | None => List.find f l2
    end.
Proof.
  induction l1 as [|x l1 IH]; [reflexivity|]. cbn [app List.find].
  destruct (f x); [reflexivity|exact IH].
Qed.

(** The state of the map after the visitor has seen the nodes [l]: keys are
    sorted, and the entry of a key is the info set of the first player node
    that carries it. *)
Definition collected (l : list GameNode) (m : smap InfoSet) : Prop :=
  StronglySorted string_lt (List.map fst m)
  /\ forall k v,
       (k, v) ∈ m
       <-> exists n, first_with_id k (List.filter
                       (fun n => match type n with Player => true | _ => false end) l)
                     = Some n
                     /\ v = info_set_of n.

Lemma first_with_id_Some (k : InfoSetId) (l : list GameNode) (n : GameNode) :
  first_with_id k l = Some n -> n ∈ l /\ info_set_id n = k.
Proof.
  unfold first_with_id. intros H. apply find_some in H as [H1 H2].
  split; [apply list_elem_of_In; exact H1|]. apply String.eqb_eq. exact H2.
Qed.

Lemma collect_step (l : list GameNode) (m : smap InfoSet) (n : GameNode) (d : Z) :
  collected l m -> collected (l ++ [n]) (collect_info_set m n d).
Proof.
  intros [Hs Hm]. unfold collect_info_set, collected.
  rewrite List.filter_app. cbn [List.filter].
  destruct (type n) eqn:Et; try (rewrite app_nil_r; split; assumption).
  destruct (smap_find (info_set_id n) m) as [v0|] eqn:Ef.
  - split; [exact Hs|]. intros k v. rewrite Hm. unfold first_with_id.
    rewrite find_app_Some. cbn [List.find].
    destruct (List.find _ (List.filter _ l)) as [n1|] eqn:E1; [reflexivity|].
    destruct (String.eqb_spec (info_set_id n) k) as [<-|Hne];
      [|split; intros (? & ? & ?); discriminate].
    exfalso.
    assert (Hin : info_set_id n ∈ List.map fst m).
    { destruct (decide (info_set_id n ∈ List.map fst m)) as [?|Hn]; [assumption|].
      apply smap_find_None in Hn. congruence. }
    apply list_elem_of_fmap in Hin as ([k1 v1] & Hk1 & Hkv). cbn in Hk1. subst k1.
    apply Hm in Hkv as (n2 & Hn2 & _). unfold first_with_id in Hn2. congruence.
  - apply smap_find_None in Ef. split; [apply smap_assign_sorted; exact Hs|].
    intros k v. rewrite (smap_assign_elem_of _ _ _ Ef). rewrite Hm.
    unfold first_with_id. rewrite find_app_Some. cbn [List.find].
    destruct (List.find _ (List.filter _ l)) as [n1|] eqn:E1.
    + split.
      * intros [Heq|H]; [|exact H]. injection Heq as -> ->. exfalso. apply Ef.
        apply list_elem_of_fmap. exists (info_set_id n, info_set_of n1).
        split; [reflexivity|]. apply Hm. exists n1. split; [exact E1|reflexivity].
      * intros H. right. exact H.
    + destruct (String.eqb_spec (info_set_id n) k) as [<-|Hne].
      * split.
        -- intros [Heq|(? & ? & ?)]; [|discriminate]. injection Heq as ->.
           exists n. split; reflexivity.
        -- intros (n2 & [= <-] & ->). left. reflexivity.
      * split.
        -- intros [Heq|(? & ? & ?)]; [|discriminate]. injection Heq as ? ?. congruence.
        -- intros (? & ? & ?). discriminate.
Qed.

Lemma collect_fold (l : list (GameNode * Z)) :
  forall pre m,
    collected pre m ->
    collected (pre ++ List.map fst l)
      (fold_left (fun m nd => collect_info_set m (fst nd) (snd nd)) l m).
Proof.
  induction l as [|[n d] l IH]; intros pre m H; cbn [fold_left List.map fst snd].
  - rewrite app_nil_r. exact H.
  - replace (pre ++ n :: List.map fst l) with ((pre ++ [n]) ++ List.map fst l)
      by (rewrite <- app_assoc; reflexivity).
    apply IH. apply collect_step. exact H.
Qed.

Lemma collected_root (root : GameNode) :
  collected (nodes root) (traverse_tree root collect_info_set 0 []).
Proof.
  rewrite traverse_tree_visits, nodes_visits.
  apply (collect_fold (visits root 0) [] []).
  split; [constructor|]. intros k v. cbn. rewrite elem_of_nil.
  split; [tauto|]. intros (? & ? & ?). discriminate.
Qed.

Lemma get_info_sets_values (root : GameNode) :
  get_info_sets root = List.map snd (traverse_tree root collect_info_set 0 []).
Proof.
  unfold get_info_sets. cbv zeta.
  apply (fold_left_snoc_map snd _ []).
Qed.

(** X11: for every tree, [get_info_sets] returns the info sets in strictly
    increasing order of their ids (so no id occurs twice); an info set is
    returned exactly when it is the info set of the first player node, in
    traversal order, that carries its id; hence every player node's id is
    present. *)
Theorem get_info_sets_sorted_first_visit (root : GameNode) :
  StronglySorted string_lt (List.map is_id (get_info_sets root))
  /\ (forall iset,
        iset ∈ get_info_sets root
        <-> exists n, first_with_id (is_id iset) (player_nodes root) = Some n
                      /\ iset = info_set_of n)
  /\ Forall (fun n => info_set_id n ∈ List.map is_id (get_info_sets root))
            (player_nodes root).
Proof.
  destruct (collected_root root) as [Hs Hm]. fold (player_nodes root) in Hm.
  rewrite get_info_sets_values.
  set (m := traverse_tree root collect_info_set 0 []) in *.
  assert (Hid : forall kv, kv ∈ m -> is_id (snd kv) = fst kv).
  { intros [k v] Hkv. apply Hm in Hkv as (n & Hn & ->).
    apply first_with_id_Some in Hn as [_ Hn]. exact Hn. }
  assert (Hkeys : List.map is_id (List.map snd m) = List.map fst m).
  { rewrite List.map_map. apply map_ext_in. intros kv Hkv. apply Hid.
    apply list_elem_of_In. exact Hkv. }
  assert (Hiff : forall iset,
             iset ∈ List.map snd m
             <-> exists n, first_with_id (is_id iset) (player_nodes root) = Some n
                           /\ iset = info_set_of n).
  { intros iset. split.
    - intros H. apply list_elem_of_fmap in H as ([k v] & -> & Hkv).
      pose proof (Hid _ Hkv) as Hk. cbn [fst snd] in *. rewrite Hk.
      apply Hm. exact Hkv.
    - intros H. apply list_elem_of_fmap. exists (is_id iset, iset).
      split; [reflexivity|]. apply Hm. exact H. }
  split; [rewrite Hkeys; exact Hs|]. split; [exact Hiff|].
  apply Forall_forall. intros n Hn.
  destruct (first_with_id (info_set_id n) (player_nodes root)) as [n1|] eqn:E.
  - apply list_elem_of_fmap. exists (info_set_of n1). split.
    + apply first_with_id_Some in E as [_ E]. cbn. congruence.
    + apply Hiff. exists n1. cbn. split; [|reflexivity].
      apply first_with_id_Some in E as E'. destruct E' as [_ E'].
      rewrite E'. exact E.
  - exfalso. unfold first_with_id in E.
    pose proof (find_none _ _ E n (proj1 (list_elem_of_In _ _) Hn)) as Hf.
    cbn in Hf. rewrite String.eqb_refl in Hf. discriminate.
Qed.

(** *** The action loops of the tree builders *)

(** A loop that pushes one edge per action onto the node. *)
Lemma foldM_push_edges (f : GameNode -> Action -> option GameNode) :
  (forall node a r, f node a = Some r ->
     exists c, r = push_child (mkChildEdge a (-1) 1 c) node) ->
  forall acts node t,
    foldM f node acts = Some t ->
    exists new_edges,
      children t = children node ++ new_edges
      /\ List.map action new_edges = acts
      /\ Forall (fun e => probability e = 1 /\ card e = (-1)%Z) new_edges
      /\ type t = type node /\ player t = player node
      /\ info_set_id t = info_set_id node
      /\ legal_actions t = legal_actions node
      /\ pot t = pot node /\ history t = history node.
Proof.
  intros Hf. induction acts as [|a acts IH]; intros node t; cbn [foldM].
  - intros [= <-]. exists []. rewrite app_nil_r. repeat split. constructor.
  - destruct (f node a) as [r|] eqn:E; cbn; [|discriminate].
    intros Ht. destruct (Hf node a r E) as [c ->].
    destruct (IH _ _ Ht) as (new_edges & H1 & H2 & H3 & H4).
    exists (mkChildEdge a (-1) 1 c :: new_edges).
    split; [rewrite H1; cbn; rewrite <- app_assoc; reflexivity|].
    split; [cbn; rewrite H2; reflexivity|].
    split; [constructor; [cbn; auto|exact H3]|].
    exact H4.
Qed.

Lemma bind_push_edge (m : option GameNode) (node : GameNode) (a : Action)
    (r : GameNode) :
  (child' ← m; Some (push_child (mkChildEdge a (-1) 1 child') node)) = Some r ->
  exists c, r = push_child (mkChildEdge a (-1) 1 c) node.
Proof. destruct m as [c|]; cbn; [|discriminate]. intros [= <-]. eauto. Qed.

(** X12: whenever [build_subtree] (Kuhn) or [build_betting_round] (Leduc)
    returns, it has appended to the node exactly one edge per legal action
    of the node, in the order of [legal_actions], each with probability 1
    and no card, and has left the node's own fields unchanged. *)
Theorem builders_add_one_edge_per_legal_action :
  (forall fuel node to_act h c0 c1 pt b0 b1 t,
     KuhnPoker.build_subtree fuel node to_act h c0 c1 pt b0 b1 = Some t ->
     exists new_edges,
       children t = children node ++ new_edges
       /\ List.map action new_edges = legal_actions node
       /\ Forall (fun e => probability e = 1 /\ card e = (-1)%Z) new_edges
       /\ type t = type node /\ player t = player node
       /\ info_set_id t = info_set_id node
       /\ legal_actions t = legal_actions node
       /\ pot t = pot node /\ history t = history node)
  /\ (forall fuel node first h c0 c1 pub pt to_call raises round bet t,
        LeducPoker.build_betting_round fuel node first h c0 c1 pub pt to_call
          raises round bet = Some t ->
        exists new_edges,
          children t = children node ++ new_edges
          /\ List.map action new_edges = legal_actions node
          /\ Forall (fun e => probability e = 1 /\ card e = (-1)%Z) new_edges
          /\ type t = type node /\ player t = player node
          /\ info_set_id t = info_set_id node
          /\ legal_actions t = legal_actions node
          /\ pot t = pot node /\ history t = history node).
Proof.
  split.
  - intros [|fuel] node to_act h c0 c1 pt b0 b1 t; [discriminate|].
    cbn [KuhnPoker.build_subtree]. apply foldM_push_edges.
    intros n a r. cbv zeta. apply bind_push_edge.
  - intros [|fuel] node first h c0 c1 pub pt to_call raises round bet t;
      [discriminate|].
    cbn [LeducPoker.build_betting_round]. apply foldM_push_edges.
    intros n a r. cbv zeta. apply bind_push_edge.
Qed.

Lemma builders_add_one_edge_per_legal_action_witness :
  let node := KuhnPoker.player_child new_GameNode PLAYER_0 2%Z [Check; Bet] 0%Z "" in
  let t := default new_GameNode
             (KuhnPoker.build_subtree 4%nat node PLAYER_0 "" 0%Z 1%Z 2%Z 0%Z 0%Z) in
  exists new_edges,
    children t = children node ++ new_edges
    /\ List.map action new_edges = legal_actions node
    /\ Forall (fun e => probability e = 1 /\ card e = (-1)%Z) new_edges
    /\ type t = type node /\ player t = player node
    /\ info_set_id t = info_set_id node
    /\ legal_actions t = legal_actions node
    /\ pot t = pot node /\ history t = history node.
Proof.
  cbv zeta.
  apply (proj1 builders_add_one_edge_per_legal_action 4%nat
           (KuhnPoker.player_child new_GameNode PLAYER_0 2%Z [Check; Bet] 0%Z "")
           PLAYER_0 "" 0%Z 1%Z 2%Z 0%Z 0%Z).
  vm_compute. reflexivity.
Defined.

(** *** The public-card deal of Leduc *)

Lemma foldM_deal (skip : Card -> bool) (prob : R)
    (f : GameNode -> Card -> option GameNode) :
  (forall node c r, f node c = Some r ->
     if skip c then r = node
     else exists ch, r = push_child (mkChildEdge Check c prob ch) node) ->
  forall cards node t,
    foldM f node cards = Some t ->
    exists new_edges,
      children t = children node ++ new_edges
      /\ List.map card new_edges = List.filter (fun c => negb (skip c)) cards
      /\ Forall (fun e => probability e = prob) new_edges
      /\ type t = type node.
Proof.
  intros Hf. induction cards as [|c cards IH]; intros node t; cbn [foldM].
  - intros [= <-]. exists []. rewrite app_nil_r. repeat split. constructor.
  - destruct (f node c) as [r|] eqn:E; cbn; [|discriminate].
    intros Ht. pose proof (Hf node c r E) as Hr.
    destruct (IH _ _ Ht) as (new_edges & H1 & H2 & H3 & H4).
    cbn [List.filter]. destruct (skip c); cbn [negb].
    + subst r. exists new_edges. auto.
    + destruct Hr as [ch ->].
      exists (mkChildEdge Check c prob ch :: new_edges).
      split; [rewrite H1; cbn; rewrite <- app_assoc; reflexivity|].
      split; [cbn; rewrite H2; reflexivity|].
      split; [constructor; [reflexivity|exact H3]|exact H4].
Qed.

Lemma count_remaining (p0 p1 : Card) (cards : list Card) :
  forall n,
    fold_left (fun n c =>
                 if negb (c =? p0)%Z && negb (c =? p1)%Z then (n + 1)%Z else n)
              cards n
    = (n + Z.of_nat (length (List.filter
                       (fun c => negb ((c =? p0)%Z || (c =? p1)%Z)) cards)))%Z.
Proof.
  induction cards as [|c cards IH]; intros n; cbn [fold_left List.filter].
  - cbn. lia.
  - rewrite IH. rewrite negb_orb.
    destruct (negb (c =? p0)%Z && negb (c =? p1)%Z); cbn [length]; lia.
Qed.

Lemma remaining_at_least_four (p0 p1 : Card) :
  (4 <= length (List.filter (fun c => negb ((c =? p0)%Z || (c =? p1)%Z))
                            LeducPoker.all_cards))%nat.
Proof.
  unfold LeducPoker.all_cards. cbn [List.filter].
  repeat match goal with
         | |- context [Z.eqb ?a ?b] => destruct (Z.eqb_spec a b); try lia
         end; cbn; lia.
Qed.

(** What [continue_after_round1] returns, if it returns. *)
Lemma continue_after_round1_edges (fuel : nat)
    (node : GameNode) (c0 c1 : Card) (pt : Z) (h : string) (t : GameNode) :
  children node = [] ->
  LeducPoker.continue_after_round1 fuel node c0 c1 pt h = Some t ->
  type t = Chance
  /\ List.map card (children t)
     = List.filter (fun c => negb ((c =? c0)%Z || (c =? c1)%Z)) LeducPoker.all_cards
  /\ Forall (fun e => probability e = 1 / INR (length (children t))) (children t)
  /\ (4 <= length (children t))%nat
  /\ vsum (List.map probability (children t)) = 1.
Proof.
  intros Hnil. destruct fuel as [|fuel]; [discriminate|].
  cbn [LeducPoker.continue_after_round1]. cbv zeta. intros Ht.
  apply (foldM_deal (fun c => (c =? c0)%Z || (c =? c1)%Z)
           (1 / IZR (fold_left
                       (fun n c => if negb (c =? c0)%Z && negb (c =? c1)%Z
                                   then (n + 1)%Z else n)
                       LeducPoker.all_cards 0%Z))) in Ht.
  2:{ intros n c r. destruct ((c =? c0)%Z || (c =? c1)%Z).
      - intros [= <-]. reflexivity.
      - destruct (LeducPoker.build_betting_round _ _ _ _ _ _ _ _ _ _ _ _) as [ch|];
          cbn; [|discriminate]. intros [= <-]. eauto. }
  destruct Ht as (new_edges & H1 & H2 & H3 & H4). cbv beta in H2.
  unfold Card in *.
  cbn [children set_pot set_player set_type] in H1. rewrite Hnil in H1.
  cbn [app] in H1. rewrite H1.
  rewrite count_remaining in H3. rewrite Z.add_0_l in H3.
  assert (Hlen : length new_edges
                 = length (List.filter (fun c => negb ((c =? c0)%Z || (c =? c1)%Z))
                                       LeducPoker.all_cards)).
  { rewrite <- H2, length_map. reflexivity. }
  rewrite <- Hlen, <- INR_IZR_INZ in H3.
  pose proof (remaining_at_least_four c0 c1) as H4'. rewrite <- Hlen in H4'.
  split; [rewrite H4; reflexivity|]. split; [exact H2|]. split; [exact H3|].
  split; [exact H4'|].
  assert (Hsum : forall (l : list ChildEdge) (p : R),
             Forall (fun e => probability e = p) l ->
             vsum (List.map probability l) = INR (length l) * p).
  { clear. induction l as [|e l IH]; intros p Hl; [cbn; lra|].
    apply Forall_cons in Hl as [He Hl]. cbn [List.map vsum fold_right length].
    fold (vsum (List.map probability l)). rewrite (IH p Hl), He, S_INR. lra. }
  rewrite (Hsum _ _ H3). field.
  apply not_0_INR. lia.
Qed.

(** *** [continue_after_round1] returns *)

Lemma foldM_option_total {A B : Type} (f : B -> A -> option B) (l : list A) :
  (forall b x, is_Some (f b x)) -> forall b, is_Some (foldM f b l).
Proof.
  intros Hf. induction l as [|x l IH]; intros b; cbn [foldM]; [eexists; reflexivity|].
  destruct (Hf b x) as [y Hy]. rewrite Hy. cbn. apply IH.
Qed.

Lemma append_not_empty (h s : string) :
  s <> ""%string -> String.eqb (h +:+ s) "" = false.
Proof.
  intros Hs. destruct h as [|a h]; [|reflexivity].
  destruct s; [contradiction|reflexivity].
Qed.

(** The last decision of a round: fold or call. *)
Lemma leduc_round2_fold_call_returns (fuel : nat) (node : GameNode) (f : PlayerId)
    (h : string) (c0 c1 pub : Card) (pt tc rl bs : Z) :
  legal_actions node = [Fold; Call] ->
  is_Some (LeducPoker.build_betting_round (S fuel) node f h c0 c1 pub pt tc rl 2 bs).
Proof.
  intros Hlegal. cbn [LeducPoker.build_betting_round]. rewrite Hlegal.
  cbn [foldM]. cbn. eexists. reflexivity.
Qed.

(** With one raise left: fold, call, or a raise answered by fold or call. *)
Lemma leduc_round2_one_raise_returns (fuel : nat) (node : GameNode) (f : PlayerId)
    (h : string) (c0 c1 pub : Card) (pt tc bs : Z) :
  (1 <= fuel)%nat ->
  legal_actions node = [Fold; Call; Raise] ->
  is_Some (LeducPoker.build_betting_round (S fuel) node f h c0 c1 pub pt tc 1 2 bs).
Proof.
  intros Hfuel Hlegal. cbn [LeducPoker.build_betting_round]. rewrite Hlegal.
  destruct fuel as [|fuel]; [lia|]. cbn [foldM]. cbn -[LeducPoker.build_betting_round].
  match goal with
  | |- context [LeducPoker.build_betting_round (S fuel) ?n ?f' ?h' ?a ?b ?c ?p ?t ?r 2 ?s] =>
      destruct (leduc_round2_fold_call_returns fuel n f' h' a b c p t r s) as [t' Ht];
      [reflexivity|rewrite Ht]
  end.
  cbn. eexists. reflexivity.
Qed.

Lemma leduc_round2_two_raises_returns (fuel : nat) (node : GameNode) (f : PlayerId)
    (h : string) (c0 c1 pub : Card) (pt tc bs : Z) :
  (2 <= fuel)%nat ->
  legal_actions node = [Fold; Call; Raise] ->
  is_Some (LeducPoker.build_betting_round (S fuel) node f h c0 c1 pub pt tc 2 2 bs).
Proof.
  intros Hfuel Hlegal. cbn [LeducPoker.build_betting_round]. rewrite Hlegal.
  destruct fuel as [|fuel]; [lia|]. cbn [foldM]. cbn -[LeducPoker.build_betting_round].
  change (2 - 1)%Z with 1%Z.
  match goal with
  | |- context [LeducPoker.build_betting_round (S fuel) ?n ?f' ?h' ?a ?b ?c ?p ?t 1%Z 2 ?s] =>
      destruct (leduc_round2_one_raise_returns fuel n f' h' a b c p t s) as [t' Ht];
      [lia|reflexivity|rewrite Ht]
  end.
  cbn. eexists. reflexivity.
Qed.

(** The opening decision of round 2: a check ends the round, a bet can be
    raised twice. *)
Lemma leduc_round2_opening_returns (fuel : nat) (node : GameNode) (f : PlayerId)
    (h : string) (c0 c1 pub : Card) (pt bs : Z) :
  (3 <= fuel)%nat ->
  legal_actions node = [Check; Bet] ->
  String.eqb h "" = false ->
  is_Some (LeducPoker.build_betting_round (S fuel) node f h c0 c1 pub
             pt 0 LeducPoker.MAX_RAISES 2 bs).
Proof.
  intros Hfuel Hlegal Hh. cbn [LeducPoker.build_betting_round]. rewrite Hlegal.
  destruct fuel as [|fuel]; [lia|]. cbn [foldM]. rewrite Hh.
  cbn -[LeducPoker.build_betting_round]. unfold LeducPoker.MAX_RAISES.
  match goal with
  | |- context [LeducPoker.build_betting_round (S fuel) ?n ?f' ?h' ?a ?b ?c ?p ?t 2%Z 2 ?s] =>
      destruct (leduc_round2_two_raises_returns fuel n f' h' a b c p t s) as [t' Ht];
      [lia|reflexivity|rewrite Ht]
  end.
  cbn. eexists. reflexivity.
Qed.

(** [continue_after_round1] returns: the subtrees of round 2 are at most
    four decisions deep. *)
Lemma continue_after_round1_total (fuel : nat) (node : GameNode) (c0 c1 : Card)
    (pt : Z) (h : string) :
  (5 <= fuel)%nat ->
  is_Some (LeducPoker.continue_after_round1 fuel node c0 c1 pt h).
Proof.
  intros Hfuel. destruct fuel as [|fuel]; [lia|].
  cbn [LeducPoker.continue_after_round1]. cbv zeta.
  destruct fuel as [|fuel]; [lia|].
  apply foldM_option_total. intros b pub.
  destruct ((pub =? c0)%Z || (pub =? c1)%Z); [eexists; reflexivity|].
  match goal with
  | |- context [LeducPoker.build_betting_round (S fuel) ?n ?f' ?h' ?a ?b ?c ?p 0%Z ?r 2 ?s] =>
      destruct (leduc_round2_opening_returns fuel n f' h' a b c p s) as [t' Ht];
      [lia|reflexivity|apply append_not_empty; discriminate|rewrite Ht]
  end.
  cbn. eexists. reflexivity.
Qed.

(** X13: given fuel for the five levels below it, [continue_after_round1]
    returns, whatever the cards, the pot and the history; the chance node it
    makes deals exactly the cards that neither player holds, in increasing
    order, each with the same positive probability, and these probabilities
    sum to 1. *)
Theorem continue_after_round1_deals_remaining_cards (fuel : nat)
    (node : GameNode) (c0 c1 : Card) (pt : Z) (h : string) :
  children node = [] ->
  (5 <= fuel)%nat ->
  exists t,
    LeducPoker.continue_after_round1 fuel node c0 c1 pt h = Some t
    /\ type t = Chance
    /\ List.map card (children t)
       = List.filter (fun c => negb ((c =? c0)%Z || (c =? c1)%Z)) LeducPoker.all_cards
    /\ Forall (fun e => probability e = 1 / INR (length (children t))) (children t)
    /\ (4 <= length (children t))%nat
    /\ vsum (List.map probability (children t)) = 1.
Proof.
  intros Hnil Hfuel.
  destruct (continue_after_round1_total fuel node c0 c1 pt h Hfuel) as [t Ht].
  exists t. split; [exact Ht|].
  exact (continue_after_round1_edges fuel node c0 c1 pt h t Hnil Ht).
Qed.

Lemma continue_after_round1_deals_remaining_cards_witness :
  exists t,
    LeducPoker.continue_after_round1 8%nat new_GameNode 0%Z 2%Z 2%Z "cc" = Some t
    /\ type t = Chance
    /\ List.map card (children t)
       = List.filter (fun c => negb ((c =? 0)%Z || (c =? 2)%Z)) LeducPoker.all_cards
    /\ Forall (fun e => probability e = 1 / INR (length (children t))) (children t)
    /\ (4 <= length (children t))%nat
    /\ vsum (List.map probability (children t)) = 1.
Proof.
  apply (continue_after_round1_deals_remaining_cards 8%nat new_GameNode 0%Z 2%Z 2%Z "cc").
  - reflexivity.
  - lia.
Defined.

(** ** The contracts of the line searches *)






(** ** Invariants of the result of [solve] *)

Lemma numbered_snoc (its : list IterationStats) (s : IterationStats) :
  numbered its -> stats_iteration s = Z.of_nat (length its) ->
  numbered (its ++ [s]).
Proof.
  intros Hn Hs k s' Hk. apply lookup_app_Some in Hk as [Hk|[Hge Hk]].
  - apply Hn. exact Hk.
  - apply list_lookup_singleton_Some in Hk as [Hk <-].
    rewrite Hs. f_equal. lia.
Qed.

Lemma solve_loop_invariants cfg F n fuel :
  forall iter x trace r rn lambda,
    r = F x -> rn = norm r ->
    iter = Z.of_nat (length (trace_iterations trace)) ->
    trace_total_iterations trace = iter ->
    numbered (trace_iterations trace) ->
    Forall (fun s => stats_converged s = false) (trace_iterations trace) ->
    (iter + Z.of_nat fuel = Z.max 0 (max_iters cfg))%Z ->
    let res := solve_loop cfg F n fuel iter x trace r rn lambda in
    let its := trace_iterations (res_trace res) in
    res_final_residual res = norm (F (res_x res))
    /\ res_converged res = trace_success (res_trace res)
    /\ trace_total_iterations (res_trace res) = Z.of_nat (length its)
    /\ numbered its
    /\ (Z.of_nat (length its) <= Z.max 0 (max_iters cfg))%Z
    /\ (res_converged res = true ->
        res_final_residual res < tol cfg
        /\ (0 <= res_iterations res < max_iters cfg)%Z
        /\ Z.of_nat (length its) = (res_iterations res + 1)%Z
        /\ trace_final_residual (res_trace res) = res_final_residual res
        /\ exists s, last its = Some s /\ stats_converged s = true)
    /\ (res_converged res = false ->
        Forall (fun s => stats_converged s = false) its
        /\ ((res_iterations res = max_iters cfg
             /\ Z.of_nat (length its) = Z.max 0 (max_iters cfg))
            \/ (trace_termination_reason (res_trace res) = "Failed: Jacobian singular"
                /\ Z.of_nat (length its) = (res_iterations res + 1)%Z))).
Proof.
  induction fuel as [|fuel IH];
    intros iter x trace r rn lambda Hr Hrn Hiter Htot Hnum Hconv Hfuel;
    cbv zeta; cbn [solve_loop].
  - cbn [res_final_residual res_x res_converged res_trace finish_trace
         trace_success trace_iterations trace_total_iterations res_iterations].
    subst r rn. split; [reflexivity|]. split; [reflexivity|].
    split; [lia|]. split; [exact Hnum|]. split; [lia|].
    split; [discriminate|]. intros _. split; [exact Hconv|]. left. split; [reflexivity|lia].
  - destruct (Rlt_dec rn (tol cfg)) as [Hlt|Hnlt].
    + cbn [res_final_residual res_x res_converged res_trace finish_trace add_iteration
           trace_success trace_iterations trace_total_iterations res_iterations
           trace_final_residual stats_residual_norm].
      subst r rn. split; [reflexivity|]. split; [reflexivity|].
      split; [reflexivity|].
      split; [apply numbered_snoc; [exact Hnum|cbn; lia]|].
      rewrite length_app. cbn [length].
      split; [lia|]. split; [|discriminate]. intros _.
      split; [exact Hlt|]. split; [lia|]. split; [lia|]. split; [reflexivity|].
      eexists. split; [apply last_snoc|reflexivity].
    + destruct (reg_loop _ _ _ _ _ _) as [[d|] lambda_reg].
      * match goal with
        | |- context [solve_loop cfg F n fuel ?i ?x' (add_iteration trace ?s) ?r' ?rn' ?l'] =>
            specialize (IH i x' (add_iteration trace s) r' rn' l')
        end.
        cbv zeta in IH. apply IH; clear IH.
        -- reflexivity.
        -- reflexivity.
        -- cbn [add_iteration trace_iterations]. rewrite length_app. cbn [length]. lia.
        -- cbn [add_iteration trace_total_iterations]. rewrite length_app.
           cbn [length]. lia.
        -- cbn [add_iteration trace_iterations]. apply numbered_snoc; [exact Hnum|cbn; lia].
        -- cbn [add_iteration trace_iterations]. apply Forall_app. split; [exact Hconv|].
           constructor; [reflexivity|constructor].
        -- lia.
      * cbn [res_final_residual res_x res_converged res_trace finish_trace add_iteration
             trace_success trace_iterations trace_total_iterations res_iterations
             trace_termination_reason].
        subst r rn. split; [reflexivity|]. split; [reflexivity|].
        split; [reflexivity|].
        split; [apply numbered_snoc; [exact Hnum|cbn; lia]|].
        rewrite length_app. cbn [length].
        split; [lia|]. split; [discriminate|]. intros _. split.
        -- apply Forall_app. split; [exact Hconv|]. constructor; [reflexivity|constructor].
        -- right. split; [reflexivity|lia].
Qed.

(** X16: for a square system [solve] returns a result whose final residual
    is the residual norm at the returned point, whose [converged] flag is
    the trace's [success] flag, and whose trace has at most [max_iters]
    entries, numbered consecutively from 0, with [total_iterations] their
    number.  A converged result has a final residual below the tolerance
    and an iteration count below [max_iters], and its last trace entry is
    the only one marked converged; a result that is not converged either
    ran [max_iters] iterations or stopped on a singular matrix. *)
Theorem solve_result_invariants (cfg : NewtonConfig) (F : list R -> list R)
    (x0 : list R) :
  length (F x0) = length x0 ->
  exists res,
    solve cfg F x0 = Ok res
    /\ let its := trace_iterations (res_trace res) in
       res_final_residual res = norm (F (res_x res))
       /\ res_converged res = trace_success (res_trace res)
       /\ trace_total_iterations (res_trace res) = Z.of_nat (length its)
       /\ numbered its
       /\ (Z.of_nat (length its) <= Z.max 0 (max_iters cfg))%Z
       /\ (res_converged res = true ->
           res_final_residual res < tol cfg
           /\ (0 <= res_iterations res < max_iters cfg)%Z
           /\ Z.of_nat (length its) = (res_iterations res + 1)%Z
           /\ trace_final_residual (res_trace res) = res_final_residual res
           /\ exists s, last its = Some s /\ stats_converged s = true)
       /\ (res_converged res = false ->
           Forall (fun s => stats_converged s = false) its
           /\ ((res_iterations res = max_iters cfg
                /\ Z.of_nat (length its) = Z.max 0 (max_iters cfg))
               \/ (trace_termination_reason (res_trace res)
                   = "Failed: Jacobian singular"
                   /\ Z.of_nat (length its) = (res_iterations res + 1)%Z))).
Proof.
  intros Hlen. unfold solve. cbv zeta.
  rewrite Hlen, Nat.eqb_refl. cbn [negb]. eexists. split; [reflexivity|].
  apply solve_loop_invariants.
  - reflexivity.
  - reflexivity.
  - reflexivity.
  - reflexivity.
  - intros k s Hk. discriminate.
  - constructor.
  - cbn. lia.
Qed.

Lemma solve_result_invariants_witness :
  exists res,
    solve default_NewtonConfig (linear_residual [1]) [0] = Ok res
    /\ let its := trace_iterations (res_trace res) in
       res_final_residual res = norm (linear_residual [1] (res_x res))
       /\ res_converged res = trace_success (res_trace res)
       /\ trace_total_iterations (res_trace res) = Z.of_nat (length its)
       /\ numbered its
       /\ (Z.of_nat (length its) <= Z.max 0 (max_iters default_NewtonConfig))%Z
       /\ (res_converged res = true ->
           res_final_residual res < tol default_NewtonConfig
           /\ (0 <= res_iterations res < max_iters default_NewtonConfig)%Z
           /\ Z.of_nat (length its) = (res_iterations res + 1)%Z
           /\ trace_final_residual (res_trace res) = res_final_residual res
           /\ exists s, last its = Some s /\ stats_converged s = true)
       /\ (res_converged res = false ->
           Forall (fun s => stats_converged s = false) its
           /\ ((res_iterations res = max_iters default_NewtonConfig
                /\ Z.of_nat (length its) = Z.max 0 (max_iters default_NewtonConfig))
               \/ (trace_termination_reason (res_trace res)
                   = "Failed: Jacobian singular"
                   /\ Z.of_nat (length its) = (res_iterations res + 1)%Z))).
Proof.
  apply (solve_result_invariants default_NewtonConfig (linear_residual [1]) [0]).
  reflexivity.
Defined.

(** X17: at a point whose residual is already below the tolerance [solve]
    stops at once when at least one iteration is allowed, and reports
    failure without looking at the residual when none is. *)
Theorem solve_at_a_root (cfg : NewtonConfig) (F : list R -> list R) (x0 : list R) :
  length (F x0) = length x0 ->
  norm (F x0) < tol cfg ->
  ((0 < max_iters cfg)%Z ->
   solve cfg F x0
   = Ok (mkNewtonResult x0
           (mkSolverTrace
              [mkIterationStats 0 (norm (F x0)) 0 1 (lambda_init cfg) true "Converged"]
              true 1 (norm (F x0)) "Converged: residual below tolerance")
           true 0 (norm (F x0))))
  /\ ((max_iters cfg <= 0)%Z ->
      solve cfg F x0
      = Ok (mkNewtonResult x0
              (mkSolverTrace [] false 0 0 "Max iterations reached")
              false (max_iters cfg) (norm (F x0)))).
Proof.
  intros Hlen Hroot. unfold solve. cbv zeta.
  rewrite Hlen, Nat.eqb_refl. cbn [negb]. split.
  - intros Hmax. destruct (Z.to_nat (max_iters cfg)) as [|fuel] eqn:E; [lia|].
    cbn [solve_loop]. destruct (Rlt_dec _ _) as [_|Hn]; [|contradiction].
    reflexivity.
  - intros Hmax. replace (Z.to_nat (max_iters cfg)) with 0%nat by lia.
    reflexivity.
Qed.

Lemma solve_at_a_root_witness :
  ((0 < max_iters default_NewtonConfig)%Z ->
   solve default_NewtonConfig (linear_residual [1]) [1]
   = Ok (mkNewtonResult [1]
           (mkSolverTrace
              [mkIterationStats 0 (norm (linear_residual [1] [1])) 0 1
                 (lambda_init default_NewtonConfig) true "Converged"]
              true 1 (norm (linear_residual [1] [1]))
              "Converged: residual below tolerance")
           true 0 (norm (linear_residual [1] [1]))))
  /\ ((max_iters default_NewtonConfig <= 0)%Z ->
      solve default_NewtonConfig (linear_residual [1]) [1]
      = Ok (mkNewtonResult [1]
              (mkSolverTrace [] false 0 0 "Max iterations reached")
              false (max_iters default_NewtonConfig)
              (norm (linear_residual [1] [1])))).
Proof.
  apply (solve_at_a_root default_NewtonConfig (linear_residual [1]) [1]).
  - reflexivity.
  - unfold linear_residual, vsub. cbn [zip_with]. rewrite norm_singleton.
    replace (1 - 1) with 0 by ring. rewrite Rabs_R0.
    unfold default_NewtonConfig. cbn [tol]. lra.
Defined.

(** ** Finite differences of an affine residual *)

Lemma vadd_assoc (a b c : list R) : vadd a (vadd b c) = vadd (vadd a b) c.
Proof.
  unfold vadd. revert b c. induction a as [|x a IH]; intros [|y b] [|z c];
    cbn; try reflexivity. rewrite IH. f_equal. ring.
Qed.

Lemma vadd_length (a b : list R) :
  length a = length b -> length (vadd a b) = length a.
Proof. intros H. unfold vadd. rewrite length_zip_with. lia. Qed.

Lemma vadd_scale_split (a h : R) (c r : list R) :
  length c = length r ->
  vadd (vscale (a + h) c) r = vadd (vadd (vscale a c) r) (vscale h c).
Proof.
  unfold vadd, vscale. revert r. induction c as [|x c IH]; intros [|y r] H;
    cbn in *; try reflexivity; try discriminate.
  rewrite IH by lia. f_equal. ring.
Qed.

Lemma mat_vec_cons (m : nat) (c : list R) (cs : list (list R)) (a : R) (xs : list R) :
  mat_vec (mkMatrix m (c :: cs)) (a :: xs)
  = vadd (vscale a c) (mat_vec (mkMatrix m cs) xs).
Proof. reflexivity. Qed.

Lemma mat_vec_length (m : nat) (cols : list (list R)) (x : list R) :
  Forall (fun c => length c = m) cols ->
  length (mat_vec (mkMatrix m cols) x) = m.
Proof.
  revert x. induction cols as [|c cs IH]; intros x Hc.
  - unfold mat_vec. cbn. apply repeat_length.
  - destruct x as [|a xs]; [unfold mat_vec; cbn; apply repeat_length|].
    apply Forall_cons in Hc as [Hc Hcs].
    rewrite mat_vec_cons, vadd_length; rewrite vscale_length; [exact Hc|].
    rewrite IH by exact Hcs. exact Hc.
Qed.

(** Moving one coordinate of the argument moves the product along the
    column of that coordinate. *)
Lemma mat_vec_alter (m : nat) (g : R -> R) (h : R) :
  (forall v, g v = v + h) ->
  forall cols x j cj,
    Forall (fun c => length c = m) cols ->
    length x = length cols ->
    cols !! j = Some cj ->
    mat_vec (mkMatrix m cols) (alter g j x)
    = vadd (mat_vec (mkMatrix m cols) x) (vscale h cj).
Proof.
  intros Hg. induction cols as [|c cs IH]; intros x j cj Hc Hlen Hj; [discriminate|].
  destruct x as [|a xs]; [discriminate|].
  apply Forall_cons in Hc as [Hc Hcs]. cbn in Hlen.
  destruct j as [|j]; cbn in Hj.
  - injection Hj as <-. cbn [alter list_alter]. rewrite !mat_vec_cons, Hg.
    apply vadd_scale_split. rewrite mat_vec_length by exact Hcs. exact Hc.
  - cbn [alter list_alter]. rewrite !mat_vec_cons.
    change (list_alter g j xs) with (alter g j xs).
    rewrite (IH xs j cj Hcs ltac:(lia) Hj). apply vadd_assoc.
Qed.

Lemma central_column (h : R) (u cj b : list R) :
  h <> 0 -> length cj = length u -> length b = length u ->
  vdiv (vsub (vadd (vadd u (vscale h cj)) b) (vadd (vadd u (vscale (- h) cj)) b))
       (2 * h)
  = cj.
Proof.
  intros Hh. unfold vdiv, vsub, vadd, vscale. revert cj b.
  induction u as [|x u IH]; intros [|y cj] [|z b] H1 H2; cbn in *;
    try reflexivity; try discriminate.
  rewrite IH by lia. f_equal. field. exact Hh.
Qed.

Lemma forward_column (h : R) (u cj b : list R) :
  h <> 0 -> length cj = length u -> length b = length u ->
  vdiv (vsub (vadd (vadd u (vscale h cj)) b) (vadd u b)) h = cj.
Proof.
  intros Hh. unfold vdiv, vsub, vadd, vscale. revert cj b.
  induction u as [|x u IH]; intros [|y cj] [|z b] H1 H2; cbn in *;
    try reflexivity; try discriminate.
  rewrite IH by lia. f_equal. field. exact Hh.
Qed.

Lemma map_seq_lookup {A : Type} (f : nat -> A) (l : list A) :
  (forall j x, l !! j = Some x -> f j = x) ->
  List.map f (seq 0 (length l)) = l.
Proof.
  intros H. apply list_eq. intros j. rewrite list_lookup_fmap.
  destruct (l !! j) as [x|] eqn:E.
  - rewrite lookup_seq_lt by (apply lookup_lt_Some in E; exact E).
    cbn. f_equal. apply H. exact E.
  - rewrite lookup_seq_ge by (apply lookup_ge_None in E; lia). reflexivity.
Qed.

(** X18: for an affine residual [F(x) = A x + b] and a non-zero step,
    [compute_jacobian] returns exactly [A], with central as with forward
    differences. *)
Theorem compute_jacobian_affine_exact (A : Matrix) (b x : list R) (h : R)
    (central : bool) :
  well_shaped A (length x) -> length b = mrows A -> h <> 0 ->
  compute_jacobian (affine A b) x h central = A.
Proof.
  intros [Hn Hcols] Hb Hh. destruct A as [m cols]. cbn [mrows mcols] in *.
  assert (Hu : forall y, length (mat_vec (mkMatrix m cols) y) = m).
  { intros y. apply mat_vec_length. exact Hcols. }
  assert (Hm : length (affine (mkMatrix m cols) b x) = m).
  { unfold affine. rewrite vadd_length; rewrite Hu; [reflexivity|lia]. }
  unfold compute_jacobian. cbv zeta. rewrite Hm, <- Hn.
  destruct central; f_equal; apply map_seq_lookup; intros j cj Hj.
  - unfold affine.
    rewrite (mat_vec_alter m (fun v => v + h) h ltac:(reflexivity) cols x j cj
               Hcols ltac:(lia) Hj).
    rewrite (mat_vec_alter m (fun v => v - h) (- h) ltac:(intros; cbv beta; ring) cols x j cj
               Hcols ltac:(lia) Hj).
    assert (Hcj : length cj = m).
    { rewrite Forall_forall in Hcols. apply Hcols.
      apply list_elem_of_lookup_2 with j. exact Hj. }
    apply central_column; rewrite ?Hu; auto.
  - unfold affine.
    rewrite (mat_vec_alter m (fun v => v + h) h ltac:(reflexivity) cols x j cj
               Hcols ltac:(lia) Hj).
    assert (Hcj : length cj = m).
    { rewrite Forall_forall in Hcols. apply Hcols.
      apply list_elem_of_lookup_2 with j. exact Hj. }
    apply forward_column; rewrite ?Hu; auto.
Qed.

Lemma compute_jacobian_affine_exact_witness :
  compute_jacobian (affine (mkMatrix 2 [[1; 2]; [3; 4]]) [5; 6]) [0; 0] 1e-7 false
  = mkMatrix 2 [[1; 2]; [3; 4]].
Proof.
  apply (compute_jacobian_affine_exact (mkMatrix 2 [[1; 2]; [3; 4]]) [5; 6] [0; 0]
           1e-7 false).
  - split; [reflexivity|]. repeat constructor.
  - reflexivity.
  - lra.
Defined.

Lemma adaptive_fd_step_max (x_j base_h : R) :
  adaptive_fd_step x_j base_h = base_h * Rmax 1 (Rabs x_j).
Proof.
  unfold adaptive_fd_step. cbv zeta. destruct (Rgt_dec (Rabs x_j) 1) as [H|H].
  - rewrite Rmax_right by lra. reflexivity.
  - rewrite Rmax_left by lra. ring.
Qed.

Lemma imap_as_map_seq {A B : Type} (f : nat -> A -> B) (g : nat -> B) (l : list A) :
  (forall j x, l !! j = Some x -> f j x = g j) ->
  imap f l = List.map g (seq 0 (length l)).
Proof.
  intros H. apply list_eq. intros j. rewrite list_lookup_imap, list_lookup_fmap.
  destruct (l !! j) as [x|] eqn:E.
  - rewrite lookup_seq_lt by (apply lookup_lt_Some in E; exact E).
    cbn. f_equal. apply H. exact E.
  - rewrite lookup_seq_ge by (apply lookup_ge_None in E; lia). reflexivity.
Qed.

(** X19: the adaptive step is [base_h * max(1, |x_j|)], and inside the unit
    box the adaptive Jacobian is the central-difference Jacobian. *)
Theorem compute_jacobian_adaptive_unit_box (F : list R -> list R) (x : list R)
    (base_h : R) :
  Forall (fun x_j => Rabs x_j <= 1) x ->
  (forall x_j, adaptive_fd_step x_j base_h = base_h * Rmax 1 (Rabs x_j))
  /\ compute_jacobian_adaptive F x base_h = compute_jacobian F x base_h true.
Proof.
  intros Hbox. split; [intros x_j; apply adaptive_fd_step_max|].
  unfold compute_jacobian_adaptive, compute_jacobian. cbv zeta. f_equal.
  apply imap_as_map_seq. intros j x_j Hj.
  assert (Hstep : adaptive_fd_step x_j base_h = base_h).
  { rewrite Forall_forall in Hbox.
    specialize (Hbox x_j (list_elem_of_lookup_2 _ _ _ Hj)).
    unfold adaptive_fd_step. cbv zeta.
    destruct (Rgt_dec (Rabs x_j) 1); [lra|reflexivity]. }
  rewrite Hstep. reflexivity.
Qed.

Lemma compute_jacobian_adaptive_unit_box_witness :
  (forall x_j, adaptive_fd_step x_j 1e-7 = 1e-7 * Rmax 1 (Rabs x_j))
  /\ compute_jacobian_adaptive steep_residual [0] 1e-7
     = compute_jacobian steep_residual [0] 1e-7 true.
Proof.
  apply (compute_jacobian_adaptive_unit_box steep_residual [0] 1e-7).
  constructor; [rewrite Rabs_R0; lra|constructor].
Defined.

(** ** Exploitability *)




(** ** Expected value and reach probabilities *)

Lemma ev_chance_loop_scales (rec : GameNode -> R -> R -> R -> result R)
    (edges : list ChildEdge) :
  Forall (fun e => exists v, forall a b c, rec (child e) a b c = Ok (a * b * c * v))
         edges ->
  exists w, forall a b c ev0,
    ev_chance_loop rec a b c edges ev0 = Ok (ev0 + a * b * c * w).
Proof.
  induction 1 as [|e edges [v Hv] _ [w IH]]; cbn [ev_chance_loop].
  - exists 0. intros a b c ev0. f_equal. ring.
  - exists (probability e * v + w). intros a b c ev0.
    rewrite Hv. cbn. rewrite IH. f_equal. ring.
Qed.

Lemma ev_player_loop_scales (rec : GameNode -> R -> R -> R -> result R)
    (pl : PlayerId) (probs : list R) (edges : list ChildEdge) :
  Forall (fun e => exists v, forall a b c, rec (child e) a b c = Ok (a * b * c * v))
         edges ->
  forall pre rest,
    probs = pre ++ rest -> length rest = length edges ->
    exists w, forall a b c ev0,
      ev_player_loop rec pl probs a b c edges (Z.of_nat (length pre)) ev0
      = Ok (ev0 + a * b * c * w).
Proof.
  induction 1 as [|e edges [v Hv] _ IH]; intros pre rest Hprobs Hlen;
    cbn [ev_player_loop].
  - exists 0. intros a b c ev0. f_equal. ring.
  - destruct rest as [|q rest]; [discriminate|]. injection Hlen as Hlen. subst probs.
    destruct (IH (pre ++ [q]) rest) as [w Hw];
      [rewrite <- app_assoc; reflexivity|exact Hlen|].
    exists (q * v + w). intros a b c ev0.
    rewrite coeff_app. cbn. rewrite Hv. cbn.
    rewrite snoc_index with (a := q). rewrite Hw. f_equal.
    destruct (pl =? PLAYER_0)%Z; ring.
Qed.

(** The value of a node: what [ev_recursive] returns apart from the reach
    probabilities. *)
Lemma ev_recursive_reach_value (sigma : Strategy)
    (override_opt : option (InfoSetId * Action)) (node : GameNode) :
  fits sigma node = true ->
  exists v, forall reach_p0 reach_p1 reach_chance,
    ev_recursive node sigma reach_p0 reach_p1 reach_chance override_opt
    = Ok (reach_p0 * reach_p1 * reach_chance * v).
Proof.
  induction node as [node IH] using GameNode_tree_ind. intros Hfit.
  rewrite fits_eq in Hfit.
  destruct (type node) eqn:Et.
  - assert (Hch : Forall (fun e => exists v, forall a b c,
                      ev_recursive (child e) sigma a b c override_opt
                      = Ok (a * b * c * v)) (children node)).
    { apply forallb_Forall_child in Hfit.
      rewrite Forall_forall in IH, Hfit. apply Forall_forall. intros e He.
      apply IH; [exact He|]. apply Hfit. exact He. }
    destruct (ev_chance_loop_scales
                (fun c a b d => ev_recursive c sigma a b d override_opt) _ Hch) as [w Hw].
    exists w. intros a b c. rewrite ev_recursive_eq, Et, Hw. f_equal. ring.
  - apply andb_prop in Hfit as [Hfit Hkids].
    apply andb_prop in Hfit as [Hfit Hlogits].
    apply andb_prop in Hfit as [Hfit Hne].
    apply andb_prop in Hfit as [Hpl Hlegal].
    apply Nat.eqb_eq in Hlegal.
    destruct (logits_ sigma !! info_set_id node) as [l|] eqn:El; [|discriminate].
    apply Nat.eqb_eq in Hlogits.
    assert (Hch : Forall (fun e => exists v, forall a b c,
                      ev_recursive (child e) sigma a b c override_opt
                      = Ok (a * b * c * v)) (children node)).
    { apply forallb_Forall_child in Hkids.
      rewrite Forall_forall in IH, Hkids. apply Forall_forall. intros e He.
      apply IH; [exact He|]. apply Hkids. exact He. }
    assert (Hprobs : exists probs,
               (match override_opt with
                | Some (id, a) =>
                    if String.eqb id (info_set_id node)
                    then Ok (override_probs (legal_actions node) a)
                    else Strategy.probs sigma (info_set_id node)
                | None => Strategy.probs sigma (info_set_id node)
                end) = Ok probs
               /\ length probs = length (children node)).
    { unfold Strategy.probs. rewrite El.
      destruct override_opt as [[id a]|].
      - destruct (String.eqb id (info_set_id node)).
        + eexists. split; [reflexivity|]. rewrite override_probs_length. exact Hlegal.
        + eexists. split; [reflexivity|]. rewrite stable_softmax_length. exact Hlogits.
      - eexists. split; [reflexivity|]. rewrite stable_softmax_length. exact Hlogits. }
    destruct Hprobs as (probs & Hp & Hplen).
    destruct (ev_player_loop_scales
                (fun c a b d => ev_recursive c sigma a b d override_opt)
                (player node) probs _ Hch [] probs
                eq_refl Hplen) as [w Hw].
    exists w. intros a b c. rewrite ev_recursive_eq, Et, Hp. cbn.
    pose proof (Hw a b c 0) as Hw'.
    change (Z.of_nat (@length R [])) with 0%Z in Hw'.
    rewrite Hw'. f_equal. ring.
  - exists (payoff node). intros a b c. rewrite ev_recursive_eq, Et. reflexivity.
Qed.

(** X21: in a tree that fits the strategy the value [ev_recursive] returns
    is the product of the three reach probabilities it is entered with and
    a value of the node that does not depend on them, with or without an
    override. *)
Theorem ev_recursive_scales_with_reach (sigma : Strategy)
    (override_opt : option (InfoSetId * Action)) (node : GameNode) :
  fits sigma node = true ->
  exists v, forall reach_p0 reach_p1 reach_chance,
    ev_recursive node sigma reach_p0 reach_p1 reach_chance override_opt
    = Ok (reach_p0 * reach_p1 * reach_chance * v).
Proof. exact (ev_recursive_reach_value sigma override_opt node). Qed.

Lemma ev_recursive_scales_with_reach_witness :
  exists v, forall reach_p0 reach_p1 reach_chance,
    ev_recursive kuhn_tree kuhn_uniform reach_p0 reach_p1 reach_chance
      (Some ("P0:J:", Bet))
    = Ok (reach_p0 * reach_p1 * reach_chance * v).
Proof.
  apply (ev_recursive_scales_with_reach kuhn_uniform (Some ("P0:J:", Bet)) kuhn_tree).
  vm_compute. reflexivity.
Defined.

(** ** Overriding an info set that does not occur *)

Lemma visits_fst_depth (node : GameNode) :
  forall d d', List.map fst (visits node d) = List.map fst (visits node d').
Proof.
  induction node as [node IH] using GameNode_tree_ind. intros d d'.
  rewrite !visits_eq. cbn [List.map fst]. f_equal.
  induction (children node) as [|e l IHl]; [reflexivity|].
  apply Forall_cons in IH as [He Hl]. cbn [flat_map].
  rewrite !List.map_app, (He (d + 1)%Z (d' + 1)%Z), (IHl Hl). reflexivity.
Qed.

Lemma nodes_eq (node : GameNode) :
  nodes node = node :: flat_map (fun e => nodes (child e)) (children node).
Proof.
  rewrite nodes_visits, visits_eq. cbn [List.map fst]. f_equal.
  induction (children node) as [|e l IHl]; [reflexivity|].
  cbn [flat_map]. rewrite List.map_app, IHl, nodes_visits.
  rewrite (visits_fst_depth (child e) (0 + 1)%Z 0%Z). reflexivity.
Qed.

Lemma player_nodes_child (node : GameNode) (e : ChildEdge) (n : GameNode) :
  e ∈ children node -> n ∈ player_nodes (child e) -> n ∈ player_nodes node.
Proof.
  unfold player_nodes. intros He Hn.
  apply list_elem_of_In, filter_In in Hn as [Hn Ht].
  apply list_elem_of_In, filter_In. split; [|exact Ht].
  rewrite nodes_eq. right. apply in_flat_map. exists e.
  split; [apply list_elem_of_In; exact He|exact Hn].
Qed.

Lemma player_nodes_self (node : GameNode) :
  type node = Player -> node ∈ player_nodes node.
Proof.
  intros Ht. unfold player_nodes. apply list_elem_of_In, filter_In.
  split; [rewrite nodes_eq; left; reflexivity|rewrite Ht; reflexivity].
Qed.

Lemma ev_chance_loop_ext (rec1 rec2 : GameNode -> R -> R -> R -> result R)
    (edges : list ChildEdge) :
  Forall (fun e => forall a b c, rec1 (child e) a b c = rec2 (child e) a b c) edges ->
  forall a b c ev0,
    ev_chance_loop rec1 a b c edges ev0 = ev_chance_loop rec2 a b c edges ev0.
Proof.
  induction 1 as [|e edges He _ IH]; intros a b c ev0; cbn [ev_chance_loop];
    [reflexivity|].
  rewrite He. destruct (rec2 _ _ _ _); cbn; [apply IH|reflexivity].
Qed.

Lemma ev_player_loop_ext (rec1 rec2 : GameNode -> R -> R -> R -> result R)
    (pl : PlayerId) (probs : list R) (edges : list ChildEdge) :
  Forall (fun e => forall a b c, rec1 (child e) a b c = rec2 (child e) a b c) edges ->
  forall a b c i ev0,
    ev_player_loop rec1 pl probs a b c edges i ev0
    = ev_player_loop rec2 pl probs a b c edges i ev0.
Proof.
  induction 1 as [|e edges He _ IH]; intros a b c i ev0; cbn [ev_player_loop];
    [reflexivity|].
  destruct (coeff probs i); cbn; [|reflexivity].
  rewrite He. destruct (rec2 _ _ _ _); cbn; [apply IH|reflexivity].
Qed.

(** X22: an override of an info set that no player node of the tree carries
    changes nothing: [compute_ev_with_override] returns what [compute_ev]
    returns, be it a value or an error. *)
Theorem compute_ev_with_override_absent_info_set (root : GameNode)
    (sigma : Strategy) (id : InfoSetId) (a : Action) :
  Forall (fun n => info_set_id n <> id) (player_nodes root) ->
  compute_ev_with_override root sigma id a = compute_ev root sigma.
Proof.
  unfold compute_ev_with_override, compute_ev.
  generalize 1 at 1 4 as r0. generalize 1 at 1 3 as r1. generalize 1 as rc.
  induction root as [node IH] using GameNode_tree_ind. intros rc r1 r0 Habs.
  assert (Hch : Forall (fun e => forall x y z,
                    ev_recursive (child e) sigma x y z (Some (id, a))
                    = ev_recursive (child e) sigma x y z None) (children node)).
  { rewrite Forall_forall in IH. apply Forall_forall. intros e He x y z.
    apply IH; [exact He|]. apply Forall_forall. intros n Hn.
    rewrite Forall_forall in Habs. apply Habs.
    apply (player_nodes_child node e n He Hn). }
  rewrite !ev_recursive_eq. destruct (type node) eqn:Et.
  - apply ev_chance_loop_ext. exact Hch.
  - destruct (String.eqb_spec id (info_set_id node)) as [Heq|Hne].
    + exfalso. rewrite Forall_forall in Habs.
      apply (Habs node (player_nodes_self node Et)). congruence.
    + destruct (Strategy.probs sigma (info_set_id node)); cbn; [|reflexivity].
      apply ev_player_loop_ext. exact Hch.
  - reflexivity.
Qed.

Lemma compute_ev_with_override_absent_info_set_witness :
  compute_ev_with_override kuhn_tree kuhn_uniform "P0:A:" Bet
  = compute_ev kuhn_tree kuhn_uniform.
Proof.
  apply (compute_ev_with_override_absent_info_set kuhn_tree kuhn_uniform "P0:A:" Bet).
  apply (bool_decide_unpack _). vm_compute. exact I.
Defined.

(** ** Leduc: ids and showdowns *)

Lemma leduc_rank_range (c : Card) :
  (0 <= c < 6)%Z ->
  LeducPoker.card_rank c = 0%Z \/ LeducPoker.card_rank c = 1%Z
  \/ LeducPoker.card_rank c = 2%Z.
Proof.
  intros H. unfold LeducPoker.card_rank.
  assert (c = 0 \/ c = 1 \/ c = 2 \/ c = 3 \/ c = 4 \/ c = 5)%Z as Hc by lia.
  destruct Hc as [->|[->|[->|[->|[->| ->]]]]]; cbn; auto.
Qed.

(** X23: for players 0 and 1, cards of the deck and rounds 1 and 2, two
    Leduc info-set ids are equal exactly when the player, the rank of the
    private card, the view of the public card (absent, or its rank), the
    round and the history are equal: the id hides the suits. *)
Theorem leduc_info_set_id_is_the_observation
    (p p' : PlayerId) (c c' pub pub' : Card) (h h' : string) (r r' : Z) :
  (p = PLAYER_0 \/ p = PLAYER_1) -> (p' = PLAYER_0 \/ p' = PLAYER_1) ->
  (0 <= c < 6)%Z -> (0 <= c' < 6)%Z -> (pub < 6)%Z -> (pub' < 6)%Z ->
  (r = 1 \/ r = 2)%Z -> (r' = 1 \/ r' = 2)%Z ->
  LeducPoker.make_info_set_id p c pub h r = LeducPoker.make_info_set_id p' c' pub' h' r'
  <-> p = p' /\ LeducPoker.card_rank c = LeducPoker.card_rank c'
      /\ public_view pub = public_view pub' /\ r = r' /\ h = h'.
Proof.
  intros Hp Hp' Hc Hc' Hpub Hpub' Hr Hr'.
  unfold LeducPoker.make_info_set_id, public_view. cbv zeta.
  rewrite !Z.geb_leb.
  assert (Hv : forall q, (q < 6)%Z ->
            ((q <? 0)%Z = true /\ (0 <=? q)%Z = false)
            \/ ((q <? 0)%Z = false /\ (0 <=? q)%Z = true
                /\ (LeducPoker.card_rank q = 0 \/ LeducPoker.card_rank q = 1
                    \/ LeducPoker.card_rank q = 2)%Z)).
  { intros q Hq. destruct (Z.ltb_spec q 0) as [Hn|Hn].
    - left. split; [reflexivity|]. apply Z.leb_gt. lia.
    - right. split; [reflexivity|]. split; [apply Z.leb_le; lia|].
      apply leduc_rank_range. lia. }
  destruct (leduc_rank_range c Hc) as [Ec|[Ec|Ec]];
  destruct (leduc_rank_range c' Hc') as [Ec'|[Ec'|Ec']];
  rewrite Ec, Ec'; clear Ec Ec' Hc Hc';
  destruct (Hv pub Hpub) as [[E1 E2]|[E1 [E2 [E3|[E3|E3]]]]];
  destruct (Hv pub' Hpub') as [[E1' E2']|[E1' [E2' [E3'|[E3'|E3']]]]];
  rewrite E1, E2, E1', E2', ?E3, ?E3';
  destruct Hp as [-> | ->], Hp' as [-> | ->], Hr as [-> | ->], Hr' as [-> | ->];
  (split;
   [ intros H; vm_compute in H; first [discriminate H | injection H as ->; repeat split]
   | intros (H1 & H2 & H3 & H4 & H5);
     first [discriminate H1 | discriminate H2 | discriminate H3 | discriminate H4
           | subst; reflexivity] ]).
Qed.

Lemma leduc_info_set_id_is_the_observation_witness :
  LeducPoker.make_info_set_id PLAYER_0 0 2 "cc|" 2
  = LeducPoker.make_info_set_id PLAYER_0 1 3 "cc|" 2
  <-> PLAYER_0 = PLAYER_0
      /\ LeducPoker.card_rank 0 = LeducPoker.card_rank 1
      /\ public_view 2 = public_view 3 /\ 2%Z = 2%Z /\ "cc|" = "cc|".
Proof.
  apply (leduc_info_set_id_is_the_observation PLAYER_0 PLAYER_0 0%Z 1%Z 2%Z 3%Z
           "cc|" "cc|" 2%Z 2%Z); first [lia | left; reflexivity | right; reflexivity].
Defined.

Lemma leduc_compare_hands_antisym (a b pub : Card) :
  LeducPoker.compare_hands b a pub = (- LeducPoker.compare_hands a b pub)%Z.
Proof.
  unfold LeducPoker.compare_hands. cbv zeta.
  destruct (Z.eqb_spec (LeducPoker.card_rank a) (LeducPoker.card_rank pub)),
           (Z.eqb_spec (LeducPoker.card_rank b) (LeducPoker.card_rank pub));
    cbn [andb negb]; try reflexivity;
    destruct (Z.gtb_spec (LeducPoker.card_rank a) (LeducPoker.card_rank b)),
             (Z.gtb_spec (LeducPoker.card_rank b) (LeducPoker.card_rank a)),
             (Z.ltb_spec (LeducPoker.card_rank a) (LeducPoker.card_rank b)),
             (Z.ltb_spec (LeducPoker.card_rank b) (LeducPoker.card_rank a));
    try reflexivity; lia.
Qed.

(** X24: the Leduc showdown is antisymmetric in the two hands (swapping
    them negates the payoff), a hand that pairs the public card wins half
    the pot against one that does not, whatever the ranks, and hands of
    equal rank split. *)
Theorem leduc_showdown_zero_sum (node : GameNode) (a b pub : Card) (pt : Z) :
  payoff (LeducPoker.make_showdown node b a pub pt)
  = - payoff (LeducPoker.make_showdown node a b pub pt)
  /\ (LeducPoker.card_rank a = LeducPoker.card_rank pub ->
      LeducPoker.card_rank b <> LeducPoker.card_rank pub ->
      payoff (LeducPoker.make_showdown node a b pub pt) = IZR pt / 2)
  /\ (LeducPoker.card_rank a = LeducPoker.card_rank b ->
      payoff (LeducPoker.make_showdown node a b pub pt) = 0).
Proof.
  split; [|split].
  - unfold LeducPoker.make_showdown. cbv zeta.
    rewrite (leduc_compare_hands_antisym a b pub).
    destruct (Z.gtb_spec (LeducPoker.compare_hands a b pub) 0),
             (Z.ltb_spec (LeducPoker.compare_hands a b pub) 0),
             (Z.gtb_spec (- LeducPoker.compare_hands a b pub) 0),
             (Z.ltb_spec (- LeducPoker.compare_hands a b pub) 0);
      try lia; cbn; lra.
  - intros Ha Hb. unfold LeducPoker.make_showdown, LeducPoker.compare_hands. cbv zeta.
    rewrite (proj2 (Z.eqb_eq _ _) Ha), (proj2 (Z.eqb_neq _ _) Hb). reflexivity.
  - intros Hab. unfold LeducPoker.make_showdown, LeducPoker.compare_hands. cbv zeta.
    rewrite Hab.
    destruct (Z.eqb_spec (LeducPoker.card_rank b) (LeducPoker.card_rank pub)); cbn [andb negb];
    rewrite !Z.gtb_ltb, !Z.ltb_irrefl; reflexivity.
Qed.

Lemma leduc_showdown_zero_sum_witness :
  payoff (LeducPoker.make_showdown new_GameNode 0 4 1 6) = IZR 6 / 2.
Proof.
  apply (proj1 (proj2 (leduc_showdown_zero_sum new_GameNode 0%Z 4%Z 1%Z 6%Z)));
    vm_compute; congruence.
Defined.

(** ** The shape of the beta schedule *)

Lemma beta_loop_shape (target : R) (fuel : nat) :
  forall beta s,
    target <= beta * 2 ^ fuel ->
    exists k : nat,
      (k <= fuel)%nat
      /\ beta_loop (S fuel) target beta s
         = Some (s ++ List.map (fun i => beta * 2 ^ i) (seq 0 k))
      /\ (forall i, (i < k)%nat -> beta * 2 ^ i < target)
      /\ target <= beta * 2 ^ k.
Proof.
  induction fuel as [|fuel IH]; intros beta s Hle.
  - exists 0%nat. cbn [beta_loop]. cbn [pow] in Hle.
    destruct (Rlt_dec beta target) as [H|H]; [lra|].
    split; [lia|]. split; [cbn; rewrite app_nil_r; reflexivity|].
    split; [intros i Hi; lia|cbn; lra].
  - cbn [beta_loop]. destruct (Rlt_dec beta target) as [Hlt|Hge].
    + destruct (IH (beta * 2) (s ++ [beta])) as (k & Hk & Hloop & Hbelow & Habove).
      { cbn [pow] in Hle. lra. }
      exists (S k). split; [lia|]. split.
      * cbn [beta_loop] in Hloop. rewrite Hloop. f_equal.
        rewrite <- app_assoc. f_equal. cbn [seq List.map app pow].
        f_equal; [ring|]. rewrite <- seq_shift, List.map_map.
        apply List.map_ext. intros i. cbn [pow]. ring.
      * split.
        -- intros [|i] Hi; [cbn; lra|]. specialize (Hbelow i ltac:(lia)).
           cbn [pow]. lra.
        -- cbn [pow]. lra.
    + exists 0%nat. split; [lia|]. split; [cbn; rewrite app_nil_r; reflexivity|].
      split; [intros i Hi; lia|cbn; lra].
Qed.

(** X25: for every target [make_beta_schedule] stops and returns 0.01, then
    0.05, 0.1, 0.2, ... (0.05 times the powers of two) as long as these are
    below the target, then the target itself: the number [k] of doubling
    steps is the least one with [target <= 0.05 * 2^k]. *)
Theorem make_beta_schedule_shape (target_beta : R) :
  exists k fuel0 : nat,
    (forall fuel, (fuel0 <= fuel)%nat ->
       make_beta_schedule fuel target_beta
       = Some (0.01 :: List.map (fun i => 0.05 * 2 ^ i) (seq 0 k) ++ [target_beta]))
    /\ (forall i, (i < k)%nat -> 0.05 * 2 ^ i < target_beta)
    /\ target_beta <= 0.05 * 2 ^ k.
Proof.
  destruct (pow2_unbounded target_beta) as [N HN].
  destruct (beta_loop_shape target_beta N 0.05 [0.01] HN)
    as (k & Hk & Hloop & Hbelow & Habove).
  exists k, (S N). split; [|split; assumption].
  intros fuel Hfuel. unfold make_beta_schedule.
  rewrite (beta_loop_mono_le (S N) fuel _ _ _ _ Hfuel Hloop). reflexivity.
Qed.

(** ** The QRE residual *)

Lemma write_block_map (f : R -> R) (seg : list R) (start : nat) :
  forall k s v,
    (s + k <= length seg)%nat -> (start + s + k <= length v)%nat ->
    foldM (fun w a => x ← coeff seg (Z.of_nat a);
                      set_coeff w (Z.of_nat start + Z.of_nat a) (f x)) v (seq s k)
    = Ok (take (start + s) v ++ List.map f (take k (drop s seg))
          ++ drop (start + s + k) v).
Proof.
  induction k as [|k IH]; intros s v Hs Hv; cbn [seq foldM].
  - rewrite take_0, Nat.add_0_r. cbn [List.map app]. rewrite take_drop. reflexivity.
  - destruct (lookup_lt_is_Some_2 seg s) as [x Hx]; [lia|].
    rewrite (coeff_lookup seg s x Hx). cbn.
    rewrite <- Nat2Z.inj_add, set_coeff_in_range by lia. cbn.
    rewrite IH by (rewrite ?length_insert; lia).
    f_equal. rewrite (drop_S _ _ _ Hx). cbn [take List.map].
    replace (start + S s)%nat with (S (start + s)) by lia.
    rewrite (take_S_r (<[(start + s)%nat := f x]> v) (start + s) (f x))
      by (apply list_lookup_insert_eq; lia).
    rewrite take_insert_ge by lia.
    rewrite drop_insert_lt by lia.
    rewrite <- app_assoc. cbn [app].
    replace (S (start + s) + k)%nat with (start + s + S k)%nat by lia.
    reflexivity.
Qed.

Lemma flat_map_block_length (block : InfoSet -> list R) (l : list InfoSet) :
  Forall (fun x => length (block x) = length (is_legal_actions x)) l ->
  length (flat_map block l) = length (flat_keys l).
Proof.
  induction 1 as [|x l Hx _ IH]; [reflexivity|].
  cbn [flat_map flat_keys]. rewrite !length_app, length_map, Hx, IH. reflexivity.
Qed.

Lemma flat_keys_take_S (l : list InfoSet) (i : nat) (x : InfoSet) :
  l !! i = Some x ->
  length (flat_keys (take (S i) l))
  = (length (flat_keys (take i l)) + length (is_legal_actions x))%nat.
Proof.
  intros Hx. rewrite (take_S_r _ _ _ Hx), flat_keys_app. cbn [flat_keys].
  rewrite !length_app, length_map. cbn. lia.
Qed.

(** A loop that fills the block of every info set fills the whole vector. *)
Lemma assemble_blocks (l : list InfoSet) (block : InfoSet -> list R)
    (step : list R -> Z -> result (list R)) :
  Forall (fun x => length (block x) = length (is_legal_actions x)) l ->
  (forall v i x,
     Z.of_nat (length v) = sum_actions l -> l !! i = Some x ->
     step v (Z.of_nat i)
     = Ok (take (length (flat_keys (take i l))) v ++ block x
           ++ drop (length (flat_keys (take (S i) l))) v)) ->
  forall fresh,
    Z.of_nat (length fresh) = sum_actions l ->
    foldM step fresh (List.map Z.of_nat (seq 0 (length l)))
    = Ok (flat_map block l).
Proof.
  intros Hblock Hstep fresh Hf.
  assert (Hgen : forall suf i,
             drop i l = suf ->
             foldM step
               (flat_map block (take i l)
                ++ drop (length (flat_keys (take i l))) fresh)
               (List.map Z.of_nat (seq i (length suf)))
             = Ok (flat_map block l)).
  { induction suf as [|x suf IH]; intros i Hdrop.
    - cbn. f_equal.
      assert (Hlen : (length l <= i)%nat).
      { apply (f_equal length) in Hdrop. rewrite length_drop in Hdrop.
        simpl in Hdrop. lia. }
      rewrite (take_ge l i Hlen).
      pose proof (flat_keys_length l).
      rewrite drop_ge, app_nil_r by lia. reflexivity.
    - assert (Hx : l !! i = Some x).
      { rewrite <- (Nat.add_0_r i), <- lookup_drop, Hdrop. reflexivity. }
      assert (Hdrop' : drop (S i) l = suf).
      { rewrite (drop_S _ _ _ Hx) in Hdrop. congruence. }
      cbn [length seq List.map foldM].
      pose proof (flat_keys_length l) as Hfl.
      pose proof (flat_keys_take_le l i) as Hle1.
      pose proof (flat_keys_take_le l (S i)) as Hle2.
      pose proof (flat_keys_take_S l i x Hx) as HS.
      assert (Hpre : length (flat_map block (take i l))
                     = length (flat_keys (take i l))).
      { apply flat_map_block_length. apply Forall_take. exact Hblock. }
      rewrite (Hstep _ i x);
        [| rewrite length_app, Hpre, length_drop; lia | exact Hx].
      cbn. rewrite <- (IH (S i) Hdrop'). f_equal.
      rewrite <- Hpre at 1.
      rewrite take_app_length.
      rewrite drop_app_ge by lia.
      rewrite Hpre, drop_drop.
      rewrite (take_S_r _ _ _ Hx), flat_map_app. cbn [flat_map].
      rewrite app_nil_r, <- !app_assoc. do 2 f_equal.
      rewrite <- (take_S_r _ _ _ Hx). f_equal. lia. }
  apply (Hgen l 0%nat (drop_0 l)).
Qed.

Lemma flat_map_block_segment (block : InfoSet -> list R) (l : list InfoSet)
    (i : nat) (x : InfoSet) :
  Forall (fun x => length (block x) = length (is_legal_actions x)) l ->
  l !! i = Some x ->
  segment (flat_map block l) (sum_actions (take i l))
          (length (is_legal_actions x))
  = block x.
Proof.
  intros Hblock Hx. unfold segment.
  rewrite <- flat_keys_length, Nat2Z.id.
  assert (Hk : flat_map block l
               = flat_map block (take i l)
                 ++ block x ++ flat_map block (drop (S i) l)).
  { change (block x ++ flat_map block (drop (S i) l))
      with (flat_map block (x :: drop (S i) l)).
    rewrite <- flat_map_app, <- split_at by exact Hx. reflexivity. }
  rewrite Hk.
  rewrite <- (flat_map_block_length block (take i l))
    by (apply Forall_take; exact Hblock).
  rewrite drop_app_length.
  rewrite Forall_forall in Hblock.
  rewrite <- (Hblock x (list_elem_of_lookup_2 _ _ _ Hx)).
  apply take_app_length.
Qed.

Section QRE.
Variable root : GameNode.
Variable sigma : Strategy.
Variable l : list InfoSet.
Hypothesis ids_distinct : NoDup (List.map is_id l).
Hypothesis eu_defined :
  forall x a, exists eu,
    expected_utility root sigma (is_id x) a (is_player x) = Ok eu.

Lemma eu_value_spec (x : InfoSet) (a : Action) :
  expected_utility root sigma (is_id x) a (is_player x)
  = Ok (eu_value root sigma x a).
Proof.
  unfold eu_value. destruct (eu_defined x a) as [eu ->]. reflexivity.
Qed.

Lemma action_eu_fold (x : InfoSet) (acts : list Action) :
  forall m0 : gmap Action R,
    foldM (fun action_eu a =>
             eu ← expected_utility root sigma (is_id x) a (is_player x);
             Ok (<[a := eu]> action_eu)) m0 acts
    = Ok (fold_left (fun m a => <[a := eu_value root sigma x a]> m) acts m0).
Proof.
  induction acts as [|a acts IH]; intros m0; cbn [foldM fold_left]; [reflexivity|].
  rewrite eu_value_spec. cbn. apply IH.
Qed.

Lemma eu_fold_lookup (x : InfoSet) (acts : list Action) (a : Action) :
  forall m0 : gmap Action R,
    a ∈ acts ->
    fold_left (fun m a => <[a := eu_value root sigma x a]> m) acts m0 !! a
    = Some (eu_value root sigma x a).
Proof.
  induction acts as [|b acts IH]; intros m0 Ha; [inversion Ha|].
  cbn [fold_left]. destruct (decide (a ∈ acts)) as [Hin|Hnin]; [apply IH; exact Hin|].
  apply elem_of_cons in Ha as [->|Ha]; [|contradiction].
  clear IH. revert m0.
  assert (Hkeep : forall m : gmap Action R, m !! b = Some (eu_value root sigma x b) ->
            fold_left (fun m a => <[a := eu_value root sigma x a]> m) acts m !! b
            = Some (eu_value root sigma x b)).
  { induction acts as [|c acts IH]; intros m Hm; [exact Hm|].
    cbn [fold_left]. apply not_elem_of_cons in Hnin as [Hne Hnin].
    apply IH; [exact Hnin|]. rewrite lookup_insert_ne by congruence. exact Hm. }
  intros m0. apply Hkeep. apply lookup_insert_eq.
Qed.

Lemma eu_map_lookup (x : InfoSet) (a : Action) :
  a ∈ is_legal_actions x -> eu_map root sigma x !! a = Some (eu_value root sigma x a).
Proof. apply eu_fold_lookup. Qed.

Lemma positions_build :
  info_set_positions (InfoSetIndex.build l) = List.map Z.of_nat (seq 0 (length l)).
Proof.
  unfold info_set_positions, InfoSetIndex.num_info_sets.
  rewrite (proj1 (build_spec l)), Nat2Z.id. reflexivity.
Qed.

Lemma all_eu_fold :
  forall suf i (r0 : gmap string (gmap Action R)),
    drop i l = suf ->
    exists r,
      foldM (fun result i =>
        match InfoSetIndex.info_set (InfoSetIndex.build l) i with
        | None => Err (RuntimeError "index out of range")
        | Some iset =>
            action_eu ←
              foldM (fun action_eu a =>
                       eu ← expected_utility root sigma (is_id iset) a
                              (is_player iset);
                       Ok (<[a := eu]> action_eu))
                    (∅ : gmap Action R) (is_legal_actions iset);
            Ok (<[is_id iset := action_eu]> result)
        end) r0 (List.map Z.of_nat (seq i (length suf))) = Ok r
      /\ forall id,
           r !! id = match last_index suf id with
                     | Some j => eu_map root sigma <$> suf !! j
                     | None => r0 !! id
                     end.
Proof.
  induction suf as [|x suf IH]; intros i r0 Hdrop.
  - exists r0. cbn. auto.
  - assert (Hx : l !! i = Some x).
    { rewrite <- (Nat.add_0_r i), <- lookup_drop, Hdrop. reflexivity. }
    assert (Hdrop' : drop (S i) l = suf).
    { rewrite (drop_S _ _ _ Hx) in Hdrop. congruence. }
    destruct (IH (S i) (<[is_id x := eu_map root sigma x]> r0) Hdrop')
      as (r & Hr & Hlook).
    exists r. split.
    + cbn [length seq List.map foldM]. rewrite info_set_build, Hx.
      rewrite action_eu_fold. cbn. exact Hr.
    + intros id. rewrite Hlook. cbn [last_index].
      destruct (last_index suf id) as [j|]; [reflexivity|].
      destruct (decide (is_id x = id)) as [->|Hne].
      * rewrite lookup_insert_eq. reflexivity.
      * rewrite lookup_insert_ne by exact Hne. reflexivity.
Qed.

Lemma compute_all_expected_utilities_spec :
  exists all_eu,
    compute_all_expected_utilities root sigma (InfoSetIndex.build l) = Ok all_eu
    /\ forall i x, l !! i = Some x ->
         all_eu !! is_id x = Some (eu_map root sigma x).
Proof.
  unfold compute_all_expected_utilities. rewrite positions_build.
  destruct (all_eu_fold l 0 ∅ (drop_0 l)) as (r & Hr & Hlook).
  exists r. split; [exact Hr|]. intros i x Hx.
  rewrite Hlook, (last_index_unique l i x ids_distinct Hx), Hx. reflexivity.
Qed.

Lemma scaled_eu_mapM (beta : R) (x : InfoSet) (acts : list Action) :
  (forall a, a ∈ acts -> a ∈ is_legal_actions x) ->
  mapM (fun a => match eu_map root sigma x !! a with
                 | Some eu => Ok (beta * eu)
                 | None => Err (RuntimeError "map::at")
                 end) acts
  = Ok (List.map (Rmult beta) (List.map (eu_value root sigma x) acts)).
Proof.
  induction acts as [|a acts IH]; intros Hin; cbn [mapM List.map]; [reflexivity|].
  rewrite eu_map_lookup by (apply Hin; apply list_elem_of_here). cbn.
  rewrite IH by (intros b Hb; apply Hin; apply list_elem_of_further; exact Hb).
  reflexivity.
Qed.

Lemma softmax_inline (scaled : list R) :
  List.map (fun e => e / vsum (List.map (fun v => std_exp (v - maxCoeff scaled)) scaled))
           (List.map (fun v => std_exp (v - maxCoeff scaled)) scaled)
  = stable_softmax scaled.
Proof. unfold stable_softmax. cbv zeta. rewrite !List.map_map. reflexivity. Qed.

Lemma br_block_length (beta : R) (x : InfoSet) :
  length (br_block root sigma beta x) = length (is_legal_actions x).
Proof.
  unfold br_block, logit_response. rewrite stable_softmax_length, !length_map.
  reflexivity.
Qed.

Lemma logit_best_response_spec (beta : R) (fresh : list R) :
  Z.of_nat (length fresh) = sum_actions l ->
  QREResidual.logit_best_response (mkQREResidual root beta (InfoSetIndex.build l))
    sigma fresh
  = Ok (flat_map (br_block root sigma beta) l).
Proof.
  intros Hf. unfold QREResidual.logit_best_response. cbn [game_ index_ beta_].
  destruct compute_all_expected_utilities_spec as (all_eu & -> & Hall). cbn.
  rewrite positions_build.
  apply assemble_blocks; [|clear fresh Hf|exact Hf].
  { apply Forall_forall. intros x _. apply br_block_length. }
  intros v i x Hv Hx. rewrite info_set_build, Hx, (Hall i x Hx).
  change (default ∅ (Some (eu_map root sigma x))) with (eu_map root sigma x).
  cbv zeta. rewrite scaled_eu_mapM by auto. cbn. rewrite start_as_length, Nat2Z.id.
  set (scaled := List.map (Rmult beta)
                   (List.map (eu_value root sigma x) (is_legal_actions x))).
  set (exp_eu := List.map (fun v0 => std_exp (v0 - maxCoeff scaled)) scaled).
  assert (Hlen : length exp_eu = length (is_legal_actions x)).
  { unfold exp_eu, scaled. rewrite !length_map. reflexivity. }
  pose proof (flat_keys_length l) as Hfl.
  pose proof (flat_keys_take_le l (S i)) as Hle.
  pose proof (flat_keys_take_S l i x Hx) as HS.
  rewrite (write_block_map (fun e => e / vsum exp_eu) exp_eu
             (length (flat_keys (take i l))) (length (is_legal_actions x)) 0 v)
    by lia.
  rewrite Nat.add_0_r, drop_0, <- Hlen, firstn_all, Hlen, <- HS.
  unfold exp_eu. rewrite softmax_inline. reflexivity.
Qed.

Lemma sigma_flat_spec (w fresh : list R) :
  Z.of_nat (length w) = sum_actions l ->
  Strategy.from_logits w (InfoSetIndex.build l) = Ok sigma ->
  Z.of_nat (length fresh) = sum_actions l ->
  foldM (fun sigma_flat i =>
      match InfoSetIndex.info_set (InfoSetIndex.build l) i with
      | None => Err (RuntimeError "index out of range")
      | Some iset =>
          let start := InfoSetIndex.info_set_start (InfoSetIndex.build l) i in
          probs ← Strategy.probs sigma (is_id iset);
          foldM (fun sigma_flat a =>
                   p ← coeff probs (Z.of_nat a);
                   set_coeff sigma_flat (start + Z.of_nat a) p) sigma_flat
                (seq 0 (length (is_legal_actions iset)))
      end) fresh (info_set_positions (InfoSetIndex.build l))
  = Ok (flat_map (sigma_block sigma) l)
  /\ Forall (fun x => length (sigma_block sigma x) = length (is_legal_actions x)) l.
Proof.
  intros Hw Hs Hf.
  assert (Hblock : forall i x, l !! i = Some x ->
            logits_ sigma !! is_id x
            = Some (segment w (sum_actions (take i l)) (length (is_legal_actions x)))
            /\ length (sigma_block sigma x) = length (is_legal_actions x)).
  { intros i x Hx.
    destruct (from_logits_at l w sigma i x ltac:(lia) ids_distinct Hs Hx) as [Hl _].
    split; [exact Hl|]. unfold sigma_block. rewrite Hl, stable_softmax_length.
    destruct (start_plus_block l i x Hx). apply segment_length; lia. }
  assert (Hall : Forall (fun x => length (sigma_block sigma x)
                                  = length (is_legal_actions x)) l).
  { apply Forall_lookup. intros i x Hx. apply (Hblock i x Hx). }
  split; [|exact Hall].
  rewrite positions_build.
  apply assemble_blocks; [exact Hall|clear fresh Hf|exact Hf].
  intros v i x Hv Hx. rewrite info_set_build, Hx. cbv zeta.
  destruct (Hblock i x Hx) as [Hl Hlen].
  unfold Strategy.probs. rewrite Hl. cbn. rewrite start_as_length.
  set (p := stable_softmax _).
  assert (Hp : length p = length (is_legal_actions x)).
  { unfold sigma_block in Hlen. rewrite Hl in Hlen. exact Hlen. }
  pose proof (flat_keys_length l) as Hfl.
  pose proof (flat_keys_take_le l (S i)) as Hle.
  pose proof (flat_keys_take_S l i x Hx) as HS.
  pose proof (write_block_map (fun e => e) p
             (length (flat_keys (take i l))) (length (is_legal_actions x)) 0 v
             ltac:(lia) ltac:(lia)) as Hwb.
  rewrite Hwb.
  rewrite Nat.add_0_r, drop_0, <- Hp, firstn_all, Hp, <- HS, List.map_id.
  unfold sigma_block. rewrite Hl. reflexivity.
Qed.

End QRE.

Lemma StronglySorted_string_lt_NoDup (ks : list string) :
  StronglySorted string_lt ks -> NoDup ks.
Proof.
  induction 1 as [|k ks _ IH Hall]; constructor; [|exact IH].
  intros Hin. rewrite Forall_forall in Hall. specialize (Hall k Hin).
  unfold string_lt in Hall.
  pose proof (String.compare_antisym k k) as Ha. rewrite Hall in Ha.
  discriminate.
Qed.

Lemma get_info_sets_ids_NoDup (root : GameNode) :
  NoDup (List.map is_id (get_info_sets root)).
Proof.
  destruct (collected_root root) as [Hs Hm].
  rewrite get_info_sets_values.
  set (m := traverse_tree root collect_info_set 0 []) in *.
  assert (Hkeys : List.map is_id (List.map snd m) = List.map fst m).
  { rewrite List.map_map. apply map_ext_in. intros [k v] Hkv.
    apply list_elem_of_In, Hm in Hkv as (n & Hn & ->).
    apply first_with_id_Some in Hn as [_ Hn]. exact Hn. }
  rewrite Hkeys. apply StronglySorted_string_lt_NoDup. exact Hs.
Qed.

Lemma expected_utility_defined (root : GameNode) (sigma : Strategy) :
  fits sigma root = true ->
  forall (x : InfoSet) (a : Action), exists eu,
    expected_utility root sigma (is_id x) a (is_player x) = Ok eu.
Proof.
  intros Hfit x a. unfold expected_utility, compute_ev_with_override.
  destruct (ev_recursive_reach_value sigma (Some (is_id x, a)) root Hfit) as [v Hv].
  rewrite Hv. cbn. eauto.
Qed.

Lemma vsub_flat_map (s b : InfoSet -> list R) (l : list InfoSet) :
  Forall (fun x => length (s x) = length (b x)) l ->
  vsub (flat_map s l) (flat_map b l) = flat_map (fun x => vsub (s x) (b x)) l.
Proof.
  induction 1 as [|x l Hx _ IH]; [reflexivity|].
  cbn [flat_map]. unfold vsub in *. rewrite zip_with_app by exact Hx.
  rewrite IH. reflexivity.
Qed.

Lemma vsum_vsub (a b : list R) :
  length a = length b -> vsum (vsub a b) = vsum a - vsum b.
Proof.
  unfold vsub. revert b. induction a as [|x a IH]; intros [|y b] H;
    try discriminate; cbn [zip_with vsum fold_right].
  - ring.
  - fold (vsum (zip_with Rminus a b)) (vsum a) (vsum b).
    rewrite IH by (cbn in H; lia). ring.
Qed.

Lemma vsub_self (v : list R) : vsub v v = repeat 0 (length v).
Proof.
  unfold vsub. induction v as [|x v IH]; cbn; [reflexivity|].
  rewrite IH. f_equal. ring.
Qed.

Lemma map_Rmult_0 (v : list R) : List.map (Rmult 0) v = repeat 0 (length v).
Proof.
  induction v as [|x v IH]; cbn; [reflexivity|]. rewrite IH. f_equal. ring.
Qed.

Lemma bind_Ok {A B : Type} (a : A) (f : A -> result B) : (Ok a ≫= f) = f a.
Proof. reflexivity. Qed.

(** The residual as a whole: the strategy blocks minus the response
    blocks. *)
Lemma qre_apply_spec (root : GameNode) (beta : R) (w fresh_br fresh_sigma : list R) :
  let q := QREResidual.new root beta in
  let l := get_info_sets root in
  fits_with (index_len l) root = true ->
  Z.of_nat (length w) = QREResidual.dim q ->
  length fresh_br = length w -> length fresh_sigma = length w ->
  exists sigma,
    Strategy.from_logits w (index_ q) = Ok sigma
    /\ QREResidual.apply q w fresh_br fresh_sigma
       = Ok (flat_map (fun x => vsub (sigma_block sigma x)
                                     (br_block root sigma beta x)) l)
    /\ Forall (fun x => length (sigma_block sigma x)
                        = length (is_legal_actions x)) l.
Proof.
  intros q l Hfits Hw Hfb Hfs. unfold q, QREResidual.new, QREResidual.dim in *.
  cbn [index_] in *. fold l in Hw |- *.
  destruct (from_logits_fits l w root Hw Hfits) as (sigma & Hsigma & Hfit).
  rewrite (proj1 (proj2 (build_spec l))) in Hw.
  pose proof (get_info_sets_ids_NoDup root) as Hids. fold l in Hids.
  pose proof (expected_utility_defined root sigma Hfit) as Heu.
  exists sigma. split; [exact Hsigma|].
  destruct (sigma_flat_spec sigma l Hids w fresh_sigma Hw Hsigma ltac:(lia))
    as [Hsf Hlen].
  split; [|exact Hlen].
  unfold QREResidual.apply. cbn [index_]. cbv zeta. cbv zeta in Hsf.
  rewrite Hsigma, bind_Ok.
  rewrite (logit_best_response_spec root sigma l Hids Heu beta fresh_br) by lia.
  rewrite bind_Ok, Hsf, bind_Ok. f_equal. apply vsub_flat_map.
  eapply Forall_impl; [exact Hlen|]. intros x Hx. cbv beta in Hx.
  rewrite Hx, (br_block_length root sigma beta x). reflexivity.
Qed.

(** X26: at every logit vector and every beta, the QRE residual is defined
    and has one entry per strategy parameter, and its entries over the
    actions of any one info set sum to zero. *)
Theorem qre_residual_blocks_sum_to_zero (root : GameNode) (beta : R)
    (w fresh_br fresh_sigma : list R) :
  let q := QREResidual.new root beta in
  fits_with (index_len (get_info_sets root)) root = true ->
  Z.of_nat (length w) = QREResidual.dim q ->
  length fresh_br = length w -> length fresh_sigma = length w ->
  exists r,
    QREResidual.apply q w fresh_br fresh_sigma = Ok r
    /\ Z.of_nat (length r) = QREResidual.dim q
    /\ forall i x,
         get_info_sets root !! i = Some x ->
         vsum (segment r (InfoSetIndex.info_set_start (index_ q) (Z.of_nat i))
                       (length (is_legal_actions x)))
         = 0.
Proof.
  intros q Hfits Hw Hfb Hfs.
  destruct (qre_apply_spec root beta w fresh_br fresh_sigma Hfits Hw Hfb Hfs)
    as (sigma & Hsigma & Happ & Hlen).
  fold q in Happ, Hsigma. set (l := get_info_sets root) in *.
  set (block := fun x => vsub (sigma_block sigma x) (br_block root sigma beta x)).
  assert (Hblock : Forall (fun x => length (block x) = length (is_legal_actions x)) l).
  { eapply Forall_impl; [exact Hlen|]. intros x Hx. cbv beta in Hx. unfold block.
    rewrite vsub_length; rewrite Hx; [reflexivity|].
    rewrite br_block_length. reflexivity. }
  exists (flat_map block l). split; [exact Happ|]. split.
  - rewrite (flat_map_block_length block l Hblock), flat_keys_length.
    unfold q, QREResidual.new, QREResidual.dim. cbn [index_]. fold l.
    symmetry. apply build_spec.
  - intros i x Hx. unfold q, QREResidual.new. cbn [index_]. fold l.
    rewrite info_set_start_build, (flat_map_block_segment block l i x Hblock Hx).
    unfold block. rewrite Forall_forall in Hlen.
    pose proof (Hlen x (list_elem_of_lookup_2 _ _ _ Hx)) as Hs. cbv beta in Hs.
    rewrite vsum_vsub by (rewrite Hs, br_block_length; reflexivity).
    destruct (is_legal_actions x) as [|a acts] eqn:Ea.
    + assert (Hs0 : sigma_block sigma x = []) by (apply nil_length_inv; exact Hs).
      rewrite Hs0. unfold br_block, logit_response. rewrite Ea. cbn. ring.
    + assert (Hne : sigma_block sigma x <> []).
      { intros E. rewrite E in Hs. discriminate. }
      unfold sigma_block in *. destruct (logits_ sigma !! is_id x) as [lg|]; [|congruence].
      rewrite stable_softmax_sum.
      * unfold br_block, logit_response. rewrite stable_softmax_sum; [ring|].
        rewrite Ea. discriminate.
      * intros E. rewrite E in Hne. apply Hne. reflexivity.
Qed.

Lemma qre_residual_blocks_sum_to_zero_witness :
  let q := QREResidual.new kuhn_tree 1 in
  exists r,
    QREResidual.apply q (List.map INR (seq 0 24)) (repeat 7 24) (repeat 8 24) = Ok r
    /\ Z.of_nat (length r) = QREResidual.dim q
    /\ forall i x,
         get_info_sets kuhn_tree !! i = Some x ->
         vsum (segment r (InfoSetIndex.info_set_start (index_ q) (Z.of_nat i))
                       (length (is_legal_actions x)))
         = 0.
Proof.
  apply (qre_residual_blocks_sum_to_zero kuhn_tree 1 (List.map INR (seq 0 24))
           (repeat 7 24) (repeat 8 24)).
  - vm_compute. reflexivity.
  - vm_compute. reflexivity.
  - reflexivity.
  - reflexivity.
Defined.

(** X27: with beta = 0 the QRE residual vanishes at the zero logit vector:
    the uniform strategy is the logit best response to itself. *)
Theorem qre_residual_vanishes_at_uniform (root : GameNode)
    (fresh_br fresh_sigma : list R) :
  let q := QREResidual.new root 0 in
  let n := Z.to_nat (QREResidual.dim q) in
  fits_with (index_len (get_info_sets root)) root = true ->
  length fresh_br = n -> length fresh_sigma = n ->
  QREResidual.apply q (repeat 0 n) fresh_br fresh_sigma = Ok (repeat 0 n).
Proof.
  intros q n Hfits Hfb Hfs.
  assert (Hdim : (0 <= QREResidual.dim q)%Z).
  { unfold q, QREResidual.new, QREResidual.dim. cbn [index_].
    rewrite (proj1 (proj2 (build_spec _))). apply sum_actions_nonneg. }
  assert (Hw : Z.of_nat (length (repeat 0 n)) = QREResidual.dim q).
  { rewrite repeat_length. unfold n. lia. }
  destruct (qre_apply_spec root 0 (repeat 0 n) fresh_br fresh_sigma Hfits Hw
              ltac:(rewrite repeat_length; exact Hfb)
              ltac:(rewrite repeat_length; exact Hfs))
    as (sigma & Hsigma & Happ & Hlen).
  fold q in Happ, Hsigma. rewrite Happ. f_equal.
  set (l := get_info_sets root) in *.
  pose proof (get_info_sets_ids_NoDup root) as Hids. fold l in Hids.
  assert (Hdim' : QREResidual.dim q = sum_actions l).
  { unfold q, QREResidual.new, QREResidual.dim. cbn [index_]. apply build_spec. }
  assert (Hzero : forall x, x ∈ l ->
            vsub (sigma_block sigma x) (br_block root sigma 0 x)
            = repeat 0 (length (is_legal_actions x))).
  { intros x Hx. apply list_elem_of_lookup_1 in Hx as [i Hx].
    unfold q, QREResidual.new in Hsigma. cbn [index_] in Hsigma. fold l in Hsigma.
    destruct (from_logits_at l (repeat 0 n) sigma i x
                ltac:(rewrite repeat_length; lia) Hids Hsigma Hx) as [Hl _].
    destruct (start_plus_block l i x Hx) as [H0 H1].
    unfold sigma_block, br_block, logit_response. rewrite Hl.
    rewrite segment_repeat by lia.
    rewrite map_Rmult_0, length_map, vsub_self, stable_softmax_length, repeat_length.
    reflexivity. }
  assert (Hflat : forall l' : list InfoSet,
            (forall x, x ∈ l' ->
               vsub (sigma_block sigma x) (br_block root sigma 0 x)
               = repeat 0 (length (is_legal_actions x))) ->
            flat_map (fun x => vsub (sigma_block sigma x) (br_block root sigma 0 x)) l'
            = repeat 0 (length (flat_keys l'))).
  { induction l' as [|x l' IH]; intros H; [reflexivity|].
    cbn [flat_map flat_keys]. rewrite (H x (list_elem_of_here _ _)).
    rewrite IH by (intros y Hy; apply H; apply list_elem_of_further; exact Hy).
    rewrite length_app, length_map, repeat_app. reflexivity. }
  rewrite (Hflat l Hzero). f_equal. unfold n.
  pose proof (flat_keys_length l). lia.
Qed.

Lemma qre_residual_vanishes_at_uniform_witness :
  let q := QREResidual.new kuhn_tree 0 in
  let n := Z.to_nat (QREResidual.dim q) in
  QREResidual.apply q (repeat 0 n) (repeat 7 24) (repeat 8 24) = Ok (repeat 0 n).
Proof.
  apply (qre_residual_vanishes_at_uniform kuhn_tree (repeat 7 24) (repeat 8 24)).
  - vm_compute. reflexivity.
  - vm_compute. reflexivity.
  - vm_compute. reflexivity.
Defined.
(** ** Expected value as an average over the actions of an info set *)

Lemma node_value_eq sigma ov node :
  node_value sigma ov node
  = match type node with
    | Terminal => payoff node
    | Chance =>
        vsum (List.map (fun e => probability e * node_value sigma ov (child e))
                       (children node))
    | Player =>
        vsum (zip_with (fun e q => q * node_value sigma ov (child e))
                       (children node)
                       (match action_probs_at sigma ov node with
                        | Ok probs => probs
                        | Err _ => []
                        end))
    end.
Proof. destruct node as [[] ? ? ? ? ? ? ? ? ? ?]; reflexivity. Qed.

Lemma mentions_eq id node :
  mentions id node
  = match type node with
    | Terminal => false
    | Chance => existsb (fun e => mentions id (child e)) (children node)
    | Player =>
        String.eqb id (info_set_id node)
        || existsb (fun e => mentions id (child e)) (children node)
    end.
Proof. destruct node as [[] ? ? ? ? ? ? ? ? ? ?]; reflexivity. Qed.

Lemma visited_once_eq id acts node :
  visited_once id acts node
  = match type node with
    | Terminal => true
    | Chance => forallb (fun e => visited_once id acts (child e)) (children node)
    | Player =>
        if String.eqb id (info_set_id node)
        then bool_decide (legal_actions node = acts)
             && forallb (fun e => negb (mentions id (child e))) (children node)
        else forallb (fun e => visited_once id acts (child e)) (children node)
    end.
Proof. destruct node as [[] ? ? ? ? ? ? ? ? ? ?]; reflexivity. Qed.

Lemma ev_chance_loop_value (rec : GameNode -> R -> R -> R -> result R)
    (val : GameNode -> R) (edges : list ChildEdge) :
  Forall (fun e => forall a b c, rec (child e) a b c = Ok (a * b * c * val (child e)))
         edges ->
  forall a b c ev0,
    ev_chance_loop rec a b c edges ev0
    = Ok (ev0 + a * b * c
                * vsum (List.map (fun e => probability e * val (child e)) edges)).
Proof.
  induction 1 as [|e edges He _ IH]; intros a b c ev0;
    cbn [ev_chance_loop List.map vsum fold_right].
  - f_equal. ring.
  - rewrite He. cbn. rewrite IH. f_equal.
    fold (vsum (List.map (fun e0 => probability e0 * val (child e0)) edges)). ring.
Qed.

Lemma ev_player_loop_value (rec : GameNode -> R -> R -> R -> result R)
    (val : GameNode -> R) (pl : PlayerId) (probs : list R) (edges : list ChildEdge) :
  Forall (fun e => forall a b c, rec (child e) a b c = Ok (a * b * c * val (child e)))
         edges ->
  forall pre rest,
    probs = pre ++ rest -> length rest = length edges ->
    forall a b c ev0,
      ev_player_loop rec pl probs a b c edges (Z.of_nat (length pre)) ev0
      = Ok (ev0 + a * b * c
                  * vsum (zip_with (fun e q => q * val (child e)) edges rest)).
Proof.
  induction 1 as [|e edges He _ IH]; intros pre rest Hprobs Hlen a b c ev0;
    cbn [ev_player_loop].
  - cbn. f_equal. ring.
  - destruct rest as [|q rest]; [discriminate|]. injection Hlen as Hlen. subst probs.
    rewrite coeff_app. cbn. rewrite He. cbn.
    rewrite snoc_index with (a := q).
    rewrite (IH (pre ++ [q]) rest) by (rewrite <- ?app_assoc; auto).
    f_equal. cbn [zip_with vsum fold_right].
    fold (vsum (zip_with (fun e0 q0 => q0 * val (child e0)) edges rest)).
    destruct (pl =? PLAYER_0)%Z; ring.
Qed.

Lemma fits_player (sigma : Strategy) (node : GameNode) :
  type node = Player -> fits sigma node = true ->
  length (legal_actions node) = length (children node)
  /\ (exists lg, logits_ sigma !! info_set_id node = Some lg
                 /\ length lg = length (children node))
  /\ Forall (fun e => fits sigma (child e) = true) (children node).
Proof.
  intros Et Hfit. rewrite fits_eq, Et in Hfit.
  apply andb_prop in Hfit as [Hfit Hkids].
  apply andb_prop in Hfit as [Hfit Hlogits].
  apply andb_prop in Hfit as [Hfit Hne].
  apply andb_prop in Hfit as [Hpl Hlegal].
  apply Nat.eqb_eq in Hlegal. split; [exact Hlegal|]. split.
  - destruct (logits_ sigma !! info_set_id node) as [lg|]; [|discriminate].
    exists lg. split; [reflexivity|]. apply Nat.eqb_eq. exact Hlogits.
  - apply forallb_Forall_child. exact Hkids.
Qed.

Lemma action_probs_at_fits (sigma : Strategy) (ov : option (InfoSetId * Action))
    (node : GameNode) :
  type node = Player -> fits sigma node = true ->
  exists probs, action_probs_at sigma ov node = Ok probs
                /\ length probs = length (children node).
Proof.
  intros Et Hfit. destruct (fits_player sigma node Et Hfit) as (Hlegal & (lg & Hl & Hlen) & _).
  unfold action_probs_at, Strategy.probs. rewrite Hl.
  destruct ov as [[id a]|]; [destruct (String.eqb id (info_set_id node))|];
    eexists; (split; [reflexivity|]);
    rewrite ?override_probs_length, ?stable_softmax_length; congruence.
Qed.

(** In a tree that fits the strategy, [ev_recursive] returns the reach
    probabilities times the value of the node. *)
Lemma ev_recursive_node_value (sigma : Strategy) (ov : option (InfoSetId * Action))
    (node : GameNode) :
  fits sigma node = true ->
  forall a b c,
    ev_recursive node sigma a b c ov = Ok (a * b * c * node_value sigma ov node).
Proof.
  induction node as [node IH] using GameNode_tree_ind. intros Hfit a b c.
  rewrite ev_recursive_eq, node_value_eq. destruct (type node) eqn:Et.
  - rewrite fits_eq, Et in Hfit. apply forallb_Forall_child in Hfit.
    rewrite (ev_chance_loop_value
               (fun c0 a0 b0 d => ev_recursive c0 sigma a0 b0 d ov)
               (node_value sigma ov)).
    + f_equal. ring.
    + rewrite Forall_forall in IH, Hfit. apply Forall_forall. intros e He.
      apply IH; [exact He|]. apply Hfit. exact He.
  - destruct (action_probs_at_fits sigma ov node Et Hfit) as (probs & Hp & Hlen).
    destruct (fits_player sigma node Et Hfit) as (_ & _ & Hkids).
    fold (action_probs_at sigma ov node). rewrite Hp. cbn.
    pose proof (ev_player_loop_value
                  (fun c0 a0 b0 d => ev_recursive c0 sigma a0 b0 d ov)
                  (node_value sigma ov) (player node) probs (children node)) as Hloop.
    specialize (Hloop ltac:(rewrite Forall_forall in IH, Hkids; apply Forall_forall;
                            intros e He; apply IH; [exact He|apply Hkids; exact He])
                      [] probs eq_refl Hlen a b c 0).
    change (Z.of_nat (@length R [])) with 0%Z in Hloop.
    rewrite Hloop. f_equal. ring.
  - reflexivity.
Qed.

Lemma zip_with_ext_child (f g : GameNode -> R) (edges : list ChildEdge) (qs : list R) :
  Forall (fun e => f (child e) = g (child e)) edges ->
  zip_with (fun e q => q * f (child e)) edges qs
  = zip_with (fun e q => q * g (child e)) edges qs.
Proof.
  intros H. revert qs. induction H as [|e edges He _ IH]; intros [|q qs];
    cbn; try reflexivity. rewrite He, IH. reflexivity.
Qed.

Lemma map_ext_child (f g : GameNode -> R) (edges : list ChildEdge) :
  Forall (fun e => f (child e) = g (child e)) edges ->
  List.map (fun e => probability e * f (child e)) edges
  = List.map (fun e => probability e * g (child e)) edges.
Proof.
  induction 1 as [|e edges He _ IH]; cbn; [reflexivity|]. rewrite He, IH. reflexivity.
Qed.

Lemma existsb_false_In {A} (f : A -> bool) (l : list A) (x : A) :
  existsb f l = false -> In x l -> f x = false.
Proof.
  intros H Hin. destruct (f x) eqn:Ef; [|reflexivity].
  rewrite <- H. symmetry. apply existsb_exists. exists x. auto.
Qed.

(** An override of an info set that does not occur below a node does not
    change the node's value. *)
Lemma node_value_absent (sigma : Strategy) (id : InfoSetId) (a : Action)
    (node : GameNode) :
  mentions id node = false ->
  node_value sigma (Some (id, a)) node = node_value sigma None node.
Proof.
  induction node as [node IH] using GameNode_tree_ind. intros Hm.
  rewrite mentions_eq in Hm. rewrite !node_value_eq.
  destruct (type node) eqn:Et; [| |reflexivity].
  - f_equal. apply map_ext_child.
    rewrite Forall_forall in IH. apply Forall_forall. intros e He. apply IH; [exact He|].
    apply (existsb_false_In _ _ e Hm). apply list_elem_of_In. exact He.
  - apply orb_false_elim in Hm as [Hid Hm].
    unfold action_probs_at. rewrite Hid. f_equal. apply zip_with_ext_child.
    rewrite Forall_forall in IH. apply Forall_forall. intros e He. apply IH; [exact He|].
    apply (existsb_false_In _ _ e Hm). apply list_elem_of_In. exact He.
Qed.

Lemma weighted_sum_const (p : list R) (acts : list Action) (c : R) :
  length p = length acts -> weighted_sum p acts (fun _ => c) = vsum p * c.
Proof.
  unfold weighted_sum. revert acts.
  induction p as [|q p IH]; intros [|a acts] Hlen; try discriminate; cbn.
  - ring.
  - injection Hlen as Hlen. specialize (IH acts Hlen). cbn in IH.
    unfold vsum in *. rewrite IH. ring.
Qed.

Lemma weighted_sum_ext (p : list R) (acts : list Action) (f g : Action -> R) :
  (forall a, a ∈ acts -> f a = g a) -> weighted_sum p acts f = weighted_sum p acts g.
Proof.
  unfold weighted_sum. revert acts.
  induction p as [|q p IH]; intros [|a acts] Hfg; cbn; try reflexivity.
  rewrite (Hfg a) by apply list_elem_of_here. f_equal.
  apply IH. intros b Hb. apply Hfg. apply list_elem_of_further. exact Hb.
Qed.

Lemma weighted_sum_zero (p : list R) (acts : list Action) :
  weighted_sum p acts (fun _ => 0) = 0.
Proof.
  unfold weighted_sum. revert acts.
  induction p as [|q p IH]; intros [|a acts]; cbn; try reflexivity.
  specialize (IH acts). unfold vsum in IH. rewrite IH. ring.
Qed.

Lemma weighted_sum_plus (p : list R) (acts : list Action) (f g : Action -> R) :
  weighted_sum p acts (fun a => f a + g a)
  = weighted_sum p acts f + weighted_sum p acts g.
Proof.
  unfold weighted_sum. revert acts.
  induction p as [|q p IH]; intros [|a acts]; cbn; try ring.
  specialize (IH acts). unfold vsum in IH. rewrite IH. ring.
Qed.

Lemma weighted_sum_scale (p : list R) (acts : list Action) (c : R) (f : Action -> R) :
  weighted_sum p acts (fun a => c * f a) = c * weighted_sum p acts f.
Proof.
  unfold weighted_sum. revert acts.
  induction p as [|q p IH]; intros [|a acts]; cbn; try ring.
  specialize (IH acts). unfold vsum in IH. rewrite IH. ring.
Qed.

(** The average over the actions commutes with the sum over a chance node's
    children. *)
Lemma weighted_sum_chance (p : list R) (acts : list Action)
    (g : Action -> GameNode -> R) (edges : list ChildEdge) :
  weighted_sum p acts
    (fun a => vsum (List.map (fun e => probability e * g a (child e)) edges))
  = vsum (List.map (fun e => probability e
                             * weighted_sum p acts (fun a => g a (child e))) edges).
Proof.
  induction edges as [|e edges IH]; cbn [List.map vsum fold_right].
  - apply weighted_sum_zero.
  - fold (vsum (List.map (fun e0 => probability e0
                            * weighted_sum p acts (fun a => g a (child e0))) edges)).
    rewrite <- IH, <- weighted_sum_scale, <- weighted_sum_plus. reflexivity.
Qed.

(** ... and with the sum over a player node's children, when the node's
    action probabilities do not depend on the overridden action. *)
Lemma weighted_sum_player (p : list R) (acts : list Action)
    (g : Action -> GameNode -> R) (edges : list ChildEdge) (qs : list R) :
  weighted_sum p acts
    (fun a => vsum (zip_with (fun e q => q * g a (child e)) edges qs))
  = vsum (zip_with (fun e q => q * weighted_sum p acts (fun a => g a (child e)))
                   edges qs).
Proof.
  revert qs. induction edges as [|e edges IH]; intros [|q qs];
    cbn [zip_with vsum fold_right]; try apply weighted_sum_zero.
  fold (vsum (zip_with (fun e0 q0 => q0 * weighted_sum p acts (fun a => g a (child e0)))
                       edges qs)).
  rewrite <- IH, <- weighted_sum_scale, <- weighted_sum_plus. reflexivity.
Qed.

Lemma zip_zeros (edges : list ChildEdge) (val : GameNode -> R) (k : nat) :
  vsum (zip_with (fun e q => q * val (child e)) edges (repeat 0 k)) = 0.
Proof.
  revert k. induction edges as [|e edges IH]; intros [|k]; cbn; try reflexivity.
  specialize (IH k). unfold vsum in IH. rewrite IH. ring.
Qed.

(** Averaging the degenerate distributions of the actions of a
    duplicate-free action list gives back the weights. *)
Lemma weighted_sum_override (p : list R) (acts : list Action)
    (val : GameNode -> R) (edges : list ChildEdge) :
  NoDup acts -> length p = length acts ->
  weighted_sum p acts
    (fun a => vsum (zip_with (fun e q => q * val (child e)) edges
                             (override_probs acts a)))
  = vsum (zip_with (fun e q => q * val (child e)) edges p).
Proof.
  intros Hnd. revert p edges.
  induction Hnd as [|a0 acts Hnotin Hnd IH]; intros [|q0 p] edges Hlen;
    try discriminate.
  - unfold weighted_sum. cbn. destruct edges; reflexivity.
  - injection Hlen as Hlen. destruct edges as [|e edges].
    + cbn [zip_with]. change (vsum []) with 0. apply weighted_sum_zero.
    + assert (Haa : Action_eqb a0 a0 = true) by (apply Action_eqb_eq; reflexivity).
      assert (Hrest :
        weighted_sum p acts
          (fun a => vsum (zip_with (fun e0 q => q * val (child e0)) (e :: edges)
                                   (override_probs (a0 :: acts) a)))
        = weighted_sum p acts
            (fun a => vsum (zip_with (fun e0 q => q * val (child e0)) edges
                                     (override_probs acts a)))).
      { apply weighted_sum_ext. intros a Ha. cbn [override_probs].
        destruct (Action_eqb a0 a) eqn:E.
        - apply Action_eqb_eq in E. subst a. contradiction.
        - cbn [zip_with vsum fold_right]. unfold vsum. ring. }
      rewrite (IH p edges Hlen) in Hrest.
      transitivity
        (q0 * val (child e)
         + weighted_sum p acts
             (fun a => vsum (zip_with (fun e0 q => q * val (child e0)) (e :: edges)
                                      (override_probs (a0 :: acts) a)))).
      * unfold weighted_sum. cbn [zip_with vsum fold_right override_probs].
        rewrite Haa. cbn [zip_with vsum fold_right].
        pose proof (zip_zeros edges val (length acts)) as Hz. unfold vsum in Hz.
        rewrite Hz. unfold vsum. ring.
      * rewrite Hrest. cbn [zip_with vsum fold_right]. unfold vsum. ring.
Qed.

Lemma forallb_child_Forall (f : GameNode -> bool) (edges : list ChildEdge) :
  forallb (fun e => f (child e)) edges = true ->
  Forall (fun e => f (child e) = true) edges.
Proof.
  intros H. apply Forall_forall. intros e He.
  rewrite forallb_forall in H. apply H. apply list_elem_of_In. exact He.
Qed.

(** The value of a node is the average, under the strategy's probabilities
    at an info set, of the values with each action of the info set forced. *)
Lemma node_value_average (sigma : Strategy) (id : InfoSetId) (acts : list Action)
    (p : list R) :
  NoDup acts -> Strategy.probs sigma id = Ok p -> length p = length acts ->
  vsum p = 1 ->
  forall node,
    fits sigma node = true -> visited_once id acts node = true ->
    node_value sigma None node
    = weighted_sum p acts (fun a => node_value sigma (Some (id, a)) node).
Proof.
  intros Hnd Hp Hlen Hsum.
  induction node as [node IH] using GameNode_tree_ind. intros Hfit Hvis.
  rewrite visited_once_eq in Hvis.
  rewrite (weighted_sum_ext p acts _ _
             (fun a _ => node_value_eq sigma (Some (id, a)) node)).
  rewrite node_value_eq. destruct (type node) eqn:Et.
  - rewrite fits_eq, Et in Hfit. apply forallb_Forall_child in Hfit.
    apply forallb_child_Forall in Hvis.
    rewrite (weighted_sum_chance p acts
               (fun a n => node_value sigma (Some (id, a)) n)).
    f_equal.
    apply (map_ext_child (node_value sigma None)
             (fun n => weighted_sum p acts
                         (fun a => node_value sigma (Some (id, a)) n))).
    rewrite Forall_forall in IH, Hfit, Hvis. apply Forall_forall. intros e He.
    apply IH; auto.
  - destruct (fits_player sigma node Et Hfit) as (Hlegal & _ & Hkids).
    unfold action_probs_at.
    destruct (String.eqb id (info_set_id node)) eqn:Eid.
    + apply String.eqb_eq in Eid. subst id. rewrite Hp.
      apply andb_prop in Hvis as [Hacts Hbelow].
      apply bool_decide_eq_true in Hacts. rewrite Hacts.
      rewrite (weighted_sum_ext p acts _
                 (fun a => vsum (zip_with
                                   (fun e q => q * node_value sigma None (child e))
                                   (children node) (override_probs acts a)))).
      * rewrite weighted_sum_override by assumption. reflexivity.
      * intros a _. f_equal.
        apply (zip_with_ext_child (node_value sigma (Some (info_set_id node, a)))
                 (node_value sigma None)).
        apply Forall_forall. intros e He. apply node_value_absent.
        rewrite forallb_forall in Hbelow.
        apply negb_true_iff. apply Hbelow. apply list_elem_of_In. exact He.
    + apply forallb_child_Forall in Hvis.
      rewrite (weighted_sum_player p acts
                 (fun a n => node_value sigma (Some (id, a)) n)).
      f_equal.
      apply (zip_with_ext_child (node_value sigma None)
               (fun n => weighted_sum p acts
                           (fun a => node_value sigma (Some (id, a)) n))).
      rewrite Forall_forall in IH, Hkids, Hvis. apply Forall_forall. intros e He.
      apply IH; auto.
  - rewrite weighted_sum_const by assumption. rewrite Hsum. ring.
Qed.

Lemma mapM_Ok_map {A B} (f : A -> result B) (g : A -> B) (l : list A) :
  (forall a, f a = Ok (g a)) -> mapM f l = Ok (List.map g l).
Proof.
  intros H. induction l as [|a l IH]; cbn; [reflexivity|].
  rewrite H. cbn. rewrite IH. reflexivity.
Qed.

Lemma dot_map_weighted (p : list R) (acts : list Action) (g : Action -> R) :
  dot p (List.map g acts) = weighted_sum p acts g.
Proof.
  unfold dot, weighted_sum. revert acts.
  induction p as [|q p IH]; intros [|a acts]; cbn; try reflexivity.
  specialize (IH acts). unfold vsum in IH. rewrite IH. reflexivity.
Qed.

(** X28: law of total expectation for [compute_ev]. When the nodes of an info
    set all offer the same duplicate-free, non-empty list of legal actions
    and none of them lies below another, the expected value of the game is
    the sum over these actions of the strategy's probability of the action
    times [compute_ev_with_override] for it. *)
Theorem compute_ev_is_average_of_overrides (root : GameNode) (sigma : Strategy)
    (id : InfoSetId) (acts : list Action) (p : list R) :
  fits sigma root = true ->
  visited_once id acts root = true ->
  NoDup acts -> acts <> [] ->
  Strategy.probs sigma id = Ok p -> length p = length acts ->
  exists ev eus,
    compute_ev root sigma = Ok ev
    /\ mapM (fun a => compute_ev_with_override root sigma id a) acts = Ok eus
    /\ ev = dot p eus.
Proof.
  intros Hfit Hvis Hnd Hne Hp Hlen.
  assert (Hsum : vsum p = 1).
  { unfold Strategy.probs in Hp. destruct (logits_ sigma !! id) as [lg|]; [|discriminate].
    injection Hp as <-. apply stable_softmax_sum. intros ->.
    rewrite stable_softmax_length in Hlen. destruct acts; [congruence|discriminate]. }
  exists (node_value sigma None root),
         (List.map (fun a => node_value sigma (Some (id, a)) root) acts).
  split; [|split].
  - unfold compute_ev. rewrite ev_recursive_node_value by assumption. f_equal. ring.
  - apply mapM_Ok_map. intros a. unfold compute_ev_with_override.
    rewrite ev_recursive_node_value by assumption. f_equal. ring.
  - rewrite dot_map_weighted. apply node_value_average; assumption.
Qed.

Lemma compute_ev_is_average_of_overrides_witness :
  exists ev eus,
    compute_ev kuhn_tree kuhn_uniform = Ok ev
    /\ mapM (fun a => compute_ev_with_override kuhn_tree kuhn_uniform "P0:J:" a)
            [Check; Bet] = Ok eus
    /\ ev = dot (stable_softmax [0; 0]) eus.
Proof.
  apply (compute_ev_is_average_of_overrides kuhn_tree kuhn_uniform "P0:J:"
           [Check; Bet] (stable_softmax [0; 0])).
  - vm_compute; reflexivity.
  - vm_compute; reflexivity.
  - apply (bool_decide_unpack _). vm_compute. exact I.
  - discriminate.
  - reflexivity.
  - rewrite stable_softmax_length. reflexivity.
Defined.
(** ** Regret matching *)

Lemma vsum_nonpos_zero (l : list R) :
  Forall (fun r => r <= 0) l -> vsum (List.map (fun r => Rmax r 0) l) = 0.
Proof.
  induction 1 as [|x l Hx _ IH]; cbn; [reflexivity|].
  unfold vsum in IH. rewrite IH, Rmax_right by exact Hx. ring.
Qed.

Lemma positive_regret_nonneg (l : list R) :
  Forall (Rle 0) (List.map (fun r => Rmax r 0) l).
Proof.
  induction l as [|x l IH]; cbn; constructor; [apply Rmax_r|exact IH].
Qed.

Lemma positive_regret_Exists (l : list R) :
  Exists (Rlt 0) l -> Exists (Rlt 0) (List.map (fun r => Rmax r 0) l).
Proof.
  induction 1 as [x l Hx|x l _ IH]; cbn.
  - apply Exists_cons_hd. rewrite Rmax_left; lra.
  - apply Exists_cons_tl. exact IH.
Qed.

Lemma lookup_List_map {A B} (f : A -> B) (l : list A) (i : nat) :
  List.map f l !! i = f <$> l !! i.
Proof.
  revert i. induction l as [|x l IH]; intros [|i]; cbn; try reflexivity. apply IH.
Qed.

Lemma Forall_div_nonneg (l : list R) (s : R) :
  0 < s -> Forall (Rle 0) l -> Forall (Rle 0) (List.map (fun r => r / s) l).
Proof.
  intros Hs. induction 1 as [|x l Hx _ IH]; cbn; constructor; [|exact IH].
  apply Rmult_le_pos; [exact Hx|]. left. apply Rinv_0_lt_compat. exact Hs.
Qed.

Lemma uniform_distribution (d : InfoSetData) :
  (0 < isd_num_actions d)%Z ->
  length (InfoSetData.uniform d) = Z.to_nat (isd_num_actions d)
  /\ Forall (Rle 0) (InfoSetData.uniform d)
  /\ vsum (InfoSetData.uniform d) = 1.
Proof.
  intros Hn. unfold InfoSetData.uniform.
  assert (Hr : 0 < IZR (isd_num_actions d)) by (apply IZR_lt; exact Hn).
  split; [apply repeat_length|]. split.
  - apply Forall_forall. intros x Hx. apply list_elem_of_In, repeat_spec in Hx.
    subst x. left. apply Rdiv_lt_0_compat; lra.
  - rewrite vsum_repeat, INR_IZR_INZ, Z2Nat.id by lia. field. lra.
Qed.

(** X29: regret matching returns a probability distribution. For an
    accumulator of [num_actions > 0] regrets, [regret_matching_strategy]
    has [num_actions] entries, none negative, that sum to one; it is the
    uniform distribution when no regret is positive, and otherwise gives
    probability zero to every action whose regret is not positive. *)
Theorem regret_matching_strategy_is_distribution (d : InfoSetData) :
  (0 < isd_num_actions d)%Z ->
  length (cumulative_regret d) = Z.to_nat (isd_num_actions d) ->
  length (InfoSetData.regret_matching_strategy d) = Z.to_nat (isd_num_actions d)
  /\ Forall (Rle 0) (InfoSetData.regret_matching_strategy d)
  /\ vsum (InfoSetData.regret_matching_strategy d) = 1
  /\ (Forall (fun r => r <= 0) (cumulative_regret d) ->
      InfoSetData.regret_matching_strategy d
      = repeat (1 / IZR (isd_num_actions d)) (Z.to_nat (isd_num_actions d)))
  /\ (Exists (Rlt 0) (cumulative_regret d) ->
      forall a r, cumulative_regret d !! a = Some r -> r <= 0 ->
                  InfoSetData.regret_matching_strategy d !! a = Some 0).
Proof.
  intros Hn Hlen.
  destruct (uniform_distribution d Hn) as (Hul & Hunn & Hus).
  pose proof (positive_regret_nonneg (cumulative_regret d)) as Hnn.
  unfold InfoSetData.regret_matching_strategy. cbv zeta.
  destruct (Rgt_dec (vsum (List.map (fun r => Rmax r 0) (cumulative_regret d))) 0)
    as [Hpos|Hnpos].
  - split; [rewrite !length_map; exact Hlen|]. split.
    { apply Forall_div_nonneg; [lra|exact Hnn]. }
    split; [rewrite vsum_map_div; field; lra|]. split.
    + intros Hall. rewrite (vsum_nonpos_zero _ Hall) in Hpos. lra.
    + intros _ a r Ha Hr. rewrite !lookup_List_map, Ha. cbn.
      rewrite Rmax_right by exact Hr. f_equal. unfold Rdiv. ring.
  - split; [exact Hul|]. split; [exact Hunn|]. split; [exact Hus|]. split.
    + intros _. reflexivity.
    + intros Hex. exfalso. apply Hnpos.
      apply vsum_pos_Exists; [exact Hnn|]. apply positive_regret_Exists. exact Hex.
Qed.

Lemma regret_matching_strategy_is_distribution_witness :
  length (InfoSetData.regret_matching_strategy (mkInfoSetData [3; -1; 1] [0; 0; 0] 3))
  = Z.to_nat 3
  /\ Forall (Rle 0)
       (InfoSetData.regret_matching_strategy (mkInfoSetData [3; -1; 1] [0; 0; 0] 3))
  /\ vsum (InfoSetData.regret_matching_strategy (mkInfoSetData [3; -1; 1] [0; 0; 0] 3))
     = 1
  /\ (Forall (fun r => r <= 0) [3; -1; 1] ->
      InfoSetData.regret_matching_strategy (mkInfoSetData [3; -1; 1] [0; 0; 0] 3)
      = repeat (1 / IZR 3) (Z.to_nat 3))
  /\ (Exists (Rlt 0) [3; -1; 1] ->
      forall a r, [3; -1; 1] !! a = Some r -> r <= 0 ->
                  InfoSetData.regret_matching_strategy
                    (mkInfoSetData [3; -1; 1] [0; 0; 0] 3) !! a = Some 0).
Proof.
  apply (regret_matching_strategy_is_distribution
           (mkInfoSetData [3; -1; 1] [0; 0; 0] 3)).
  - cbn. lia.
  - reflexivity.
Defined.

(** ** Hand values *)

Lemma lor_disjoint_add (v x m : Z) :
  (0 <= m)%Z -> (v mod 2 ^ m = 0)%Z -> (0 <= x < 2 ^ m)%Z ->
  Z.lor v x = (v + x)%Z.
Proof.
  intros Hm Hv Hx.
  assert (Hland : Z.land v x = 0%Z).
  { apply Z.bits_inj'. intros n Hn. rewrite Z.land_spec, Z.bits_0.
    destruct (Z.lt_ge_cases n m) as [Hlt|Hge].
    - apply Z.mod_divide in Hv; [|lia]. destruct Hv as [q ->].
      rewrite Z.mul_pow2_bits_low by lia. reflexivity.
    - rewrite <- (Z.mod_small x (2 ^ m)) by lia.
      rewrite Z.mod_pow2_bits_high by lia. apply andb_false_r. }
  rewrite <- Z.lxor_lor by exact Hland. symmetry. apply Z.add_nocarry_lxor.
  exact Hland.
Qed.

Lemma land_15_mod (k : Z) : Z.land k 15 = (k mod 16)%Z.
Proof. change 15%Z with (Z.ones 4). rewrite Z.land_ones by lia. reflexivity. Qed.

Lemma HandRank_to_Z_range (r : HandRank) : (0 <= HandRank_to_Z r <= 8)%Z.
Proof. destruct r; cbn; lia. Qed.

Lemma HandRank_of_to_Z (r : HandRank) : HandRank_of_Z (HandRank_to_Z r) = Some r.
Proof. destruct r; reflexivity. Qed.

Lemma pack_kicker (v k s : Z) :
  (0 <= s)%Z -> (0 <= v)%Z -> (v mod 2 ^ (s + 4) = 0)%Z ->
  (16 * 2 ^ s <= 2 ^ 32)%Z ->
  Z.lor v (uint32 (Z.shiftl (Z.land k 15) s)) = (v + (k mod 16) * 2 ^ s)%Z.
Proof.
  intros Hs Hv Hmod Hfit.
  pose proof (Z.mod_pos_bound k 16 ltac:(lia)) as Hk.
  assert (Hp : (0 < 2 ^ s)%Z) by (apply Z.pow_pos_nonneg; lia).
  rewrite land_15_mod, Z.shiftl_mul_pow2 by lia. unfold uint32.
  rewrite Z.mod_small by nia.
  apply (lor_disjoint_add _ _ (s + 4)); [lia|exact Hmod|].
  rewrite Z.pow_add_r by lia. change (2 ^ 4)%Z with 16%Z. nia.
Qed.

(** The layout of a hand value: the category above bit 20, then five
    four-bit kickers. *)
Lemma make_value_layout (r : HandRank) (k1 k2 k3 k4 k5 : Z) :
  value (HandEvaluator.make_value r k1 k2 k3 k4 k5)
  = (HandRank_to_Z r * 1048576 + (k1 mod 16) * 65536 + (k2 mod 16) * 4096
     + (k3 mod 16) * 256 + (k4 mod 16) * 16 + k5 mod 16)%Z.
Proof.
  unfold HandEvaluator.make_value. cbv zeta. cbn [value].
  pose proof (HandRank_to_Z_range r) as Hr.
  pose proof (Z.mod_pos_bound k1 16 ltac:(lia)) as H1.
  pose proof (Z.mod_pos_bound k2 16 ltac:(lia)) as H2.
  pose proof (Z.mod_pos_bound k3 16 ltac:(lia)) as H3.
  pose proof (Z.mod_pos_bound k4 16 ltac:(lia)) as H4.
  pose proof (Z.mod_pos_bound k5 16 ltac:(lia)) as H5.
  assert (H0 : uint32 (Z.shiftl (uint32 (HandRank_to_Z r)) 20)
               = (HandRank_to_Z r * 1048576)%Z).
  { unfold uint32. rewrite (Z.mod_small (HandRank_to_Z r)) by lia.
    rewrite Z.shiftl_mul_pow2 by lia. change (2 ^ 20)%Z with 1048576%Z.
    apply Z.mod_small. lia. }
  rewrite H0.
  rewrite <- (Z.shiftl_0_r (Z.land k5 15)).
  rewrite (pack_kicker _ k1 16); [|lia|lia| |cbn; lia].
  2:{ apply Z.mod_divide; [cbn; lia|]. exists (HandRank_to_Z r). cbn. lia. }
  rewrite (pack_kicker _ k2 12); [|lia|cbn; lia| |cbn; lia].
  2:{ apply Z.mod_divide; [cbn; lia|].
      exists (HandRank_to_Z r * 16 + k1 mod 16)%Z. cbn. lia. }
  rewrite (pack_kicker _ k3 8); [|lia|cbn; lia| |cbn; lia].
  2:{ apply Z.mod_divide; [cbn; lia|].
      exists (HandRank_to_Z r * 256 + (k1 mod 16) * 16 + k2 mod 16)%Z. cbn. lia. }
  rewrite (pack_kicker _ k4 4); [|lia|cbn; lia| |cbn; lia].
  2:{ apply Z.mod_divide; [cbn; lia|].
      exists (HandRank_to_Z r * 4096 + (k1 mod 16) * 256 + (k2 mod 16) * 16
              + k3 mod 16)%Z. cbn. lia. }
  rewrite (pack_kicker _ k5 0); [|lia|cbn; lia| |cbn; lia].
  2:{ apply Z.mod_divide; [cbn; lia|].
      exists (HandRank_to_Z r * 65536 + (k1 mod 16) * 4096 + (k2 mod 16) * 256
              + (k3 mod 16) * 16 + k4 mod 16)%Z. cbn. lia. }
  cbn. lia.
Qed.

(** X30: hand values order hands by category, then by kickers. The value
    built by [make_value] carries its category ([rank] gives it back), and
    comparing two such values compares the categories first and then the
    kickers, each taken modulo 16, from the first to the last. *)
Theorem make_value_orders_by_rank_then_kickers
    (r r' : HandRank) (k1 k2 k3 k4 k5 k1' k2' k3' k4' k5' : Z) :
  HandValue.rank (HandEvaluator.make_value r k1 k2 k3 k4 k5) = Some r
  /\ (HandValue.lt (HandEvaluator.make_value r k1 k2 k3 k4 k5)
                   (HandEvaluator.make_value r' k1' k2' k3' k4' k5') = true
      <-> lex_lt [HandRank_to_Z r; k1 mod 16; k2 mod 16; k3 mod 16; k4 mod 16;
                  k5 mod 16]%Z
                 [HandRank_to_Z r'; k1' mod 16; k2' mod 16; k3' mod 16; k4' mod 16;
                  k5' mod 16]%Z)
  /\ (HandValue.eq (HandEvaluator.make_value r k1 k2 k3 k4 k5)
                   (HandEvaluator.make_value r' k1' k2' k3' k4' k5') = true
      <-> r = r' /\ (k1 mod 16 = k1' mod 16 /\ k2 mod 16 = k2' mod 16
                     /\ k3 mod 16 = k3' mod 16 /\ k4 mod 16 = k4' mod 16
                     /\ k5 mod 16 = k5' mod 16)%Z).
Proof.
  pose proof (make_value_layout r k1 k2 k3 k4 k5) as Hv.
  pose proof (make_value_layout r' k1' k2' k3' k4' k5') as Hv'.
  pose proof (HandRank_to_Z_range r) as Hr.
  pose proof (HandRank_to_Z_range r') as Hr'.
  pose proof (Z.mod_pos_bound k1 16 ltac:(lia)) as H1.
  pose proof (Z.mod_pos_bound k2 16 ltac:(lia)) as H2.
  pose proof (Z.mod_pos_bound k3 16 ltac:(lia)) as H3.
  pose proof (Z.mod_pos_bound k4 16 ltac:(lia)) as H4.
  pose proof (Z.mod_pos_bound k5 16 ltac:(lia)) as H5.
  pose proof (Z.mod_pos_bound k1' 16 ltac:(lia)) as H1'.
  pose proof (Z.mod_pos_bound k2' 16 ltac:(lia)) as H2'.
  pose proof (Z.mod_pos_bound k3' 16 ltac:(lia)) as H3'.
  pose proof (Z.mod_pos_bound k4' 16 ltac:(lia)) as H4'.
  pose proof (Z.mod_pos_bound k5' 16 ltac:(lia)) as H5'.
  split; [|split].
  - unfold HandValue.rank. rewrite Hv, Z.shiftr_div_pow2 by lia.
    change (2 ^ 20)%Z with 1048576%Z.
    replace (_ / 1048576)%Z with (HandRank_to_Z r).
    + unfold uint8. rewrite Z.mod_small by (cbn; lia). apply HandRank_of_to_Z.
    + apply (Z.div_unique _ _ _
        ((k1 mod 16) * 65536 + (k2 mod 16) * 4096 + (k3 mod 16) * 256
         + (k4 mod 16) * 16 + k5 mod 16)%Z); lia.
  - unfold HandValue.lt. rewrite Z.ltb_lt, Hv, Hv'. cbn [lex_lt].
    generalize dependent (k1 mod 16)%Z. generalize dependent (k2 mod 16)%Z.
    generalize dependent (k3 mod 16)%Z. generalize dependent (k4 mod 16)%Z.
    generalize dependent (k5 mod 16)%Z. generalize dependent (k1' mod 16)%Z.
    generalize dependent (k2' mod 16)%Z. generalize dependent (k3' mod 16)%Z.
    generalize dependent (k4' mod 16)%Z. generalize dependent (k5' mod 16)%Z.
    intros. lia.
  - unfold HandValue.eq. rewrite Z.eqb_eq, Hv, Hv'.
    assert (Hinj : r = r' <-> HandRank_to_Z r = HandRank_to_Z r').
    { split; [congruence|]. destruct r, r'; cbn; congruence. }
    rewrite Hinj.
    generalize dependent (k1 mod 16)%Z. generalize dependent (k2 mod 16)%Z.
    generalize dependent (k3 mod 16)%Z. generalize dependent (k4 mod 16)%Z.
    generalize dependent (k5 mod 16)%Z. generalize dependent (k1' mod 16)%Z.
    generalize dependent (k2' mod 16)%Z. generalize dependent (k3' mod 16)%Z.
    generalize dependent (k4' mod 16)%Z. generalize dependent (k5' mod 16)%Z.
    intros. lia.
Qed.
